(** * atvjs: the Companion wire stack, embedded in Rocq

    A shallow embedding of the codecs (OPACK, TLV8), the AEAD nonce
    handling, the framed transport and the dispatch layer of the atvjs
    client, followed by the properties of them that are proved or refuted.

    Conventions of the embedding.
    - A [Buffer] / [Uint8Array] is a [list Z]; every element of a real buffer
      lies in [0, 256) ([is_bytes]).  Storing a number [v] into a buffer
      stores [to_u8 v].
    - A JavaScript [number] that holds an integer is a [Z].  Lengths and
      positions are at most the length of a buffer, far below 2^53, where
      the arithmetic of the code is exact.  The counters of the cipher and
      of the dispatcher are only ever changed by [++], which is
      [increment]: the float64 nearest to the sum, so that a counter that
      has come to 2^53 stays there.
    - An object is held by the list of its own properties; its prototype is
      [Object.prototype].  The decoder can replace the prototype of the
      object that it builds (a property named [__proto__] whose value is an
      object or [null]); the model then ends with the outcome
      [PrototypeReplaced] and says nothing about what the program goes on
      to do with that object.
    - A [Map] is an insertion-ordered association list ([JsMap]): iteration
      order is observable in the code (order of the records that [writeTlv]
      emits, order in which pending entries are rejected).
    - A loop that is not structurally recursive takes a fuel argument, and
      running out of fuel is a separate outcome ([None] or [OutOfFuel]).
      For the TLV8 codec the fuel given by the entry points is shown to be
      enough; the OPACK decoder has inputs on which its sentinel loop does
      not end, whatever the fuel ([unpack_sentinel_diverges]).

    The first part of the file holds the definitions, module by module as in
    the sources; the second part holds the lemmas and theorems. *)

From stdpp Require Import base numbers list strings pretty.
From Stdlib Require Import ZArith Lia.

Local Open Scope Z_scope.

Set Warnings "-register-all".

(** * Part I: the model *)

(** ** Buffers *)

Definition Buffer := list Z.

Abbreviation len b := (Z.of_nat (length b)).

Definition is_byte (b : Z) : Prop := 0 <= b < 256.
Definition is_bytes (b : Buffer) : Prop := Forall is_byte b.

(** ToUint8: what a buffer keeps of a number stored into it. *)
Definition to_u8 (v : Z) : Z := v mod 256.

(** [buf[i]]: [None] stands for [undefined] (index out of range). *)
Definition at_index {A} (b : list A) (i : Z) : option A :=
  if i <? 0 then None else b !! Z.to_nat i.

(** [buf.subarray(start, end)] for a non-negative [start]: both bounds are
    clamped to the length, and an end before the start gives the empty view. *)
Definition subarray (b : Buffer) (start end_ : Z) : Buffer :=
  take (Z.to_nat (end_ - start)) (drop (Z.to_nat start) b).

(** [buf.subarray(start)]. *)
Definition subarray_from (b : Buffer) (start : Z) : Buffer :=
  drop (Z.to_nat start) b.

(** [Buffer.alloc(n)]: [n] zero bytes. *)
Definition Buffer_alloc (n : Z) : Buffer := replicate (Z.to_nat n) 0.

(** [buf[i] = v] on a typed array: ignored when [i] is out of range. *)
Definition buf_set (b : Buffer) (i : Z) (v : Z) : Buffer :=
  if i <? 0 then b else <[Z.to_nat i := to_u8 v]> b.

(** [n] bytes of [v], least significant first ([writeUInt16LE],
    [writeUInt32LE], [writeUIntLE], [writeBigUInt64LE]). *)
Fixpoint le_bytes (n : nat) (v : Z) : Buffer :=
  match n with
  | O => []
  | S n' => Z.land v 255 :: le_bytes n' (Z.shiftr v 8)
  end.

(** The number that a little-endian byte string holds ([readUInt16LE], ...). *)
Fixpoint le_value (b : Buffer) : Z :=
  match b with
  | [] => 0
  | x :: b' => x + 256 * le_value b'
  end.

(** ** Numbers *)

(** The float64 nearest to the integer [m], the one with the even
    significand of two that are equally near: [m] itself up to 2^53 in
    absolute value, and beyond that what is left of [m] with 53 significant
    bits. *)
Definition round_f64 (m : Z) : Z :=
  let a := Z.abs m in
  if a <=? 2 ^ 53 then m
  else
    let e := Z.log2 a - 52 in
    let q := Z.shiftr a e in
    let r := a - Z.shiftl q e in
    let half := Z.shiftl 1 (e - 1) in
    let q := if (half <? r) || ((r =? half) && Z.odd q) then q + 1 else q in
    Z.sgn m * Z.shiftl q e.

(** [n++] on a number that holds the integer [n]: the value afterwards.
    Below 2^53 it is [n + 1]; 2^53 + 1 is no float64, and 2^53 stays
    2^53. *)
Definition increment (n : Z) : Z := round_f64 (n + 1).

(** ** Insertion-ordered maps (the JavaScript [Map]) *)

Module JsMap.
Section JsMap.
Context {K V : Type} `{EqDecision K}.

Definition t := list (K * V).

Fixpoint get (k : K) (m : t) : option V :=
  match m with
  | [] => None
  | (k', v) :: m' => if decide (k' = k) then Some v else get k m'
  end.

Definition has (k : K) (m : t) : bool :=
  match get k m with Some _ => true | None => false end.

(** [m.set(k, v)]: an existing key keeps its place, a new one goes last. *)
Fixpoint set (k : K) (v : V) (m : t) : t :=
  match m with
  | [] => [(k, v)]
  | (k', v') :: m' =>
      if decide (k' = k) then (k', v) :: m' else (k', v') :: set k v m'
  end.

Fixpoint delete (k : K) (m : t) : t :=
  match m with
  | [] => []
  | (k', v') :: m' =>
      if decide (k' = k) then m' else (k', v') :: delete k m'
  end.

Definition clear (m : t) : t := [].

Definition keys (m : t) : list K := m.*1.
Definition values (m : t) : list V := m.*2.

End JsMap.
Global Arguments t : clear implicits.
End JsMap.

(** ** TLV8 ([readTlv], [writeTlv]) *)

Module Tlv.

(** [TlvData = Map<number, Buffer>]. *)
Definition TlvData := JsMap.t Z Buffer.

(** The body of the reader's loop after [value] has been cut out:
    [result.set(tag, concat [result.get(tag), value])] for a tag already
    present, [result.set(tag, value)] for a new one. *)
Definition merge (result : TlvData) (tag : Z) (value : Buffer) : TlvData :=
  match JsMap.get tag result with
  | Some old => JsMap.set tag (old ++ value) result
  | None => JsMap.set tag value result
  end.

(** The [while (pos < data.length)] loop of [readTlv].  When the length byte
    is missing ([data[pos + 1]] is [undefined]) the arithmetic on it gives
    [NaN]: the slice is empty, [pos] becomes [NaN] and the loop ends. *)
Fixpoint readTlv_loop (fuel : nat) (data : Buffer) (pos : Z)
    (result : TlvData) : option TlvData :=
  if pos <? len data then
    match fuel with
    | O => None
    | S fuel' =>
        match at_index data pos with
        | None => Some result (* not reached: [pos] is in range *)
        | Some tag =>
            match at_index data (pos + 1) with
            | Some length =>
                let value := subarray data (pos + 2) (pos + 2 + length) in
                readTlv_loop fuel' data (pos + 2 + length)
                  (merge result tag value)
            | None => Some (merge result tag [])
            end
        end
    end
  else Some result.

Definition readTlv (data : Buffer) : option TlvData :=
  readTlv_loop (length data) data 0 [].

(** The inner [while] of [writeTlv] for one entry; [parts] is the array being
    filled. *)
Fixpoint writeTlv_while (fuel : nat) (tag value : Buffer) (pos remaining : Z)
    (parts : list Buffer) : option (list Buffer) :=
  if (pos <? len value) || (remaining =? 0) then
    match fuel with
    | O => None
    | S fuel' =>
        let size := Z.min remaining 255 in
        let parts := parts ++ [tag] in
        let parts := parts ++ [[to_u8 size]] in
        let parts :=
          if 0 <? size then parts ++ [subarray value pos (pos + size)]
          else parts in
        let pos := pos + size in
        let remaining := remaining - size in
        if (remaining =? 0) && (len value <=? pos) then Some parts
        else writeTlv_while fuel' tag value pos remaining parts
    end
  else Some parts.

(** The [for (const [key, value] of entries)] loop. *)
Fixpoint writeTlv_entries (entries : list (Z * Buffer)) (parts : list Buffer)
    : option (list Buffer) :=
  match entries with
  | [] => Some parts
  | (key, value) :: entries' =>
      let tag := [to_u8 key] in
      match writeTlv_while (S (length value)) tag value 0 (len value) parts with
      | Some parts' => writeTlv_entries entries' parts'
      | None => None
      end
  end.

(** [writeTlv]: the argument is the entry list of the map. *)
Definition writeTlv (data : TlvData) : option Buffer :=
  match writeTlv_entries data [] with
  | Some parts => Some (concat parts)
  | None => None
  end.

(** *** The record format in the words of the specification

    A record is [(tag, length, value)]; a value longer than 255 bytes is
    split into consecutive records of at most 255 bytes with the same tag. *)

Definition encode_record (r : Z * Buffer) : Buffer :=
  r.1 :: len r.2 :: r.2.

Definition encode_records (rs : list (Z * Buffer)) : Buffer :=
  concat (map encode_record rs).

Fixpoint fragments_aux (n : nat) (v : Buffer) : list Buffer :=
  match n with
  | O => [v]
  | S n' =>
      if (length v <=? 255)%nat then [v]
      else take 255 v :: fragments_aux n' (drop 255 v)
  end.

Definition fragments (v : Buffer) : list Buffer :=
  fragments_aux (length v) v.

(** The records that the specification prescribes for a map. *)
Definition records_of (m : TlvData) : list (Z * Buffer) :=
  flat_map (fun kv => map (pair (to_u8 kv.1)) (fragments kv.2)) m.

(** A record whose declared length exceeds what is left of the input:
    [data = pre ++ tag :: length :: rest], where [pre] is a sequence of
    complete records and [rest] is shorter than [length]. *)
Definition truncated_at (data : Buffer) (pre : list (Z * Buffer))
    (tag length : Z) (rest : Buffer) : Prop :=
  data = encode_records pre ++ tag :: length :: rest /\ len rest < length.

End Tlv.

(** ** Exceptions *)

(** A thrown JavaScript exception: the constructor of the error object and
    its message. *)
Inductive JsError : Type :=
  | Error_ (msg : string)
  | TypeError (msg : string)
  | RangeError (msg : string).

(** The outcome of a call that may throw. *)
Inductive outcome (A : Type) : Type :=
  | Returns (a : A)
  | Throws (e : JsError).
Global Arguments Returns {A} a.
Global Arguments Throws {A} e.

(** Strings are held by their UTF-8 image, which is what a Rocq [string]
    literal holds.  [Buffer.from(s, 'utf-8')]: *)
Definition string_bytes (s : string) : Buffer :=
  map (fun a => Z.of_N (Ascii.N_of_ascii a)) (String.list_ascii_of_string s).

(** [buf.toString('utf-8')], exact on well-formed UTF-8 (JavaScript replaces
    a malformed sequence by U+FFFD). *)
Definition bytes_string (b : Buffer) : string :=
  String.string_of_list_ascii (map (fun x => Ascii.ascii_of_N (Z.to_N x)) b).

(** ** ChaCha20-Poly1305 with counter nonces ([Chacha20Cipher]) *)

Module Chacha.

Definition NONCE_LENGTH : Z := 12.
Definition AUTH_TAG_LENGTH : Z := 16.

(** The AEAD of [@noble/ciphers] is outside the repository:
    [chacha20poly1305(key, nonce, aad).encrypt(data)] and [.decrypt(data)]
    are taken as an interface.  [aad] is [None] when the argument is
    [undefined]; either call may throw (bad key or nonce length, failed
    tag check). *)
Class AEAD := {
  aead_encrypt : Buffer -> Buffer -> option Buffer -> Buffer -> outcome Buffer;
  aead_decrypt : Buffer -> Buffer -> option Buffer -> Buffer -> outcome Buffer
}.

Record Chacha20Cipher := {
  outKey : Buffer;
  inKey : Buffer;
  outCounter : Z;
  inCounter : Z;
  nonceLength : Z
}.

(** [new Chacha20Cipher(outKey, inKey, nonceLength = 12)]. *)
Definition new (outKey inKey : Buffer) (nonceLength : Z) : Chacha20Cipher :=
  {| outKey := outKey; inKey := inKey; outCounter := 0; inCounter := 0;
     nonceLength := nonceLength |}.

(** [new Chacha20Cipher8byteNonce(outKey, inKey)]. *)
Definition new8byteNonce (outKey inKey : Buffer) : Chacha20Cipher :=
  new outKey inKey 8.

(** [source.copy(target, targetStart)] for [0 <= targetStart]: the bytes of
    [source] overwrite [target] from [targetStart] on, as far as [target]
    reaches. *)
Definition Buffer_copy (source target : Buffer) (targetStart : Z) : Buffer :=
  let start := Z.to_nat targetStart in
  take start target
  ++ take (length target - start) source
  ++ drop (start + length source) target.

Definition padNonce (nonce : Buffer) : Buffer :=
  if NONCE_LENGTH <=? len nonce then nonce
  else
    let padded := Buffer_alloc NONCE_LENGTH in
    Buffer_copy nonce padded (NONCE_LENGTH - len nonce).

(** The loop of [writeLECounter], [n] turns from index [i] on. *)
Fixpoint writeLECounter_loop (n : nat) (buf : Buffer) (c : Z) (i : Z)
    : Buffer :=
  match n with
  | O => buf
  | S n' =>
      writeLECounter_loop n' (buf_set buf i (Z.land c 255)) (Z.shiftr c 8)
        (i + 1)
  end.

(** [for (let i = 0; i < length && i < 8; i++)]: [min(length, 8)] turns. *)
Definition writeLECounter (buf : Buffer) (counter length : Z) : Buffer :=
  writeLECounter_loop (Z.to_nat (Z.min length 8)) buf counter 0.

Definition getOutNonce (c : Chacha20Cipher) : Buffer :=
  let nonce := Buffer_alloc (nonceLength c) in
  let nonce := writeLECounter nonce (outCounter c) (nonceLength c) in
  if nonceLength c =? NONCE_LENGTH then nonce else padNonce nonce.

Definition getInNonce (c : Chacha20Cipher) : Buffer :=
  let nonce := Buffer_alloc (nonceLength c) in
  let nonce := writeLECounter nonce (inCounter c) (nonceLength c) in
  if nonceLength c =? NONCE_LENGTH then nonce else padNonce nonce.

Definition set_outCounter (c : Chacha20Cipher) (n : Z) : Chacha20Cipher :=
  {| outKey := outKey c; inKey := inKey c; outCounter := n;
     inCounter := inCounter c; nonceLength := nonceLength c |}.

Definition set_inCounter (c : Chacha20Cipher) (n : Z) : Chacha20Cipher :=
  {| outKey := outKey c; inKey := inKey c; outCounter := outCounter c;
     inCounter := n; nonceLength := nonceLength c |}.

Section WithAEAD.
Context `{AEAD}.

(** The nonce that [encrypt] hands to the AEAD, and the cipher after the
    choice of the nonce. *)
Definition encrypt_nonce (c : Chacha20Cipher) (nonce : option Buffer)
    : Buffer * Chacha20Cipher :=
  match nonce with
  | None => (getOutNonce c, set_outCounter c (increment (outCounter c)))
  | Some nonce =>
      (if len nonce <? NONCE_LENGTH then padNonce nonce else nonce, c)
  end.

Definition decrypt_nonce (c : Chacha20Cipher) (nonce : option Buffer)
    : Buffer * Chacha20Cipher :=
  match nonce with
  | None => (getInNonce c, set_inCounter c (increment (inCounter c)))
  | Some nonce =>
      (if len nonce <? NONCE_LENGTH then padNonce nonce else nonce, c)
  end.

(** The nonces of [k] calls of [encrypt] without a nonce, one after the
    other. *)
Fixpoint encrypt_nonces (k : nat) (c : Chacha20Cipher) : list Buffer :=
  match k with
  | O => []
  | S k' =>
      let '(nonce, c') := encrypt_nonce c None in
      nonce :: encrypt_nonces k' c'
  end.

(** [encrypt(data, nonce?, aad?)]: the result and the cipher afterwards. *)
Definition encrypt (c : Chacha20Cipher) (data : Buffer)
    (nonce aad : option Buffer) : outcome Buffer * Chacha20Cipher :=
  let '(useNonce, c') := encrypt_nonce c nonce in
  (aead_encrypt (outKey c') useNonce aad data, c').

Definition decrypt (c : Chacha20Cipher) (data : Buffer)
    (nonce aad : option Buffer) : outcome Buffer * Chacha20Cipher :=
  let '(useNonce, c') := decrypt_nonce c nonce in
  (aead_decrypt (inKey c') useNonce aad data, c').

End WithAEAD.

(** A stand-in for the AEAD, to run the model on concrete inputs: the
    "ciphertext" is the plaintext followed by a tag of sixteen zero bytes. *)
Definition sample_aead : AEAD := {|
  aead_encrypt := fun _ _ _ data => Returns (data ++ replicate 16 0);
  aead_decrypt := fun _ _ _ data =>
    if len data <? 16 then Throws (Error_ "invalid tag")
    else Returns (take (length data - 16) data)
|}.

End Chacha.

(** ** The framed transport ([CompanionConnection]) *)

Module FrameType.
Definition Unknown : Z := 0.
Definition NoOp : Z := 1.
Definition PS_Start : Z := 3.
Definition PS_Next : Z := 4.
Definition PV_Start : Z := 5.
Definition PV_Next : Z := 6.
Definition U_OPACK : Z := 7.
Definition E_OPACK : Z := 8.
Definition P_OPACK : Z := 9.
Definition PA_Req : Z := 10.
Definition PA_Rsp : Z := 11.
Definition SessionStartRequest : Z := 16.
Definition SessionStartResponse : Z := 17.
Definition SessionData : Z := 18.
Definition FamilyIdentityRequest : Z := 32.
Definition FamilyIdentityResponse : Z := 33.
Definition FamilyIdentityUpdate : Z := 34.
End FrameType.

Module Connection.
Import Chacha.

Definition HEADER_LENGTH : Z := 4.

(** The socket, as far as the sender sees it: the chunks handed to
    [socket.write], oldest first.  One call of [write] is one chunk. *)
Record Socket := { written : list Buffer }.

Record CompanionConnection := {
  socket : option Socket;
  buffer : Buffer;
  chacha : option Chacha20Cipher;
  connected : bool
}.

Definition set_socket (c : CompanionConnection) (s : option Socket)
    : CompanionConnection :=
  {| socket := s; buffer := buffer c; chacha := chacha c;
     connected := connected c |}.

Definition set_chacha (c : CompanionConnection) (ch : option Chacha20Cipher)
    : CompanionConnection :=
  {| socket := socket c; buffer := buffer c; chacha := ch;
     connected := connected c |}.

Definition socket_write (s : Socket) (chunk : Buffer) : Socket :=
  {| written := written s ++ [chunk] |}.

(** The four header bytes that [send] fills in. *)
Definition make_header (frameType payloadLength : Z) : Buffer :=
  let header := Buffer_alloc HEADER_LENGTH in
  let header := buf_set header 0 frameType in
  let header := buf_set header 1 (Z.land (Z.shiftr payloadLength 16) 255) in
  let header := buf_set header 2 (Z.land (Z.shiftr payloadLength 8) 255) in
  let header := buf_set header 3 (Z.land payloadLength 255) in
  header.

Section WithAEAD.
Context `{AEAD}.

(** [send(frameType, data)]: what the call returns or throws, and the
    connection afterwards.  On the non-negative lengths that occur,
    [(n >> k) & 0xff] on 32-bit operands is [Z.land (Z.shiftr n k) 255]. *)
Definition send (c : CompanionConnection) (frameType : Z) (data : Buffer)
    : outcome unit * CompanionConnection :=
  match socket c with
  | None => (Throws (Error_ "Not connected"), c)
  | Some sock =>
      if negb (connected c) then (Throws (Error_ "Not connected"), c)
      else
        let payloadLength := len data in
        let payloadLength :=
          match chacha c with
          | Some _ =>
              if 0 <? payloadLength then payloadLength + AUTH_TAG_LENGTH
              else payloadLength
          | None => payloadLength
          end in
        let header := make_header frameType payloadLength in
        match chacha c with
        | Some ch =>
            if 0 <? len data then
              match encrypt ch data None (Some header) with
              | (Returns payload, ch') =>
                  (Returns tt,
                   set_socket (set_chacha c (Some ch'))
                     (Some (socket_write sock (header ++ payload))))
              | (Throws e, ch') => (Throws e, set_chacha c (Some ch'))
              end
            else
              (Returns tt, set_socket c (Some (socket_write sock (header ++ data))))
        | None =>
            (Returns tt, set_socket c (Some (socket_write sock (header ++ data))))
        end
  end.

End WithAEAD.

(** [enableEncryption(outputKey, inputKey)]. *)
Definition enableEncryption (c : CompanionConnection)
    (outputKey inputKey : Buffer) : CompanionConnection :=
  set_chacha c (Some (Chacha.new outputKey inputKey 12)).

(** [close()]. *)
Definition close (c : CompanionConnection) : CompanionConnection :=
  {| socket := None; buffer := buffer c; chacha := chacha c;
     connected := false |}.

(** The value of three bytes read as a big-endian number. *)
Definition be24 (b1 b2 b3 : Z) : Z := b1 * 65536 + b2 * 256 + b3.

(** A connected connection with nothing written yet. *)
Definition fresh (ch : option Chacha20Cipher) : CompanionConnection :=
  {| socket := Some {| written := [] |}; buffer := []; chacha := ch;
     connected := true |}.

End Connection.

(** ** OPACK ([pack], [unpack]) *)

Module Opack.

(** IEEE-754 arithmetic is outside the embedding.  A number that is not an
    integer is held by the eight bytes of its float64 image, and what the
    code needs to know about such images is taken as an interface. *)
Class Float := {
  (** the integer that the float64 with this image is, if it is one *)
  f64_integer : Buffer -> option Z;
  (** the float64 image of the float32 with this image ([readFloatLE]) *)
  f32_to_f64 : Buffer -> Buffer;
  (** SameValueZero on two float64 images *)
  f64_same : Buffer -> Buffer -> bool;
  (** [String(x)] for the float64 with this image *)
  f64_to_string : Buffer -> string;
  (** is the float64 with this image NaN *)
  f64_is_nan : Buffer -> bool;
  (** [Number(n)] for a 64-bit unsigned [n]: the nearest float64, an integer *)
  u64_to_number : Z -> Z
}.

(** The values that [pack] takes and [unpack] gives.  An object is the list
    of its own properties in the order of [Object.entries]; its prototype
    is [Object.prototype]. *)
Inductive value : Type :=
  | VUndefined
  | VNull
  | VBool (b : bool)
  | VInt (n : Z)                       (* a number that is an integer *)
  | VDouble (image : Buffer)           (* a number that is not an integer *)
  | VOpackFloat (image : Buffer)       (* an [OpackFloat] wrapper *)
  | VString (s : string)
  | VBytes (data : Buffer)             (* a [Buffer] or [Uint8Array] *)
  | VArray (items : list value)
  | VObject (entries : list (string * value)).

(** *** Encoder *)

Definition packInteger (data : Z) : outcome Buffer :=
  if (0 <=? data) && (data <? 0x28) then Returns [to_u8 (data + 8)]
  else if (0 <=? data) && (data <=? 0xff) then Returns [0x30; to_u8 data]
  else if (0 <=? data) && (data <=? 0xffff) then
    Returns (0x31 :: le_bytes 2 data)
  else if (0 <=? data) && (data <=? 0xffffffff) then
    Returns (0x32 :: le_bytes 4 data)
  else if (0 <=? data) && (data <? 2 ^ 64) then
    Returns (0x33 :: le_bytes 8 data)
  else Throws (RangeError "value is out of range").

Definition packString (data : string) : Buffer :=
  let encoded := string_bytes data in
  if len encoded <=? 0x20 then [to_u8 (0x40 + len encoded)] ++ encoded
  else if len encoded <=? 0xff then [0x61; to_u8 (len encoded)] ++ encoded
  else if len encoded <=? 0xffff then
    (0x62 :: le_bytes 2 (len encoded)) ++ encoded
  else if len encoded <=? 0xffffff then
    (0x63 :: le_bytes 3 (len encoded)) ++ encoded
  else (0x64 :: le_bytes 4 (len encoded)) ++ encoded.

Definition packBytes (data : Buffer) : Buffer :=
  if len data <=? 0x20 then [to_u8 (0x70 + len data)] ++ data
  else if len data <=? 0xff then [0x91; to_u8 (len data)] ++ data
  else if len data <=? 0xffff then (0x92 :: le_bytes 2 (len data)) ++ data
  else if len data <=? 0xffffffff then
    (0x93 :: le_bytes 4 (len data)) ++ data
  else (0x94 :: le_bytes 8 (len data)) ++ data.

(** The index of the first element of [list] equal to [item], or [-1]. *)
Fixpoint findInObjectList_from (i : Z) (list : list Buffer) (item : Buffer)
    : Z :=
  match list with
  | [] => -1
  | x :: list' =>
      if bool_decide (x = item) then i
      else findInObjectList_from (i + 1) list' item
  end.

Definition findInObjectList (list : list Buffer) (item : Buffer) : Z :=
  findInObjectList_from 0 list item.

(** The "object deduplication" at the end of [_pack]: the bytes that the
    call returns and the object list afterwards. *)
Definition deduplicate (packed : Buffer) (objectList : list Buffer)
    : Buffer * list Buffer :=
  let idx := findInObjectList objectList packed in
  if 0 <=? idx then
    if idx <? 0x21 then ([to_u8 (0xa0 + idx)], objectList)
    else if idx <=? 0xff then ([0xc1; to_u8 idx], objectList)
    else if idx <=? 0xffff then (0xc2 :: le_bytes 2 idx, objectList)
    else (packed, objectList)
  else if 1 <? len packed then (packed, objectList ++ [packed])
  else (packed, objectList).

(** [_pack(key, objectList)] for a property name, which is a string. *)
Definition _pack_key (key : string) (objectList : list Buffer)
    : Buffer * list Buffer :=
  deduplicate (packString key) objectList.

Fixpoint _pack (data : value) (objectList : list Buffer)
    : outcome (Buffer * list Buffer) :=
  match data with
  | VNull | VUndefined => Returns (deduplicate [0x04] objectList)
  | VBool b => Returns (deduplicate [if b then 0x01 else 0x02] objectList)
  | VOpackFloat image => Returns (deduplicate (0x36 :: image) objectList)
  | VInt n =>
      match packInteger n with
      | Returns packed => Returns (deduplicate packed objectList)
      | Throws e => Throws e
      end
  | VDouble image => Returns (deduplicate (0x36 :: image) objectList)
  | VString s => Returns (deduplicate (packString s) objectList)
  | VBytes b => Returns (deduplicate (packBytes b) objectList)
  | VArray items =>
      let fix pack_items (items : list value) (parts : list Buffer)
          (objectList : list Buffer) : outcome (list Buffer * list Buffer) :=
        match items with
        | [] => Returns (parts, objectList)
        | item :: items' =>
            match _pack item objectList with
            | Returns (p, objectList') =>
                pack_items items' (parts ++ [p]) objectList'
            | Throws e => Throws e
            end
        end in
      match pack_items items [[0xd0 + Z.min (len items) 0xf]] objectList with
      | Returns (parts, objectList') =>
          let parts :=
            if 0xf <=? len items then parts ++ [[0x03]] else parts in
          Returns (deduplicate (concat parts) objectList')
      | Throws e => Throws e
      end
  | VObject entries =>
      let fix pack_entries (entries : list (string * value))
          (parts : list Buffer) (objectList : list Buffer)
          : outcome (list Buffer * list Buffer) :=
        match entries with
        | [] => Returns (parts, objectList)
        | (key, value) :: entries' =>
            let '(k, objectList1) := _pack_key key objectList in
            match _pack value objectList1 with
            | Returns (v, objectList2) =>
                pack_entries entries' ((parts ++ [k]) ++ [v]) objectList2
            | Throws e => Throws e
            end
        end in
      match pack_entries entries [[0xe0 + Z.min (len entries) 0xf]] objectList
      with
      | Returns (parts, objectList') =>
          let parts :=
            if 0xf <=? len entries then parts ++ [[0x03]] else parts in
          Returns (deduplicate (concat parts) objectList')
      | Throws e => Throws e
      end
  end.

Definition pack (data : value) : outcome Buffer :=
  match _pack data [] with
  | Returns (packed, _) => Returns packed
  | Throws e => Throws e
  end.

(** *** Decoder *)

(** The outcome of a call that may also fail to return: [OutOfFuel] is what
    the model gives when the loops of the code do not come to an end within
    the fuel.  [PrototypeReplaced] is what it gives when the decoder has
    assigned an object or [null] to the name [__proto__] of the object that
    it builds: the setter of [Object.prototype] then replaces the prototype
    of that object, which is no longer a [value], and the model does not
    follow the program further. *)
Inductive run (A : Type) : Type :=
  | Done (a : A)
  | Raised (e : JsError)
  | OutOfFuel
  | PrototypeReplaced.
Global Arguments Done {A} a.
Global Arguments Raised {A} e.
Global Arguments OutOfFuel {A}.
Global Arguments PrototypeReplaced {A}.

Section WithFloat.
Context `{Float}.

(** [readUIntLE(buf, offset, numBytes)]; [None] is [undefined], which
    [buf[offset]] gives past the end, where the [read...LE] methods throw. *)
Definition readUIntLE (buf : Buffer) (offset numBytes : Z)
    : outcome (option Z) :=
  if numBytes =? 1 then Returns (at_index buf offset)
  else if numBytes =? 2 then
    if offset + 2 <=? len buf
    then Returns (Some (le_value (subarray buf offset (offset + 2))))
    else Throws (RangeError "out of range")
  else if numBytes =? 4 then
    if offset + 4 <=? len buf
    then Returns (Some (le_value (subarray buf offset (offset + 4))))
    else Throws (RangeError "out of range")
  else if numBytes =? 8 then
    if offset + 8 <=? len buf
    then Returns (Some (u64_to_number
                          (le_value (subarray buf offset (offset + 8)))))
    else Throws (RangeError "out of range")
  else Throws (Error_ "Unsupported integer size").

(** The number with a given float64 image. *)
Definition number_of_f64 (image : Buffer) : value :=
  match f64_integer image with
  | Some n => VInt n
  | None => VDouble image
  end.

(** SameValueZero of a freshly decoded value with an element of the object
    list: by value on primitives; a decoded [Buffer] is a new object and the
    same as no other. *)
Definition same_value_zero (a b : value) : bool :=
  match a, b with
  | VUndefined, VUndefined => true
  | VNull, VNull => true
  | VBool x, VBool y => bool_decide (x = y)
  | VInt x, VInt y => x =? y
  | VDouble x, VDouble y => f64_same x y
  | VString x, VString y => bool_decide (x = y)
  | _, _ => false
  end.

(** [objectList.includes(value)]. *)
Definition includes (objectList : list value) (v : value) : bool :=
  existsb (fun x => same_value_zero x v) objectList.

(** Has the object an own property of this name? *)
Fixpoint obj_has (key : string) (entries : list (string * value)) : bool :=
  match entries with
  | [] => false
  | (k, _) :: entries' => bool_decide (k = key) || obj_has key entries'
  end.

(** [String(v)].  For an object it is the result of the method [toString]
    that the object has; an own property of that name, which holds no
    function here, hides the method of [Object.prototype], and the
    conversion throws.  An array joins the strings of its items. *)
Fixpoint js_String (v : value) : outcome string :=
  match v with
  | VUndefined => Returns "undefined"
  | VNull => Returns "null"
  | VBool b => Returns (if b then "true" else "false")
  | VInt n => Returns (pretty n)
  | VDouble image => Returns (f64_to_string image)
  | VOpackFloat _ => Returns "[object Object]"
  | VString s => Returns s
  | VBytes b => Returns (bytes_string b)
  | VArray items =>
      let item (x : value) : outcome string :=
        match x with VNull | VUndefined => Returns "" | _ => js_String x end in
      let fix join (items : list value) : outcome string :=
        match items with
        | [] => Returns ""
        | [x] => item x
        | x :: items' =>
            match item x with
            | Returns s =>
                match join items' with
                | Returns s' => Returns (s +:+ "," +:+ s')
                | Throws e => Throws e
                end
            | Throws e => Throws e
            end
        end in
      join items
  | VObject entries =>
      if obj_has "toString" entries
      then Throws (TypeError "Cannot convert object to primitive value")
      else Returns "[object Object]"
  end.

(** The decimal value of a string of digits. *)
Fixpoint digits_value (acc : Z) (s : string) : option Z :=
  match s with
  | EmptyString => Some acc
  | String c s' =>
      let n := Z.of_N (Ascii.N_of_ascii c) in
      if (48 <=? n) && (n <=? 57) then digits_value (acc * 10 + (n - 48)) s'
      else None
  end.

(** Is the property name an array index (a canonical numeric string below
    2^32 - 1)?  Such names come first, in numeric order, in the property
    order of an object. *)
Definition array_index (s : string) : option Z :=
  match s with
  | EmptyString => None
  | String c s' =>
      if Z.of_N (Ascii.N_of_ascii c) =? 48 then
        if bool_decide (s' = EmptyString) then Some 0 else None
      else
        match digits_value 0 s with
        | Some n => if n <=? 4294967294 then Some n else None
        | None => None
        end
  end.

Fixpoint obj_replace (key : string) (v : value)
    (entries : list (string * value)) : list (string * value) :=
  match entries with
  | [] => []
  | (k, x) :: entries' =>
      if bool_decide (k = key) then (k, v) :: entries'
      else (k, x) :: obj_replace key v entries'
  end.

(** Where a new index property [n] goes: before the first property that is
    not an index or is a larger index. *)
Fixpoint obj_insert_index (n : Z) (key : string) (v : value)
    (entries : list (string * value)) : list (string * value) :=
  match entries with
  | [] => [(key, v)]
  | (k, x) :: entries' =>
      match array_index k with
      | Some m =>
          if m <? n then (k, x) :: obj_insert_index n key v entries'
          else (key, v) :: (k, x) :: entries'
      | None => (key, v) :: (k, x) :: entries'
      end
  end.

(** [obj[key] = v] on an object whose prototype is [Object.prototype].  An
    own property is replaced, and a new one is made for every other name
    but [__proto__]: that name is an accessor of [Object.prototype], the
    assignment runs its setter, and no property is made. *)
Definition obj_set (key : string) (v : value)
    (entries : list (string * value)) : list (string * value) :=
  if obj_has key entries then obj_replace key v entries
  else if bool_decide (key = "__proto__") then entries
  else
    match array_index key with
    | Some n => obj_insert_index n key v entries
    | None => entries ++ [(key, v)]
    end.

(** What the setter of [__proto__] takes for the new prototype: an object
    or [null]; with any other value it does nothing. *)
Definition prototype_value (v : value) : bool :=
  match v with
  | VNull | VOpackFloat _ | VBytes _ | VArray _ | VObject _ => true
  | _ => false
  end.

(** [obj[key]]: own properties only. *)
Fixpoint obj_get (key : string) (entries : list (string * value)) : value :=
  match entries with
  | [] => VUndefined
  | (k, x) :: entries' =>
      if bool_decide (k = key) then x else obj_get key entries'
  end.

(** [objectList[i]]; [i] is [None] when the index itself is [undefined]. *)
Definition objectList_at (objectList : list value) (i : option Z) : value :=
  match i with
  | Some i =>
      match at_index objectList i with Some v => v | None => VUndefined end
  | None => VUndefined
  end.

(** The end of [_unpack]. *)
Definition finish (addToObjectList : bool) (v : value) (remaining : Buffer)
    (objectList : list value) : run (value * Buffer * list value) :=
  Done (v, remaining,
        if addToObjectList && negb (includes objectList v)
        then objectList ++ [v] else objectList).

Definition unpacker : Type :=
  Buffer -> list value -> run (value * Buffer * list value).

(** [for (let i = 0; i < count; i++)] of the array case. *)
Fixpoint unpack_items (rec : unpacker) (count : nat) (ptr : Buffer)
    (objectList : list value) (output : list value)
    : run (list value * Buffer * list value) :=
  match count with
  | O => Done (output, ptr, objectList)
  | S count' =>
      match rec ptr objectList with
      | Done (v, rest, objectList') =>
          unpack_items rec count' rest objectList' (output ++ [v])
      | Raised e => Raised e
      | OutOfFuel => OutOfFuel
      | PrototypeReplaced => PrototypeReplaced
      end
  end.

(** [while (ptr[0] !== 0x03)] of the array case. *)
Fixpoint unpack_items_until (rec : unpacker) (fuel : nat) (ptr : Buffer)
    (objectList : list value) (output : list value)
    : run (list value * Buffer * list value) :=
  if bool_decide (at_index ptr 0 = Some 0x03)
  then Done (output, ptr, objectList)
  else
    match fuel with
    | O => OutOfFuel
    | S fuel' =>
        match rec ptr objectList with
        | Done (v, rest, objectList') =>
            unpack_items_until rec fuel' rest objectList' (output ++ [v])
        | Raised e => Raised e
        | OutOfFuel => OutOfFuel
        | PrototypeReplaced => PrototypeReplaced
        end
    end.

(** [output[String(k)] = v] on the object that the decoder builds, whose
    own properties are [output]. *)
Definition assign (k v : value) (output : list (string * value))
    : run (list (string * value)) :=
  match js_String k with
  | Returns key =>
      if bool_decide (key = "__proto__") && negb (obj_has key output)
         && prototype_value v
      then PrototypeReplaced
      else Done (obj_set key v output)
  | Throws e => Raised e
  end.

(** One turn of either loop of the map case. *)
Definition unpack_entry (rec : unpacker) (ptr : Buffer)
    (objectList : list value) (output : list (string * value))
    : run (list (string * value) * Buffer * list value) :=
  match rec ptr objectList with
  | Done (k, rest1, objectList1) =>
      match rec rest1 objectList1 with
      | Done (v, rest2, objectList2) =>
          match assign k v output with
          | Done output' => Done (output', rest2, objectList2)
          | Raised e => Raised e
          | OutOfFuel => OutOfFuel
          | PrototypeReplaced => PrototypeReplaced
          end
      | Raised e => Raised e
      | OutOfFuel => OutOfFuel
      | PrototypeReplaced => PrototypeReplaced
      end
  | Raised e => Raised e
  | OutOfFuel => OutOfFuel
  | PrototypeReplaced => PrototypeReplaced
  end.

Fixpoint unpack_entries (rec : unpacker) (count : nat) (ptr : Buffer)
    (objectList : list value) (output : list (string * value))
    : run (list (string * value) * Buffer * list value) :=
  match count with
  | O => Done (output, ptr, objectList)
  | S count' =>
      match unpack_entry rec ptr objectList output with
      | Done (output', rest, objectList') =>
          unpack_entries rec count' rest objectList' output'
      | Raised e => Raised e
      | OutOfFuel => OutOfFuel
      | PrototypeReplaced => PrototypeReplaced
      end
  end.

Fixpoint unpack_entries_until (rec : unpacker) (fuel : nat) (ptr : Buffer)
    (objectList : list value) (output : list (string * value))
    : run (list (string * value) * Buffer * list value) :=
  if bool_decide (at_index ptr 0 = Some 0x03)
  then Done (output, ptr, objectList)
  else
    match fuel with
    | O => OutOfFuel
    | S fuel' =>
        match unpack_entry rec ptr objectList output with
        | Done (output', rest, objectList') =>
            unpack_entries_until rec fuel' rest objectList' output'
        | Raised e => Raised e
        | OutOfFuel => OutOfFuel
        | PrototypeReplaced => PrototypeReplaced
        end
    end.

(** [_unpack(data, objectList)].  The fuel bounds the nesting depth and the
    number of turns of the sentinel loops. *)
Fixpoint _unpack (fuel : nat) (data : Buffer) (objectList : list value)
    : run (value * Buffer * list value) :=
  match fuel with
  | O => OutOfFuel
  | S fuel' =>
  match at_index data 0 with
  | None => Raised (TypeError "Unknown OPACK type")
  | Some byte0 =>
    if byte0 =? 0x01 then
      finish false (VBool true) (subarray_from data 1) objectList
    else if byte0 =? 0x02 then
      finish false (VBool false) (subarray_from data 1) objectList
    else if byte0 =? 0x04 then
      finish false VNull (subarray_from data 1) objectList
    else if byte0 =? 0x05 then
      finish true (VBytes (subarray data 1 17)) (subarray_from data 17)
        objectList
    else if byte0 =? 0x06 then
      if 9 <=? len data then
        finish true (VInt (u64_to_number (le_value (subarray data 1 9))))
          (subarray_from data 9) objectList
      else Raised (RangeError "out of range")
    else if (0x08 <=? byte0) && (byte0 <=? 0x2f) then
      finish false (VInt (byte0 - 8)) (subarray_from data 1) objectList
    else if byte0 =? 0x35 then
      if 5 <=? len data then
        finish true (number_of_f64 (f32_to_f64 (subarray data 1 5)))
          (subarray_from data 5) objectList
      else Raised (RangeError "out of range")
    else if byte0 =? 0x36 then
      if 9 <=? len data then
        finish true (number_of_f64 (subarray data 1 9))
          (subarray_from data 9) objectList
      else Raised (RangeError "out of range")
    else if Z.land byte0 0xf0 =? 0x30 then
      let numBytes := Z.shiftl 1 (Z.land byte0 0xf) in
      match readUIntLE data 1 numBytes with
      | Returns n =>
          finish true (match n with Some n => VInt n | None => VUndefined end)
            (subarray_from data (1 + numBytes)) objectList
      | Throws e => Raised e
      end
    else if (0x40 <=? byte0) && (byte0 <=? 0x60) then
      let length := byte0 - 0x40 in
      finish true (VString (bytes_string (subarray data 1 (1 + length))))
        (subarray_from data (1 + length)) objectList
    else if (0x60 <? byte0) && (byte0 <=? 0x64) then
      let numBytes := Z.land byte0 0xf in
      match readUIntLE data 1 numBytes with
      | Returns (Some length) =>
          finish true
            (VString (bytes_string
               (subarray data (1 + numBytes) (1 + numBytes + length))))
            (subarray_from data (1 + numBytes + length)) objectList
      | Returns None =>
          (* the length is [undefined]: the bounds are [NaN], the slice is
             empty and the rest is the whole of [data] *)
          finish true (VString "") data objectList
      | Throws e => Raised e
      end
    else if (0x70 <=? byte0) && (byte0 <=? 0x90) then
      let length := byte0 - 0x70 in
      finish true (VBytes (subarray data 1 (1 + length)))
        (subarray_from data (1 + length)) objectList
    else if (0x91 <=? byte0) && (byte0 <=? 0x94) then
      let numBytes := Z.shiftl 1 (Z.land byte0 0xf - 1) in
      match readUIntLE data 1 numBytes with
      | Returns (Some length) =>
          finish true
            (VBytes (subarray data (1 + numBytes) (1 + numBytes + length)))
            (subarray_from data (1 + numBytes + length)) objectList
      | Returns None => finish true (VBytes []) data objectList
      | Throws e => Raised e
      end
    else if Z.land byte0 0xf0 =? 0xd0 then
      let count := Z.land byte0 0xf in
      let ptr := subarray_from data 1 in
      if count =? 0xf then
        match unpack_items_until (_unpack fuel') fuel' ptr objectList [] with
        | Done (output, ptr, objectList') =>
            finish false (VArray output) (subarray_from ptr 1) objectList'
        | Raised e => Raised e
        | OutOfFuel => OutOfFuel
        | PrototypeReplaced => PrototypeReplaced
        end
      else
        match unpack_items (_unpack fuel') (Z.to_nat count) ptr objectList []
        with
        | Done (output, ptr, objectList') =>
            finish false (VArray output) ptr objectList'
        | Raised e => Raised e
        | OutOfFuel => OutOfFuel
        | PrototypeReplaced => PrototypeReplaced
        end
    else if Z.land byte0 0xe0 =? 0xe0 then
      let count := Z.land byte0 0xf in
      let ptr := subarray_from data 1 in
      if count =? 0xf then
        match unpack_entries_until (_unpack fuel') fuel' ptr objectList []
        with
        | Done (output, ptr, objectList') =>
            finish false (VObject output) (subarray_from ptr 1) objectList'
        | Raised e => Raised e
        | OutOfFuel => OutOfFuel
        | PrototypeReplaced => PrototypeReplaced
        end
      else
        match unpack_entries (_unpack fuel') (Z.to_nat count) ptr objectList []
        with
        | Done (output, ptr, objectList') =>
            finish false (VObject output) ptr objectList'
        | Raised e => Raised e
        | OutOfFuel => OutOfFuel
        | PrototypeReplaced => PrototypeReplaced
        end
    else if (0xa0 <=? byte0) && (byte0 <=? 0xc0) then
      finish false (objectList_at objectList (Some (byte0 - 0xa0)))
        (subarray_from data 1) objectList
    else if (0xc1 <=? byte0) && (byte0 <=? 0xc4) then
      let length := byte0 - 0xc0 in
      match readUIntLE data 1 length with
      | Returns uid =>
          finish false (objectList_at objectList uid)
            (subarray_from data (1 + length)) objectList
      | Throws e => Raised e
      end
    else Raised (TypeError "Unknown OPACK type")
  end
  end.

(** [unpack(data)]: the value and the remaining bytes. *)
Definition unpack (data : Buffer) : run (value * Buffer) :=
  match _unpack (S (length data)) data [] with
  | Done (v, remaining, _) => Done (v, remaining)
  | Raised e => Raised e
  | OutOfFuel => OutOfFuel
  | PrototypeReplaced => PrototypeReplaced
  end.

End WithFloat.

(** A stand-in for the interface, to run the model on concrete inputs that
    hold no floating-point number. *)
Definition sample_float : Float := {|
  f64_integer := fun _ => None;
  f32_to_f64 := fun image => image ++ [0; 0; 0; 0];
  f64_same := fun a b => bool_decide (a = b);
  f64_to_string := fun _ => "NaN";
  f64_is_nan := fun _ => false;
  u64_to_number := fun n => n
|}.

(** A string of [n] letters [a]. *)
Definition letters (n : nat) : string :=
  String.string_of_list_ascii (replicate n (Ascii.ascii_of_N 97)).

(** [unpack(pack(v))]. *)
Definition unpack_pack `{Float} (v : value) : run (value * Buffer) :=
  match pack v with
  | Returns packed => unpack packed
  | Throws e => Raised e
  end.

End Opack.

(** ** The dispatch layer ([CompanionProtocol]) *)

Module Protocol.
Import Chacha Connection Opack.

Module MessageType.
Definition Event : Z := 1.
Definition Request : Z := 2.
Definition Response : Z := 3.
End MessageType.

Definition DEFAULT_TIMEOUT : Z := 5000.

(** A promise is known by its number; [resolve] and [reject] of a pending
    entry are the two functions of the promise [promise]. *)
Record PendingRequest := {
  promise : nat;
  timer : nat
}.

Inductive PromiseState : Type :=
  | Pending
  | Fulfilled (v : value)
  | Rejected (e : JsError).

(** The two closures that the class hands to [setTimeout]. *)
Inductive TimerCallback : Type :=
  | AuthTimeout (responseType frameType : Z) (promise : nat)
  | OpackTimeout (xid : Z) (promise : nat).

Definition callback_promise (cb : TimerCallback) : nat :=
  match cb with
  | AuthTimeout _ _ p => p
  | OpackTimeout _ p => p
  end.

(** Calls into the runtime and into code outside the class, in the order in
    which they are made. *)
Inductive Effect : Type :=
  | CallResolve (promise : nat) (data : value)
  | CallReject (promise : nat) (e : JsError)
  | SetTimeout (timer : nat) (ms : Z)
  | ClearTimeout (timer : nat)
  | CallListener (listener : nat) (content : value)
  | Emit (eventName content : value)
  | CallOnConnectionLost (handler : nat) (error : option JsError).

(** The fields of the class, and the part of the runtime that it acts on:
    the promises it has made, the timers that are set, the calls made. *)
Record State := {
  connection : CompanionConnection;
  xid : Z;
  pendingRequests : JsMap.t Z PendingRequest;
  pendingAuth : JsMap.t Z PendingRequest;
  eventListeners : JsMap.t string (list nat);
  onConnectionLost : option nat;
  promises : list PromiseState;
  timers : JsMap.t nat (Z * TimerCallback);
  next_timer : nat;
  trace : list Effect
}.

Definition set_connection (st : State) (c : CompanionConnection) : State :=
  {| connection := c; xid := xid st; pendingRequests := pendingRequests st;
     pendingAuth := pendingAuth st; eventListeners := eventListeners st;
     onConnectionLost := onConnectionLost st; promises := promises st;
     timers := timers st; next_timer := next_timer st; trace := trace st |}.

Definition set_xid (st : State) (x : Z) : State :=
  {| connection := connection st; xid := x;
     pendingRequests := pendingRequests st;
     pendingAuth := pendingAuth st; eventListeners := eventListeners st;
     onConnectionLost := onConnectionLost st; promises := promises st;
     timers := timers st; next_timer := next_timer st; trace := trace st |}.

Definition set_pendingRequests (st : State) (m : JsMap.t Z PendingRequest)
    : State :=
  {| connection := connection st; xid := xid st; pendingRequests := m;
     pendingAuth := pendingAuth st; eventListeners := eventListeners st;
     onConnectionLost := onConnectionLost st; promises := promises st;
     timers := timers st; next_timer := next_timer st; trace := trace st |}.

Definition set_pendingAuth (st : State) (m : JsMap.t Z PendingRequest)
    : State :=
  {| connection := connection st; xid := xid st;
     pendingRequests := pendingRequests st;
     pendingAuth := m; eventListeners := eventListeners st;
     onConnectionLost := onConnectionLost st; promises := promises st;
     timers := timers st; next_timer := next_timer st; trace := trace st |}.

Definition set_eventListeners (st : State) (m : JsMap.t string (list nat))
    : State :=
  {| connection := connection st; xid := xid st;
     pendingRequests := pendingRequests st;
     pendingAuth := pendingAuth st; eventListeners := m;
     onConnectionLost := onConnectionLost st; promises := promises st;
     timers := timers st; next_timer := next_timer st; trace := trace st |}.

Definition set_onConnectionLost (st : State) (h : option nat) : State :=
  {| connection := connection st; xid := xid st;
     pendingRequests := pendingRequests st;
     pendingAuth := pendingAuth st; eventListeners := eventListeners st;
     onConnectionLost := h; promises := promises st;
     timers := timers st; next_timer := next_timer st; trace := trace st |}.

Definition set_promises (st : State) (ps : list PromiseState) : State :=
  {| connection := connection st; xid := xid st;
     pendingRequests := pendingRequests st;
     pendingAuth := pendingAuth st; eventListeners := eventListeners st;
     onConnectionLost := onConnectionLost st; promises := ps;
     timers := timers st; next_timer := next_timer st; trace := trace st |}.

Definition set_timers (st : State) (ts : JsMap.t nat (Z * TimerCallback))
    (next : nat) : State :=
  {| connection := connection st; xid := xid st;
     pendingRequests := pendingRequests st;
     pendingAuth := pendingAuth st; eventListeners := eventListeners st;
     onConnectionLost := onConnectionLost st; promises := promises st;
     timers := ts; next_timer := next; trace := trace st |}.

Definition log (st : State) (e : Effect) : State :=
  {| connection := connection st; xid := xid st;
     pendingRequests := pendingRequests st;
     pendingAuth := pendingAuth st; eventListeners := eventListeners st;
     onConnectionLost := onConnectionLost st; promises := promises st;
     timers := timers st; next_timer := next_timer st;
     trace := trace st ++ [e] |}.

(** [new CompanionProtocol(connection, ...)]; [xid0] is the random start of
    the transaction counter, below 2^16. *)
Definition new (c : CompanionConnection) (xid0 : Z) : State :=
  {| connection := c; xid := xid0; pendingRequests := []; pendingAuth := [];
     eventListeners := []; onConnectionLost := None; promises := [];
     timers := []; next_timer := 0; trace := [] |}.

(** *** The runtime *)

(** [new Promise(...)]: the number of the promise. *)
Definition new_promise (st : State) : nat * State :=
  (length (promises st), set_promises st (promises st ++ [Pending])).

(** A promise is settled once; later calls change nothing. *)
Definition settle (st : State) (p : nat) (s : PromiseState) : State :=
  match promises st !! p with
  | Some Pending => set_promises st (<[p := s]> (promises st))
  | _ => st
  end.

Definition resolve (st : State) (p : nat) (data : value) : State :=
  settle (log st (CallResolve p data)) p (Fulfilled data).

Definition reject (st : State) (p : nat) (e : JsError) : State :=
  settle (log st (CallReject p e)) p (Rejected e).

Definition setTimeout (st : State) (cb : TimerCallback) (ms : Z)
    : nat * State :=
  let t := next_timer st in
  (t, log (set_timers st (JsMap.set t (ms, cb) (timers st)) (S t))
        (SetTimeout t ms)).

Definition clearTimeout (st : State) (t : nat) : State :=
  log (set_timers st (JsMap.delete t (timers st)) (next_timer st))
    (ClearTimeout t).

(** *** [connectionLost] *)

(** The body of [for (const [, pending] of ...)]. *)
Definition reject_lost (st : State) (pending : PendingRequest) : State :=
  reject (clearTimeout st (timer pending)) (promise pending)
    (Error_ "Connection lost").

Definition connectionLost (st : State) (error : option JsError) : State :=
  let st := fold_left reject_lost (JsMap.values (pendingRequests st)) st in
  let st := set_pendingRequests st (JsMap.clear (pendingRequests st)) in
  let st := fold_left reject_lost (JsMap.values (pendingAuth st)) st in
  let st := set_pendingAuth st (JsMap.clear (pendingAuth st)) in
  match onConnectionLost st with
  | Some h => log st (CallOnConnectionLost h error)
  | None => st
  end.

Section WithInterfaces.
Context `{AEAD} `{Float}.

(** *** Auth frames *)

Definition handleAuthFrame (st : State) (frameType : Z) (payload : Buffer)
    : run unit * State :=
  if len payload =? 0 then (Done tt, st)
  else
    match unpack payload with
    | Done (data, _) =>
        match JsMap.get frameType (pendingAuth st) with
        | Some pending =>
            let st := clearTimeout st (timer pending) in
            let st :=
              set_pendingAuth st (JsMap.delete frameType (pendingAuth st)) in
            (Done tt, resolve st (promise pending) data)
        | None => (Done tt, st)
        end
    | Raised e => (Raised e, st)
    | OutOfFuel => (OutOfFuel, st)
    | PrototypeReplaced => (PrototypeReplaced, st)
    end.

Definition responseType (frameType : Z) : Z :=
  if frameType =? FrameType.PS_Start then FrameType.PS_Next
  else if frameType =? FrameType.PV_Start then FrameType.PV_Next
  else frameType.

(** [connection.send(frameType, opack.pack(data))] inside the executor of a
    promise: an exception from [pack] or from [send] rejects the promise. *)
Definition send_or_reject (st : State) (p : nat) (frameType : Z)
    (data : value) : State :=
  match pack data with
  | Returns packed =>
      match send (connection st) frameType packed with
      | (Returns _, c) => set_connection st c
      | (Throws e, c) => reject (set_connection st c) p e
      end
  | Throws e => reject st p e
  end.

(** [exchangeAuth(frameType, data, timeout)]: the promise returned. *)
Definition exchangeAuth (st : State) (frameType : Z) (data : value)
    (timeout : Z) : nat * State :=
  let responseType := responseType frameType in
  let '(p, st) := new_promise st in
  let '(timer, st) :=
    setTimeout st (AuthTimeout responseType frameType p) timeout in
  let st :=
    set_pendingAuth st
      (JsMap.set responseType {| promise := p; timer := timer |}
         (pendingAuth st)) in
  (p, send_or_reject st p frameType data).

(** *** OPACK messages *)

(** [data.name] on the decoded message: reading a property of [null] or
    [undefined] throws; a value that is not a plain object has none of the
    properties that the class reads. *)
Definition own_prop (data : value) (name : string) : value :=
  match data with
  | VObject entries => obj_get name entries
  | _ => VUndefined
  end.

Definition get_prop (data : value) (name : string) : outcome value :=
  match data with
  | VNull | VUndefined =>
      Throws (TypeError "Cannot read properties of undefined")
  | _ => Returns (own_prop data name)
  end.

(** Truthiness, for [data._c || {}]. *)
Definition truthy (v : value) : bool :=
  match v with
  | VUndefined | VNull => false
  | VBool b => b
  | VInt n => negb (n =? 0)
  | VDouble image => negb (f64_is_nan image)
  | VString s => negb (bool_decide (s = ""))
  | _ => true
  end.

(** [map.get(key)] on a map with numeric keys, for an arbitrary key. *)
Definition get_by_value {V} (key : value) (m : JsMap.t Z V) : option V :=
  match key with
  | VInt n => JsMap.get n m
  | _ => None
  end.

Definition delete_by_value {V} (key : value) (m : JsMap.t Z V)
    : JsMap.t Z V :=
  match key with
  | VInt n => JsMap.delete n m
  | _ => m
  end.

(** [for (const listener of listeners) try { listener(content) } catch {}]:
    what a listener does is code outside the class; the call is recorded. *)
Definition call_listeners (st : State) (listeners : list nat)
    (content : value) : State :=
  fold_left (fun st l => log st (CallListener l content)) listeners st.

(** [this.events.emit(eventName, content)]: nobody listens on [events], and
    an event named [error] without a listener makes [emit] throw. *)
Definition emit (st : State) (eventName content : value)
    : run unit * State :=
  let st := log st (Emit eventName content) in
  match eventName with
  | VString "error" => (Raised (Error_ "Unhandled error."), st)
  | _ => (Done tt, st)
  end.

Definition handleOpack (st : State) (frameType : Z) (data : value)
    : run unit * State :=
  match get_prop data "_t" with
  | Throws e => (Raised e, st)
  | Returns messageType =>
      match messageType with
      | VInt 1 =>
          let eventName := own_prop data "_i" in
          let c := own_prop data "_c" in
          let content := if truthy c then c else VObject [] in
          let st :=
            match eventName with
            | VString name =>
                match JsMap.get name (eventListeners st) with
                | Some listeners => call_listeners st listeners content
                | None => st
                end
            | _ => st
            end in
          emit st eventName content
      | VInt 3 =>
          let xid := own_prop data "_x" in
          match get_by_value xid (pendingRequests st) with
          | Some pending =>
              let st := clearTimeout st (timer pending) in
              let st :=
                set_pendingRequests st
                  (delete_by_value xid (pendingRequests st)) in
              (Done tt, resolve st (promise pending) data)
          | None => (Done tt, st)
          end
      | _ => (Done tt, st)
      end
  end.

Definition frameReceived (st : State) (frameType : Z) (payload : Buffer)
    : run unit * State :=
  if (FrameType.PS_Start <=? frameType) && (frameType <=? FrameType.PV_Next)
  then handleAuthFrame st frameType payload
  else if (frameType =? FrameType.E_OPACK) || (frameType =? FrameType.U_OPACK)
          || (frameType =? FrameType.P_OPACK)
  then
    if len payload =? 0 then (Done tt, st)
    else
      match unpack payload with
      | Done (v, _) => handleOpack st frameType v
      | Raised e => (Raised e, st)
      | OutOfFuel => (OutOfFuel, st)
      | PrototypeReplaced => (PrototypeReplaced, st)
      end
  else (Done tt, st).

(** [exchangeOpack(data, frameType, timeout)]; [data] is the list of the
    properties of the object passed in, to which [_x] is assigned. *)
Definition exchangeOpack (st : State) (data : list (string * value))
    (frameType : Z) (timeout : Z) : nat * State :=
  let xid_ := xid st in
  let st := set_xid st (increment (xid st)) in
  let data := obj_set "_x" (VInt xid_) data in
  let '(p, st) := new_promise st in
  let '(timer, st) := setTimeout st (OpackTimeout xid_ p) timeout in
  let st :=
    set_pendingRequests st
      (JsMap.set xid_ {| promise := p; timer := timer |}
         (pendingRequests st)) in
  (p, send_or_reject st p frameType (VObject data)).

(** [sendEvent(identifier, content)]. *)
Definition sendEvent (st : State) (identifier : string) (content : value)
    : outcome unit * State :=
  let data :=
    VObject [("_i", VString identifier); ("_t", VInt MessageType.Event);
             ("_c", content); ("_x", VInt (xid st))] in
  let st := set_xid st (increment (xid st)) in
  match pack data with
  | Returns packed =>
      match send (connection st) FrameType.E_OPACK packed with
      | (r, c) => (r, set_connection st c)
      end
  | Throws e => (Throws e, st)
  end.

(** The object that [sendCommand] builds. *)
Definition command (identifier : string) (content : value)
    : list (string * value) :=
  [("_i", VString identifier); ("_t", VInt MessageType.Request);
   ("_c", content)].

(** [sendCommand(identifier, content, timeout)]. *)
Definition sendCommand (st : State) (identifier : string) (content : value)
    (timeout : Z) : nat * State :=
  exchangeOpack st (command identifier content) FrameType.E_OPACK timeout.

(** [listenTo(eventName, listener)]. *)
Definition listenTo (st : State) (eventName : string) (listener : nat)
    : State :=
  let existing :=
    match JsMap.get eventName (eventListeners st) with
    | Some ls => ls
    | None => []
    end in
  set_eventListeners st
    (JsMap.set eventName (existing ++ [listener]) (eventListeners st)).

(** [subscribeEvent(eventName)]. *)
Definition subscribeEvent (st : State) (eventName : string)
    : outcome unit * State :=
  sendEvent st "_interest"
    (VObject [("_regEvents", VArray [VString eventName])]).

(** *** Timers *)

(** The bodies of the two timeout closures. *)
Definition run_callback (st : State) (cb : TimerCallback) : State :=
  match cb with
  | AuthTimeout responseType frameType p =>
      let st :=
        set_pendingAuth st (JsMap.delete responseType (pendingAuth st)) in
      reject st p
        (Error_ ("Auth exchange timeout for frame type " +:+ pretty frameType))
  | OpackTimeout xid_ p =>
      let st :=
        set_pendingRequests st (JsMap.delete xid_ (pendingRequests st)) in
      reject st p
        (Error_ ("OPACK exchange timeout for xid " +:+ pretty xid_))
  end.

(** The timer [t] expires: a timer that has been cleared does nothing. *)
Definition fire_timer (st : State) (t : nat) : State :=
  match JsMap.get t (timers st) with
  | Some (_, cb) =>
      run_callback
        (set_timers st (JsMap.delete t (timers st)) (next_timer st)) cb
  | None => st
  end.

(** *** What can happen to a dispatcher *)

Inductive Event : Type :=
  | FrameReceived (frameType : Z) (payload : Buffer)
  | ConnectionLost (error : option JsError)
  | TimerFired (t : nat)
  | CallExchangeAuth (frameType : Z) (data : value) (timeout : Z)
  | CallExchangeOpack (data : list (string * value)) (frameType timeout : Z)
  | CallSendCommand (identifier : string) (content : value) (timeout : Z)
  | CallSendEvent (identifier : string) (content : value)
  | CallSubscribeEvent (eventName : string)
  | CallListenTo (eventName : string) (listener : nat)
  | SetOnConnectionLost (handler : nat)
  | EnableEncryption (outputKey inputKey : Buffer)
  | CallClose.

Definition step (st : State) (ev : Event) : State :=
  match ev with
  | FrameReceived frameType payload => (frameReceived st frameType payload).2
  | ConnectionLost error => connectionLost st error
  | TimerFired t => fire_timer st t
  | CallExchangeAuth frameType data timeout =>
      (exchangeAuth st frameType data timeout).2
  | CallExchangeOpack data frameType timeout =>
      (exchangeOpack st data frameType timeout).2
  | CallSendCommand identifier content timeout =>
      (sendCommand st identifier content timeout).2
  | CallSendEvent identifier content => (sendEvent st identifier content).2
  | CallSubscribeEvent eventName => (subscribeEvent st eventName).2
  | CallListenTo eventName listener => listenTo st eventName listener
  | SetOnConnectionLost handler => set_onConnectionLost st (Some handler)
  | EnableEncryption outputKey inputKey =>
      set_connection st
        (Connection.enableEncryption (connection st) outputKey inputKey)
  | CallClose => set_connection st (Connection.close (connection st))
  end.

Definition run_events (st : State) (evs : list Event) : State :=
  fold_left step evs st.

End WithInterfaces.

(** *** Predicates on states, for the statements about pending exchanges *)

Definition lost : JsError := Error_ "Connection lost".

(** The calls that [connectionLost] makes for one pending entry. *)
Definition lost_calls (pending : PendingRequest) : list Effect :=
  [ClearTimeout (timer pending); CallReject (promise pending) lost].

(** Is the call a call of one of the two functions of the promise [p]? *)
Definition settles (p : nat) (call : Effect) : bool :=
  match call with
  | CallResolve q _ => bool_decide (q = p)
  | CallReject q _ => bool_decide (q = p)
  | _ => false
  end.

(** From [st] to [st'], every promise that is settled keeps its state. *)
Definition settled_kept (st st' : State) : Prop :=
  forall q x, promises st !! q = Some x -> x <> Pending ->
              promises st' !! q = Some x.

(** The entries of the two tables, in the order in which [connectionLost]
    goes through them. *)
Definition pending_entries (st : State) : list PendingRequest :=
  JsMap.values (pendingRequests st) ++ JsMap.values (pendingAuth st).

(** The numbers of promises and timers in use are below the next free
    ones, no key occurs twice in a map, and no two entries hold the same
    promise. *)
Definition wf (st : State) : Prop :=
  (forall k e, (k, e) ∈ pendingRequests st ++ pendingAuth st ->
     (promise e < length (promises st))%nat /\
     (timer e < next_timer st)%nat) /\
  (forall t ms cb, (t, (ms, cb)) ∈ timers st ->
     (t < next_timer st)%nat /\
     (callback_promise cb < length (promises st))%nat) /\
  NoDup (JsMap.keys (pendingAuth st)) /\
  NoDup (JsMap.keys (timers st)) /\
  NoDup (promise <$> pending_entries st).

(** An [exchangeAuth] for the reply type [rt], made with frame type [ft], is
    still pending: its entry [{p, t}] is in the table under [rt], its
    promise [p] is not settled, its timer [t] is set, and nothing else
    refers to [p] or [t]. *)
Definition awaiting (st : State) (p t : nat) (rt ft : Z) : Prop :=
  JsMap.get rt (pendingAuth st) = Some {| promise := p; timer := t |} /\
  promises st !! p = Some Pending /\
  (exists ms, JsMap.get t (timers st) = Some (ms, AuthTimeout rt ft p)) /\
  (forall k e, (k, e) ∈ pendingRequests st -> promise e <> p /\ timer e <> t) /\
  (forall k e, (k, e) ∈ pendingAuth st -> k <> rt ->
     promise e <> p /\ timer e <> t) /\
  (forall t' ms cb, (t', (ms, cb)) ∈ timers st -> t' <> t ->
     callback_promise cb <> p) /\
  NoDup (JsMap.keys (pendingAuth st)) /\
  (t < next_timer st)%nat.

(** The promise [p] of an [exchangeAuth] is not settled and its timer [t] is
    set, but no entry of either table refers to it any more. *)
Definition orphan (st : State) (p t : nat) (rt ft : Z) : Prop :=
  promises st !! p = Some Pending /\
  (exists ms, JsMap.get t (timers st) = Some (ms, AuthTimeout rt ft p)) /\
  (forall k e, (k, e) ∈ pendingRequests st -> promise e <> p /\ timer e <> t) /\
  (forall k e, (k, e) ∈ pendingAuth st -> promise e <> p /\ timer e <> t) /\
  (forall t' ms cb, (t', (ms, cb)) ∈ timers st -> t' <> t ->
     callback_promise cb <> p) /\
  (t < next_timer st)%nat.

(** The promise [p] is settled. *)
Definition settled (st : State) (p : nat) : Prop :=
  exists x, promises st !! p = Some x /\ x <> Pending.

(** The life of an [exchangeAuth]: awaited, then perhaps orphaned, then
    settled. *)
Definition lifecycle (st : State) (p t : nat) (rt ft : Z) : Prop :=
  awaiting st p t rt ft \/ orphan st p t rt ft \/ settled st p.

End Protocol.


(** ** Credentials ([serializeCredentials], [parseCredentials]) *)

Module Credentials.

(** One digit of [buf.toString('hex')]: lower case. *)
Definition hex_digit (n : Z) : Ascii.ascii :=
  Ascii.ascii_of_N (Z.to_N (if n <? 10 then 48 + n else 87 + n)).

(** [buf.toString('hex')]. *)
Fixpoint toString_hex (b : Buffer) : string :=
  match b with
  | [] => EmptyString
  | x :: b' =>
      String (hex_digit (x / 16))
        (String (hex_digit (x mod 16)) (toString_hex b'))
  end.

(** The value of a hexadecimal digit of either case, if it is one. *)
Definition unhex (c : Ascii.ascii) : option Z :=
  let n := Z.of_N (Ascii.N_of_ascii c) in
  if (48 <=? n) && (n <=? 57) then Some (n - 48)
  else if (97 <=? n) && (n <=? 102) then Some (n - 87)
  else if (65 <=? n) && (n <=? 70) then Some (n - 55)
  else None.

(** [Buffer.from(s, 'hex')]: the digits are taken two by two; the decoding
    ends at the first pair that is not two hexadecimal digits, and a last
    digit without a partner is dropped. *)
Fixpoint Buffer_from_hex (s : string) : Buffer :=
  match s with
  | String c1 (String c2 s') =>
      match unhex c1, unhex c2 with
      | Some h, Some l => Z.lor (Z.shiftl h 4) l :: Buffer_from_hex s'
      | _, _ => []
      end
  | _ => []
  end.

(** [s.split(sep)] for a separator of one character: at least one part. *)
Fixpoint split (sep : Ascii.ascii) (s : string) : list string :=
  match s with
  | EmptyString => [EmptyString]
  | String c s' =>
      if Ascii.eqb c sep then EmptyString :: split sep s'
      else
        match split sep s' with
        | cur :: rest => String c cur :: rest
        | [] => [String c EmptyString] (* not reached *)
        end
  end.

(** [parts.join(sep)]. *)
Fixpoint join (sep : string) (parts : list string) : string :=
  match parts with
  | [] => EmptyString
  | [p] => p
  | p :: parts' => p +:+ sep +:+ join sep parts'
  end.

Definition colon : Ascii.ascii := Ascii.ascii_of_N 58.

Record HapCredentials := {
  ltpk : Buffer;
  ltsk : Buffer;
  atvId : Buffer;
  clientId : Buffer
}.

Definition serializeCredentials (creds : HapCredentials) : string :=
  join (String colon EmptyString)
    [toString_hex (ltpk creds); toString_hex (ltsk creds);
     toString_hex (atvId creds); toString_hex (clientId creds)].

Definition parseCredentials (credString : string) : outcome HapCredentials :=
  match split colon credString with
  | [p0; p1; p2; p3] =>
      Returns {| ltpk := Buffer_from_hex p0; ltsk := Buffer_from_hex p1;
                 atvId := Buffer_from_hex p2; clientId := Buffer_from_hex p3 |}
  | _ =>
      Throws (Error_
        "Invalid credentials format: expected 4 hex parts separated by ':'")
  end.

(** The number of occurrences of a character in a string. *)
Fixpoint count_char (c : Ascii.ascii) (s : string) : nat :=
  match s with
  | EmptyString => 0
  | String c' s' => (if Ascii.eqb c' c then 1 else 0) + count_char c s'
  end.

End Credentials.

(** ** Pairing data of an auth message ([getPairingData]) *)

Module Auth.
Import Opack.

Definition PAIRING_DATA_KEY : string := "_pd".

(** [TlvValue.Error]. *)
Definition TlvValue_Error : Z := 7.

(** [getPairingData(message)].  The message is a decoded one, in which the
    byte strings are [Buffer]s: [!pd || !Buffer.isBuffer(pd)] holds of every
    value but a byte string. *)
Definition getPairingData (message : value) : run Tlv.TlvData :=
  match Protocol.get_prop message PAIRING_DATA_KEY with
  | Throws e => Raised e
  | Returns (VBytes pd) =>
      match Tlv.readTlv pd with
      | Some tlv =>
          match JsMap.get TlvValue_Error tlv with
          | Some err =>
              Raised (Error_ ("Pairing error: " +:+ Credentials.toString_hex err))
          | None => Done tlv
          end
      | None => OutOfFuel
      end
  | Returns _ =>
      Raised (Error_ "No pairing data in message or unexpected type")
  end.

End Auth.

(** ** The receiving side of the transport ([processBuffer]) *)

Module Receive.
Import Chacha Connection Opack.

Definition set_buffer (c : CompanionConnection) (b : Buffer)
    : CompanionConnection :=
  {| socket := socket c; buffer := b; chacha := chacha c;
     connected := connected c |}.

(** [buf[i]] as an operand of [<<] and [|], where [undefined] counts as 0. *)
Definition byte_operand (b : Buffer) (i : Z) : Z :=
  match at_index b i with Some x => x | None => 0 end.

(** The length that the header at the front of the buffer announces, header
    included. *)
Definition announced (b : Buffer) : Z :=
  HEADER_LENGTH
  + Z.lor (Z.lor (Z.shiftl (byte_operand b 1) 16)
                 (Z.shiftl (byte_operand b 2) 8))
          (byte_operand b 3).

Section WithListener.
Context `{AEAD} {L : Type}.

(** The listener of the connection: [frameReceived] acts on a state of its
    own and may throw. *)
Variable frameReceived : L -> Z -> Buffer -> run unit * L.

(** The [while] loop of [processBuffer].  An exception of the listener ends
    the call; the frame it was raised on has left the buffer by then. *)
Fixpoint processBuffer_loop (fuel : nat) (c : CompanionConnection) (l : L)
    : run unit * (CompanionConnection * L) :=
  if HEADER_LENGTH <=? len (buffer c) then
    match fuel with
    | O => (OutOfFuel, (c, l))
    | S fuel' =>
        let payloadLength := announced (buffer c) in
        if len (buffer c) <? payloadLength then (Done tt, (c, l))
        else
          let header := subarray (buffer c) 0 HEADER_LENGTH in
          let payload := subarray (buffer c) HEADER_LENGTH payloadLength in
          let c := set_buffer c (subarray_from (buffer c) payloadLength) in
          let deliver (c : CompanionConnection) (payload : Buffer) :=
            match frameReceived l (byte_operand header 0) payload with
            | (Done _, l') => processBuffer_loop fuel' c l'
            | (Raised e, l') => (Raised e, (c, l'))
            | (OutOfFuel, l') => (OutOfFuel, (c, l'))
            | (PrototypeReplaced, l') => (PrototypeReplaced, (c, l'))
            end in
          match chacha c with
          | Some ch =>
              if 0 <? len payload then
                match decrypt ch payload None (Some header) with
                | (Returns payload', ch') =>
                    deliver (set_chacha c (Some ch')) payload'
                | (Throws _, ch') =>
                    processBuffer_loop fuel' (set_chacha c (Some ch')) l
                end
              else deliver c payload
          | None => deliver c payload
          end
    end
  else (Done tt, (c, l)).

(** [processBuffer()]: every turn that goes on takes at least the four
    bytes of a header from the buffer. *)
Definition processBuffer (c : CompanionConnection) (l : L)
    : run unit * (CompanionConnection * L) :=
  processBuffer_loop (S (length (buffer c))) c l.

(** The handler of the socket's [data] event. *)
Definition on_data (c : CompanionConnection) (l : L) (data : Buffer)
    : run unit * (CompanionConnection * L) :=
  processBuffer (set_buffer c (buffer c ++ data)) l.

End WithListener.

(** A listener that keeps the frames it is given, oldest first. *)
Definition record_frame (l : list (Z * Buffer)) (frameType : Z)
    (payload : Buffer) : run unit * list (Z * Buffer) :=
  (Done tt, l ++ [(frameType, payload)]).

(** The data handler of a connection whose listener is the dispatcher
    [st]; the connection is the dispatcher's own. *)
Definition socket_data `{AEAD} `{Float} (st : Protocol.State)
    (data : Buffer) : run unit * Protocol.State :=
  let '(r, (c, st')) :=
    on_data Protocol.frameReceived (Protocol.connection st) st data in
  (r, Protocol.set_connection st' c).

End Receive.

(** ** What the statements ask of the interfaces *)

Section AeadLaws.
Import Chacha.
Context `{AEAD}.

(** Opening what was sealed, under the same key, nonce and associated data,
    gives the plaintext back. *)
Definition aead_opens : Prop :=
  forall key nonce aad plaintext sealed,
    aead_encrypt key nonce aad plaintext = Returns sealed ->
    aead_decrypt key nonce aad sealed = Returns plaintext.

(** Sealing adds the sixteen bytes of the tag. *)
Definition aead_adds_tag : Prop :=
  forall key nonce aad plaintext sealed,
    aead_encrypt key nonce aad plaintext = Returns sealed ->
    len sealed = len plaintext + AUTH_TAG_LENGTH.

End AeadLaws.

(** ** OPACK: the loops of the encoder, and encodings without references *)

Module OpackAux.
Import Opack.

(** The [for] loop of the array case of [_pack], as a function of its own. *)
Fixpoint pack_items (items : list value) (parts : list Buffer)
    (objectList : list Buffer) : outcome (list Buffer * list Buffer) :=
  match items with
  | [] => Returns (parts, objectList)
  | item :: items' =>
      match _pack item objectList with
      | Returns (p, objectList') =>
          pack_items items' (parts ++ [p]) objectList'
      | Throws e => Throws e
      end
  end.

(** The [for] loop of the object case of [_pack]. *)
Fixpoint pack_entries (entries : list (string * value))
    (parts : list Buffer) (objectList : list Buffer)
    : outcome (list Buffer * list Buffer) :=
  match entries with
  | [] => Returns (parts, objectList)
  | (key, value) :: entries' =>
      let '(k, objectList1) := _pack_key key objectList in
      match _pack value objectList1 with
      | Returns (v, objectList2) =>
          pack_entries entries' ((parts ++ [k]) ++ [v]) objectList2
      | Throws e => Throws e
      end
  end.

(** The bytes of a value when nothing is replaced by a reference into the
    object list: what [_pack] builds before its deduplication step, with
    the items of arrays and objects written out in the same way. *)
Fixpoint encode (v : value) : Buffer :=
  match v with
  | VNull | VUndefined => [0x04]
  | VBool b => [if b then 0x01 else 0x02]
  | VOpackFloat image => 0x36 :: image
  | VInt n =>
      match packInteger n with Returns packed => packed | Throws _ => [] end
  | VDouble image => 0x36 :: image
  | VString s => packString s
  | VBytes b => packBytes b
  | VArray items =>
      [0xd0 + Z.min (len items) 0xf] ++ concat (List.map encode items)
      ++ (if 0xf <=? len items then [0x03] else [])
  | VObject entries =>
      [0xe0 + Z.min (len entries) 0xf]
      ++ concat (List.map (fun kv =>
                   match kv with (k, x) => packString k ++ encode x end)
                   entries)
      ++ (if 0xf <=? len entries then [0x03] else [])
  end.

(** The parts that the loop of the object case collects when nothing is
    replaced: for every property its name and its value. *)
Definition entry_parts (entries : list (string * value)) : list Buffer :=
  flat_map (fun kv => [packString kv.1; encode kv.2]) entries.

(** What the deduplication step puts into the object list for an encoding
    that is not in it: the encoding, unless it is a single byte. *)
Definition pool_entry (packed : Buffer) : list Buffer :=
  if 1 <? len packed then [packed] else [].

(** An object list in which every encoding has more than one byte. *)
Definition long_entries (l : list Buffer) : Prop :=
  Forall (fun e => 1 < len e) l.

(** The encodings that come up while a value is packed, in the order in
    which the deduplication step sees them. *)
Fixpoint pooled (v : value) : list Buffer :=
  match v with
  | VArray items => flat_map pooled items ++ pool_entry (encode v)
  | VObject entries =>
      flat_map (fun kv =>
                  match kv with
                  | (k, x) => pool_entry (packString k) ++ pooled x
                  end) entries
      ++ pool_entry (encode v)
  | _ => pool_entry (encode v)
  end.

(** A property name that the decoder gives back as it is and puts behind
    the names it has: at most 65535 bytes, not an array index, and not
    [__proto__], for which an assignment makes no property. *)
Definition plain_key (k : string) : bool :=
  (len (string_bytes k) <=? 0xffff) && bool_decide (array_index k = None)
  && negb (bool_decide (k = "__proto__")).

(** Values that [unpack] can give: no [undefined], no [OpackFloat] wrapper,
    integers from 0 below 2^32, numbers that are not integers by their
    eight bytes, strings of at most 65535 bytes, byte strings of fewer than
    2^32 bytes, objects whose property names are plain (so none of them is
    [__proto__]) and all different. *)
Fixpoint decodable `{Float} (v : value) : bool :=
  match v with
  | VUndefined => false
  | VNull => true
  | VBool _ => true
  | VInt n => (0 <=? n) && (n <? 2 ^ 32)
  | VDouble image =>
      (len image =? 8) && bool_decide (f64_integer image = None)
  | VOpackFloat _ => false
  | VString s => len (string_bytes s) <=? 0xffff
  | VBytes b => len b <? 2 ^ 32
  | VArray items => forallb decodable items
  | VObject entries =>
      forallb (fun kv =>
                 match kv with (k, x) => plain_key k && decodable x end)
        entries
      && bool_decide (NoDup entries.*1)
  end.

(** The values that the encoder and the decoder treat alike in their object
    lists: [null], booleans, integers from 0 below 2^32, strings and byte
    strings that are not empty. *)
Definition scalar (v : value) : bool :=
  match v with
  | VNull => true
  | VBool _ => true
  | VInt n => (0 <=? n) && (n <? 2 ^ 32)
  | VString s =>
      negb (bool_decide (s = EmptyString))
      && (len (string_bytes s) <=? 0xffff)
  | VBytes b => negb (bool_decide (b = [])) && (len b <? 2 ^ 32)
  | _ => false
  end.

(** A property of a flat object: a plain name that is not empty, and a
    scalar. *)
Definition scalar_entry (kv : string * value) : bool :=
  negb (bool_decide (kv.1 = EmptyString)) && plain_key kv.1 && scalar kv.2.

(** A scalar whose encoding goes into the object list. *)
Definition pscalar (v : value) : Prop :=
  scalar v = true /\ 1 < len (encode v).

(** The reference that the deduplication step writes for the place [idx]
    of the object list, up to 65535. *)
Definition reference (idx : Z) : Buffer :=
  if idx <? 0x21 then [to_u8 (0xa0 + idx)]
  else if idx <=? 0xff then [0xc1; to_u8 idx]
  else 0xc2 :: le_bytes 2 idx.

(** The object list [E] of the encoder and the object list [D] of the
    decoder, at the same point of a message.  Both begin alike: [D] begins
    with the scalars [pre], and [E] with their encodings.  What follows in
    [E] is [R]: the encodings of the arrays and objects that the encoder
    has put into its list (the decoder puts none into its own), and of the
    scalars that came after the first of them, which are at other places in
    [D].  A reference is right as long as it goes into the first part. *)
Definition pools (E : list Buffer) (D : list value) (pre : list value)
    (R : list Buffer) : Prop :=
  E = List.map encode pre ++ R /\
  Forall pscalar pre /\
  long_entries R /\
  exists T, D = pre ++ T /\ Forall pscalar T /\
            Forall (fun x => encode x ∈ R) T.

(** What the loops of the object case of the decoder need of an entry, for
    the function [rec] that they call: its name is given back as it is, its
    value too, and the name is no array index and not [__proto__]. *)
Definition entry_decodes (rec : unpacker) (kv : string * value) : Prop :=
  array_index kv.1 = None /\ kv.1 <> "__proto__" /\
  (forall rest objectList, exists objectList',
     rec (packString kv.1 ++ rest) objectList
     = Done (VString kv.1, rest, objectList')) /\
  (forall rest objectList, exists objectList',
     rec (encode kv.2 ++ rest) objectList = Done (kv.2, rest, objectList')).

(** Values of one level: a scalar, an array of scalars, or an object whose
    properties are scalar properties with different names. *)
Definition flat (v : value) : bool :=
  match v with
  | VArray items => forallb scalar items
  | VObject entries =>
      forallb scalar_entry entries && bool_decide (NoDup entries.*1)
  | _ => scalar v
  end.

(** How many encodings the encoder looks up in its object list for the
    parts of a value of one level. *)
Definition lookups (v : value) : Z :=
  match v with
  | VArray items => len items
  | VObject entries => 2 * len entries
  | _ => 1
  end.

(** The message of a request or an event: [{_i, _t, _c, _x}]. *)
Definition message (identifier : string) (type : Z) (content : value)
    (xid : Z) : value :=
  VObject [("_i", VString identifier); ("_t", VInt type);
           ("_c", content); ("_x", VInt xid)].

End OpackAux.

(** ** Device discovery: which models count as an Apple TV (mdns.ts) *)

Module Mdns.

Definition APPLE_TV_MODELS : list string :=
  ["J33AP"; "J33DAP"; "J42dAP"; "J105aAP"; "J305AP"; "J255AP"].

(** [s.startsWith(prefix)]. *)
Definition startsWith (s prefix : string) : bool := String.prefix prefix s.

(** [isAppleTvModel(model)]; the empty string is the only string that is
    falsy. *)
Definition isAppleTvModel (model : string) : bool :=
  if bool_decide (model = EmptyString) then false
  else if startsWith model "J" then true
  else bool_decide (model ∈ APPLE_TV_MODELS).

End Mdns.
(** * Part II: lemmas and theorems *)

(** ** Facts about buffers and maps *)

Section JsMapFacts.
Context {K V : Type} `{EqDecision K}.
Implicit Types (k : K) (v : V) (m : JsMap.t K V).

Lemma jsmap_get_None k m : JsMap.get k m = None <-> k ∉ JsMap.keys m.
Proof.
  induction m as [|[k' v'] m IH]; simpl.
  - split; [intros _; apply not_elem_of_nil | done].
  - destruct (decide (k' = k)) as [->|Hne].
    + split; [done | intros H0; exfalso; apply H0; left].
    + rewrite IH. unfold JsMap.keys. simpl. rewrite not_elem_of_cons.
      split; [intros; split; congruence | tauto].
Qed.

Lemma jsmap_set_fresh k v m :
  k ∉ JsMap.keys m -> JsMap.set k v m = m ++ [(k, v)].
Proof.
  induction m as [|[k' v'] m IH]; simpl; [done|].
  unfold JsMap.keys. simpl. rewrite not_elem_of_cons. intros [Hne Hni].
  destruct (decide (k' = k)); [congruence|]. by rewrite IH.
Qed.

Lemma jsmap_get_app_last k v m :
  k ∉ JsMap.keys m -> JsMap.get k (m ++ [(k, v)]) = Some v.
Proof.
  induction m as [|[k' v'] m IH]; simpl.
  - intros _. by destruct (decide (k = k)).
  - unfold JsMap.keys. simpl. rewrite not_elem_of_cons. intros [Hne Hni].
    destruct (decide (k' = k)); [congruence | auto].
Qed.

Lemma jsmap_set_app_last k v w m :
  k ∉ JsMap.keys m -> JsMap.set k w (m ++ [(k, v)]) = m ++ [(k, w)].
Proof.
  induction m as [|[k' v'] m IH]; simpl.
  - intros _. by destruct (decide (k = k)).
  - unfold JsMap.keys. simpl. rewrite not_elem_of_cons. intros [Hne Hni].
    destruct (decide (k' = k)); [congruence|]. by rewrite IH.
Qed.

Lemma jsmap_get_set_eq k v m : JsMap.get k (JsMap.set k v m) = Some v.
Proof.
  induction m as [|[k' v'] m IH]; simpl.
  - by destruct (decide (k = k)).
  - destruct (decide (k' = k)) as [->|Hne]; simpl.
    + by destruct (decide (k = k)).
    + by destruct (decide (k' = k)).
Qed.

Lemma jsmap_get_set_ne k k' v m :
  k <> k' -> JsMap.get k' (JsMap.set k v m) = JsMap.get k' m.
Proof.
  intros Hne. induction m as [|[k2 v2] m IH]; simpl.
  - by destruct (decide (k = k')).
  - destruct (decide (k2 = k)) as [->|Hne2]; simpl.
    + by destruct (decide (k = k')).
    + destruct (decide (k2 = k')); [done | apply IH].
Qed.

Lemma jsmap_get_Some_elem k v m : JsMap.get k m = Some v -> (k, v) ∈ m.
Proof.
  induction m as [|[k' v'] m IH]; simpl; [done|].
  destruct (decide (k' = k)) as [->|Hne].
  - intros [= ->]. left.
  - intros H0. right. auto.
Qed.

Lemma jsmap_elem_delete k (kv : K * V) m : kv ∈ JsMap.delete k m -> kv ∈ m.
Proof.
  induction m as [|[k' v'] m IH]; simpl; [done|].
  destruct (decide (k' = k)) as [->|Hne].
  - intros H0. by right.
  - rewrite !elem_of_cons. intros [->|H0]; [by left | right; auto].
Qed.

Lemma jsmap_elem_set k v (kv : K * V) m :
  kv ∈ JsMap.set k v m -> kv = (k, v) \/ kv ∈ m.
Proof.
  induction m as [|[k' v'] m IH]; simpl.
  - rewrite list_elem_of_singleton. auto.
  - destruct (decide (k' = k)) as [->|Hne]; rewrite !elem_of_cons.
    + intros [->|H0]; auto.
    + intros [->|H0]; [auto|]. destruct (IH H0); auto.
Qed.

End JsMapFacts.

(** ** TLV8 *)

Lemma at_index_app_len {A} (pre : list A) x rest :
  at_index (pre ++ x :: rest) (len pre) = Some x.
Proof.
  unfold at_index. destruct (Z.ltb_spec (len pre) 0); [lia|].
  rewrite Nat2Z.id. by rewrite list_lookup_middle.
Qed.

Lemma at_index_app_len1 {A} (pre : list A) x y rest :
  at_index (pre ++ x :: y :: rest) (len pre + 1) = Some y.
Proof.
  replace (pre ++ x :: y :: rest) with ((pre ++ [x]) ++ y :: rest)
    by (by rewrite <- app_assoc).
  replace (len pre + 1) with (len (pre ++ [x]))
    by (rewrite length_app; simpl; lia).
  apply at_index_app_len.
Qed.

Lemma at_index_lt {A} (b : list A) i :
  0 <= i < len b -> exists x, at_index b i = Some x /\ x ∈ b.
Proof.
  intros Hi. unfold at_index. destruct (Z.ltb_spec i 0); [lia|].
  destruct (lookup_lt_is_Some_2 b (Z.to_nat i)) as [x Hx]; [lia|].
  exists x. split; [done|]. eapply list_elem_of_lookup_2; eauto.
Qed.

Lemma subarray_app_exact pre (v rest : Buffer) p :
  p = len pre -> subarray (pre ++ v ++ rest) p (p + len v) = v.
Proof.
  intros ->. unfold subarray.
  rewrite Nat2Z.id, drop_app_length.
  replace (Z.to_nat (len pre + len v - len pre)) with (length v) by lia.
  by rewrite take_app_length.
Qed.

Lemma subarray_app_short pre (rest : Buffer) p e :
  p = len pre -> len rest <= e - p -> subarray (pre ++ rest) p e = rest.
Proof.
  intros -> He. unfold subarray.
  rewrite Nat2Z.id, drop_app_length. apply take_ge. lia.
Qed.

Section TlvFacts.
Import Tlv.

Lemma encode_records_app rs1 rs2 :
  encode_records (rs1 ++ rs2) = encode_records rs1 ++ encode_records rs2.
Proof. unfold encode_records. by rewrite map_app, concat_app. Qed.

Lemma encode_records_cons r rs :
  encode_records (r :: rs) = encode_record r ++ encode_records rs.
Proof. done. Qed.

(** One complete record is consumed by one turn of the reader's loop. *)
Lemma readTlv_loop_record fuel pre tag value rest result :
  readTlv_loop (S fuel) (pre ++ encode_record (tag, value) ++ rest)
    (len pre) result
  = readTlv_loop fuel (pre ++ encode_record (tag, value) ++ rest)
      (len (pre ++ encode_record (tag, value))) (merge result tag value).
Proof.
  unfold encode_record. simpl fst. simpl snd.
  change ((tag :: len value :: value) ++ rest)
    with (tag :: len value :: value ++ rest).
  cbn [readTlv_loop].
  destruct (Z.ltb_spec (len pre)
              (len (pre ++ tag :: len value :: value ++ rest))) as [_|Hge].
  2: { rewrite length_app in Hge. simpl in Hge. lia. }
  rewrite at_index_app_len, at_index_app_len1.
  f_equal.
  - rewrite length_app. simpl. lia.
  - f_equal.
    replace (pre ++ tag :: len value :: value ++ rest)
      with ((pre ++ [tag; len value]) ++ value ++ rest)
      by (by rewrite <- app_assoc).
    apply subarray_app_exact. rewrite length_app. simpl. lia.
Qed.

(** A run of complete records folds [merge] over them. *)
Lemma readTlv_loop_records rs : forall fuel pre rest result,
  readTlv_loop (length rs + fuel) (pre ++ encode_records rs ++ rest)
    (len pre) result
  = readTlv_loop fuel (pre ++ encode_records rs ++ rest)
      (len (pre ++ encode_records rs))
      (fold_left (fun acc r => merge acc r.1 r.2) rs result).
Proof.
  induction rs as [|[tag value] rs IH]; intros fuel pre rest result.
  - simpl. by rewrite app_nil_r.
  - rewrite encode_records_cons. simpl length. simpl fold_left.
    replace (S (length rs) + fuel)%nat with (S (length rs + fuel)) by lia.
    rewrite <- !app_assoc.
    rewrite readTlv_loop_record.
    rewrite (app_assoc pre (encode_record (tag, value))).
    rewrite IH. by rewrite <- !app_assoc.
Qed.

Lemma readTlv_loop_end fuel data pos result :
  len data <= pos -> readTlv_loop fuel data pos result = Some result.
Proof.
  intros Hp. destruct fuel; simpl;
    by destruct (Z.ltb_spec pos (len data)); [lia|].
Qed.

Lemma encode_records_length rs :
  (2 * length rs <= length (encode_records rs))%nat.
Proof.
  induction rs as [|[t v] rs IH]; [simpl; lia|].
  rewrite encode_records_cons, length_app. unfold encode_record. simpl. lia.
Qed.

(** The reader on a well-formed record sequence. *)
Lemma readTlv_records rs :
  readTlv (encode_records rs)
  = Some (fold_left (fun acc r => merge acc r.1 r.2) rs []).
Proof.
  unfold readTlv.
  pose proof (encode_records_length rs) as Hl.
  replace (length (encode_records rs))
    with (length rs + (length (encode_records rs) - length rs))%nat by lia.
  pose proof (readTlv_loop_records rs
    (length (encode_records rs) - length rs) [] [] []) as H.
  rewrite app_nil_r in H. simpl in H. change (Z.of_nat 0) with 0 in H.
  rewrite H. apply readTlv_loop_end. lia.
Qed.

(** The reader on a record sequence that ends in a truncated record: the
    value of that record is what is left of the input, and the call
    returns. *)
Lemma readTlv_truncated data pre tag length rest :
  truncated_at data pre tag length rest ->
  readTlv data
  = Some (merge (fold_left (fun acc r => merge acc r.1 r.2) pre []) tag rest).
Proof.
  intros [-> Hlen]. unfold readTlv.
  pose proof (encode_records_length pre) as Hl.
  set (tail := tag :: length :: rest).
  replace (Datatypes.length (encode_records pre ++ tail))
    with (Datatypes.length pre
          + S (Datatypes.length (encode_records pre ++ tail)
               - S (Datatypes.length pre)))%nat
    by (rewrite length_app; simpl; lia).
  pose proof (readTlv_loop_records pre
    (S (Datatypes.length (encode_records pre ++ tail)
        - S (Datatypes.length pre))) [] tail []) as H.
  simpl in H. change (Z.of_nat 0) with 0 in H. rewrite H. clear H.
  generalize (fold_left (fun acc r => merge acc r.1 r.2) pre []).
  intros r. cbn [readTlv_loop]. subst tail.
  destruct (Z.ltb_spec (len (encode_records pre))
              (len (encode_records pre ++ tag :: length :: rest))) as [_|Hge].
  2: { rewrite length_app in Hge. simpl in Hge. lia. }
  rewrite at_index_app_len, at_index_app_len1.
  replace (encode_records pre ++ tag :: length :: rest)
    with ((encode_records pre ++ [tag; length]) ++ rest)
    by (by rewrite <- app_assoc).
  rewrite subarray_app_short.
  - apply readTlv_loop_end. rewrite !length_app. simpl. lia.
  - rewrite length_app. simpl. lia.
  - lia.
Qed.

End TlvFacts.
Section TlvWriterFacts.
Import Tlv.

(** The reader never runs out of fuel on a buffer of bytes. *)
Lemma readTlv_loop_total data : is_bytes data ->
  forall fuel pos result, 0 <= pos -> len data - pos <= Z.of_nat fuel ->
  exists m, readTlv_loop fuel data pos result = Some m.
Proof.
  intros Hb. induction fuel as [|fuel IH]; intros pos result Hpos Hfuel.
  - exists result. apply readTlv_loop_end. lia.
  - cbn [readTlv_loop]. destruct (Z.ltb_spec pos (len data)); [|by eauto].
    destruct (at_index_lt data pos) as (tag & -> & _); [lia|].
    destruct (at_index data (pos + 1)) as [l|] eqn:Hl; [|by eauto].
    assert (0 <= l).
    { unfold at_index in Hl. destruct (pos + 1 <? 0); [done|].
      apply list_elem_of_lookup_2 in Hl.
      unfold is_bytes in Hb. rewrite Forall_forall in Hb.
      apply Hb in Hl. unfold is_byte in Hl. lia. }
    apply IH; lia.
Qed.

Lemma readTlv_total data : is_bytes data -> exists m, readTlv data = Some m.
Proof. intros Hb. apply readTlv_loop_total; [done | lia | lia]. Qed.

Lemma fragments_aux_fuel n : forall m v,
  (length v <= n)%nat -> (length v <= m)%nat ->
  fragments_aux n v = fragments_aux m v.
Proof.
  induction n as [|n IH]; intros m v Hn Hm.
  - destruct v; [|simpl in Hn; lia]. by destruct m.
  - destruct m as [|m].
    + destruct v; [done | simpl in Hm; lia].
    + simpl. destruct (Nat.leb_spec (length v) 255); [done|].
      f_equal. apply IH; rewrite length_drop; lia.
Qed.

Lemma fragments_aux_concat n : forall v, concat (fragments_aux n v) = v.
Proof.
  induction n as [|n IH]; intros v; simpl; [by rewrite app_nil_r|].
  destruct (length v <=? 255)%nat; simpl; [by rewrite app_nil_r|].
  by rewrite IH, take_drop.
Qed.

Lemma fragments_aux_bound n : forall v, (length v <= n)%nat ->
  Forall (fun c => (length c <= 255)%nat) (fragments_aux n v).
Proof.
  induction n as [|n IH]; intros v Hn; simpl.
  - constructor; [lia | constructor].
  - destruct (Nat.leb_spec (length v) 255).
    + constructor; [lia | constructor].
    + constructor; [rewrite length_take; lia|].
      apply IH. rewrite length_drop. lia.
Qed.

Lemma fragments_unfold v :
  fragments v =
    if (length v <=? 255)%nat then [v]
    else take 255 v :: fragments (drop 255 v).
Proof.
  unfold fragments. destruct (length v) as [|n] eqn:Hv.
  - by destruct v.
  - cbn [fragments_aux]. rewrite Hv.
    destruct (Nat.leb_spec (S n) 255); [done|].
    f_equal. apply fragments_aux_fuel; rewrite length_drop; lia.
Qed.

Lemma fragments_nonempty v : fragments v <> [].
Proof. rewrite fragments_unfold. by destruct (length v <=? 255)%nat. Qed.

(** The writer's inner loop emits exactly the fragments of what is left of
    the value, and does not run out of fuel. *)
Lemma writeTlv_while_fragments t value n : forall fuel pos parts,
  0 <= pos <= len value -> len value - pos <= Z.of_nat n -> (n < fuel)%nat ->
  exists parts',
    writeTlv_while fuel [t] value pos (len value - pos) parts = Some parts' /\
    concat parts' =
      concat parts
      ++ encode_records (map (pair t) (fragments_aux n (subarray_from value pos))).
Proof.
  induction n as [|n IH]; intros fuel pos parts Hpos Hn Hfuel.
  - assert (pos = len value) as -> by lia.
    destruct fuel as [|fuel]; [lia|]. cbn [writeTlv_while].
    rewrite Z.sub_diag. rewrite Z.eqb_refl, orb_true_r.
    change (Z.min 0 255) with 0. change (0 <? 0) with false. cbn iota.
    rewrite Z.add_0_r, Z.sub_0_r. simpl andb.
    destruct (Z.leb_spec (len value) (len value)); [|lia].
    eexists; split; [done|].
    unfold subarray_from. rewrite Nat2Z.id, drop_all.
    rewrite !concat_app. simpl. by rewrite <- app_assoc.
  - destruct fuel as [|fuel]; [lia|]. cbn [writeTlv_while fragments_aux].
    assert (Hd : length (subarray_from value pos)
                 = Z.to_nat (len value - pos)).
    { unfold subarray_from. rewrite length_drop. lia. }
    assert (Hin : (pos <? len value) || (len value - pos =? 0) = true).
    { destruct (Z.ltb_spec pos (len value)); [done|].
      simpl. apply Z.eqb_eq. lia. }
    rewrite Hin.
    destruct (Nat.leb_spec (length (subarray_from value pos)) 255) as [Hs|Hs].
    + (* the rest fits into one record *)
      rewrite Z.min_l by lia.
      replace (len value - pos - (len value - pos)) with 0 by lia.
      replace (pos + (len value - pos)) with (len value) by lia.
      simpl andb. destruct (Z.leb_spec (len value) (len value)); [|lia].
      assert (Hsub : subarray value pos (len value) = subarray_from value pos).
      { unfold subarray, subarray_from. apply take_ge. rewrite length_drop. lia. }
      eexists; split; [done|].
      unfold encode_records, encode_record. simpl.
      rewrite app_nil_r. unfold to_u8. rewrite Z.mod_small by lia.
      rewrite Hd. rewrite Z2Nat.id by lia.
      destruct (Z.ltb_spec 0 (len value - pos)).
      * rewrite !concat_app. simpl. rewrite Hsub, app_nil_r.
        by rewrite <- !app_assoc.
      * rewrite !concat_app. simpl.
        assert (subarray_from value pos = []) as ->
          by (apply nil_length_inv; lia).
        by rewrite <- !app_assoc.
    + (* a full record of 255 bytes, then the loop goes on *)
      rewrite Z.min_r by lia.
      change (0 <? 255) with true. cbn iota.
      destruct (Z.eqb_spec (len value - pos - 255) 0) as [|_]; [lia|].
      simpl andb. cbn iota.
      destruct (IH fuel (pos + 255)
                  (((parts ++ [[t]]) ++ [[to_u8 255]])
                   ++ [subarray value pos (pos + 255)]))
        as (parts' & Hw & Hc); [lia | lia | lia |].
      replace (len value - pos - 255) with (len value - (pos + 255)) by lia.
      exists parts'. split; [done|]. rewrite Hc.
      rewrite !concat_app. simpl. rewrite app_nil_r.
      rewrite <- !app_assoc. f_equal.
      unfold encode_records. simpl. unfold encode_record at 1. simpl.
      assert (Htk : subarray value pos (pos + 255)
                    = take 255 (subarray_from value pos)).
      { unfold subarray, subarray_from. f_equal. lia. }
      assert (Hdr : subarray_from value (pos + 255)
                    = drop 255 (subarray_from value pos)).
      { unfold subarray_from. rewrite drop_drop. f_equal. lia. }
      rewrite Htk, Hdr. rewrite length_take, Hd.
      replace (Z.of_nat (255 `min` Z.to_nat (len value - pos))) with 255 by lia.
      done.
Qed.

Lemma writeTlv_entries_records m : forall parts,
  exists parts',
    writeTlv_entries m parts = Some parts' /\
    concat parts' = concat parts ++ encode_records (records_of m).
Proof.
  induction m as [|[key value] m IH]; intros parts.
  - exists parts. split; [done|]. unfold records_of, encode_records. simpl.
    by rewrite app_nil_r.
  - cbn [writeTlv_entries].
    destruct (writeTlv_while_fragments (to_u8 key) value (length value)
                (S (length value)) 0 parts) as (parts1 & Hw & Hc);
      [lia | lia | lia |].
    rewrite Z.sub_0_r in Hw. rewrite Hw.
    destruct (IH parts1) as (parts2 & Hw2 & Hc2).
    exists parts2. split; [done|]. rewrite Hc2, Hc.
    unfold records_of. simpl. rewrite encode_records_app.
    by rewrite <- app_assoc.
Qed.

(** The writer emits the records that the specification prescribes. *)
Lemma writeTlv_records m :
  writeTlv m = Some (encode_records (records_of m)).
Proof.
  unfold writeTlv.
  destruct (writeTlv_entries_records m []) as (parts & -> & Hc).
  by rewrite Hc.
Qed.

(** Folding the reader's [merge] over the fragments of one entry. *)
Lemma merge_fresh (acc : TlvData) k c :
  k ∉ JsMap.keys acc -> merge acc k c = acc ++ [(k, c)].
Proof.
  intros Hk. unfold merge.
  rewrite (proj2 (jsmap_get_None k acc) Hk). by apply jsmap_set_fresh.
Qed.

Lemma merge_last (acc : TlvData) k v c :
  k ∉ JsMap.keys acc -> merge (acc ++ [(k, v)]) k c = acc ++ [(k, v ++ c)].
Proof.
  intros Hk. unfold merge.
  rewrite jsmap_get_app_last by done. by apply jsmap_set_app_last.
Qed.

Lemma fold_merge_last (acc : TlvData) k cs : forall v,
  k ∉ JsMap.keys acc ->
  fold_left (fun a r => merge a r.1 r.2) (map (pair k) cs) (acc ++ [(k, v)])
  = acc ++ [(k, v ++ concat cs)].
Proof.
  induction cs as [|c cs IH]; intros v Hk; simpl.
  - by rewrite app_nil_r.
  - rewrite merge_last by done. rewrite IH by done. by rewrite <- app_assoc.
Qed.

Lemma fold_merge_fragments (acc : TlvData) k v :
  k ∉ JsMap.keys acc ->
  fold_left (fun a r => merge a r.1 r.2) (map (pair k) (fragments v)) acc
  = acc ++ [(k, v)].
Proof.
  intros Hk. pose proof (fragments_aux_concat (length v) v) as Hc.
  fold (fragments v) in Hc.
  destruct (fragments v) as [|c cs] eqn:Hf; [by apply fragments_nonempty in Hf|].
  simpl. rewrite merge_fresh by done. rewrite fold_merge_last by done.
  simpl in Hc. by rewrite Hc.
Qed.

Lemma fold_merge_records (m : TlvData) : forall acc : TlvData,
  NoDup (JsMap.keys acc ++ JsMap.keys m) -> Forall is_byte (JsMap.keys m) ->
  fold_left (fun a r => merge a r.1 r.2) (records_of m) acc = acc ++ m.
Proof.
  induction m as [|[k v] m IH]; intros acc Hnd Hb.
  - simpl. by rewrite app_nil_r.
  - unfold records_of. simpl. rewrite fold_left_app.
    unfold JsMap.keys in *. simpl in Hnd, Hb.
    apply Forall_cons in Hb as [Hk Hb].
    unfold to_u8. rewrite Z.mod_small by (unfold is_byte in Hk; lia).
    assert (k ∉ acc.*1).
    { apply NoDup_app in Hnd as (_ & Hd & _). intros Hin.
      apply (Hd k Hin). left. }
    rewrite fold_merge_fragments by done.
    fold (records_of m). rewrite IH.
    + by rewrite <- app_assoc.
    + rewrite fmap_app. simpl. rewrite <- app_assoc. done.
    + done.
Qed.

(** Reading back what the writer wrote. *)
Lemma readTlv_records_of (m : TlvData) :
  NoDup (JsMap.keys m) -> Forall is_byte (JsMap.keys m) ->
  readTlv (encode_records (records_of m)) = Some m.
Proof.
  intros Hnd Hb. rewrite readTlv_records.
  by rewrite (fold_merge_records m []).
Qed.

End TlvWriterFacts.
Section TlvClaims.
Import Tlv.

(** Claim C3, as stated, fails on the code: on the three bytes [03 05 AA]
    the record declares five bytes of value and one remains, and [readTlv]
    returns the map [{3: AA}]; the reader has no error path at all. *)
Lemma readTlv_truncated_not_rejected :
  truncated_at [3; 5; 170] [] 3 5 [170] /\
  ~ (forall m, readTlv [3; 5; 170] <> Some m).
Proof.
  split.
  - split; [reflexivity | simpl; lia].
  - intros H. by apply (H [(3, [170])]).
Qed.

(** Claim C3, amended: for every input buffer in which a record's declared
    length exceeds the number of bytes remaining after it, [readTlv] does not
    fail: it returns the map built from the complete records before it, in
    which the tag of the truncated record is bound to the bytes that remain
    (appended to the value that the tag had, if it had one). *)
Theorem readTlv_truncated_returns data pre tag length rest :
  truncated_at data pre tag length rest ->
  exists m before,
    readTlv data = Some m /\
    readTlv (encode_records pre) = Some before /\
    m = merge before tag rest /\
    JsMap.get tag m
      = Some (match JsMap.get tag before with
              | Some old => old ++ rest
              | None => rest
              end).
Proof.
  intros Ht.
  exists (merge (fold_left (fun acc r => merge acc r.1 r.2) pre []) tag rest),
         (fold_left (fun acc r => merge acc r.1 r.2) pre []).
  split; [by apply readTlv_truncated with (length := length)|].
  split; [apply readTlv_records|]. split; [done|].
  generalize (fold_left (fun acc r => merge acc r.1 r.2) pre []).
  intros before. unfold merge.
  destruct (JsMap.get tag before); apply jsmap_get_set_eq.
Qed.

Lemma readTlv_truncated_returns_witness :
  exists m before,
    readTlv [6; 1; 9; 3; 5; 170] = Some m /\
    readTlv (encode_records [(6, [9])]) = Some before /\
    m = merge before 3 [170] /\
    JsMap.get 3 m
      = Some (match JsMap.get 3 before with
              | Some old => old ++ [170]
              | None => [170]
              end).
Proof.
  apply (readTlv_truncated_returns [6; 1; 9; 3; 5; 170] [(6, [9])] 3 5 [170]).
  split; [reflexivity | simpl; lia].
Defined.

(** Claim C4: writing [{0x03: 300 bytes of 0xAA}] gives
    [03 FF <255 x AA> 03 2D <45 x AA>], and reading that back gives the one
    300-byte value under tag 3.  In general, for a map [m] with distinct
    byte keys, the writer emits for every entry, in order, the fragments of
    its value (each at most 255 bytes, all but the last exactly 255, together
    the value) as records with the entry's tag, and the reader, which appends
    the value of a record to what its tag already holds, gives back [m]. *)
Theorem tlv_fragmentation (m : TlvData) :
  NoDup (JsMap.keys m) -> Forall is_byte (JsMap.keys m) ->
  writeTlv [(3, replicate 300 170)]
    = Some ([3; 255] ++ replicate 255 170 ++ [3; 45] ++ replicate 45 170) /\
  readTlv ([3; 255] ++ replicate 255 170 ++ [3; 45] ++ replicate 45 170)
    = Some [(3, replicate 300 170)] /\
  writeTlv m = Some (encode_records (records_of m)) /\
  readTlv (encode_records (records_of m)) = Some m /\
  (forall v : Buffer,
     concat (fragments v) = v /\
     Forall (fun c => (length c <= 255)%nat) (fragments v) /\
     fragments v =
       (if (length v <=? 255)%nat then [v]
        else take 255 v :: fragments (drop 255 v))) /\
  (forall rs, readTlv (encode_records rs)
              = Some (fold_left (fun acc r => merge acc r.1 r.2) rs [])) /\
  (forall (acc : TlvData) tag old value,
     JsMap.get tag acc = Some old ->
     JsMap.get tag (merge acc tag value) = Some (old ++ value)).
Proof.
  intros Hnd Hb.
  split; [by vm_compute|]. split; [by vm_compute|].
  split; [apply writeTlv_records|].
  split; [by apply readTlv_records_of|].
  split.
  { intros v. split; [apply fragments_aux_concat|].
    split; [by apply fragments_aux_bound | apply fragments_unfold]. }
  split; [apply readTlv_records|].
  intros acc tag old value Hg. unfold merge. rewrite Hg.
  apply jsmap_get_set_eq.
Qed.

Lemma tlv_fragmentation_witness :
  writeTlv [(1, [7; 7]); (3, replicate 300 170)]
    = Some (encode_records (records_of [(1, [7; 7]); (3, replicate 300 170)])) /\
  readTlv (encode_records (records_of [(1, [7; 7]); (3, replicate 300 170)]))
    = Some [(1, [7; 7]); (3, replicate 300 170)].
Proof.
  destruct (tlv_fragmentation [(1, [7; 7]); (3, replicate 300 170)])
    as (_ & _ & Hw & Hr & _).
  - apply NoDup_cons. split; [|apply NoDup_singleton].
    intros H. apply list_elem_of_singleton in H. discriminate H.
  - unfold JsMap.keys. simpl.
    repeat (apply Forall_cons; split; [unfold is_byte; lia|]).
    apply Forall_nil_2.
  - split; [exact Hw | exact Hr].
Defined.

End TlvClaims.

(** ** Counters *)

Lemma increment_exact n : 0 <= n < 2 ^ 53 -> increment n = n + 1.
Proof.
  intros Hn. unfold increment, round_f64.
  destruct (Z.leb_spec (Z.abs (n + 1)) (2 ^ 53)); [done | lia].
Qed.

Lemma increment_stays : increment (2 ^ 53) = 2 ^ 53.
Proof. reflexivity. Qed.

(** ** Nonces and counters of the cipher *)

Lemma to_u8_land v : to_u8 (Z.land v 255) = Z.land v 255.
Proof.
  unfold to_u8. apply Z.mod_small.
  change 255 with (Z.ones 8). rewrite Z.land_ones by lia.
  apply Z.mod_pos_bound. lia.
Qed.

Lemma le_value_le_bytes n : forall v,
  0 <= v < 2 ^ (8 * Z.of_nat n) -> le_value (le_bytes n v) = v.
Proof.
  induction n as [|n IH]; intros v Hv.
  - simpl in *. lia.
  - cbn [le_bytes le_value].
    change 255 with (Z.ones 8). rewrite Z.land_ones by lia.
    rewrite Z.shiftr_div_pow2 by lia. change (2 ^ 8) with 256.
    rewrite IH.
    + pose proof (Z.div_mod v 256). lia.
    + replace (8 * Z.of_nat (S n)) with (8 + 8 * Z.of_nat n) in Hv by lia.
      rewrite Z.pow_add_r in Hv by lia. change (2 ^ 8) with 256 in Hv.
      split; [apply Z.div_pos; lia|].
      apply Z.div_lt_upper_bound; lia.
Qed.

Section ChachaFacts.
Import Chacha.

Lemma writeLECounter_12 counter :
  writeLECounter (Buffer_alloc 12) counter 12
  = le_bytes 8 counter ++ [0; 0; 0; 0].
Proof.
  unfold writeLECounter. change (Z.to_nat (Z.min 12 8)) with 8%nat.
  change (Buffer_alloc 12) with (replicate 12 0).
  cbn [writeLECounter_loop le_bytes app].
  unfold buf_set. cbn [Z.ltb Z.add Z.compare Pos.add Pos.succ].
  simpl Z.to_nat. simpl replicate. cbn [insert list_insert].
  by rewrite !to_u8_land.
Qed.

Lemma writeLECounter_8 counter :
  writeLECounter (Buffer_alloc 8) counter 8 = le_bytes 8 counter.
Proof.
  unfold writeLECounter. change (Z.to_nat (Z.min 8 8)) with 8%nat.
  change (Buffer_alloc 8) with (replicate 8 0).
  cbn [writeLECounter_loop le_bytes app].
  unfold buf_set. cbn [Z.ltb Z.add Z.compare Pos.add Pos.succ].
  simpl Z.to_nat. simpl replicate. cbn [insert list_insert].
  by rewrite !to_u8_land.
Qed.

Lemma padNonce_short nonce :
  len nonce < NONCE_LENGTH ->
  padNonce nonce = replicate (12 - length nonce) 0 ++ nonce.
Proof.
  unfold NONCE_LENGTH. intros Hl. unfold padNonce, NONCE_LENGTH.
  destruct (Z.leb_spec 12 (len nonce)); [lia|].
  unfold Buffer_copy, Buffer_alloc.
  replace (Z.to_nat (12 - len nonce)) with (12 - length nonce)%nat by lia.
  change (Z.to_nat 12) with 12%nat.
  rewrite take_replicate, length_replicate.
  rewrite drop_replicate.
  replace (12 - (12 - length nonce + length nonce))%nat with 0%nat by lia.
  simpl replicate. rewrite app_nil_r.
  rewrite take_ge by lia. f_equal. f_equal. lia.
Qed.

Lemma padNonce_long nonce : NONCE_LENGTH <= len nonce -> padNonce nonce = nonce.
Proof.
  intros Hl. unfold padNonce. by destruct (Z.leb_spec NONCE_LENGTH (len nonce)); [|lia].
Qed.

Lemma getOutNonce_12 c :
  nonceLength c = 12 ->
  getOutNonce c = le_bytes 8 (outCounter c) ++ [0; 0; 0; 0].
Proof.
  intros Hn. unfold getOutNonce. rewrite Hn.
  change (12 =? NONCE_LENGTH) with true. cbn iota. apply writeLECounter_12.
Qed.

(** [getInNonce] is [getOutNonce] with the other counter. *)
Lemma getInNonce_getOutNonce c :
  getInNonce c = getOutNonce (set_outCounter c (inCounter c)).
Proof. done. Qed.

(** Counter mode of the 8-byte variant: the padding comes first. *)
Lemma getOutNonce_8 c :
  nonceLength c = 8 ->
  getOutNonce c = [0; 0; 0; 0] ++ le_bytes 8 (outCounter c).
Proof.
  intros Hn. unfold getOutNonce. rewrite Hn. change (8 =? NONCE_LENGTH) with false.
  cbn iota. rewrite writeLECounter_8. by rewrite padNonce_short.
Qed.

End ChachaFacts.

Section ChachaClaims.
Import Chacha.
Context `{AEAD}.

(** Claim C6: with the 12-byte nonce of the transport cipher, the nonce of
    counter mode is the counter in eight little-endian bytes followed by four
    zero bytes (for [outCounter = 5]: [05 00 00 00 00 00 00 00 00 00 00 00]),
    and it is the nonce handed to the AEAD when [encrypt] is called without
    one; an explicit nonce shorter than 12 bytes is handed to the AEAD with
    zero bytes put in front of it up to 12 bytes (for ["PV-Msg02"]:
    [00 00 00 00 50 56 2D 4D 73 67 30 32]).  The nonce of [decrypt] without
    a nonce is formed in the same way from [inCounter]. *)
Theorem nonce_formation (c : Chacha20Cipher) (nonce : Buffer) :
  nonceLength c = 12 ->
  0 <= outCounter c < 2 ^ 64 ->
  len nonce < 12 ->
  getOutNonce c = le_bytes 8 (outCounter c) ++ [0; 0; 0; 0] /\
  le_value (take 8 (getOutNonce c)) = outCounter c /\
  drop 8 (getOutNonce c) = [0; 0; 0; 0] /\
  (encrypt_nonce c None).1 = getOutNonce c /\
  getOutNonce (set_outCounter c 5) = [5; 0; 0; 0; 0; 0; 0; 0; 0; 0; 0; 0] /\
  padNonce nonce = replicate (12 - length nonce) 0 ++ nonce /\
  (encrypt_nonce c (Some nonce)).1 = replicate (12 - length nonce) 0 ++ nonce /\
  (decrypt_nonce c (Some nonce)).1 = replicate (12 - length nonce) 0 ++ nonce /\
  padNonce (string_bytes "PV-Msg02")
    = [0; 0; 0; 0; 0x50; 0x56; 0x2D; 0x4D; 0x73; 0x67; 0x30; 0x32] /\
  getInNonce c = le_bytes 8 (inCounter c) ++ [0; 0; 0; 0] /\
  (0 <= inCounter c < 2 ^ 64 ->
   le_value (take 8 (getInNonce c)) = inCounter c) /\
  drop 8 (getInNonce c) = [0; 0; 0; 0] /\
  (decrypt_nonce c None).1 = getInNonce c /\
  getInNonce (set_inCounter c 5) = [5; 0; 0; 0; 0; 0; 0; 0; 0; 0; 0; 0].
Proof.
  intros Hn Hc Hl.
  assert (Hout : getOutNonce c = le_bytes 8 (outCounter c) ++ [0; 0; 0; 0]).
  { unfold getOutNonce. rewrite Hn. change (12 =? NONCE_LENGTH) with true.
    cbn iota. apply writeLECounter_12. }
  assert (Hpad : padNonce nonce = replicate (12 - length nonce) 0 ++ nonce)
    by (apply padNonce_short; unfold NONCE_LENGTH; lia).
  split; [exact Hout|].
  split.
  { rewrite Hout. change (take 8 (le_bytes 8 (outCounter c) ++ [0; 0; 0; 0]))
      with (le_bytes 8 (outCounter c)).
    apply le_value_le_bytes. exact Hc. }
  split; [by rewrite Hout|].
  split; [done|].
  split.
  { unfold getOutNonce. simpl nonceLength. rewrite Hn.
    change (12 =? NONCE_LENGTH) with true. cbn iota. by vm_compute. }
  split; [exact Hpad|].
  split.
  { simpl. unfold NONCE_LENGTH. by destruct (Z.ltb_spec (len nonce) 12); [|lia]. }
  split.
  { simpl. unfold NONCE_LENGTH. by destruct (Z.ltb_spec (len nonce) 12); [|lia]. }
  split; [by vm_compute|].
  assert (Hin : getInNonce c = le_bytes 8 (inCounter c) ++ [0; 0; 0; 0]).
  { rewrite getInNonce_getOutNonce. by rewrite getOutNonce_12. }
  split; [exact Hin|].
  split.
  { intros Hi. rewrite Hin.
    change (take 8 (le_bytes 8 (inCounter c) ++ [0; 0; 0; 0]))
      with (le_bytes 8 (inCounter c)).
    apply le_value_le_bytes. exact Hi. }
  split; [by rewrite Hin|].
  split; [done|].
  rewrite getInNonce_getOutNonce, getOutNonce_12 by done. by vm_compute.
Qed.

(** Claim C10 as stated, fails on the code: a counter that has come to 2^53
    does not advance when [encrypt] is called without a nonce.  The counter
    is a float64, [this.outCounter++] gives the float64 nearest to
    2^53 + 1, which is 2^53, and the next call uses the same nonce. *)
Lemma counter_mode_stops_at_2_53 :
  let c := set_outCounter (Chacha.new [1] [2] 12) (2 ^ 53) in
  let c' := (@encrypt sample_aead c [7] None None).2 in
  outCounter c' = outCounter c /\
  outCounter c' <> outCounter c + 1 /\
  (encrypt_nonce c' None).1 = (encrypt_nonce c None).1.
Proof. intros c c'. split; [reflexivity|]. split; [|reflexivity]. by vm_compute. Qed.

(** Claim C10, amended: [encrypt] and [decrypt] called with an explicit
    nonce leave the whole cipher, both counters included, as it was; called
    without a nonce, [encrypt] changes [outCounter] and nothing else,
    [decrypt] changes [inCounter] and nothing else, and the new value is
    that of [++]: one more as long as the counter is below 2^53. *)
Theorem explicit_nonce_keeps_counters (c : Chacha20Cipher) (data : Buffer)
    (nonce : Buffer) (aad : option Buffer) :
  (encrypt c data (Some nonce) aad).2 = c /\
  (decrypt c data (Some nonce) aad).2 = c /\
  (encrypt c data None aad).2
    = {| outKey := outKey c; inKey := inKey c;
         outCounter := increment (outCounter c); inCounter := inCounter c;
         nonceLength := nonceLength c |} /\
  (decrypt c data None aad).2
    = {| outKey := outKey c; inKey := inKey c;
         outCounter := outCounter c; inCounter := increment (inCounter c);
         nonceLength := nonceLength c |} /\
  (0 <= outCounter c < 2 ^ 53 ->
   outCounter (encrypt c data None aad).2 = outCounter c + 1) /\
  (0 <= inCounter c < 2 ^ 53 ->
   inCounter (decrypt c data None aad).2 = inCounter c + 1).
Proof.
  split; [by destruct c|]. split; [by destruct c|].
  split; [done|]. split; [done|].
  split; intros Hc; cbn; by apply increment_exact.
Qed.

End ChachaClaims.

Lemma nonce_formation_witness :
  let c :=
    Chacha.set_inCounter
      (Chacha.set_outCounter (Chacha.new [1] [2] 12) 258) 772 in
  Chacha.getOutNonce c = [2; 1; 0; 0; 0; 0; 0; 0; 0; 0; 0; 0] /\
  Chacha.padNonce [7; 8; 9] = [0; 0; 0; 0; 0; 0; 0; 0; 0; 7; 8; 9] /\
  Chacha.getInNonce c = [4; 3; 0; 0; 0; 0; 0; 0; 0; 0; 0; 0] /\
  (Chacha.decrypt_nonce c None).1 = [4; 3; 0; 0; 0; 0; 0; 0; 0; 0; 0; 0].
Proof.
  intros c.
  destruct (nonce_formation c [7; 8; 9])
    as (H1 & _ & _ & _ & _ & H2 & _ & _ & _ & H3 & _ & _ & H4 & _).
  - reflexivity.
  - simpl. lia.
  - simpl. lia.
  - split; [exact H1|]. split; [exact H2|]. split; [exact H3|].
    rewrite H4. exact H3.
Defined.

(** ** Frames on the wire *)

Section ConnectionFacts.
Import Chacha Connection.

Lemma make_header_bytes frameType payloadLength :
  make_header frameType payloadLength
  = [to_u8 frameType;
     Z.land (Z.shiftr payloadLength 16) 255;
     Z.land (Z.shiftr payloadLength 8) 255;
     Z.land payloadLength 255].
Proof.
  unfold make_header, buf_set. simpl. by rewrite !to_u8_land.
Qed.

(** The three length bytes, read big-endian, are the length whenever it
    fits into 24 bits. *)
Lemma be24_length n :
  0 <= n < 2 ^ 24 ->
  be24 (Z.land (Z.shiftr n 16) 255) (Z.land (Z.shiftr n 8) 255) (Z.land n 255)
  = n.
Proof.
  intros Hn. unfold be24.
  change 255 with (Z.ones 8). rewrite !Z.land_ones by lia.
  rewrite !Z.shiftr_div_pow2 by lia.
  change (2 ^ 8) with 256. change (2 ^ 16) with (256 * 256).
  change (2 ^ 24) with 16777216 in Hn.
  rewrite <- Z.div_div by lia.
  pose proof (Z.div_mod n 256).
  pose proof (Z.div_mod (n / 256) 256).
  assert (0 <= n / 256 / 256 < 256).
  { split; [apply Z.div_pos; [apply Z.div_pos|]; lia|].
    apply Z.div_lt_upper_bound; [lia|].
    apply Z.div_lt_upper_bound; lia. }
  rewrite (Z.mod_small (n / 256 / 256)) by lia.
  lia.
Qed.

End ConnectionFacts.

Section ConnectionClaims.
Import Chacha Connection.
Context `{AEAD}.

(** Claim C5: on a connected connection, [send] without a cipher writes, in
    one chunk, the type byte, the payload length in three big-endian bytes
    and the payload ([(8, [E0])] gives [08 00 00 01 E0]); with a cipher and a
    non-empty payload the length bytes hold the plaintext length plus 16
    ([08 00 00 11] for one byte of plaintext), and the chunk written is that
    header followed by the ciphertext that the AEAD returns for the payload
    with exactly those four header bytes as AAD (under the counter nonce,
    the out-counter moving on as [++] does: by one below 2^53). *)
Theorem send_frame (c : CompanionConnection) (sock : Socket)
    (frameType : Z) (data : Buffer) :
  socket c = Some sock -> connected c = true ->
  let plain_header :=
    [to_u8 frameType;
     Z.land (Z.shiftr (len data) 16) 255;
     Z.land (Z.shiftr (len data) 8) 255;
     Z.land (len data) 255] in
  let sealed_header :=
    [to_u8 frameType;
     Z.land (Z.shiftr (len data + 16) 16) 255;
     Z.land (Z.shiftr (len data + 16) 8) 255;
     Z.land (len data + 16) 255] in
  (chacha c = None ->
     send c frameType data
     = (Returns tt,
        set_socket c (Some (socket_write sock (plain_header ++ data))))) /\
  (len data < 2 ^ 24 ->
     be24 (Z.land (Z.shiftr (len data) 16) 255)
          (Z.land (Z.shiftr (len data) 8) 255)
          (Z.land (len data) 255) = len data) /\
  (snd (send (fresh None) 8 [0xE0])
     = {| socket := Some {| written := [[0x08; 0x00; 0x00; 0x01; 0xE0]] |};
          buffer := []; chacha := None; connected := true |}) /\
  (forall ch ciphertext,
     chacha c = Some ch -> data <> [] ->
     aead_encrypt (outKey ch) (getOutNonce ch) (Some sealed_header) data
       = Returns ciphertext ->
     send c frameType data
     = (Returns tt,
        set_socket
          (set_chacha c (Some (set_outCounter ch (increment (outCounter ch)))))
          (Some (socket_write sock (sealed_header ++ ciphertext))))) /\
  (len data + 16 < 2 ^ 24 ->
     be24 (Z.land (Z.shiftr (len data + 16) 16) 255)
          (Z.land (Z.shiftr (len data + 16) 8) 255)
          (Z.land (len data + 16) 255) = len data + 16) /\
  make_header 8 (len [0xE0] + AUTH_TAG_LENGTH) = [0x08; 0x00; 0x00; 0x11] /\
  (forall ch ciphertext,
     chacha c = Some ch -> data <> [] -> 0 <= outCounter ch < 2 ^ 53 ->
     aead_encrypt (outKey ch) (getOutNonce ch) (Some sealed_header) data
       = Returns ciphertext ->
     send c frameType data
     = (Returns tt,
        set_socket
          (set_chacha c (Some (set_outCounter ch (outCounter ch + 1))))
          (Some (socket_write sock (sealed_header ++ ciphertext))))).
Proof.
  intros Hs Hc. cbv zeta.
  assert (Hsealed : forall ch ciphertext,
     chacha c = Some ch -> data <> [] ->
     aead_encrypt (outKey ch) (getOutNonce ch)
       (Some [to_u8 frameType;
              Z.land (Z.shiftr (len data + 16) 16) 255;
              Z.land (Z.shiftr (len data + 16) 8) 255;
              Z.land (len data + 16) 255]) data
       = Returns ciphertext ->
     send c frameType data
     = (Returns tt,
        set_socket
          (set_chacha c (Some (set_outCounter ch (increment (outCounter ch)))))
          (Some (socket_write sock
                   ([to_u8 frameType;
                     Z.land (Z.shiftr (len data + 16) 16) 255;
                     Z.land (Z.shiftr (len data + 16) 8) 255;
                     Z.land (len data + 16) 255] ++ ciphertext))))).
  { intros ch ciphertext Hch Hd Henc. unfold send. rewrite Hs, Hc, Hch.
    simpl negb. cbn iota.
    destruct (Z.ltb_spec 0 (len data)) as [_|Hz];
      [|destruct data; [done | simpl in Hz; lia]].
    rewrite make_header_bytes. unfold encrypt, encrypt_nonce.
    unfold AUTH_TAG_LENGTH. simpl outKey.
    match goal with
    | |- context [match ?e with Returns _ => _ | Throws _ => _ end] =>
        replace e with (Returns ciphertext) by (symmetry; exact Henc)
    end.
    done. }
  split.
  { intros Hch. unfold send. rewrite Hs, Hc, Hch. simpl negb. cbn iota.
    by rewrite make_header_bytes. }
  split; [intros; apply be24_length; lia|].
  split; [done|].
  split; [exact Hsealed|].
  split; [intros; apply be24_length; lia|].
  split; [done|].
  intros ch ciphertext Hch Hd Hb Henc.
  rewrite <- (increment_exact (outCounter ch)) by done.
  by apply Hsealed.
Qed.

End ConnectionClaims.

Lemma send_frame_witness :
  @Connection.send Chacha.sample_aead
    (Connection.fresh (Some (Chacha.new [1] [2] 12))) 8 [0xE0]
  = (Returns tt,
     Connection.set_socket
       (Connection.set_chacha
          (Connection.fresh (Some (Chacha.new [1] [2] 12)))
          (Some (Chacha.set_outCounter (Chacha.new [1] [2] 12) 1)))
       (Some {| Connection.written :=
                  [[0x08; 0x00; 0x00; 0x11] ++ 0xE0 :: replicate 16 0] |})).
Proof.
  destruct (@send_frame Chacha.sample_aead
              (Connection.fresh (Some (Chacha.new [1] [2] 12)))
              {| Connection.written := [] |} 8 [0xE0])
    as (_ & _ & _ & Hsealed & _).
  - reflexivity.
  - reflexivity.
  - apply (Hsealed (Chacha.new [1] [2] 12) (0xE0 :: replicate 16 0)).
    + reflexivity.
    + discriminate.
    + reflexivity.
Defined.

(** ** OPACK *)

Section OpackFacts.
Import Opack.

Lemma string_bytes_nonempty s : s <> "" -> 0 < len (string_bytes s).
Proof.
  destruct s as [|c s]; [done|]. intros _. unfold string_bytes. simpl. lia.
Qed.

(** The encoding of a string begins with a string tag and, unless the string
    is empty, is longer than one byte. *)
Lemma packString_shape s :
  exists tag rest,
    packString s = tag :: rest /\ 0x40 <= tag <= 0x64 /\
    (s <> "" -> rest <> []).
Proof.
  unfold packString.
  pose proof (Zle_0_nat (length (string_bytes s))) as Hpos.
  destruct (Z.leb_spec (len (string_bytes s)) 0x20).
  { eexists _, _. split; [reflexivity|]. unfold to_u8.
    rewrite Z.mod_small by lia. split; [lia|].
    intros Hs Hnil. apply string_bytes_nonempty in Hs.
    rewrite Hnil in Hs. simpl in Hs. lia. }
  destruct (Z.leb_spec (len (string_bytes s)) 0xff).
  { eexists _, _. split; [reflexivity|]. split; [lia | done]. }
  destruct (Z.leb_spec (len (string_bytes s)) 0xffff).
  { eexists _, _. split; [reflexivity|]. split; [lia | done]. }
  destruct (Z.leb_spec (len (string_bytes s)) 0xffffff).
  { eexists _, _. split; [reflexivity|]. split; [lia | done]. }
  eexists _, _. split; [reflexivity|]. split; [lia | done].
Qed.

(** The sentinel loop of the decoder does not end on [DF 61]: the string
    tag [61] without its length byte decodes to the empty string and gives
    back the whole input as the rest, so the loop makes no progress.  No
    amount of fuel gives a result. *)
Lemma unpack_items_until_stuck `{Float} n : forall fuel objectList output,
  unpack_items_until (_unpack fuel) n [0x61] objectList output = OutOfFuel.
Proof.
  induction n as [|n IH]; intros fuel objectList output; [done|].
  cbn [unpack_items_until].
  rewrite bool_decide_eq_false_2 by (by vm_compute).
  destruct fuel as [|fuel]; [done|].
  change (_unpack (S fuel) [0x61] objectList)
    with (finish true (VString "") [0x61] objectList).
  unfold finish. apply IH.
Qed.

Lemma unpack_sentinel_diverges `{Float} fuel :
  _unpack fuel [0xDF; 0x61] [] = OutOfFuel.
Proof.
  destruct fuel as [|fuel]; [done|].
  change (_unpack (S fuel) [0xDF; 0x61] [])
    with (match unpack_items_until (_unpack fuel) fuel [0x61] [] [] with
          | Done (output, ptr, objectList') =>
              finish false (VArray output) (subarray_from ptr 1) objectList'
          | Raised e => Raised e
          | OutOfFuel => OutOfFuel
          | PrototypeReplaced => PrototypeReplaced
          end).
  by rewrite unpack_items_until_stuck.
Qed.

End OpackFacts.

Section OpackClaims.
Import Opack.
Context `{Float}.

(** Claim C2, as stated, fails on the code: the bytes that [pack] gives for
    [["abc", "abc"]] end in [A0], not in [A1]. *)
Lemma pack_abc_abc_not_index_1 :
  pack (VArray [VString "abc"; VString "abc"])
  <> Returns [0xD2; 0x43; 0x61; 0x62; 0x63; 0xA1].
Proof. vm_compute. discriminate. Qed.

(** Claim C2, amended: [pack] applied to [["abc", "abc"]] gives the six bytes
    [D2 43 61 62 63 A0]: the second occurrence is a back-reference with
    index 0, the first encoding put into the object list being the first
    ["abc"] (the array is put there only after its items).  The same holds
    for every non-empty string in place of ["abc"]. *)
Theorem pack_repeated_string (s : string) :
  s <> "" ->
  pack (VArray [VString "abc"; VString "abc"])
    = Returns [0xD2; 0x43; 0x61; 0x62; 0x63; 0xA0] /\
  pack (VArray [VString s; VString s])
    = Returns ([0xD2] ++ packString s ++ [0xA0]) /\
  _pack (VArray [VString s; VString s]) []
    = Returns ([0xD2] ++ packString s ++ [0xA0],
               [packString s; [0xD2] ++ packString s ++ [0xA0]]).
Proof.
  intros Hs. split; [by vm_compute|].
  destruct (packString_shape s) as (tag & rest & Hp & Htag & Hrest).
  specialize (Hrest Hs).
  assert (Hlen : 1 < len (packString s)).
  { rewrite Hp. destruct rest; [done|]. simpl. lia. }
  assert (Hfirst : deduplicate (packString s) [] = (packString s, [packString s])).
  { unfold deduplicate. simpl.
    by destruct (Z.ltb_spec 1 (len (packString s))); [|lia]. }
  assert (Hsecond : deduplicate (packString s) [packString s]
                    = ([0xA0], [packString s])).
  { unfold deduplicate, findInObjectList. simpl.
    by rewrite bool_decide_eq_true_2. }
  assert (Hpack : _pack (VArray [VString s; VString s]) []
    = Returns ([0xD2] ++ packString s ++ [0xA0],
               [packString s; [0xD2] ++ packString s ++ [0xA0]])).
  { cbn [_pack]. rewrite Hfirst. cbn iota. rewrite Hsecond. cbn iota.
    change (0xf <=? len [VString s; VString s]) with false. cbn iota.
    change (0xd0 + Z.min (len [VString s; VString s]) 0xf) with 0xD2.
    replace (concat (([[0xD2]] ++ [packString s]) ++ [[0xA0]]))
      with ([0xD2] ++ packString s ++ [0xA0]) by (by simpl).
    unfold deduplicate, findInObjectList. simpl findInObjectList_from.
    rewrite bool_decide_eq_false_2.
    2: { rewrite Hp. simpl. intros [= Ht _]. lia. }
    simpl.
    destruct (Z.ltb_spec 1 (Z.of_nat (S (length (packString s ++ [0xA0])))))
      as [_|Hle]; [done|].
    rewrite length_app in Hle. simpl in Hle. lia. }
  split; [|exact Hpack].
  unfold pack. by rewrite Hpack.
Qed.

(** Claim C1 fails on the code.  The encoder puts the encoding of a
    non-empty array (or map) into its object list, the decoder does not put
    the decoded array (or map) into its list: [[[5], [5]]] is packed as
    [D2 D1 0D A0], which is unpacked as [[[5], undefined]], and in
    [[["a"], "b", "b"]] the back-reference to ["b"] has index 2 in the
    encoder's list and finds nothing in the decoder's.  Besides, a string of
    65536 bytes is packed with tag [63] and a length of three bytes, which
    [readUIntLE] in the decoder refuses. *)
Theorem unpack_pack_nested_array :
  pack (VArray [VArray [VInt 5]; VArray [VInt 5]])
    = Returns [0xD2; 0xD1; 0x0D; 0xA0] /\
  unpack_pack (VArray [VArray [VInt 5]; VArray [VInt 5]])
    = Done (VArray [VArray [VInt 5]; VUndefined], []) /\
  pack (VArray [VArray [VString "a"]; VString "b"; VString "b"])
    = Returns [0xD3; 0xD1; 0x41; 0x61; 0x41; 0x62; 0xA2] /\
  unpack_pack (VArray [VArray [VString "a"]; VString "b"; VString "b"])
    = Done (VArray [VArray [VString "a"]; VString "b"; VUndefined], []) /\
  unpack_pack (VString (letters (256 * 256)))
    = Raised (Error_ "Unsupported integer size") /\
  ~ (forall v, (exists b, pack v = Returns b) ->
               unpack_pack v = Done (v, [])).
Proof.
  split; [by vm_compute|]. split; [by vm_compute|].
  split; [by vm_compute|]. split; [by vm_compute|].
  split; [by vm_compute|].
  intros Hall.
  specialize (Hall (VArray [VArray [VInt 5]; VArray [VInt 5]])).
  assert (Hp : exists b,
    pack (VArray [VArray [VInt 5]; VArray [VInt 5]]) = Returns b)
    by (eexists; by vm_compute).
  specialize (Hall Hp). vm_compute in Hall. discriminate Hall.
Qed.

End OpackClaims.

Lemma pack_repeated_string_witness :
  Opack.pack (Opack.VArray [Opack.VString "PIN"; Opack.VString "PIN"])
  = Returns ([0xD2] ++ Opack.packString "PIN" ++ [0xA0]).
Proof.
  destruct (pack_repeated_string "PIN") as (_ & Hp & _).
  - discriminate.
  - exact Hp.
Defined.

(** ** The dispatch layer *)

Section JsMapMoreFacts.
Context {K V : Type} `{EqDecision K}.
Implicit Types (k : K) (v : V) (m : JsMap.t K V).

Lemma jsmap_get_delete_ne k k' m :
  k <> k' -> JsMap.get k (JsMap.delete k' m) = JsMap.get k m.
Proof.
  intros Hne. induction m as [|[k2 v2] m IH]; simpl; [done|].
  destruct (decide (k2 = k')) as [->|Hne2]; simpl.
  - destruct (decide (k' = k)); [congruence | done].
  - destruct (decide (k2 = k)); [done | apply IH].
Qed.

Lemma jsmap_keys_delete k k' m :
  k ∈ JsMap.keys (JsMap.delete k' m) -> k ∈ JsMap.keys m.
Proof.
  unfold JsMap.keys. rewrite !list_elem_of_fmap.
  intros ([k2 v2] & -> & Hin). exists (k2, v2). split; [done|].
  by apply jsmap_elem_delete in Hin.
Qed.

Lemma jsmap_nodup_delete k m :
  NoDup (JsMap.keys m) -> NoDup (JsMap.keys (JsMap.delete k m)).
Proof.
  induction m as [|[k2 v2] m IH]; simpl; [done|].
  unfold JsMap.keys in *. simpl. rewrite NoDup_cons. intros [Hni Hnd].
  destruct (decide (k2 = k)); [done|]. simpl. apply NoDup_cons. split; [|auto].
  intros Hin. apply Hni. by apply jsmap_keys_delete in Hin.
Qed.

Lemma jsmap_get_delete_eq k m :
  NoDup (JsMap.keys m) -> JsMap.get k (JsMap.delete k m) = None.
Proof.
  induction m as [|[k2 v2] m IH]; simpl; [done|].
  unfold JsMap.keys in *. simpl. rewrite NoDup_cons. intros [Hni Hnd].
  destruct (decide (k2 = k)) as [->|Hne]; simpl.
  - by apply jsmap_get_None.
  - destruct (decide (k2 = k)); [done | auto].
Qed.

Lemma jsmap_get_delete_None k k' m :
  JsMap.get k m = None -> JsMap.get k (JsMap.delete k' m) = None.
Proof.
  rewrite !jsmap_get_None. intros Hni Hin. apply Hni.
  by apply jsmap_keys_delete in Hin.
Qed.

Lemma jsmap_keys_set k v m :
  JsMap.keys (JsMap.set k v m)
  = if JsMap.has k m then JsMap.keys m else JsMap.keys m ++ [k].
Proof.
  unfold JsMap.has. induction m as [|[k2 v2] m IH]; [done|].
  cbn [JsMap.set JsMap.get].
  destruct (decide (k2 = k)) as [->|Hne]; [done|].
  change (JsMap.keys ((k2, v2) :: JsMap.set k v m))
    with (k2 :: JsMap.keys (JsMap.set k v m)).
  rewrite IH. by destruct (JsMap.get k m).
Qed.

Lemma jsmap_nodup_set k v m :
  NoDup (JsMap.keys m) -> NoDup (JsMap.keys (JsMap.set k v m)).
Proof.
  intros Hnd. rewrite jsmap_keys_set. unfold JsMap.has.
  destruct (JsMap.get k m) eqn:Hg; [done|].
  apply NoDup_app. split; [done|]. split; [|apply NoDup_singleton].
  intros x Hx Hx'. apply list_elem_of_singleton in Hx' as ->.
  by apply jsmap_get_None in Hg.
Qed.

(** With distinct keys, [set] leaves one entry for its key. *)
Lemma jsmap_elem_set_key k v v' m :
  NoDup (JsMap.keys m) -> (k, v') ∈ JsMap.set k v m -> v' = v.
Proof.
  induction m as [|[k2 v2] m IH]; simpl.
  - intros _ Hin. apply list_elem_of_singleton in Hin. congruence.
  - unfold JsMap.keys in *. simpl. rewrite NoDup_cons. intros [Hni Hnd].
    destruct (decide (k2 = k)) as [->|Hne]; rewrite elem_of_cons.
    + intros [Heq|Hin]; [congruence|]. exfalso. apply Hni.
      apply list_elem_of_fmap. by exists (k, v').
    + intros [Heq|Hin]; [congruence | auto].
Qed.

Lemma jsmap_elem_values (x : V) m :
  x ∈ JsMap.values m <-> exists k, (k, x) ∈ m.
Proof.
  unfold JsMap.values. rewrite list_elem_of_fmap. split.
  - intros ([k y] & -> & Hin). by exists k.
  - intros (k & Hin). by exists (k, x).
Qed.

End JsMapMoreFacts.

Section RuntimeFacts.
Import Opack Protocol.

Lemma settle_connection st p s : connection (settle st p s) = connection st.
Proof. unfold settle. by destruct (promises st !! p) as [[]|]. Qed.

Lemma settle_xid st p s : xid (settle st p s) = xid st.
Proof. unfold settle. by destruct (promises st !! p) as [[]|]. Qed.

Lemma settle_pendingRequests st p s :
  pendingRequests (settle st p s) = pendingRequests st.
Proof. unfold settle. by destruct (promises st !! p) as [[]|]. Qed.

Lemma settle_pendingAuth st p s : pendingAuth (settle st p s) = pendingAuth st.
Proof. unfold settle. by destruct (promises st !! p) as [[]|]. Qed.

Lemma settle_eventListeners st p s :
  eventListeners (settle st p s) = eventListeners st.
Proof. unfold settle. by destruct (promises st !! p) as [[]|]. Qed.

Lemma settle_onConnectionLost st p s :
  onConnectionLost (settle st p s) = onConnectionLost st.
Proof. unfold settle. by destruct (promises st !! p) as [[]|]. Qed.

Lemma settle_timers st p s : timers (settle st p s) = timers st.
Proof. unfold settle. by destruct (promises st !! p) as [[]|]. Qed.

Lemma settle_next_timer st p s : next_timer (settle st p s) = next_timer st.
Proof. unfold settle. by destruct (promises st !! p) as [[]|]. Qed.

Lemma settle_trace st p s : trace (settle st p s) = trace st.
Proof. unfold settle. by destruct (promises st !! p) as [[]|]. Qed.

Lemma settle_length st p s :
  length (promises (settle st p s)) = length (promises st).
Proof.
  unfold settle. destruct (promises st !! p) as [[]|]; try done.
  simpl. apply length_insert.
Qed.

(** Settling [p] does not touch another promise. *)
Lemma settle_lookup_ne st p q s :
  p <> q -> promises (settle st p s) !! q = promises st !! q.
Proof.
  intros Hne. unfold settle. destruct (promises st !! p) as [[]|]; try done.
  simpl. by apply list_lookup_insert_ne.
Qed.

(** A pending promise takes the state it is settled with. *)
Lemma settle_lookup_pending st p s :
  promises st !! p = Some Pending -> promises (settle st p s) !! p = Some s.
Proof.
  intros Hp. unfold settle. rewrite Hp. simpl.
  apply list_lookup_insert_eq. by eapply lookup_lt_Some.
Qed.

(** A settled promise stays as it is. *)
Lemma settle_lookup_settled st p q s x :
  promises st !! q = Some x -> x <> Pending ->
  promises (settle st p s) !! q = Some x.
Proof.
  intros Hq Hx. destruct (decide (p = q)) as [->|Hne].
  - unfold settle. rewrite Hq. by destruct x.
  - by rewrite settle_lookup_ne.
Qed.

End RuntimeFacts.

Create Rewrite HintDb fields.

#[global] Hint Rewrite
  @settle_connection @settle_xid @settle_pendingRequests @settle_pendingAuth
  @settle_eventListeners @settle_onConnectionLost @settle_timers
  @settle_next_timer @settle_trace @settle_length : fields.

Ltac fields :=
  repeat (progress (unfold Protocol.reject, Protocol.resolve,
                      Protocol.clearTimeout, Protocol.reject_lost in *;
                    simpl in *; autorewrite with fields in *)).

Section ConnectionLostFacts.
Import Opack Protocol.

(** What the loop of [connectionLost] leaves alone, and the calls it makes. *)
Lemma fold_reject_lost_frame es : forall st,
  let st' := fold_left reject_lost es st in
  pendingRequests st' = pendingRequests st /\
  pendingAuth st' = pendingAuth st /\
  onConnectionLost st' = onConnectionLost st /\
  trace st' = trace st ++ flat_map lost_calls es.
Proof.
  induction es as [|e es IH]; intros st; simpl.
  - by rewrite app_nil_r.
  - destruct (IH (reject_lost st e)) as (H1 & H2 & H3 & H4).
    rewrite H1, H2, H3, H4. fields. by rewrite <- !app_assoc.
Qed.

(** A promise that is settled before the loop is the same after it. *)
Lemma fold_reject_lost_settled es : forall st q x,
  promises st !! q = Some x -> x <> Pending ->
  promises (fold_left reject_lost es st) !! q = Some x.
Proof.
  induction es as [|e es IH]; intros st q x Hq Hx; simpl; [done|].
  apply IH; [|done]. unfold reject_lost, reject.
  by apply settle_lookup_settled.
Qed.

(** A pending promise of an entry is rejected with "Connection lost". *)
Lemma fold_reject_lost_rejects es : forall st e,
  e ∈ es ->
  promises st !! promise e = Some Pending \/
  promises st !! promise e = Some (Rejected lost) ->
  promises (fold_left reject_lost es st) !! promise e = Some (Rejected lost).
Proof.
  induction es as [|x es IH]; intros st e Hin Hp; [by apply elem_of_nil in Hin|].
  simpl. apply elem_of_cons in Hin as [<-|Hin].
  - apply fold_reject_lost_settled; [|done].
    unfold reject_lost, reject. destruct Hp as [Hp|Hp].
    + by apply settle_lookup_pending.
    + by apply settle_lookup_settled.
  - apply IH; [done|]. unfold reject_lost, reject.
    destruct (decide (promise x = promise e)) as [Heq|Hne].
    + right. rewrite Heq. destruct Hp as [Hp|Hp].
      * by apply settle_lookup_pending.
      * by apply settle_lookup_settled.
    + by rewrite settle_lookup_ne.
Qed.

(** The timers of the entries are no longer set. *)
Lemma fold_reject_lost_timers es : forall st,
  NoDup (JsMap.keys (timers st)) ->
  NoDup (JsMap.keys (timers (fold_left reject_lost es st))) /\
  (forall t, JsMap.get t (timers st) = None ->
             JsMap.get t (timers (fold_left reject_lost es st)) = None) /\
  (forall e, e ∈ es ->
             JsMap.get (timer e) (timers (fold_left reject_lost es st)) = None).
Proof.
  induction es as [|x es IH]; intros st Hnd; simpl.
  - split; [done|]. split; [done|]. intros e Hin. by apply elem_of_nil in Hin.
  - destruct (IH (reject_lost st x)) as (Hnd' & Hnone & Hin').
    { fields. by apply jsmap_nodup_delete. }
    split; [done|]. split.
    + intros t Ht. apply Hnone. fields. by apply jsmap_get_delete_None.
    + intros e Hin. apply elem_of_cons in Hin as [->|Hin]; [|auto].
      apply Hnone. fields. by apply jsmap_get_delete_eq.
Qed.

(** The calls for the promise [p] among those of the loop: one for each
    entry that holds [p]. *)
Lemma lost_calls_count p es :
  length (filter (fun c => settles p c = true) (flat_map lost_calls es))
  = length (filter (fun e => promise e = p) es).
Proof.
  induction es as [|e es IH]; [done|].
  change (flat_map lost_calls (e :: es))
    with (ClearTimeout (timer e) :: CallReject (promise e) lost
          :: flat_map lost_calls es).
  rewrite (filter_cons (fun e => promise e = p)).
  rewrite !filter_cons. simpl settles.
  destruct (decide (false = true)) as [|_]; [done|].
  destruct (decide (promise e = p)) as [Heq|Hne].
  - rewrite bool_decide_eq_true_2 by done.
    destruct (decide (true = true)); [|done]. simpl. by rewrite IH.
  - rewrite bool_decide_eq_false_2 by done.
    destruct (decide (false = true)); [done|]. by rewrite IH.
Qed.

Lemma filter_promise_none p es :
  p ∉ promise <$> es -> filter (fun x => promise x = p) es = [].
Proof.
  induction es as [|x es IH]; [done|].
  rewrite fmap_cons, not_elem_of_cons. intros [Hne Hni].
  rewrite filter_cons. destruct (decide (promise x = p)); [congruence | auto].
Qed.

Lemma promise_count_nodup es : forall e,
  NoDup (promise <$> es) -> e ∈ es ->
  length (filter (fun x => promise x = promise e) es) = 1%nat.
Proof.
  induction es as [|x es IH]; intros e Hnd Hin; [by apply elem_of_nil in Hin|].
  rewrite fmap_cons, NoDup_cons in Hnd. destruct Hnd as [Hni Hnd].
  rewrite filter_cons. apply elem_of_cons in Hin as [->|Hin].
  - destruct (decide (promise x = promise x)); [|done].
    by rewrite filter_promise_none.
  - destruct (decide (promise x = promise e)) as [Heq|Hne]; [|auto].
    exfalso. apply Hni. rewrite Heq. by apply list_elem_of_fmap_2.
Qed.

End ConnectionLostFacts.

(** *** An exchange that the tables no longer know *)

Section OrphanFacts.
Import Chacha Connection Opack Protocol.
Context `{AEAD} `{Float}.
Variables (p t : nat) (rt ft : Z).

Lemma orphan_log st e : orphan st p t rt ft -> orphan (log st e) p t rt ft.
Proof. done. Qed.

Lemma orphan_set_connection st c :
  orphan st p t rt ft -> orphan (set_connection st c) p t rt ft.
Proof. done. Qed.

Lemma orphan_set_xid st x :
  orphan st p t rt ft -> orphan (set_xid st x) p t rt ft.
Proof. done. Qed.

Lemma orphan_settle st q s :
  q <> p -> orphan st p t rt ft -> orphan (settle st q s) p t rt ft.
Proof.
  intros Hq (Hp & Ht & Hr & Ha & Hc & Hn). unfold orphan.
  rewrite settle_lookup_ne by done.
  by rewrite settle_timers, settle_pendingRequests, settle_pendingAuth,
    settle_next_timer.
Qed.

Lemma orphan_reject st q e :
  q <> p -> orphan st p t rt ft -> orphan (reject st q e) p t rt ft.
Proof. intros Hq Ho. unfold reject. by apply orphan_settle, orphan_log. Qed.

Lemma orphan_resolve st q v :
  q <> p -> orphan st p t rt ft -> orphan (resolve st q v) p t rt ft.
Proof. intros Hq Ho. unfold resolve. by apply orphan_settle, orphan_log. Qed.

(** Removing another timer, with or without the call being recorded. *)
Lemma orphan_delete_timer st t' :
  t' <> t -> orphan st p t rt ft ->
  orphan (set_timers st (JsMap.delete t' (timers st)) (next_timer st))
    p t rt ft.
Proof.
  intros Ht' (Hp & (ms & Ht) & Hr & Ha & Hc & Hn). unfold orphan. simpl.
  split; [done|]. split.
  { exists ms. by rewrite jsmap_get_delete_ne. }
  split; [done|]. split; [done|]. split; [|done].
  intros t2 ms2 cb Hin. apply jsmap_elem_delete in Hin. eauto.
Qed.

Lemma orphan_clearTimeout st t' :
  t' <> t -> orphan st p t rt ft -> orphan (clearTimeout st t') p t rt ft.
Proof.
  intros Ht' Ho. unfold clearTimeout. by apply orphan_log, orphan_delete_timer.
Qed.

Lemma orphan_set_pendingAuth st m :
  (forall k e, (k, e) ∈ m -> promise e <> p /\ timer e <> t) ->
  orphan st p t rt ft -> orphan (set_pendingAuth st m) p t rt ft.
Proof. intros Hm (Hp & Ht & Hr & Ha & Hc & Hn). by unfold orphan. Qed.

Lemma orphan_set_pendingRequests st m :
  (forall k e, (k, e) ∈ m -> promise e <> p /\ timer e <> t) ->
  orphan st p t rt ft -> orphan (set_pendingRequests st m) p t rt ft.
Proof. intros Hm (Hp & Ht & Hr & Ha & Hc & Hn). by unfold orphan. Qed.

Lemma orphan_new_promise st :
  orphan st p t rt ft ->
  orphan (new_promise st).2 p t rt ft /\ (new_promise st).1 <> p.
Proof.
  intros (Hp & Ht & Hr & Ha & Hc & Hn). unfold orphan. simpl.
  pose proof (lookup_lt_Some _ _ _ Hp) as Hlt.
  split; [|lia]. split; [|done]. by apply lookup_app_l_Some.
Qed.

Lemma orphan_setTimeout st cb ms :
  callback_promise cb <> p -> orphan st p t rt ft ->
  orphan (setTimeout st cb ms).2 p t rt ft /\ (setTimeout st cb ms).1 <> t.
Proof.
  intros Hcb (Hp & (ms0 & Ht) & Hr & Ha & Hc & Hn). unfold orphan. simpl.
  split; [|lia]. split; [done|]. split.
  { exists ms0. rewrite jsmap_get_set_ne by lia. done. }
  split; [done|]. split; [done|]. split; [|lia].
  intros t2 ms2 cb2 Hin Hne. apply jsmap_elem_set in Hin as [Heq|Hin].
  - by injection Heq as -> -> ->.
  - eauto.
Qed.

Lemma orphan_reject_lost st e :
  promise e <> p -> timer e <> t ->
  orphan st p t rt ft -> orphan (reject_lost st e) p t rt ft.
Proof.
  intros Hp Ht Ho. unfold reject_lost.
  by apply orphan_reject, orphan_clearTimeout.
Qed.

Lemma orphan_fold_reject_lost es : forall st,
  (forall e, e ∈ es -> promise e <> p /\ timer e <> t) ->
  orphan st p t rt ft -> orphan (fold_left reject_lost es st) p t rt ft.
Proof.
  induction es as [|e es IH]; intros st Hes Ho; [done|]. simpl.
  apply IH.
  - intros e' Hin. apply Hes. by right.
  - destruct (Hes e) as [Hp Ht]; [left|]. by apply orphan_reject_lost.
Qed.

Lemma orphan_connectionLost st error :
  orphan st p t rt ft -> orphan (connectionLost st error) p t rt ft.
Proof.
  intros Ho. pose proof Ho as (_ & _ & Hr & Ha & _).
  unfold connectionLost.
  set (st1 := fold_left reject_lost (JsMap.values (pendingRequests st)) st).
  assert (Ho1 : orphan st1 p t rt ft).
  { apply orphan_fold_reject_lost; [|done].
    intros e (k & Hin)%jsmap_elem_values. eauto. }
  destruct (fold_reject_lost_frame (JsMap.values (pendingRequests st)) st)
    as (_ & Hauth1 & _). fold st1 in Hauth1.
  set (st2 := set_pendingRequests st1 (JsMap.clear (pendingRequests st1))).
  assert (Ho2 : orphan st2 p t rt ft).
  { apply orphan_set_pendingRequests; [|done].
    intros k e Hin. by apply elem_of_nil in Hin. }
  set (st3 := fold_left reject_lost (JsMap.values (pendingAuth st2)) st2).
  assert (Ho3 : orphan st3 p t rt ft).
  { apply orphan_fold_reject_lost; [|done].
    intros e (k & Hin)%jsmap_elem_values. subst st2. simpl in Hin.
    rewrite Hauth1 in Hin. eauto. }
  set (st4 := set_pendingAuth st3 (JsMap.clear (pendingAuth st3))).
  assert (Ho4 : orphan st4 p t rt ft).
  { apply orphan_set_pendingAuth; [|done].
    intros k e Hin. by apply elem_of_nil in Hin. }
  destruct (onConnectionLost st4); [by apply orphan_log | done].
Qed.

Lemma orphan_handleAuthFrame st frameType payload :
  orphan st p t rt ft ->
  orphan (handleAuthFrame st frameType payload).2 p t rt ft.
Proof.
  intros Ho. pose proof Ho as (_ & _ & _ & Ha & _).
  unfold handleAuthFrame.
  destruct (len payload =? 0); [done|].
  destruct (unpack payload) as [[data rest]| | |]; [|done|done|done].
  destruct (JsMap.get frameType (pendingAuth st)) as [pending|] eqn:Hg;
    [|done].
  apply jsmap_get_Some_elem, Ha in Hg as [Hp Ht]. simpl.
  apply orphan_resolve; [done|].
  apply orphan_set_pendingAuth.
  - intros k e Hin. simpl in Hin. apply jsmap_elem_delete in Hin. eauto.
  - by apply orphan_clearTimeout.
Qed.

Lemma orphan_call_listeners ls : forall st content,
  orphan st p t rt ft -> orphan (call_listeners st ls content) p t rt ft.
Proof.
  induction ls as [|l ls IH]; intros st content Ho; [done|].
  apply IH. by apply orphan_log.
Qed.

Lemma orphan_emit st eventName content :
  orphan st p t rt ft -> orphan (emit st eventName content).2 p t rt ft.
Proof.
  intros Ho. unfold emit. repeat case_match; by apply orphan_log.
Qed.

Lemma get_by_value_elem {V} (key : value) (m : JsMap.t Z V) v :
  get_by_value key m = Some v -> exists k, (k, v) ∈ m.
Proof.
  destruct key; try done. simpl. intros Hg%jsmap_get_Some_elem. eauto.
Qed.

Lemma delete_by_value_elem {V} (key : value) (m : JsMap.t Z V) kv :
  kv ∈ delete_by_value key m -> kv ∈ m.
Proof. destruct key; try done. simpl. apply jsmap_elem_delete. Qed.

Lemma orphan_handleOpack st frameType data :
  orphan st p t rt ft -> orphan (handleOpack st frameType data).2 p t rt ft.
Proof.
  intros Ho. pose proof Ho as (_ & _ & Hr & _).
  unfold handleOpack.
  destruct (get_prop data "_t") as [messageType|]; [|done].
  destruct messageType as [| | |n| | | | | |]; try done.
  destruct n as [|n|]; try done.
  destruct n as [n|n|]; try done.
  - (* Response *)
    destruct n; try done.
    destruct (get_by_value _ _) as [pending|] eqn:Hg; [|done].
    apply get_by_value_elem in Hg as (k & Hin).
    apply Hr in Hin as [Hp Ht]. simpl.
    apply orphan_resolve; [done|].
    apply orphan_set_pendingRequests.
    + intros k' e Hin. simpl in Hin. apply delete_by_value_elem in Hin. eauto.
    + by apply orphan_clearTimeout.
  - (* Event *)
    apply orphan_emit. repeat case_match; try done;
      by apply orphan_call_listeners.
Qed.

Lemma orphan_frameReceived st frameType payload :
  orphan st p t rt ft ->
  orphan (frameReceived st frameType payload).2 p t rt ft.
Proof.
  intros Ho. unfold frameReceived.
  destruct (_ && _); [by apply orphan_handleAuthFrame|].
  destruct (_ || _); [|done].
  destruct (len payload =? 0); [done|].
  destruct (unpack payload) as [[v rest]| | |]; [|done|done|done].
  by apply orphan_handleOpack.
Qed.

Lemma orphan_send_or_reject st q frameType data :
  q <> p -> orphan st p t rt ft ->
  orphan (send_or_reject st q frameType data) p t rt ft.
Proof.
  intros Hq Ho. unfold send_or_reject.
  destruct (pack data) as [packed|e]; [|by apply orphan_reject].
  destruct (send _ _ _) as [[[]|e] c].
  - by apply orphan_set_connection.
  - by apply orphan_reject, orphan_set_connection.
Qed.

Lemma orphan_exchangeAuth st frameType data timeout :
  orphan st p t rt ft ->
  orphan (exchangeAuth st frameType data timeout).2 p t rt ft /\
  (exchangeAuth st frameType data timeout).1 <> p.
Proof.
  intros Ho. unfold exchangeAuth.
  destruct (orphan_new_promise st Ho) as [Ho1 Hq].
  destruct (new_promise st) as [q st1]. simpl in Ho1, Hq.
  destruct (orphan_setTimeout st1
              (AuthTimeout (responseType frameType) frameType q) timeout
              Hq Ho1) as [Ho2 Ht2].
  destruct (setTimeout st1 _ timeout) as [tq st2]. simpl in Ho2, Ht2.
  simpl. split; [|done].
  apply orphan_send_or_reject; [done|].
  pose proof Ho2 as (_ & _ & _ & Ha & _).
  apply orphan_set_pendingAuth; [|done].
  intros k e [Heq|Hin]%jsmap_elem_set; [|eauto].
  injection Heq as -> ->. done.
Qed.

Lemma orphan_exchangeOpack st data frameType timeout :
  orphan st p t rt ft ->
  orphan (exchangeOpack st data frameType timeout).2 p t rt ft.
Proof.
  intros Ho. unfold exchangeOpack.
  assert (Ho0 : orphan (set_xid st (increment (xid st))) p t rt ft) by done.
  destruct (orphan_new_promise _ Ho0) as [Ho1 Hq].
  destruct (new_promise (set_xid st (increment (xid st)))) as [q st1].
  simpl in Ho1, Hq.
  destruct (orphan_setTimeout st1 (OpackTimeout (xid st) q) timeout Hq Ho1)
    as [Ho2 Ht2].
  destruct (setTimeout st1 _ timeout) as [tq st2]. simpl in Ho2, Ht2.
  simpl.
  apply orphan_send_or_reject; [done|].
  pose proof Ho2 as (_ & _ & Hr & _).
  apply orphan_set_pendingRequests; [|done].
  intros k e [Heq|Hin]%jsmap_elem_set; [|eauto].
  injection Heq as -> ->. done.
Qed.

Lemma orphan_sendEvent st identifier content :
  orphan st p t rt ft -> orphan (sendEvent st identifier content).2 p t rt ft.
Proof.
  intros Ho. unfold sendEvent.
  destruct (pack _) as [packed|e]; [|done].
  by destruct (send _ _ _) as [r c].
Qed.

Lemma orphan_fire_timer st t' :
  t' <> t -> orphan st p t rt ft -> orphan (fire_timer st t') p t rt ft.
Proof.
  intros Ht' Ho. pose proof Ho as (_ & _ & Hr & Ha & Hc & _).
  unfold fire_timer.
  destruct (JsMap.get t' (timers st)) as [[ms cb]|] eqn:Hg; [|done].
  apply jsmap_get_Some_elem in Hg. specialize (Hc _ _ _ Hg Ht').
  pose proof (orphan_delete_timer st t' Ht' Ho) as Ho1.
  destruct cb as [responseType frameType q|xid_ q]; simpl in Hc |- *.
  - apply orphan_reject; [done|].
    apply orphan_set_pendingAuth; [|done].
    intros k e Hin. simpl in Hin. apply jsmap_elem_delete in Hin. eauto.
  - apply orphan_reject; [done|].
    apply orphan_set_pendingRequests; [|done].
    intros k e Hin. simpl in Hin. apply jsmap_elem_delete in Hin. eauto.
Qed.

(** Nothing that happens to the dispatcher, except the expiry of its own
    timer, touches an orphaned exchange. *)
Lemma orphan_step st ev :
  ev <> TimerFired t -> orphan st p t rt ft -> orphan (step st ev) p t rt ft.
Proof.
  intros Hev Ho. destruct ev; simpl.
  - by apply orphan_frameReceived.
  - by apply orphan_connectionLost.
  - apply orphan_fire_timer; [congruence | done].
  - by apply orphan_exchangeAuth.
  - by apply orphan_exchangeOpack.
  - by apply orphan_exchangeOpack.
  - by apply orphan_sendEvent.
  - by apply orphan_sendEvent.
  - done.
  - done.
  - done.
  - done.
Qed.

Lemma orphan_run_events evs : forall st,
  TimerFired t ∉ evs -> orphan st p t rt ft ->
  orphan (run_events st evs) p t rt ft.
Proof.
  induction evs as [|ev evs IH]; intros st Hni Ho; [done|].
  apply not_elem_of_cons in Hni as [Hne Hni].
  simpl. apply IH; [done|]. apply orphan_step; [congruence | done].
Qed.

(** The expiry of its own timer rejects the orphaned exchange. *)
Lemma orphan_timeout st :
  orphan st p t rt ft ->
  promises (fire_timer st t) !! p
  = Some (Rejected
            (Error_ ("Auth exchange timeout for frame type " +:+ pretty ft))).
Proof.
  intros (Hp & (ms & Ht) & _). unfold fire_timer. rewrite Ht. simpl.
  unfold reject. by apply settle_lookup_pending.
Qed.

End OrphanFacts.

(** *** A promise is settled once *)

Section SettledFacts.
Import Chacha Connection Opack Protocol.
Context `{AEAD} `{Float}.

Lemma kept_refl st : settled_kept st st.
Proof. by intros q x. Qed.

Lemma kept_trans st1 st2 st3 :
  settled_kept st1 st2 -> settled_kept st2 st3 -> settled_kept st1 st3.
Proof. intros H12 H23 q x Hq Hx. apply H23; [|done]. by apply H12. Qed.

(** States with the same promises. *)
Lemma kept_same st st' : promises st' = promises st -> settled_kept st st'.
Proof. intros Heq q x Hq Hx. by rewrite Heq. Qed.

Lemma kept_settle st p s : settled_kept st (settle st p s).
Proof. intros q x Hq Hx. by apply settle_lookup_settled. Qed.

Lemma kept_reject st p e : settled_kept st (reject st p e).
Proof. unfold reject. apply (kept_trans _ (log st (CallReject p e))); [by apply kept_same|]. apply kept_settle. Qed.

Lemma kept_resolve st p v : settled_kept st (resolve st p v).
Proof. unfold resolve. apply (kept_trans _ (log st (CallResolve p v))); [by apply kept_same|]. apply kept_settle. Qed.

Lemma kept_reject_lost st e : settled_kept st (reject_lost st e).
Proof.
  unfold reject_lost. eapply kept_trans; [|apply kept_reject]. by apply kept_same.
Qed.

Lemma kept_fold_reject_lost es st :
  settled_kept st (fold_left reject_lost es st).
Proof. intros q x. apply fold_reject_lost_settled. Qed.

Lemma kept_connectionLost st error :
  settled_kept st (connectionLost st error).
Proof.
  unfold connectionLost.
  eapply kept_trans; [apply (kept_fold_reject_lost (JsMap.values (pendingRequests st)))|].
  set (st1 := fold_left reject_lost _ st).
  set (st2 := set_pendingRequests st1 _).
  eapply (kept_trans _ st2); [by apply kept_same|].
  eapply kept_trans; [apply (kept_fold_reject_lost (JsMap.values (pendingAuth st2)))|].
  set (st3 := fold_left reject_lost _ st2).
  by destruct (onConnectionLost _); apply kept_same.
Qed.

Lemma kept_handleAuthFrame st frameType payload :
  settled_kept st (handleAuthFrame st frameType payload).2.
Proof.
  unfold handleAuthFrame. repeat case_match; try apply kept_refl.
  simpl. eapply kept_trans; [|apply kept_resolve]. by apply kept_same.
Qed.

Lemma call_listeners_promises ls : forall st content,
  promises (call_listeners st ls content) = promises st.
Proof.
  induction ls as [|l ls IH]; intros st content; [done|].
  simpl. by rewrite IH.
Qed.

Lemma kept_handleOpack st frameType data :
  settled_kept st (handleOpack st frameType data).2.
Proof.
  unfold handleOpack, emit.
  repeat case_match; simplify_eq; simpl; try apply kept_refl;
    try (apply kept_same; simpl; by rewrite ?call_listeners_promises).
  all: eapply kept_trans; [|apply kept_resolve]; by apply kept_same.
Qed.

Lemma kept_frameReceived st frameType payload :
  settled_kept st (frameReceived st frameType payload).2.
Proof.
  unfold frameReceived. repeat case_match; try apply kept_refl.
  - apply kept_handleAuthFrame.
  - apply kept_handleOpack.
Qed.

Lemma kept_send_or_reject st p frameType data :
  settled_kept st (send_or_reject st p frameType data).
Proof.
  unfold send_or_reject. repeat case_match; try apply kept_reject.
  - by apply kept_same.
  - eapply kept_trans; [|apply kept_reject]. by apply kept_same.
Qed.

Lemma kept_exchangeAuth st frameType data timeout :
  settled_kept st (exchangeAuth st frameType data timeout).2.
Proof.
  unfold exchangeAuth. simpl.
  eapply kept_trans; [|apply kept_send_or_reject].
  intros q x Hq Hx. simpl. by apply lookup_app_l_Some.
Qed.

Lemma kept_exchangeOpack st data frameType timeout :
  settled_kept st (exchangeOpack st data frameType timeout).2.
Proof.
  unfold exchangeOpack. simpl.
  eapply kept_trans; [|apply kept_send_or_reject].
  intros q x Hq Hx. simpl. by apply lookup_app_l_Some.
Qed.

Lemma kept_sendEvent st identifier content :
  settled_kept st (sendEvent st identifier content).2.
Proof. unfold sendEvent. repeat case_match; by apply kept_same. Qed.

Lemma kept_fire_timer st t : settled_kept st (fire_timer st t).
Proof.
  unfold fire_timer, run_callback. repeat case_match; try apply kept_refl.
  all: eapply kept_trans; [|apply kept_reject]; by apply kept_same.
Qed.

(** Whatever happens, a settled promise keeps its state. *)
Lemma kept_step st ev : settled_kept st (step st ev).
Proof.
  destruct ev; simpl.
  - apply kept_frameReceived.
  - apply kept_connectionLost.
  - apply kept_fire_timer.
  - apply kept_exchangeAuth.
  - apply kept_exchangeOpack.
  - apply kept_exchangeOpack.
  - apply kept_sendEvent.
  - apply kept_sendEvent.
  - by apply kept_same.
  - by apply kept_same.
  - by apply kept_same.
  - by apply kept_same.
Qed.

Lemma kept_run_events evs : forall st, settled_kept st (run_events st evs).
Proof.
  induction evs as [|ev evs IH]; intros st; [apply kept_refl|].
  simpl. eapply kept_trans; [apply kept_step | apply IH].
Qed.

End SettledFacts.

(** *** The two exchanges and the loss of the connection, step by step *)

Section ExchangeFacts.
Import Chacha Connection Opack Protocol.
Context `{AEAD} `{Float}.

Lemma fold_reject_lost_pending es : forall st q,
  promises st !! q = Some Pending \/ promises st !! q = Some (Rejected lost) ->
  promises (fold_left reject_lost es st) !! q = Some Pending \/
  promises (fold_left reject_lost es st) !! q = Some (Rejected lost).
Proof.
  induction es as [|e es IH]; intros st q Hq; [done|]. simpl. apply IH.
  unfold reject_lost, reject.
  destruct (decide (promise e = q)) as [<-|Hne].
  - right. destruct Hq as [Hq|Hq].
    + by apply settle_lookup_pending.
    + by apply settle_lookup_settled.
  - by rewrite settle_lookup_ne.
Qed.

(** [connectionLost] with its two loops laid out. *)
Lemma connectionLost_unfold st error :
  connectionLost st error =
  let st1 := fold_left reject_lost (JsMap.values (pendingRequests st)) st in
  let st2 := set_pendingRequests st1 [] in
  let st3 := fold_left reject_lost (JsMap.values (pendingAuth st)) st2 in
  let st4 := set_pendingAuth st3 [] in
  match onConnectionLost st with
  | Some h => log st4 (CallOnConnectionLost h error)
  | None => st4
  end.
Proof.
  unfold connectionLost. cbv zeta. unfold JsMap.clear.
  destruct (fold_reject_lost_frame (JsMap.values (pendingRequests st)) st)
    as (_ & Hauth1 & Hlost1 & _). cbv zeta in Hauth1, Hlost1.
  repeat match goal with
  | |- context [pendingAuth (set_pendingRequests ?a ?b)] =>
      change (pendingAuth (set_pendingRequests a b)) with (pendingAuth a)
  | |- context [onConnectionLost (set_pendingAuth ?a ?b)] =>
      change (onConnectionLost (set_pendingAuth a b))
        with (onConnectionLost a)
  end.
  rewrite !Hauth1.
  match goal with
  | |- context [fold_left reject_lost ?es (set_pendingRequests ?s ?m)] =>
      destruct (fold_reject_lost_frame es (set_pendingRequests s m))
        as (_ & _ & Hlost3 & _)
  end.
  cbv zeta in Hlost3. rewrite Hlost3.
  change (onConnectionLost (set_pendingRequests ?a ?b))
    with (onConnectionLost a).
  by rewrite Hlost1.
Qed.

(** Every pending promise of an entry of either table ends rejected. *)
Lemma connectionLost_rejects_entries st error e :
  e ∈ JsMap.values (pendingRequests st) ++ JsMap.values (pendingAuth st) ->
  promises st !! promise e = Some Pending ->
  promises (connectionLost st error) !! promise e = Some (Rejected lost).
Proof.
  intros Hin Hp. rewrite connectionLost_unfold. cbv zeta.
  set (st3 := fold_left reject_lost (JsMap.values (pendingAuth st)) _).
  assert (H3 : promises st3 !! promise e = Some (Rejected lost)).
  { subst st3. apply elem_of_app in Hin as [Hin|Hin].
    - apply fold_reject_lost_settled; [|done]. simpl.
      apply fold_reject_lost_rejects; auto.
    - apply fold_reject_lost_rejects; [done|]. simpl.
      apply fold_reject_lost_pending. auto. }
  by destruct (onConnectionLost st).
Qed.

Lemma obj_set_x_command identifier content v :
  obj_set "_x" v (command identifier content)
  = command identifier content ++ [("_x", v)].
Proof. reflexivity. Qed.

Lemma send_or_reject_frame st p frameType data :
  let st' := send_or_reject st p frameType data in
  xid st' = xid st /\ pendingRequests st' = pendingRequests st /\
  pendingAuth st' = pendingAuth st /\ timers st' = timers st /\
  next_timer st' = next_timer st /\
  length (promises st') = length (promises st) /\
  forall packed, pack data = Returns packed ->
    connection st' = (send (connection st) frameType packed).2.
Proof.
  unfold send_or_reject. destruct (pack data) as [packed|e].
  - destruct (send (connection st) frameType packed) as [[[]|e] c] eqn:Hs;
      fields; repeat split; try done; by intros ? [= <-]; rewrite Hs.
  - fields. repeat split; done.
Qed.

Lemma send_or_reject_promise st p q frameType data :
  q <> p ->
  promises (send_or_reject st q frameType data) !! p = promises st !! p.
Proof.
  intros Hq. unfold send_or_reject. repeat case_match; simpl; try done;
    unfold reject; by rewrite settle_lookup_ne.
Qed.

(** What a first [exchangeAuth] leaves behind, if its frame could be sent. *)
Lemma exchangeAuth_awaiting st frameType data timeout :
  wf st ->
  let r := exchangeAuth st frameType data timeout in
  promises r.2 !! r.1 = Some Pending ->
  awaiting r.2 r.1 (next_timer st) (responseType frameType) frameType.
Proof.
  intros (Hent & Htim & Hnd & _) r. subst r.
  unfold exchangeAuth. simpl. intros Hp.
  match goal with
  | |- context [send_or_reject ?s ?q ?f ?d] =>
      destruct (send_or_reject_frame s q f d)
        as (_ & Hr & Ha & Ht & Hn & _ & _)
  end.
  unfold awaiting. rewrite Hr, Ha, Ht, Hn. simpl.
  split; [apply jsmap_get_set_eq|]. split; [done|]. split.
  { exists timeout. apply jsmap_get_set_eq. }
  split.
  { intros k e Hin. destruct (Hent k e) as [? ?]; [|lia].
    apply elem_of_app. by left. }
  split.
  { intros k e [Heq|Hin]%jsmap_elem_set Hk; [congruence|].
    destruct (Hent k e) as [? ?]; [|lia]. apply elem_of_app. by right. }
  split.
  { intros t' ms cb [Heq|Hin]%jsmap_elem_set Ht'; [congruence|].
    destruct (Htim _ _ _ Hin). lia. }
  split; [by apply jsmap_nodup_set | lia].
Qed.

(** A second [exchangeAuth] for the same reply type orphans the first. *)
Lemma exchangeAuth_orphans st p1 t1 rt ft1 ft2 data timeout :
  awaiting st p1 t1 rt ft1 -> responseType ft2 = rt ->
  let r := exchangeAuth st ft2 data timeout in
  orphan r.2 p1 t1 rt ft1 /\
  r.1 <> p1 /\
  JsMap.get rt (pendingAuth r.2)
    = Some {| promise := r.1; timer := next_timer st |} /\
  next_timer st <> t1.
Proof.
  intros (Hg & Hp & (ms & Ht) & Hreq & Hauth & Htim & Hnd & Hlt) Hrt r.
  subst r. unfold exchangeAuth. rewrite Hrt. simpl.
  pose proof (lookup_lt_Some _ _ _ Hp) as Hlen.
  match goal with
  | |- context [send_or_reject ?s ?q ?f ?d] =>
      destruct (send_or_reject_frame s q f d)
        as (_ & Hr' & Ha' & Ht' & Hn' & _ & _);
      pose proof (send_or_reject_promise s p1 q f d) as Hp'
  end.
  split.
  { unfold orphan. rewrite Hr', Ha', Ht', Hn', Hp' by lia. simpl.
    split; [by apply lookup_app_l_Some|]. split.
    { exists ms. by rewrite jsmap_get_set_ne by lia. }
    split; [done|]. split.
    { intros k e Hin. destruct (decide (k = rt)) as [->|Hk].
      - apply jsmap_elem_set_key in Hin as ->; [|done]. simpl. lia.
      - apply jsmap_elem_set in Hin as [Heq|Hin]; [congruence | eauto]. }
    split; [|lia].
    intros t' ms' cb [Heq|Hin]%jsmap_elem_set Hne; [|eauto].
    injection Heq as -> -> ->. simpl. lia. }
  split; [lia|]. split; [|lia].
  rewrite Ha'. simpl. apply jsmap_get_set_eq.
Qed.

End ExchangeFacts.

(** *** An exchange that is awaited *)

Section AwaitingFacts.
Import Chacha Connection Opack Protocol.
Context `{AEAD} `{Float}.
Variables (p t : nat) (rt ft : Z).

Lemma jsmap_elem_delete_key {V} (k k' : Z) (v : V) (m : JsMap.t Z V) :
  NoDup (JsMap.keys m) -> (k', v) ∈ JsMap.delete k m -> k' <> k.
Proof.
  induction m as [|[k2 v2] m IH]; simpl; [intros _ Hin; by apply elem_of_nil in Hin|].
  unfold JsMap.keys in *. simpl. rewrite NoDup_cons. intros [Hni Hnd].
  destruct (decide (k2 = k)) as [->|Hne].
  - intros Hin ->. apply Hni. apply list_elem_of_fmap. by exists (k, v).
  - rewrite elem_of_cons. intros [[= -> ->]|Hin]; [done | auto].
Qed.

Lemma awaiting_log st e : awaiting st p t rt ft -> awaiting (log st e) p t rt ft.
Proof. done. Qed.

Lemma awaiting_set_connection st c :
  awaiting st p t rt ft -> awaiting (set_connection st c) p t rt ft.
Proof. done. Qed.

Lemma awaiting_settle st q s :
  q <> p -> awaiting st p t rt ft -> awaiting (settle st q s) p t rt ft.
Proof.
  intros Hq Haw. unfold awaiting in *.
  rewrite settle_lookup_ne by done.
  by rewrite settle_timers, settle_pendingRequests, settle_pendingAuth,
    settle_next_timer.
Qed.

Lemma awaiting_reject st q e :
  q <> p -> awaiting st p t rt ft -> awaiting (reject st q e) p t rt ft.
Proof. intros Hq Ho. unfold reject. by apply awaiting_settle, awaiting_log. Qed.

Lemma awaiting_resolve st q v :
  q <> p -> awaiting st p t rt ft -> awaiting (resolve st q v) p t rt ft.
Proof. intros Hq Ho. unfold resolve. by apply awaiting_settle, awaiting_log. Qed.

Lemma awaiting_delete_timer st t' :
  t' <> t -> awaiting st p t rt ft ->
  awaiting (set_timers st (JsMap.delete t' (timers st)) (next_timer st))
    p t rt ft.
Proof.
  intros Ht' (Hg & Hp & (ms & Ht) & Hr & Ha & Hc & Hnd & Hn).
  unfold awaiting. simpl.
  split; [done|]. split; [done|]. split.
  { exists ms. by rewrite jsmap_get_delete_ne. }
  split; [done|]. split; [done|]. split; [|done].
  intros t2 ms2 cb Hin. apply jsmap_elem_delete in Hin. eauto.
Qed.

Lemma awaiting_clearTimeout st t' :
  t' <> t -> awaiting st p t rt ft -> awaiting (clearTimeout st t') p t rt ft.
Proof.
  intros Ht' Ho. unfold clearTimeout.
  by apply awaiting_log, awaiting_delete_timer.
Qed.

Lemma awaiting_set_pendingRequests st m :
  (forall k e, (k, e) ∈ m -> promise e <> p /\ timer e <> t) ->
  awaiting st p t rt ft -> awaiting (set_pendingRequests st m) p t rt ft.
Proof. intros Hm (Hg & Hp & Ht & Hr & Ha & Hc & Hnd & Hn). by unfold awaiting. Qed.

(** Another key of the pending-auth table is deleted. *)
Lemma awaiting_delete_auth st k :
  k <> rt -> awaiting st p t rt ft ->
  awaiting (set_pendingAuth st (JsMap.delete k (pendingAuth st))) p t rt ft.
Proof.
  intros Hk (Hg & Hp & Ht & Hr & Ha & Hc & Hnd & Hn). unfold awaiting. simpl.
  split; [by rewrite jsmap_get_delete_ne|].
  split; [done|]. split; [done|]. split; [done|]. split.
  { intros k' e Hin. apply jsmap_elem_delete in Hin. eauto. }
  split; [done|]. split; [by apply jsmap_nodup_delete | done].
Qed.

(** Another key of the pending-auth table is set, to an entry with other
    numbers. *)
Lemma awaiting_set_auth st k e :
  k <> rt -> promise e <> p -> timer e <> t -> awaiting st p t rt ft ->
  awaiting (set_pendingAuth st (JsMap.set k e (pendingAuth st))) p t rt ft.
Proof.
  intros Hk Hep Het (Hg & Hp & Ht & Hr & Ha & Hc & Hnd & Hn).
  unfold awaiting. simpl.
  split; [by rewrite jsmap_get_set_ne|].
  split; [done|]. split; [done|]. split; [done|]. split.
  { intros k' e' [Heq|Hin]%jsmap_elem_set; [|eauto].
    by injection Heq as -> ->. }
  split; [done|]. split; [by apply jsmap_nodup_set | done].
Qed.

Lemma awaiting_new_promise st :
  awaiting st p t rt ft ->
  awaiting (new_promise st).2 p t rt ft /\ (new_promise st).1 <> p.
Proof.
  intros (Hg & Hp & Ht & Hr & Ha & Hc & Hnd & Hn). unfold awaiting. simpl.
  pose proof (lookup_lt_Some _ _ _ Hp) as Hlt.
  split; [|lia]. split; [done|]. split; [|done]. by apply lookup_app_l_Some.
Qed.

Lemma awaiting_setTimeout st cb ms :
  callback_promise cb <> p -> awaiting st p t rt ft ->
  awaiting (setTimeout st cb ms).2 p t rt ft /\ (setTimeout st cb ms).1 <> t.
Proof.
  intros Hcb (Hg & Hp & (ms0 & Ht) & Hr & Ha & Hc & Hnd & Hn).
  unfold awaiting. simpl.
  split; [|lia]. split; [done|]. split; [done|]. split.
  { exists ms0. rewrite jsmap_get_set_ne by lia. done. }
  split; [done|]. split; [done|]. split; [|split; [done | lia]].
  intros t2 ms2 cb2 Hin Hne. apply jsmap_elem_set in Hin as [Heq|Hin].
  - by injection Heq as -> -> ->.
  - eauto.
Qed.

Lemma awaiting_call_listeners ls : forall st content,
  awaiting st p t rt ft -> awaiting (call_listeners st ls content) p t rt ft.
Proof.
  induction ls as [|l ls IH]; intros st content Ho; [done|].
  apply IH. by apply awaiting_log.
Qed.

Lemma awaiting_emit st eventName content :
  awaiting st p t rt ft -> awaiting (emit st eventName content).2 p t rt ft.
Proof.
  intros Ho. unfold emit. repeat case_match; by apply awaiting_log.
Qed.

Lemma awaiting_handleOpack st frameType data :
  awaiting st p t rt ft -> awaiting (handleOpack st frameType data).2 p t rt ft.
Proof.
  intros Ho. pose proof Ho as (_ & _ & _ & Hr & _).
  unfold handleOpack.
  destruct (get_prop data "_t") as [messageType|]; [|done].
  destruct messageType as [| | |n| | | | | |]; try done.
  destruct n as [|n|]; try done.
  destruct n as [n|n|]; try done.
  - destruct n; try done.
    destruct (get_by_value _ _) as [pending|] eqn:Hg; [|done].
    apply get_by_value_elem in Hg as (k & Hin).
    apply Hr in Hin as [Hp Ht]. simpl.
    apply awaiting_resolve; [done|].
    apply awaiting_set_pendingRequests.
    + intros k' e Hin. simpl in Hin. apply delete_by_value_elem in Hin. eauto.
    + by apply awaiting_clearTimeout.
  - apply awaiting_emit. repeat case_match; try done;
      by apply awaiting_call_listeners.
Qed.

Lemma awaiting_send_or_reject st q frameType data :
  q <> p -> awaiting st p t rt ft ->
  awaiting (send_or_reject st q frameType data) p t rt ft.
Proof.
  intros Hq Ho. unfold send_or_reject.
  destruct (pack data) as [packed|e]; [|by apply awaiting_reject].
  destruct (send _ _ _) as [[[]|e] c].
  - by apply awaiting_set_connection.
  - by apply awaiting_reject, awaiting_set_connection.
Qed.

Lemma awaiting_exchangeOpack st data frameType timeout :
  awaiting st p t rt ft ->
  awaiting (exchangeOpack st data frameType timeout).2 p t rt ft.
Proof.
  intros Ho. unfold exchangeOpack.
  assert (Ho0 : awaiting (set_xid st (increment (xid st))) p t rt ft) by done.
  destruct (awaiting_new_promise _ Ho0) as [Ho1 Hq].
  destruct (new_promise (set_xid st (increment (xid st)))) as [q st1].
  simpl in Ho1, Hq.
  destruct (awaiting_setTimeout st1 (OpackTimeout (xid st) q) timeout Hq Ho1)
    as [Ho2 Ht2].
  destruct (setTimeout st1 _ timeout) as [tq st2]. simpl in Ho2, Ht2.
  simpl.
  apply awaiting_send_or_reject; [done|].
  pose proof Ho2 as (_ & _ & _ & Hr & _).
  apply awaiting_set_pendingRequests; [|done].
  intros k e [Heq|Hin]%jsmap_elem_set; [|eauto].
  injection Heq as -> ->. done.
Qed.

Lemma awaiting_sendEvent st identifier content :
  awaiting st p t rt ft -> awaiting (sendEvent st identifier content).2 p t rt ft.
Proof.
  intros Ho. unfold sendEvent.
  destruct (pack _) as [packed|e]; [|done].
  by destruct (send _ _ _) as [r c].
Qed.

(** An awaited exchange whose promise gets settled. *)
Lemma settled_after_settle st s :
  s <> Pending -> promises st !! p = Some Pending -> settled (settle st p s) p.
Proof.
  intros Hs Hp. exists s. split; [|done]. by apply settle_lookup_pending.
Qed.

Lemma lifecycle_handleAuthFrame st frameType payload :
  awaiting st p t rt ft ->
  lifecycle (handleAuthFrame st frameType payload).2 p t rt ft.
Proof.
  intros Ho. pose proof Ho as (Hg & Hp & _ & _ & Ha & _).
  unfold handleAuthFrame.
  destruct (len payload =? 0); [by left|].
  destruct (unpack payload) as [[data rest]| | |]; [|by left|by left|by left].
  destruct (decide (frameType = rt)) as [->|Hne].
  - rewrite Hg. simpl. right. right. unfold resolve.
    by apply settled_after_settle.
  - destruct (JsMap.get frameType (pendingAuth st)) as [pending|] eqn:Hg';
      [|by left].
    apply jsmap_get_Some_elem in Hg'. destruct (Ha _ _ Hg' Hne) as [Hp' Ht'].
    left. simpl. apply awaiting_resolve; [done|].
    by apply (awaiting_delete_auth (clearTimeout st (timer pending))),
      awaiting_clearTimeout.
Qed.

Lemma lifecycle_frameReceived st frameType payload :
  awaiting st p t rt ft ->
  lifecycle (frameReceived st frameType payload).2 p t rt ft.
Proof.
  intros Ho. unfold frameReceived.
  destruct (_ && _); [by apply lifecycle_handleAuthFrame|].
  destruct (_ || _); [|by left].
  destruct (len payload =? 0); [by left|].
  destruct (unpack payload) as [[v rest]| | |]; [|by left|by left|by left].
  left. by apply awaiting_handleOpack.
Qed.

Lemma lifecycle_connectionLost st error :
  awaiting st p t rt ft -> lifecycle (connectionLost st error) p t rt ft.
Proof.
  intros (Hg & Hp & _). right. right. exists (Rejected lost). split; [|done].
  apply (connectionLost_rejects_entries st error
           {| promise := p; timer := t |}); [|done].
  apply elem_of_app. right. apply jsmap_elem_values. exists rt.
  by apply jsmap_get_Some_elem.
Qed.

Lemma lifecycle_exchangeAuth st frameType data timeout :
  awaiting st p t rt ft ->
  lifecycle (exchangeAuth st frameType data timeout).2 p t rt ft.
Proof.
  intros Ho. destruct (decide (responseType frameType = rt)) as [Hrt|Hrt].
  - right. left.
    by destruct (exchangeAuth_orphans st p t rt ft frameType data timeout
                   Ho Hrt) as [Horph _].
  - left. unfold exchangeAuth.
    destruct (awaiting_new_promise st Ho) as [Ho1 Hq].
    destruct (new_promise st) as [q st1]. simpl in Ho1, Hq.
    destruct (awaiting_setTimeout st1
                (AuthTimeout (responseType frameType) frameType q) timeout
                Hq Ho1) as [Ho2 Ht2].
    destruct (setTimeout st1 _ timeout) as [tq st2]. simpl in Ho2, Ht2.
    simpl. apply awaiting_send_or_reject; [done|].
    by apply awaiting_set_auth.
Qed.

Lemma lifecycle_fire_timer st t' :
  awaiting st p t rt ft -> lifecycle (fire_timer st t') p t rt ft.
Proof.
  intros Ho. pose proof Ho as (Hg & Hp & (ms & Ht) & Hr & Ha & Hc & Hnd & Hn).
  unfold fire_timer. destruct (decide (t' = t)) as [->|Ht'].
  - rewrite Ht. simpl. right. right. unfold reject.
    by apply settled_after_settle.
  - destruct (JsMap.get t' (timers st)) as [[ms' cb]|] eqn:Hg'; [|by left].
    apply jsmap_get_Some_elem in Hg'. pose proof (Hc _ _ _ Hg' Ht') as Hq.
    pose proof (awaiting_delete_timer st t' Ht' Ho) as Ho1.
    destruct cb as [responseType frameType q|xid_ q]; simpl in Hq |- *.
    + destruct (decide (responseType = rt)) as [->|Hne].
      * (* the timer of an exchange orphaned earlier deletes the entry *)
        right. left. apply orphan_reject; [done|].
        unfold orphan. simpl. split; [done|]. split.
        { exists ms. by rewrite jsmap_get_delete_ne. }
        split; [done|]. split.
        { intros k e Hin.
          pose proof (jsmap_elem_delete_key _ _ _ _ Hnd Hin) as Hk.
          apply jsmap_elem_delete in Hin. eauto. }
        split; [|done].
        intros t2 ms2 cb Hin. apply jsmap_elem_delete in Hin. eauto.
      * left. apply awaiting_reject; [done|].
        by apply (awaiting_delete_auth
                    (set_timers st (JsMap.delete t' (timers st))
                       (next_timer st))).
    + left. apply awaiting_reject; [done|].
      apply awaiting_set_pendingRequests; [|done].
      intros k e Hin. simpl in Hin. apply jsmap_elem_delete in Hin. eauto.
Qed.

Lemma lifecycle_step_awaiting st ev :
  awaiting st p t rt ft -> lifecycle (step st ev) p t rt ft.
Proof.
  intros Ho. destruct ev; simpl.
  - by apply lifecycle_frameReceived.
  - by apply lifecycle_connectionLost.
  - by apply lifecycle_fire_timer.
  - by apply lifecycle_exchangeAuth.
  - left. by apply awaiting_exchangeOpack.
  - left. by apply awaiting_exchangeOpack.
  - left. by apply awaiting_sendEvent.
  - left. by apply awaiting_sendEvent.
  - by left.
  - by left.
  - by left.
  - by left.
Qed.

(** An exchange goes from awaited to orphaned to settled, never back. *)
Lemma lifecycle_step st ev :
  lifecycle st p t rt ft -> lifecycle (step st ev) p t rt ft.
Proof.
  intros [Haw|[Ho|(x & Hx & Hne)]].
  - by apply lifecycle_step_awaiting.
  - assert (Hcase : ev = TimerFired t \/ ev <> TimerFired t).
    { destruct ev as [| |t0| | | | | | | | |]; try (right; discriminate).
      destruct (decide (t0 = t)) as [->|Hne]; [by left | right; congruence]. }
    destruct Hcase as [->|Hev].
    + right. right. eexists. split; [by apply (orphan_timeout p t rt ft)|done].
    + right. left. by apply orphan_step.
  - right. right. exists x. split; [|done]. by apply kept_step.
Qed.

Lemma lifecycle_run_events evs : forall st,
  lifecycle st p t rt ft -> lifecycle (run_events st evs) p t rt ft.
Proof.
  induction evs as [|ev evs IH]; intros st Hl; [done|].
  simpl. by apply IH, lifecycle_step.
Qed.

End AwaitingFacts.

(** *** Every state that a dispatcher reaches is well-formed *)

Section WfFacts.
Import Chacha Connection Opack Protocol.
Context `{AEAD} `{Float}.

Lemma wf_new c xid0 : wf (Protocol.new c xid0).
Proof.
  unfold wf. simpl. split; [intros k e Hin; by apply elem_of_nil in Hin|].
  split; [intros t ms cb Hin; by apply elem_of_nil in Hin|].
  repeat split; apply NoDup_nil_2.
Qed.

Lemma wf_log st e : wf st -> wf (log st e).
Proof. done. Qed.

Lemma wf_set_connection st c : wf st -> wf (set_connection st c).
Proof. done. Qed.

Lemma wf_settle st q s : wf st -> wf (settle st q s).
Proof.
  intros Hwf. unfold wf, pending_entries in *.
  by rewrite settle_length, settle_timers, settle_pendingRequests,
    settle_pendingAuth, settle_next_timer.
Qed.

Lemma wf_reject st q e : wf st -> wf (reject st q e).
Proof. intros Hwf. unfold reject. by apply wf_settle, wf_log. Qed.

Lemma wf_resolve st q v : wf st -> wf (resolve st q v).
Proof. intros Hwf. unfold resolve. by apply wf_settle, wf_log. Qed.

Lemma wf_delete_timer st t :
  wf st -> wf (set_timers st (JsMap.delete t (timers st)) (next_timer st)).
Proof.
  intros (He & Ht & Hna & Hnt & Hnp). unfold wf. simpl.
  split; [done|]. split.
  { intros t' ms cb Hin. apply jsmap_elem_delete in Hin. eauto. }
  split; [done|]. split; [by apply jsmap_nodup_delete | done].
Qed.

Lemma wf_clearTimeout st t : wf st -> wf (clearTimeout st t).
Proof. intros Hwf. unfold clearTimeout. by apply wf_log, wf_delete_timer. Qed.

Lemma jsmap_delete_sublist {K V} `{EqDecision K} (k : K) (m : JsMap.t K V) :
  JsMap.delete k m `sublist_of` m.
Proof.
  induction m as [|[k' v'] m IH]; simpl; [done|].
  destruct (decide (k' = k)); [by apply sublist_cons | by apply sublist_skip].
Qed.

Lemma delete_by_value_sublist {V} (key : value) (m : JsMap.t Z V) :
  delete_by_value key m `sublist_of` m.
Proof. destruct key; try done. apply jsmap_delete_sublist. Qed.

(** Entries are taken out of the tables. *)
Lemma wf_shrink st reqs auth :
  reqs `sublist_of` pendingRequests st ->
  auth `sublist_of` pendingAuth st ->
  wf st -> wf (set_pendingAuth (set_pendingRequests st reqs) auth).
Proof.
  intros Hr Ha (He & Ht & Hna & Hnt & Hnp). unfold wf. simpl.
  split.
  { intros k e Hin. apply (He k e). apply elem_of_app.
    apply elem_of_app in Hin as [Hin|Hin]; [left | right];
      by eapply elem_of_sublist. }
  split; [done|]. split.
  { eapply sublist_NoDup; [exact Hna|]. unfold JsMap.keys.
    by apply fmap_sublist. }
  split; [done|].
  eapply sublist_NoDup; [exact Hnp|]. unfold pending_entries. simpl.
  apply fmap_sublist, sublist_app; unfold JsMap.values; by apply fmap_sublist.
Qed.

Lemma wf_set_pendingRequests_sub st reqs :
  reqs `sublist_of` pendingRequests st ->
  wf st -> wf (set_pendingRequests st reqs).
Proof.
  intros Hr Hwf. by apply (wf_shrink st reqs (pendingAuth st)) in Hwf.
Qed.

Lemma wf_set_pendingAuth_sub st auth :
  auth `sublist_of` pendingAuth st ->
  wf st -> wf (set_pendingAuth st auth).
Proof.
  intros Ha Hwf. by apply (wf_shrink st (pendingRequests st) auth) in Hwf.
Qed.

Lemma wf_reject_lost st e : wf st -> wf (reject_lost st e).
Proof. intros Hwf. unfold reject_lost. by apply wf_reject, wf_clearTimeout. Qed.

Lemma wf_fold_reject_lost es : forall st,
  wf st -> wf (fold_left reject_lost es st).
Proof.
  induction es as [|e es IH]; intros st Hwf; [done|].
  simpl. by apply IH, wf_reject_lost.
Qed.

Lemma wf_connectionLost st error : wf st -> wf (connectionLost st error).
Proof.
  intros Hwf. rewrite connectionLost_unfold. cbv zeta.
  assert (wf (set_pendingAuth
                (fold_left reject_lost (JsMap.values (pendingAuth st))
                   (set_pendingRequests
                      (fold_left reject_lost
                         (JsMap.values (pendingRequests st)) st) [])) [])).
  { apply wf_set_pendingAuth_sub; [apply sublist_nil_l|].
    apply wf_fold_reject_lost.
    apply wf_set_pendingRequests_sub; [apply sublist_nil_l|].
    by apply wf_fold_reject_lost. }
  destruct (onConnectionLost st); [by apply wf_log | done].
Qed.

Lemma wf_handleAuthFrame st frameType payload :
  wf st -> wf (handleAuthFrame st frameType payload).2.
Proof.
  intros Hwf. unfold handleAuthFrame.
  repeat case_match; try done. simpl.
  apply wf_resolve.
  apply (wf_set_pendingAuth_sub (clearTimeout st _)).
  - apply jsmap_delete_sublist.
  - by apply wf_clearTimeout.
Qed.

Lemma wf_call_listeners ls : forall st content,
  wf st -> wf (call_listeners st ls content).
Proof.
  induction ls as [|l ls IH]; intros st content Hwf; [done|].
  apply IH. by apply wf_log.
Qed.

Lemma wf_emit st eventName content :
  wf st -> wf (emit st eventName content).2.
Proof. intros Hwf. unfold emit. repeat case_match; by apply wf_log. Qed.

Lemma wf_handleOpack st frameType data :
  wf st -> wf (handleOpack st frameType data).2.
Proof.
  intros Hwf. unfold handleOpack.
  destruct (get_prop data "_t") as [messageType|]; [|done].
  destruct messageType as [| | |n| | | | | |]; try done.
  destruct n as [|n|]; try done.
  destruct n as [n|n|]; try done.
  - destruct n; try done.
    destruct (get_by_value _ _) as [pending|] eqn:Hg; [|done]. simpl.
    apply wf_resolve.
    apply (wf_set_pendingRequests_sub (clearTimeout st _)).
    + apply delete_by_value_sublist.
    + by apply wf_clearTimeout.
  - apply wf_emit. repeat case_match; try done; by apply wf_call_listeners.
Qed.

Lemma wf_frameReceived st frameType payload :
  wf st -> wf (frameReceived st frameType payload).2.
Proof.
  intros Hwf. unfold frameReceived. repeat case_match; try done.
  - by apply wf_handleAuthFrame.
  - by apply wf_handleOpack.
Qed.

Lemma wf_send_or_reject st q frameType data :
  wf st -> wf (send_or_reject st q frameType data).
Proof.
  intros Hwf. unfold send_or_reject. repeat case_match.
  - by apply wf_set_connection.
  - by apply wf_reject, wf_set_connection.
  - by apply wf_reject.
Qed.

(** Setting a key to an entry with a promise that no entry holds. *)
Lemma jsmap_values_set_elem {V} (k : Z) (e x : V) (m : JsMap.t Z V) :
  x ∈ JsMap.values (JsMap.set k e m) -> x = e \/ x ∈ JsMap.values m.
Proof.
  intros (k' & Hin)%jsmap_elem_values.
  apply jsmap_elem_set in Hin as [[= _ ->]|Hin]; [by left|].
  right. apply jsmap_elem_values. by exists k'.
Qed.

Lemma jsmap_values_set_nodup (k : Z) (e : PendingRequest)
    (m : JsMap.t Z PendingRequest) (others : list PendingRequest) :
  NoDup (promise <$> (JsMap.values m ++ others)) ->
  promise e ∉ promise <$> (JsMap.values m ++ others) ->
  NoDup (promise <$> (JsMap.values (JsMap.set k e m) ++ others)).
Proof.
  induction m as [|[k2 v2] m IH]; intros Hnd Hni.
  - simpl in *. by apply NoDup_cons.
  - cbn [JsMap.set]. unfold JsMap.values in *. simpl in Hnd, Hni.
    apply NoDup_cons in Hnd as [Hv2 Hnd].
    apply not_elem_of_cons in Hni as [Hne Hni].
    destruct (decide (k2 = k)) as [->|Hk]; simpl.
    + by apply NoDup_cons.
    + apply NoDup_cons. split; [|by apply IH].
      rewrite fmap_app, elem_of_app. intros [Hin|Hin].
      * apply list_elem_of_fmap in Hin as (x & Hx & Hin).
        apply (jsmap_values_set_elem k e x m) in Hin as [->|Hin];
          [congruence|].
        apply Hv2. rewrite fmap_app, elem_of_app. left.
        rewrite Hx. by apply list_elem_of_fmap_2.
      * apply Hv2. rewrite fmap_app, elem_of_app. by right.
Qed.

Lemma nodup_fmap_app_comm {A B} (f : A -> B) (l1 l2 : list A) :
  NoDup (f <$> (l1 ++ l2)) -> NoDup (f <$> (l2 ++ l1)).
Proof.
  rewrite !fmap_app.
  by rewrite (Permutation_app_comm (f <$> l1) (f <$> l2)).
Qed.

(** A new promise, its timer, and its entry in one of the tables. *)
Lemma wf_register st cb ms (auth : bool) (k : Z) :
  callback_promise cb = length (promises st) ->
  wf st ->
  let st1 := (new_promise st).2 in
  let st2 := (setTimeout st1 cb ms).2 in
  let e := {| promise := length (promises st); timer := next_timer st |} in
  wf (if auth
      then set_pendingAuth st2 (JsMap.set k e (pendingAuth st2))
      else set_pendingRequests st2 (JsMap.set k e (pendingRequests st2))).
Proof.
  intros Hcb (He & Ht & Hna & Hnt & Hnp). cbv zeta.
  assert (Hold : forall k e, (k, e) ∈ pendingRequests st ++ pendingAuth st ->
            (promise e < length (promises st ++ [Pending]))%nat /\
            (timer e < S (next_timer st))%nat).
  { intros k' e Hin. destruct (He k' e Hin). rewrite length_app. simpl. lia. }
  assert (Htim : forall t ms' cb',
            (t, (ms', cb')) ∈ JsMap.set (next_timer st) (ms, cb) (timers st) ->
            (t < S (next_timer st))%nat /\
            (callback_promise cb' < length (promises st ++ [Pending]))%nat).
  { intros t ms' cb' [Heq|Hin]%jsmap_elem_set; rewrite length_app; simpl.
    - injection Heq as -> -> ->. lia.
    - destruct (Ht _ _ _ Hin). lia. }
  assert (Hfresh : forall es : list PendingRequest,
            (forall x, x ∈ es -> x ∈ pending_entries st) ->
            length (promises st) ∉ promise <$> es).
  { intros es Hes Hin. apply list_elem_of_fmap in Hin as (x & Hx & Hin).
    apply Hes in Hin. unfold pending_entries in Hin.
    apply elem_of_app in Hin as [Hin|Hin];
      apply jsmap_elem_values in Hin as (k' & Hin).
    - destruct (He k' x) as [Hlt _]; [apply elem_of_app; by left | lia].
    - destruct (He k' x) as [Hlt _]; [apply elem_of_app; by right | lia]. }
  destruct auth; unfold wf; simpl.
  - split.
    { intros k' e [Hin|Hin]%elem_of_app.
      - apply (Hold k' e), elem_of_app. by left.
      - apply jsmap_elem_set in Hin as [Heq|Hin].
        + injection Heq as -> ->. simpl. rewrite length_app. simpl. lia.
        + apply (Hold k' e), elem_of_app. by right. }
    split; [done|]. split; [by apply jsmap_nodup_set|].
    split; [by apply jsmap_nodup_set|].
    unfold pending_entries in *. simpl.
    apply nodup_fmap_app_comm, jsmap_values_set_nodup.
    + by apply nodup_fmap_app_comm.
    + apply Hfresh. intros x Hin. apply elem_of_app.
      apply elem_of_app in Hin as [Hin|Hin]; [by right | by left].
  - split.
    { intros k' e [Hin|Hin]%elem_of_app.
      - apply jsmap_elem_set in Hin as [Heq|Hin].
        + injection Heq as -> ->. simpl. rewrite length_app. simpl. lia.
        + apply (Hold k' e), elem_of_app. by left.
      - apply (Hold k' e), elem_of_app. by right. }
    split; [done|]. split; [done|]. split; [by apply jsmap_nodup_set|].
    unfold pending_entries in *. simpl.
    apply jsmap_values_set_nodup; [done|]. by apply Hfresh.
Qed.

Lemma wf_exchangeAuth st frameType data timeout :
  wf st -> wf (exchangeAuth st frameType data timeout).2.
Proof.
  intros Hwf. unfold exchangeAuth. simpl. apply wf_send_or_reject.
  by apply (wf_register st
              (AuthTimeout (responseType frameType) frameType
                 (length (promises st)))
              timeout true (responseType frameType)).
Qed.

Lemma wf_exchangeOpack st data frameType timeout :
  wf st -> wf (exchangeOpack st data frameType timeout).2.
Proof.
  intros Hwf. unfold exchangeOpack. simpl. apply wf_send_or_reject.
  by apply (wf_register (set_xid st (increment (xid st)))
              (OpackTimeout (xid st) (length (promises st)))
              timeout false (xid st)).
Qed.

Lemma wf_sendEvent st identifier content :
  wf st -> wf (sendEvent st identifier content).2.
Proof. intros Hwf. unfold sendEvent. by repeat case_match. Qed.

Lemma wf_fire_timer st t : wf st -> wf (fire_timer st t).
Proof.
  intros Hwf. unfold fire_timer, run_callback.
  destruct (JsMap.get t (timers st)) as [[ms cb]|]; [|done].
  pose proof (wf_delete_timer st t Hwf) as Hwf1.
  destruct cb; apply wf_reject.
  - apply wf_set_pendingAuth_sub; [|done]. apply jsmap_delete_sublist.
  - apply wf_set_pendingRequests_sub; [|done]. apply jsmap_delete_sublist.
Qed.

Lemma wf_step st ev : wf st -> wf (step st ev).
Proof.
  intros Hwf. destruct ev; simpl.
  - by apply wf_frameReceived.
  - by apply wf_connectionLost.
  - by apply wf_fire_timer.
  - by apply wf_exchangeAuth.
  - by apply wf_exchangeOpack.
  - by apply wf_exchangeOpack.
  - by apply wf_sendEvent.
  - by apply wf_sendEvent.
  - done.
  - done.
  - done.
  - done.
Qed.

Lemma wf_run_events evs : forall st, wf st -> wf (run_events st evs).
Proof.
  induction evs as [|ev evs IH]; intros st Hwf; [done|].
  simpl. by apply IH, wf_step.
Qed.

End WfFacts.

(** *** The claims about the dispatcher *)

Section ProtocolClaims.
Import Chacha Connection Opack Protocol.
Context `{AEAD} `{Float}.



(** Claim C8 as stated, fails on the code: with the counter at 2^32 the
    request that [sendCommand] sends carries [_x = 2^32], and the entry is
    registered under 2^32, not under [2^32 mod 2^32 = 0]; the code nowhere
    reduces the counter. *)
Lemma sendCommand_id_not_reduced :
  let st := Protocol.new (Connection.fresh None) (2 ^ 32) in
  let st' := (@sendCommand sample_aead st "_hidC" (VObject []) 5000).2 in
  JsMap.keys (pendingRequests st') = [2 ^ 32] /\
  JsMap.keys (pendingRequests st') <> [2 ^ 32 mod 2 ^ 32] /\
  match socket (connection st') with
  | Some {| written := [chunk] |} =>
      @unpack sample_float (subarray_from chunk 4)
      = Done (VObject [("_i", VString "_hidC"); ("_t", VInt 2);
                       ("_c", VObject []); ("_x", VInt 4294967296)], [])
  | _ => False
  end.
Proof. by vm_compute. Qed.

(** Claim C8, amended: [sendCommand] takes the current value of the
    transaction counter as it is (it is not reduced modulo 2^32, and the
    counter does not wrap), puts it as [_x] after [_i], [_t = Request] and
    [_c] into the request that it packs and sends on [E_OPACK], registers
    the pending-request entry under that same value, and does [++] on the
    counter.  As long as the counter is below 2^53 that adds one, so that
    successive calls use consecutive ids; a counter that has come to 2^53
    stays there, and the next request has the same id.  Below 2^32 the
    value is its own residue modulo 2^32. *)
Theorem sendCommand_transaction_id (st : State) (identifier : string)
    (content : value) (timeout : Z) :
  let r := sendCommand st identifier content timeout in
  let request :=
    VObject [("_i", VString identifier); ("_t", VInt MessageType.Request);
             ("_c", content); ("_x", VInt (xid st))] in
  xid r.2 = increment (xid st) /\
  r.1 = length (promises st) /\
  JsMap.get (xid st) (pendingRequests r.2)
    = Some {| promise := r.1; timer := next_timer st |} /\
  (forall packed, pack request = Returns packed ->
     connection r.2
     = (send (connection st) FrameType.E_OPACK packed).2) /\
  (0 <= xid st < 2 ^ 32 -> xid st mod 2 ^ 32 = xid st) /\
  (forall identifier' content' timeout',
     let r' := sendCommand r.2 identifier' content' timeout' in
     JsMap.get (increment (xid st)) (pendingRequests r'.2)
       = Some {| promise := r'.1; timer := S (next_timer st) |} /\
     xid r'.2 = increment (increment (xid st))) /\
  (0 <= xid st < 2 ^ 53 -> increment (xid st) = xid st + 1) /\
  (0 <= xid st < 2 ^ 53 - 1 ->
   increment (increment (xid st)) = xid st + 2) /\
  (xid st = 2 ^ 53 -> increment (xid st) = xid st).
Proof.
  assert (Hall : forall st identifier content timeout,
    let r := sendCommand st identifier content timeout in
    xid r.2 = increment (xid st) /\
    r.1 = length (promises st) /\
    JsMap.get (xid st) (pendingRequests r.2)
      = Some {| promise := r.1; timer := next_timer st |} /\
    next_timer r.2 = S (next_timer st) /\
    (forall packed,
       pack (VObject [("_i", VString identifier);
                      ("_t", VInt MessageType.Request);
                      ("_c", content); ("_x", VInt (xid st))])
         = Returns packed ->
       connection r.2
       = (send (connection st) FrameType.E_OPACK packed).2)).
  { clear. intros st identifier content timeout r. subst r.
    unfold sendCommand, exchangeOpack. rewrite obj_set_x_command. simpl.
    match goal with
    | |- context [send_or_reject ?s ?q ?f ?d] =>
        destruct (send_or_reject_frame s q f d)
          as (Hx & Hr & _ & _ & Hn & _ & Hc)
    end.
    rewrite Hx, Hr, Hn. simpl.
    split; [done|]. split; [done|].
    split; [apply jsmap_get_set_eq|]. split; [done|].
    intros packed Hp. by apply Hc. }
  intros r request.
  destruct (Hall st identifier content timeout) as (Hx & Hp & Hg & Hn & Hc).
  fold r in Hx, Hp, Hg, Hn, Hc.
  split; [done|]. split; [done|]. split; [done|]. split; [done|].
  split; [intros; by apply Z.mod_small|].
  split.
  { intros identifier' content' timeout' r'.
    destruct (Hall r.2 identifier' content' timeout') as (Hx' & _ & Hg' & _).
    fold r' in Hx', Hg'. rewrite Hx, Hn in Hg'. split; [done|].
    by rewrite Hx', Hx. }
  split; [apply increment_exact|].
  split.
  { intros Hb. rewrite (increment_exact (xid st)) by lia.
    rewrite increment_exact by lia. lia. }
  intros ->. apply increment_stays.
Qed.

Lemma exchangeAuth_registers st frameType data timeout :
  let r := exchangeAuth st frameType data timeout in
  r.1 = length (promises st) /\
  length (promises r.2) = S (length (promises st)) /\
  JsMap.get (responseType frameType) (pendingAuth r.2)
    = Some {| promise := r.1; timer := next_timer st |}.
Proof.
  unfold exchangeAuth. simpl.
  match goal with
  | |- context [send_or_reject ?s ?q ?f ?d] =>
      destruct (send_or_reject_frame s q f d)
        as (_ & _ & Ha & _ & _ & Hl & _)
  end.
  rewrite Ha, Hl. simpl. rewrite length_app. simpl.
  split; [done|]. split; [lia|]. apply jsmap_get_set_eq.
Qed.


End ProtocolClaims.


(** A command sent with the counter at 7. *)
Lemma sendCommand_transaction_id_witness :
  let st := Protocol.new (Connection.fresh None) 7 in
  let r := @Protocol.sendCommand Chacha.sample_aead st "_hidC"
             (Opack.VObject []) 5000 in
  Connection.socket (Protocol.connection r.2)
    = Some {| Connection.written :=
                [[8; 0; 0; 22; 0xE4; 0x42; 95; 105; 0x45; 95; 104; 105; 100;
                  67; 0x42; 95; 116; 10; 0x42; 95; 99; 0xE0; 0x42; 95; 120;
                  15]] |} /\
  7 mod 2 ^ 32 = 7.
Proof.
  intros st r.
  destruct (@sendCommand_transaction_id Chacha.sample_aead st "_hidC"
              (Opack.VObject []) 5000) as (_ & _ & _ & Hsend & Hmod & _).
  split.
  - fold r in Hsend.
    rewrite (Hsend [0xE4; 0x42; 95; 105; 0x45; 95; 104; 105; 100; 67; 0x42;
                    95; 116; 10; 0x42; 95; 99; 0xE0; 0x42; 95; 120; 15]).
    + reflexivity.
    + reflexivity.
  - apply Hmod. simpl. lia.
Defined.



(** ** Credentials *)

(** A property of bytes that is decidable is settled by running through the
    256 of them. *)
Lemma byte_cases (P : Z -> bool) :
  forallb P (List.map Z.of_nat (seq 0 256)) = true ->
  forall b, 0 <= b < 256 -> P b = true.
Proof.
  intros HP b Hb. rewrite forallb_forall in HP. apply HP.
  apply in_map_iff. exists (Z.to_nat b). split; [lia|].
  apply in_seq. lia.
Qed.

Section CredentialsFacts.
Import Credentials.

Lemma hex_pair_decodes x :
  0 <= x < 256 ->
  unhex (hex_digit (x / 16)) = Some (x / 16) /\
  unhex (hex_digit (x mod 16)) = Some (x mod 16) /\
  Z.lor (Z.shiftl (x / 16) 4) (x mod 16) = x /\
  Ascii.eqb (hex_digit (x / 16)) colon = false /\
  Ascii.eqb (hex_digit (x mod 16)) colon = false.
Proof.
  intros Hx.
  pose proof (byte_cases
    (fun x =>
       bool_decide (unhex (hex_digit (x / 16)) = Some (x / 16)) &&
       bool_decide (unhex (hex_digit (x mod 16)) = Some (x mod 16)) &&
       (Z.lor (Z.shiftl (x / 16) 4) (x mod 16) =? x) &&
       negb (Ascii.eqb (hex_digit (x / 16)) colon) &&
       negb (Ascii.eqb (hex_digit (x mod 16)) colon))) as Hall.
  specialize (Hall ltac:(by vm_compute) x Hx). cbv beta in Hall.
  repeat (apply andb_prop in Hall as [Hall ?]).
  repeat match goal with
  | Hb : bool_decide _ = true |- _ => apply bool_decide_eq_true_1 in Hb
  | Hb : negb _ = true |- _ => apply negb_true_iff in Hb
  | Hb : (_ =? _) = true |- _ => apply Z.eqb_eq in Hb
  end.
  done.
Qed.

(** Decoding the hexadecimal image of a buffer gives the buffer. *)
Lemma from_hex_toString_hex b :
  is_bytes b -> Buffer_from_hex (toString_hex b) = b.
Proof.
  induction 1 as [|x b Hx _ IH]; [done|].
  destruct (hex_pair_decodes x Hx) as (Hh & Hl & Hv & _).
  cbn [toString_hex Buffer_from_hex]. rewrite Hh, Hl, Hv. by rewrite IH.
Qed.

Lemma count_char_toString_hex b :
  is_bytes b -> count_char colon (toString_hex b) = 0%nat.
Proof.
  induction 1 as [|x b Hx _ IH]; [done|].
  destruct (hex_pair_decodes x Hx) as (_ & _ & _ & Hc1 & Hc2).
  cbn [toString_hex count_char]. by rewrite Hc1, Hc2, IH.
Qed.

Lemma split_length sep s :
  length (split sep s) = S (count_char sep s).
Proof.
  induction s as [|c s IH]; [done|].
  cbn [split count_char]. destruct (Ascii.eqb c sep).
  - simpl. by rewrite IH.
  - destruct (split sep s) as [|cur rest]; simpl in *; lia.
Qed.

Lemma split_no_sep sep s : count_char sep s = 0%nat -> split sep s = [s].
Proof.
  induction s as [|c s IH]; [done|].
  cbn [split count_char]. destruct (Ascii.eqb c sep); [done|].
  intros Hc. by rewrite IH.
Qed.

Lemma split_app_sep sep a b :
  count_char sep a = 0%nat ->
  split sep (a +:+ String sep b) = a :: split sep b.
Proof.
  induction a as [|c a IH].
  - intros _. change (EmptyString +:+ String sep b) with (String sep b).
    cbn [split]. by rewrite Ascii.eqb_refl.
  - change (String c a +:+ String sep b) with (String c (a +:+ String sep b)).
    cbn [split count_char].
    destruct (Ascii.eqb c sep); [done|].
    intros Hc. by rewrite IH.
Qed.

Lemma append_single c x : String c EmptyString +:+ x = String c x.
Proof. done. Qed.

End CredentialsFacts.

Section CredentialsTheorems.
Import Credentials.

(** X1: a credentials string written by [serializeCredentials] is read back
    by [parseCredentials] as the same four buffers. *)
Theorem credentials_round_trip (creds : HapCredentials) :
  is_bytes (ltpk creds) -> is_bytes (ltsk creds) ->
  is_bytes (atvId creds) -> is_bytes (clientId creds) ->
  parseCredentials (serializeCredentials creds) = Returns creds.
Proof.
  intros H1 H2 H3 H4. destruct creds as [b1 b2 b3 b4]. simpl in *.
  unfold parseCredentials, serializeCredentials. cbn [join].
  cbn [ltpk ltsk atvId clientId]. rewrite !append_single.
  rewrite !split_app_sep by (by apply count_char_toString_hex).
  rewrite split_no_sep by (by apply count_char_toString_hex).
  by rewrite !from_hex_toString_hex.
Qed.

(** X2: [parseCredentials] looks at nothing but the number of colons.  A
    string with exactly three of them is accepted, whatever stands between
    them (what is not hexadecimal is cut off by the decoding); every other
    string is refused with the format error. *)
Theorem parseCredentials_counts_colons (credString : string) :
  (count_char colon credString = 3%nat ->
   exists p0 p1 p2 p3,
     split colon credString = [p0; p1; p2; p3] /\
     parseCredentials credString
     = Returns {| ltpk := Buffer_from_hex p0; ltsk := Buffer_from_hex p1;
                  atvId := Buffer_from_hex p2;
                  clientId := Buffer_from_hex p3 |}) /\
  (count_char colon credString <> 3%nat ->
   parseCredentials credString
   = Throws (Error_
       "Invalid credentials format: expected 4 hex parts separated by ':'")).
Proof.
  pose proof (split_length colon credString) as Hl.
  unfold parseCredentials.
  destruct (split colon credString) as [|p0 [|p1 [|p2 [|p3 [|p4 ps]]]]];
    simpl in Hl; (split; intros Hc; [|try done; lia]); try lia.
  by exists p0, p1, p2, p3.
Qed.

End CredentialsTheorems.

Lemma credentials_round_trip_witness :
  Credentials.parseCredentials
    (Credentials.serializeCredentials
       {| Credentials.ltpk := [0; 174]; Credentials.ltsk := [255];
          Credentials.atvId := []; Credentials.clientId := [16; 1] |})
  = Returns
      {| Credentials.ltpk := [0; 174]; Credentials.ltsk := [255];
         Credentials.atvId := []; Credentials.clientId := [16; 1] |}.
Proof.
  apply (credentials_round_trip
    {| Credentials.ltpk := [0; 174]; Credentials.ltsk := [255];
       Credentials.atvId := []; Credentials.clientId := [16; 1] |});
    unfold is_bytes; simpl;
    repeat (apply Forall_cons; split; [unfold is_byte; lia|]);
    apply Forall_nil_2.
Defined.

Lemma parseCredentials_counts_colons_witness :
  exists p0 p1 p2 p3,
    Credentials.split Credentials.colon "0a:zz::1" = [p0; p1; p2; p3] /\
    Credentials.parseCredentials "0a:zz::1"
    = Returns {| Credentials.ltpk := Credentials.Buffer_from_hex p0;
                 Credentials.ltsk := Credentials.Buffer_from_hex p1;
                 Credentials.atvId := Credentials.Buffer_from_hex p2;
                 Credentials.clientId := Credentials.Buffer_from_hex p3 |}.
Proof.
  apply (proj1 (parseCredentials_counts_colons "0a:zz::1")). reflexivity.
Defined.

(** ** Pairing data *)

Section AuthTheorems.
Import Tlv Opack Auth.

(** X3: [readTlv] comes to an end on every buffer of bytes and returns a
    map: each turn of its loop moves on by at least two bytes, so the loop
    runs at most [data.length] times, and no turn can fail. *)
Theorem readTlv_terminates (data : Buffer) :
  is_bytes data -> exists m, readTlv data = Some m.
Proof. intros Hb. apply readTlv_loop_total; [done | lia | lia]. Qed.

(** X4: what [getPairingData] makes of a message whose [_pd] holds the bytes
    that [writeTlv] wrote for a map [m]: the map itself when it has no
    [Error] entry, and otherwise the exception [Pairing error: ...] with the
    hexadecimal image of the value of that entry.  A message whose [_pd] is
    not a byte string is refused. *)
Theorem getPairingData_writeTlv (m : TlvData) (pd : Buffer)
    (entries : list (string * value)) :
  NoDup (JsMap.keys m) -> Forall is_byte (JsMap.keys m) ->
  writeTlv m = Some pd ->
  obj_get "_pd" entries = VBytes pd ->
  getPairingData (VObject entries)
  = match JsMap.get 7 m with
    | Some err =>
        Raised (Error_ ("Pairing error: " +:+ Credentials.toString_hex err))
    | None => Done m
    end.
Proof.
  intros Hnd Hb Hw Hpd. rewrite writeTlv_records in Hw. injection Hw as <-.
  unfold getPairingData, PAIRING_DATA_KEY. cbn [Protocol.get_prop Protocol.own_prop].
  rewrite Hpd. by rewrite readTlv_records_of.
Qed.

End AuthTheorems.

Lemma readTlv_terminates_witness :
  exists m, Tlv.readTlv [6; 1; 1; 3; 200; 9] = Some m.
Proof.
  apply (readTlv_terminates [6; 1; 1; 3; 200; 9]).
  unfold is_bytes.
  repeat (apply Forall_cons; split; [unfold is_byte; lia|]).
  apply Forall_nil_2.
Defined.

Lemma getPairingData_writeTlv_witness :
  Auth.getPairingData
    (Opack.VObject [("_pd", Opack.VBytes [6; 1; 2; 7; 1; 2]);
                    ("_pwTy", Opack.VInt 1)])
  = Opack.Raised (Error_ "Pairing error: 02").
Proof.
  apply (getPairingData_writeTlv [(6, [2]); (7, [2])] [6; 1; 2; 7; 1; 2]
           [("_pd", Opack.VBytes [6; 1; 2; 7; 1; 2]);
            ("_pwTy", Opack.VInt 1)]).
  - unfold JsMap.keys. simpl. apply NoDup_cons. split.
    + intros Hin. apply list_elem_of_singleton in Hin. discriminate Hin.
    + apply NoDup_singleton.
  - unfold JsMap.keys. simpl.
    repeat (apply Forall_cons; split; [unfold is_byte; lia|]).
    apply Forall_nil_2.
  - reflexivity.
  - reflexivity.
Defined.

(** ** Counter nonces of two peers *)

Section CounterNonces.
Import Chacha.

Lemma le_bytes_length n : forall v, length (le_bytes n v) = n.
Proof. induction n as [|n IH]; intros v; simpl; [done | by rewrite IH]. Qed.

Lemma le_bytes_inj n v w :
  0 <= v < 2 ^ (8 * Z.of_nat n) -> 0 <= w < 2 ^ (8 * Z.of_nat n) ->
  le_bytes n v = le_bytes n w -> v = w.
Proof.
  intros Hv Hw Heq.
  rewrite <- (le_value_le_bytes n v Hv), <- (le_value_le_bytes n w Hw).
  by rewrite Heq.
Qed.

(** Two counters below 2^64 that give the same nonce are equal. *)
Lemma getOutNonce_inj c n m :
  nonceLength c = 12 \/ nonceLength c = 8 ->
  0 <= n < 2 ^ 64 -> 0 <= m < 2 ^ 64 ->
  getOutNonce (set_outCounter c n) = getOutNonce (set_outCounter c m) ->
  n = m.
Proof.
  intros [Hl|Hl] Hn Hm.
  - rewrite !getOutNonce_12 by done. simpl outCounter.
    intros Heq. apply app_inv_tail in Heq.
    by apply (le_bytes_inj 8) in Heq.
  - rewrite !getOutNonce_8 by done. simpl outCounter.
    intros Heq. apply app_inv_head in Heq.
    by apply (le_bytes_inj 8) in Heq.
Qed.

(** The nonces of [k] calls are those of the counters from the present one
    on, as long as these stay at most 2^53. *)
Lemma encrypt_nonces_counters k : forall c x,
  0 <= outCounter c -> outCounter c + Z.of_nat k <= 2 ^ 53 ->
  x ∈ encrypt_nonces k c ->
  exists j, outCounter c <= j < outCounter c + Z.of_nat k /\
            x = getOutNonce (set_outCounter c j).
Proof.
  induction k as [|k IH]; intros c x H0 Hk Hin;
    [by apply elem_of_nil in Hin|].
  cbn [encrypt_nonces encrypt_nonce] in Hin.
  apply elem_of_cons in Hin as [->|Hin].
  - exists (outCounter c). split; [lia|]. by destruct c.
  - apply IH in Hin as (j & Hj & ->); cbn [outCounter set_outCounter] in *;
      rewrite ?increment_exact in * by lia; [|lia|lia].
    exists j. split; [lia | done].
Qed.

(** X5: in counter mode the nonce names the counter.  With a nonce length
    of 12 (the transport cipher) or 8 (the pairing cipher) the nonce has 12
    bytes, and two counters below 2^64 that give the same nonce are equal.
    The nonces of [k] calls of [encrypt] without a nonce, one after the
    other, are all different as long as the counter stays at most 2^53.
    A counter that has come to 2^53 stays there, and from then on every
    call uses the same nonce. *)
Theorem counter_nonce_injective (c : Chacha20Cipher) (n m : Z) (k : nat) :
  nonceLength c = 12 \/ nonceLength c = 8 ->
  0 <= n < 2 ^ 64 -> 0 <= m < 2 ^ 64 ->
  len (getOutNonce (set_outCounter c n)) = 12 /\
  (getOutNonce (set_outCounter c n) = getOutNonce (set_outCounter c m) ->
   n = m) /\
  (getInNonce (set_inCounter c n) = getInNonce (set_inCounter c m) ->
   n = m) /\
  (0 <= outCounter c -> outCounter c + Z.of_nat k <= 2 ^ 53 ->
   NoDup (encrypt_nonces k c)) /\
  (outCounter c = 2 ^ 53 ->
   encrypt_nonces (S k) c = replicate (S k) (getOutNonce c)).
Proof.
  intros Hl Hn Hm.
  assert (Hin : forall k, getInNonce (set_inCounter c k)
                          = getOutNonce (set_outCounter c k)) by done.
  rewrite !Hin.
  split.
  { destruct Hl as [Hl|Hl].
    - rewrite getOutNonce_12 by done.
      rewrite length_app, le_bytes_length. done.
    - rewrite getOutNonce_8 by done.
      rewrite length_app, le_bytes_length. done. }
  split; [by apply getOutNonce_inj|]. split; [by apply getOutNonce_inj|].
  split.
  - clear n m Hn Hm Hin. revert c Hl.
    induction k as [|k IH]; intros c Hl H0 Hk; [constructor|].
    cbn [encrypt_nonces encrypt_nonce]. constructor.
    + intros Hx.
      apply encrypt_nonces_counters in Hx as (j & Hj & Hx);
        cbn [outCounter set_outCounter] in *;
        rewrite ?increment_exact in * by lia; [|lia|lia].
      assert (Hc : getOutNonce c = getOutNonce (set_outCounter c (outCounter c)))
        by (by destruct c).
      rewrite Hc in Hx.
      change (set_outCounter (set_outCounter c _) j)
        with (set_outCounter c j) in Hx.
      apply getOutNonce_inj in Hx; [lia|done|lia|lia].
    + apply IH; cbn [outCounter set_outCounter nonceLength];
        rewrite ?increment_exact by lia; [done|lia|lia].
  - clear n m Hn Hm Hin Hl. intros Hc. revert c Hc.
    induction (S k) as [|k' IH]; intros c Hc; [done|].
    cbn [encrypt_nonces encrypt_nonce replicate]. f_equal.
    rewrite IH; cbn [outCounter set_outCounter]; rewrite Hc, increment_stays;
      [|done].
    f_equal. unfold getOutNonce. cbn [outCounter nonceLength set_outCounter].
    by rewrite Hc.
Qed.

End CounterNonces.

Section PeerCiphers.
Import Chacha.
Context `{AEAD}.

(** X6: two ciphers whose keys are crossed ([outKey] of the one is [inKey]
    of the other) and whose counters agree stay in step: what [encrypt]
    without a nonce seals on the one side, [decrypt] without a nonce opens
    on the other, under the same nonce, and afterwards the in-counter of the
    receiver again equals the out-counter of the sender, which [++] has
    changed ([increment]: one more below 2^53). *)
Theorem counter_mode_in_step (a b : Chacha20Cipher) (data sealed : Buffer)
    (aad : option Buffer) :
  aead_opens ->
  outKey a = inKey b -> outCounter a = inCounter b ->
  nonceLength a = nonceLength b ->
  (encrypt a data None aad).1 = Returns sealed ->
  (encrypt_nonce a None).1 = (decrypt_nonce b None).1 /\
  (decrypt b sealed None aad).1 = Returns data /\
  inCounter (decrypt b sealed None aad).2
    = outCounter (encrypt a data None aad).2 /\
  outCounter (encrypt a data None aad).2 = increment (outCounter a) /\
  (0 <= outCounter a < 2 ^ 53 ->
   outCounter (encrypt a data None aad).2 = outCounter a + 1).
Proof.
  intros Hopen Hk Hc Hn Henc.
  assert (Hnonce : getOutNonce a = getInNonce b).
  { unfold getOutNonce, getInNonce. by rewrite Hc, Hn. }
  split; [exact Hnonce|].
  unfold encrypt, decrypt in *. cbn [encrypt_nonce decrypt_nonce] in *.
  cbn [fst snd] in *. simpl outKey in Henc. simpl inKey. simpl inCounter.
  simpl outCounter.
  split; [|split; [by rewrite Hc | split; [done | apply increment_exact]]].
  apply Hopen. by rewrite <- Hk, <- Hnonce.
Qed.

End PeerCiphers.

Lemma sample_aead_opens : @aead_opens Chacha.sample_aead.
Proof.
  intros key nonce aad plaintext sealed.
  cbn [Chacha.aead_encrypt Chacha.aead_decrypt Chacha.sample_aead].
  intros [= <-].
  rewrite length_app. simpl length.
  destruct (Z.ltb_spec (Z.of_nat (length plaintext + 16)) 16); [lia|].
  f_equal. replace (length plaintext + 16 - 16)%nat with (length plaintext)
    by lia.
  by rewrite take_app_length.
Qed.

Lemma counter_nonce_injective_witness :
  len (Chacha.getOutNonce
         (Chacha.set_outCounter (Chacha.new8byteNonce [1] [2]) 7)) = 12 /\
  (Chacha.getOutNonce (Chacha.set_outCounter (Chacha.new8byteNonce [1] [2]) 7)
   = Chacha.getOutNonce
       (Chacha.set_outCounter (Chacha.new8byteNonce [1] [2]) 263) ->
   7 = 263) /\
  NoDup (Chacha.encrypt_nonces 3 (Chacha.new8byteNonce [1] [2])).
Proof.
  destruct (counter_nonce_injective (Chacha.new8byteNonce [1] [2]) 7 263 3)
    as (Hlen & Hout & _ & Hnd & _).
  - right. reflexivity.
  - lia.
  - lia.
  - split; [exact Hlen|]. split; [exact Hout|].
    apply Hnd; simpl; lia.
Defined.

Lemma counter_mode_in_step_witness :
  (@Chacha.decrypt Chacha.sample_aead
     (Chacha.set_inCounter (Chacha.new [2] [1] 12) 3)
     ([9; 8] ++ replicate 16 0) None (Some [8; 0; 0; 18])).1
  = Returns [9; 8].
Proof.
  destruct (@counter_mode_in_step Chacha.sample_aead
              (Chacha.set_outCounter (Chacha.new [1] [2] 12) 3)
              (Chacha.set_inCounter (Chacha.new [2] [1] 12) 3)
              [9; 8] ([9; 8] ++ replicate 16 0) (Some [8; 0; 0; 18]))
    as (_ & Hd & _).
  - exact sample_aead_opens.
  - reflexivity.
  - reflexivity.
  - reflexivity.
  - reflexivity.
  - exact Hd.
Defined.

(** ** Frames off the wire *)

Lemma lor_shiftl_small a b k :
  0 <= k -> 0 <= b < 2 ^ k -> Z.lor (Z.shiftl a k) b = a * 2 ^ k + b.
Proof.
  intros Hk Hb. rewrite <- Z.shiftl_mul_pow2 by lia.
  symmetry. apply Z.add_nocarry_lor.
  apply Z.bits_inj'. intros i Hi. rewrite Z.land_spec, Z.bits_0.
  destruct (Z.lt_ge_cases i k) as [Hlt|Hge].
  - by rewrite Z.shiftl_spec_low.
  - replace b with (Z.land b (Z.ones k))
      by (rewrite Z.land_ones by lia; apply Z.mod_small; lia).
    rewrite Z.land_spec, Z.ones_spec_high by lia.
    by rewrite !andb_false_r.
Qed.

Section ReceiveFacts.
Import Chacha Connection Opack Receive.

Lemma byte_operand_nonneg b i : is_bytes b -> 0 <= byte_operand b i.
Proof.
  intros Hb. unfold byte_operand, at_index.
  destruct (i <? 0); cbn; [lia|].
  match goal with
  | |- context [match ?o with Some _ => _ | None => _ end] =>
      destruct o as [x|] eqn:Hx; [|lia]
  end.
  apply (Forall_lookup_1 _ _ _ _ Hb) in Hx. unfold is_byte in Hx. lia.
Qed.

Lemma announced_ge b : is_bytes b -> HEADER_LENGTH <= announced b.
Proof.
  intros Hb. unfold announced.
  pose proof (byte_operand_nonneg b 1 Hb).
  pose proof (byte_operand_nonneg b 2 Hb).
  pose proof (byte_operand_nonneg b 3 Hb).
  assert (0 <= Z.lor (Z.lor (Z.shiftl (byte_operand b 1) 16)
                            (Z.shiftl (byte_operand b 2) 8))
                     (byte_operand b 3)); [|lia].
  rewrite !Z.lor_nonneg, !Z.shiftl_nonneg. lia.
Qed.

Lemma byte_operand_app b d i :
  0 <= i < len b -> byte_operand (b ++ d) i = byte_operand b i.
Proof.
  intros Hi. unfold byte_operand, at_index.
  destruct (Z.ltb_spec i 0); [lia|].
  by rewrite lookup_app_l by lia.
Qed.

Lemma announced_app b d :
  HEADER_LENGTH <= len b -> announced (b ++ d) = announced b.
Proof.
  unfold HEADER_LENGTH. intros Hl. unfold announced.
  by rewrite !byte_operand_app by lia.
Qed.

(** The length bytes of a header, put together as [processBuffer] does. *)
Lemma announced_header t n rest :
  0 <= n < 2 ^ 24 ->
  announced (make_header t n ++ rest) = HEADER_LENGTH + n.
Proof.
  intros Hn. rewrite make_header_bytes. unfold announced, byte_operand.
  cbn [at_index app Z.ltb Z.compare Z.to_nat Pos.to_nat Pos.iter_op
       lookup list_lookup Init.Nat.add].
  change (Z.to_nat 1) with 1%nat. change (Z.to_nat 2) with 2%nat.
  change (Z.to_nat 3) with 3%nat. cbn [lookup list_lookup].
  f_equal.
  set (b1 := Z.land (Z.shiftr n 16) 255).
  set (b2 := Z.land (Z.shiftr n 8) 255).
  set (b3 := Z.land n 255).
  assert (Hb : forall x, 0 <= Z.land x 255 < 256).
  { intros x. change 255 with (Z.ones 8). rewrite Z.land_ones by lia.
    apply Z.mod_pos_bound. lia. }
  pose proof (Hb (Z.shiftr n 16)). pose proof (Hb (Z.shiftr n 8)).
  pose proof (Hb n).
  replace (Z.shiftl b1 16) with (Z.shiftl (Z.shiftl b1 8) 8)
    by (rewrite !Z.shiftl_mul_pow2 by lia; lia).
  rewrite <- Z.shiftl_lor.
  rewrite (lor_shiftl_small b1 b2 8) by (fold b2; lia).
  rewrite lor_shiftl_small by (fold b3; lia).
  rewrite <- (be24_length n Hn). unfold be24. fold b1 b2 b3. lia.
Qed.

(** A whole frame at the front of the buffer, as the loop cuts it out. *)
Lemma frame_at_head t (p rest : Buffer) :
  is_byte t -> len p < 2 ^ 24 ->
  let b := make_header t (len p) ++ p ++ rest in
  (HEADER_LENGTH <=? len b) = true /\
  announced b = HEADER_LENGTH + len p /\
  (len b <? HEADER_LENGTH + len p) = false /\
  subarray b 0 HEADER_LENGTH = make_header t (len p) /\
  subarray b HEADER_LENGTH (HEADER_LENGTH + len p) = p /\
  subarray_from b (HEADER_LENGTH + len p) = rest /\
  byte_operand (make_header t (len p)) 0 = t.
Proof.
  intros Ht Hp b.
  assert (Hh : length (make_header t (len p)) = 4%nat)
    by (by rewrite make_header_bytes).
  assert (Hlen : len b = 4 + len p + len rest).
  { unfold b. rewrite !length_app, Hh. lia. }
  unfold HEADER_LENGTH.
  split; [apply Z.leb_le; lia|].
  split; [apply announced_header; lia|].
  split; [apply Z.ltb_ge; lia|].
  split.
  { unfold subarray, b. change (Z.to_nat 0) with 0%nat.
    change (Z.to_nat (4 - 0)) with 4%nat. rewrite drop_0.
    rewrite <- Hh at 1. by rewrite take_app_length. }
  split.
  { unfold subarray, b. change (Z.to_nat 4) with 4%nat.
    rewrite <- Hh at 1. rewrite drop_app_length.
    replace (Z.to_nat (4 + len p - 4)) with (length p) by lia.
    by rewrite take_app_length. }
  split.
  { unfold subarray_from, b.
    replace (Z.to_nat (4 + len p))
      with (length (make_header t (len p) ++ p))
      by (rewrite length_app, Hh; lia).
    by rewrite app_assoc, drop_app_length. }
  rewrite make_header_bytes. unfold byte_operand. cbn.
  unfold to_u8. apply Z.mod_small. exact Ht.
Qed.

Section WithListener.
Context `{AEAD} {L : Type}.
Variable frameReceived : L -> Z -> Buffer -> run unit * L.

(** More fuel than the loop can use changes nothing. *)
Lemma processBuffer_loop_fuel f1 : forall f2 c l,
  is_bytes (buffer c) ->
  len (buffer c) < 4 * Z.of_nat f1 -> len (buffer c) < 4 * Z.of_nat f2 ->
  processBuffer_loop frameReceived f1 c l
  = processBuffer_loop frameReceived f2 c l.
Proof.
  induction f1 as [|f1 IH]; intros f2 c l Hb H1 H2; [lia|].
  destruct f2 as [|f2]; [lia|].
  cbn [processBuffer_loop].
  destruct (Z.leb_spec HEADER_LENGTH (len (buffer c))) as [Hh|]; [|done].
  pose proof (announced_ge _ Hb) as Ha.
  destruct (Z.ltb_spec (len (buffer c)) (announced (buffer c))) as [|Hc];
    [done|].
  unfold HEADER_LENGTH in *.
  assert (Hrest : is_bytes (subarray_from (buffer c) (announced (buffer c))))
    by (by apply Forall_drop).
  assert (Hlen : len (subarray_from (buffer c) (announced (buffer c)))
                 <= len (buffer c) - 4).
  { unfold subarray_from. rewrite length_drop. lia. }
  cbv zeta. cbn [chacha set_buffer].
  destruct (chacha c) as [ch|].
  - destruct (0 <? _).
    + destruct (decrypt ch _ None _) as [[payload'|e] ch'].
      * destruct (frameReceived l _ payload') as [[[]|e| |] l']; [|done|done|done].
        apply IH; cbn [buffer set_chacha set_buffer]; [done|lia|lia].
      * apply IH; cbn [buffer set_chacha set_buffer]; [done|lia|lia].
    + destruct (frameReceived l _ _) as [[[]|e| |] l']; [|done|done|done].
      apply IH; cbn [buffer set_chacha set_buffer]; [done|lia|lia].
  - destruct (frameReceived l _ _) as [[[]|e| |] l']; [|done|done|done].
    apply IH; cbn [buffer set_chacha set_buffer]; [done|lia|lia].
Qed.


Lemma set_buffer_set_buffer c b b' :
  set_buffer (set_buffer c b) b' = set_buffer c b'.
Proof. done. Qed.

(** Bytes that arrive behind a frame that is already whole do not change
    what the loop does with that frame. *)
Lemma processBuffer_loop_append fh : forall fl f2 c l d c' l',
  is_bytes (buffer c) -> is_bytes d ->
  len (buffer c) < 4 * Z.of_nat fh ->
  len (buffer c) + len d < 4 * Z.of_nat fl ->
  len (buffer c') + len d < 4 * Z.of_nat f2 ->
  processBuffer_loop frameReceived fh c l = (Done tt, (c', l')) ->
  processBuffer_loop frameReceived fl (set_buffer c (buffer c ++ d)) l
  = processBuffer_loop frameReceived f2 (set_buffer c' (buffer c' ++ d)) l'.
Proof.
  induction fh as [|fh IH]; intros fl f2 c l d c' l' Hb Hd Hh Hl H2 Hrun;
    [lia|].
  assert (Hbd : is_bytes (buffer c ++ d)) by (by apply Forall_app).
  assert (Hstop : (c', l') = (c, l) ->
    processBuffer_loop frameReceived fl (set_buffer c (buffer c ++ d)) l
    = processBuffer_loop frameReceived f2
        (set_buffer c' (buffer c' ++ d)) l').
  { intros [= -> ->]. apply processBuffer_loop_fuel;
      cbn [buffer set_buffer]; [done| |]; rewrite length_app; lia. }
  cbn [processBuffer_loop] in Hrun.
  destruct (Z.leb_spec HEADER_LENGTH (len (buffer c))) as [Hhd|];
    [|injection Hrun as <- <-; by apply Hstop].
  pose proof (announced_ge _ Hb) as Ha.
  destruct (Z.ltb_spec (len (buffer c)) (announced (buffer c))) as [|Hc];
    [injection Hrun as <- <-; by apply Hstop|].
  clear Hstop.
  destruct fl as [|fl]; [lia|].
  cbn [processBuffer_loop]. cbn [buffer set_buffer].
  rewrite (announced_app _ d Hhd).
  unfold HEADER_LENGTH in *.
  destruct (Z.leb_spec 4 (len (buffer c ++ d))) as [_|Hx];
    [|rewrite length_app in Hx; lia].
  destruct (Z.ltb_spec (len (buffer c ++ d)) (announced (buffer c)))
    as [Hx|_]; [rewrite length_app in Hx; lia|].
  assert (Hsub : forall e, e <= len (buffer c) ->
    subarray (buffer c ++ d) 0 e = subarray (buffer c) 0 e).
  { intros e He. unfold subarray. change (Z.to_nat 0) with 0%nat.
    rewrite !drop_0. apply take_app_le. lia. }
  assert (Hpay : subarray (buffer c ++ d) 4 (announced (buffer c))
                 = subarray (buffer c) 4 (announced (buffer c))).
  { unfold subarray. rewrite drop_app_le by lia.
    apply take_app_le. rewrite length_drop. lia. }
  assert (Hrest : subarray_from (buffer c ++ d) (announced (buffer c))
                  = subarray_from (buffer c) (announced (buffer c)) ++ d).
  { unfold subarray_from. apply drop_app_le. lia. }
  rewrite Hsub by lia. rewrite Hpay, Hrest.
  assert (Hrb : is_bytes (subarray_from (buffer c) (announced (buffer c))))
    by (by apply Forall_drop).
  assert (Hlen : len (subarray_from (buffer c) (announced (buffer c)))
                 <= len (buffer c) - 4).
  { unfold subarray_from. rewrite length_drop. lia. }
  cbv zeta in Hrun |- *. cbn [chacha set_buffer] in Hrun |- *.
  destruct (chacha c) as [ch|].
  - destruct (0 <? _).
    + destruct (decrypt ch _ None _) as [[payload'|e] ch'].
      * destruct (frameReceived l _ payload') as [[[]|e| |] l1];
          [|done|done|done].
        refine (IH fl f2 _ _ d _ _ _ Hd _ _ H2 Hrun);
          cbn [buffer set_chacha set_buffer]; [done|lia|lia].
      * refine (IH fl f2 _ _ d _ _ _ Hd _ _ H2 Hrun);
          cbn [buffer set_chacha set_buffer]; [done|lia|lia].
    + destruct (frameReceived l _ _) as [[[]|e| |] l1]; [|done|done|done].
      refine (IH fl f2 _ _ d _ _ _ Hd _ _ H2 Hrun);
        cbn [buffer set_chacha set_buffer]; [done|lia|lia].
  - destruct (frameReceived l _ _) as [[[]|e| |] l1]; [|done|done|done].
    refine (IH fl f2 _ _ d _ _ _ Hd _ _ H2 Hrun);
      cbn [buffer set_chacha set_buffer]; [done|lia|lia].
Qed.

(** X7: two [data] events, one right after the other, do what one event
    with the bytes of both would have done, on two conditions.  The handler
    has returned from the first chunk (no exception has left it), and the
    second call starts from the connection as the first left it: nothing
    else has touched the connection in between, and the listener does not
    touch it while it is called.  Then the second call ends with the result
    and the state (calls of the listener, buffer, counters of the cipher)
    with which one call on both chunks ends.  When the listener throws in
    the first call, or the cipher is set between the two events, this does
    not hold. *)
Theorem on_data_chunks (c c1 : CompanionConnection) (l l1 : L)
    (d1 d2 : Buffer) :
  is_bytes (buffer c) -> is_bytes d1 -> is_bytes d2 ->
  on_data frameReceived c l d1 = (Done tt, (c1, l1)) ->
  on_data frameReceived c1 l1 d2 = on_data frameReceived c l (d1 ++ d2).
Proof.
  intros Hb H1 H2 Hrun. unfold on_data, processBuffer in *.
  cbn [buffer set_buffer] in *.
  symmetry.
  pose proof (processBuffer_loop_append
    (S (length (buffer c ++ d1)))
    (S (length (buffer c ++ d1 ++ d2)))
    (S (length (buffer c1 ++ d2)))
    (set_buffer c (buffer c ++ d1)) l d2 c1 l1) as Happ.
  cbn [buffer set_buffer] in Happ.
  rewrite set_buffer_set_buffer, <- app_assoc in Happ.
  apply Happ; [by apply Forall_app|done|lia| | |done].
  - rewrite !length_app. lia.
  - rewrite !length_app. lia.
Qed.

End WithListener.

(** X8: a connection without a cipher gets back from the stream the frames
    that were put on it.  For frames [(t, p)] with a type byte [t] and fewer
    than 2^24 bytes of payload, written one after the other as header and
    payload, the listener is called once for each, in order, with the type
    and the payload; what follows the last frame and is not yet a whole
    frame stays in the buffer. *)
Theorem frames_off_the_wire `{AEAD} (c : CompanionConnection)
    (frames : list (Z * Buffer)) (tail : Buffer) (l : list (Z * Buffer)) :
  chacha c = None -> buffer c = [] ->
  Forall (fun f => is_byte f.1 /\ len f.2 < 2 ^ 24) frames ->
  len tail < HEADER_LENGTH \/ len tail < announced tail ->
  on_data record_frame c l
    (concat (List.map (fun f => make_header f.1 (len f.2) ++ f.2) frames)
     ++ tail)
  = (Done tt, (set_buffer c tail, l ++ frames)).
Proof.
  intros Hch Hbuf Hfs Htail. unfold on_data, processBuffer. rewrite Hbuf.
  cbn [app buffer set_buffer].
  set (wire := fun fs : list (Z * Buffer) =>
    concat (List.map (fun f => make_header f.1 (len f.2) ++ f.2) fs)).
  fold (wire frames).
  assert (Hloop : forall fs fuel l,
    Forall (fun f => is_byte f.1 /\ len f.2 < 2 ^ 24) fs ->
    (length fs < fuel)%nat ->
    processBuffer_loop record_frame fuel (set_buffer c (wire fs ++ tail)) l
    = (Done tt, (set_buffer c tail, l ++ fs))).
  { induction fs as [|[t p] fs IH]; intros fuel l0 Hall Hfuel.
    - rewrite app_nil_r. unfold wire. cbn [List.map concat app].
      destruct fuel as [|fuel]; [simpl in Hfuel; lia|].
      cbn [processBuffer_loop buffer set_buffer].
      destruct (Z.leb_spec HEADER_LENGTH (len tail)); [|done].
      destruct Htail as [Ht|Ht]; [lia|].
      by destruct (Z.ltb_spec (len tail) (announced tail)); [|lia].
    - apply Forall_cons in Hall as [[Ht Hp] Hall]. simpl in Ht, Hp.
      destruct fuel as [|fuel]; [simpl in Hfuel; lia|].
      unfold wire. cbn [List.map concat fst snd]. fold (wire fs).
      rewrite <- !app_assoc.
      destruct (frame_at_head t p (wire fs ++ tail) Ht Hp)
        as (H1 & H2 & H3 & H4 & H5 & H6 & H7).
      cbn [processBuffer_loop buffer set_buffer].
      rewrite H1, H2, H3. cbv zeta. cbn [chacha set_buffer].
      rewrite Hch, H4, H5, H6, H7. unfold record_frame at 1.
      rewrite set_buffer_set_buffer.
      rewrite IH by (done || simpl in Hfuel; lia).
      by rewrite <- app_assoc. }
  apply Hloop; [done|].
  assert (Hlen : forall fs, (length fs <= length (wire fs))%nat).
  { induction fs as [|[t p] fs IH]; [simpl; lia|].
    unfold wire. cbn [List.map concat]. fold (wire fs).
    rewrite make_header_bytes, !length_app. simpl. lia. }
  specialize (Hlen frames). unfold wire in *. rewrite length_app.
  eapply Nat.le_lt_trans; [exact Hlen|].
  apply Nat.lt_succ_r, Nat.le_add_r.
Qed.


Lemma set_buffer_same c : buffer c = [] -> set_buffer c [] = c.
Proof. destruct c. simpl. by intros ->. Qed.

(** X9: a frame sealed by [send] on one connection is opened by
    [processBuffer] on a connection whose cipher is in step with the
    sender's (keys crossed, in-counter equal to the sender's out-counter,
    same nonce length): the listener gets the frame type and the plaintext,
    and the two ciphers are in step again, both counters changed by [++]
    (one counter value further below 2^53).  The header that [send] wrote,
    with the length of the sealed payload, is the associated data on both
    sides. *)
Theorem sealed_frame_round_trip `{AEAD} (s r : CompanionConnection)
    (sock : Socket) (a b : Chacha20Cipher) (t : Z) (data : Buffer)
    (l : list (Z * Buffer)) :
  aead_opens -> aead_adds_tag ->
  socket s = Some sock -> connected s = true -> chacha s = Some a ->
  chacha r = Some b -> buffer r = [] ->
  outKey a = inKey b -> outCounter a = inCounter b ->
  nonceLength a = nonceLength b ->
  is_byte t -> data <> [] -> len data + 16 < 2 ^ 24 ->
  (send s t data).1 = Returns tt ->
  exists chunk a' b',
    (send s t data).2
    = set_socket (set_chacha s (Some a')) (Some (socket_write sock chunk)) /\
    on_data record_frame r l chunk
    = (Done tt, (set_chacha r (Some b'), l ++ [(t, data)])) /\
    outKey a' = inKey b' /\ outCounter a' = inCounter b' /\
    nonceLength a' = nonceLength b' /\
    outCounter a' = increment (outCounter a) /\
    (0 <= outCounter a < 2 ^ 53 -> outCounter a' = outCounter a + 1).
Proof.
  intros Hopen Htag Hsock Hconn Hcs Hcr Hbuf Hk Hc Hn Ht Hd Hlen Hsend.
  assert (Hpos : 0 < len data) by (destruct data; [done | simpl; lia]).
  unfold send in *. rewrite Hsock, Hconn, Hcs in *. cbn [negb] in *.
  destruct (Z.ltb_spec 0 (len data)) as [_|]; [|lia].
  unfold AUTH_TAG_LENGTH in *.
  set (header := make_header t (len data + 16)) in *.
  unfold encrypt in *. cbn [encrypt_nonce] in *.
  cbn [outKey set_outCounter] in *.
  destruct (aead_encrypt (outKey a) (getOutNonce a) (Some header) data)
    as [sealed|e] eqn:Henc; [|done].
  exists (header ++ sealed), (set_outCounter a (increment (outCounter a))),
         (set_inCounter b (increment (inCounter b))).
  split; [done|].
  split;
    [|cbn; split;
        [done|split; [by rewrite Hc|split;
                        [done|split; [done|apply increment_exact]]]]].
  pose proof (Htag _ _ _ _ _ Henc) as Hsl. unfold AUTH_TAG_LENGTH in Hsl.
  assert (Hnonce : getOutNonce a = getInNonce b).
  { unfold getOutNonce, getInNonce. by rewrite Hc, Hn. }
  pose proof (Hopen _ _ _ _ _ Henc) as Hdec. rewrite Hk, Hnonce in Hdec.
  unfold on_data, processBuffer. rewrite Hbuf.
  cbn [app buffer set_buffer].
  subst header. rewrite <- Hsl in Hdec |- *.
  destruct (frame_at_head t sealed [] Ht ltac:(lia))
    as (H1 & H2 & H3 & H4 & H5 & H6 & H7).
  rewrite app_nil_r in *.
  cbn [processBuffer_loop buffer set_buffer].
  rewrite H1, H2, H3. cbv zeta. cbn [chacha set_buffer].
  rewrite Hcr, H4, H5, H6, H7.
  destruct (Z.ltb_spec 0 (len sealed)) as [_|]; [|lia].
  unfold decrypt. cbn [decrypt_nonce inKey set_inCounter].
  rewrite Hdec. unfold record_frame.
  destruct (length (make_header t (len sealed) ++ sealed)) as [|fuel].
  - cbn [processBuffer_loop buffer set_chacha set_buffer].
    f_equal. f_equal. destruct r. simpl in *. by subst.
  - cbn [processBuffer_loop buffer set_chacha set_buffer].
    change (HEADER_LENGTH <=? len []) with false. cbn iota.
    f_equal. f_equal. destruct r. simpl in *. by subst.
Qed.

(** X10: a frame that the cipher does not open is dropped without a trace:
    the listener is not called for it and nothing is reported.  [++] has
    been done on the in-counter all the same ([increment]: one more below
    2^53), and the bytes behind the frame are handled as they would have
    been without it, with that counter. *)
Theorem unopened_frame_is_skipped `{AEAD} {L : Type}
    (frameReceived : L -> Z -> Buffer -> run unit * L)
    (r : CompanionConnection) (b : Chacha20Cipher) (t : Z)
    (p rest : Buffer) (l : L) (e : JsError) :
  chacha r = Some b -> buffer r = [] ->
  is_byte t -> p <> [] -> len p < 2 ^ 24 -> is_bytes rest ->
  (decrypt b p None (Some (make_header t (len p)))).1 = Throws e ->
  on_data frameReceived r l (make_header t (len p) ++ p ++ rest)
  = on_data frameReceived
      (set_chacha r (Some (set_inCounter b (increment (inCounter b))))) l rest
  /\
  (0 <= inCounter b < 2 ^ 53 ->
   on_data frameReceived r l (make_header t (len p) ++ p ++ rest)
   = on_data frameReceived
       (set_chacha r (Some (set_inCounter b (inCounter b + 1)))) l rest).
Proof.
  intros Hcr Hbuf Ht Hp Hlen Hrest Hdec.
  cut (on_data frameReceived r l (make_header t (len p) ++ p ++ rest)
       = on_data frameReceived
           (set_chacha r (Some (set_inCounter b (increment (inCounter b)))))
           l rest).
  { intros Heq. split; [exact Heq|]. intros Hb.
    by rewrite <- (increment_exact (inCounter b)). }
  assert (Hpos : 0 < len p) by (destruct p; [done | simpl; lia]).
  unfold on_data, processBuffer. cbn [buffer set_chacha set_buffer].
  rewrite Hbuf. cbn [app].
  destruct (frame_at_head t p rest Ht Hlen)
    as (H1 & H2 & H3 & H4 & H5 & H6 & H7).
  cbn zeta in H1, H2, H3, H4, H5, H6.
  set (after := processBuffer_loop frameReceived (S (length rest)) _ l).
  cbn [processBuffer_loop buffer set_buffer].
  rewrite H1, H2, H3. cbv zeta. cbn [chacha set_buffer].
  rewrite Hcr, H4, H5, H6.
  destruct (Z.ltb_spec 0 (len p)) as [_|]; [|lia].
  unfold decrypt in *. cbn [decrypt_nonce fst] in *.
  rewrite Hdec.
  assert (Hh : length (make_header t (len p)) = 4%nat)
    by (by rewrite make_header_bytes).
  subst after.
  apply processBuffer_loop_fuel; cbn [buffer set_chacha set_buffer];
    [done| |lia].
  rewrite !length_app, Hh. lia.
Qed.

End ReceiveFacts.

Lemma on_data_chunks_witness :
  @Receive.on_data Chacha.sample_aead _ Receive.record_frame
    (Receive.set_buffer (Connection.fresh None) [8; 0; 0]) [] [1; 224]
  = @Receive.on_data Chacha.sample_aead _ Receive.record_frame
      (Connection.fresh None) [] ([8; 0; 0] ++ [1; 224]).
Proof.
  apply (@on_data_chunks Chacha.sample_aead _ Receive.record_frame
           (Connection.fresh None)
           (Receive.set_buffer (Connection.fresh None) [8; 0; 0])
           [] [] [8; 0; 0] [1; 224]).
  - apply Forall_nil_2.
  - repeat (apply Forall_cons; split; [unfold is_byte; lia|]).
    apply Forall_nil_2.
  - repeat (apply Forall_cons; split; [unfold is_byte; lia|]).
    apply Forall_nil_2.
  - reflexivity.
Defined.

Lemma frames_off_the_wire_witness :
  @Receive.on_data Chacha.sample_aead _ Receive.record_frame
    (Connection.fresh None) []
    (concat (List.map
       (fun f => Connection.make_header f.1 (len f.2) ++ f.2)
       [(8, [224]); (1, [])]) ++ [8; 0; 0])
  = (Opack.Done tt,
     (Receive.set_buffer (Connection.fresh None) [8; 0; 0],
      [] ++ [(8, [224]); (1, [])])).
Proof.
  apply (@frames_off_the_wire Chacha.sample_aead (Connection.fresh None)
           [(8, [224]); (1, [])] [8; 0; 0] []).
  - reflexivity.
  - reflexivity.
  - repeat (apply Forall_cons; split;
            [split; [unfold is_byte; simpl; lia | simpl; lia]|]).
    apply Forall_nil_2.
  - left. unfold Connection.HEADER_LENGTH. simpl. lia.
Defined.

Lemma sealed_frame_round_trip_witness :
  exists chunk a' b',
    (@Connection.send Chacha.sample_aead
       (Connection.fresh (Some (Chacha.new [1] [2] 12))) 8 [224]).2
    = Connection.set_socket
        (Connection.set_chacha
           (Connection.fresh (Some (Chacha.new [1] [2] 12))) (Some a'))
        (Some (Connection.socket_write {| Connection.written := [] |} chunk))
    /\
    @Receive.on_data Chacha.sample_aead _ Receive.record_frame
      (Connection.fresh (Some (Chacha.new [2] [1] 12))) [] chunk
    = (Opack.Done tt,
       (Connection.set_chacha
          (Connection.fresh (Some (Chacha.new [2] [1] 12))) (Some b'),
        [] ++ [(8, [224])])) /\
    Chacha.outKey a' = Chacha.inKey b' /\
    Chacha.outCounter a' = Chacha.inCounter b' /\
    Chacha.nonceLength a' = Chacha.nonceLength b' /\
    Chacha.outCounter a' = Chacha.outCounter (Chacha.new [1] [2] 12) + 1.
Proof.
  destruct (@sealed_frame_round_trip Chacha.sample_aead
           (Connection.fresh (Some (Chacha.new [1] [2] 12)))
           (Connection.fresh (Some (Chacha.new [2] [1] 12)))
           {| Connection.written := [] |}
           (Chacha.new [1] [2] 12) (Chacha.new [2] [1] 12) 8 [224] [])
    as (chunk & a' & b' & H1 & H2 & H3 & H4 & H5 & _ & H6);
    [..|exists chunk, a', b';
        repeat (split; [assumption|]); apply H6; simpl; lia].
  - exact sample_aead_opens.
  - intros key nonce aad plaintext sealed.
    cbn [Chacha.aead_encrypt Chacha.sample_aead]. intros [= <-].
    rewrite length_app. unfold Chacha.AUTH_TAG_LENGTH. simpl length. lia.
  - reflexivity.
  - reflexivity.
  - reflexivity.
  - reflexivity.
  - reflexivity.
  - reflexivity.
  - reflexivity.
  - reflexivity.
  - unfold is_byte. lia.
  - discriminate.
  - simpl. lia.
  - reflexivity.
Defined.

Lemma unopened_frame_is_skipped_witness :
  @Receive.on_data Chacha.sample_aead _ Receive.record_frame
    (Connection.fresh (Some (Chacha.new [2] [1] 12))) []
    (Connection.make_header 8 (len [224]) ++ [224] ++ [1; 0; 0; 0])
  = @Receive.on_data Chacha.sample_aead _ Receive.record_frame
      (Connection.set_chacha
         (Connection.fresh (Some (Chacha.new [2] [1] 12)))
         (Some (Chacha.set_inCounter (Chacha.new [2] [1] 12)
                  (increment (Chacha.inCounter (Chacha.new [2] [1] 12))))))
      [] [1; 0; 0; 0].
Proof.
  refine (proj1 (@unopened_frame_is_skipped Chacha.sample_aead _
           Receive.record_frame
           (Connection.fresh (Some (Chacha.new [2] [1] 12)))
           (Chacha.new [2] [1] 12) 8 [224] [1; 0; 0; 0] []
           (Error_ "invalid tag") _ _ _ _ _ _ _)).
  - reflexivity.
  - reflexivity.
  - unfold is_byte. lia.
  - discriminate.
  - simpl. lia.
  - repeat (apply Forall_cons; split; [unfold is_byte; lia|]).
    apply Forall_nil_2.
  - reflexivity.
Defined.

(** ** Requests and their replies *)

Section DispatchFacts.
Import Chacha Connection Opack Protocol.
Context `{AEAD} `{Float}.

(** Taking the entry of a key out of a table leaves no entry with the
    promise of that entry, when no two entries hold the same promise. *)
Lemma jsmap_delete_promise (x : Z) (e : PendingRequest)
    (m : JsMap.t Z PendingRequest) :
  JsMap.get x m = Some e -> NoDup (promise <$> JsMap.values m) ->
  forall k e', (k, e') ∈ JsMap.delete x m -> promise e' <> promise e.
Proof.
  induction m as [|[k2 e2] m IH]; [done|].
  cbn [JsMap.get JsMap.delete]. unfold JsMap.values. cbn [fmap list_fmap snd].
  intros Hg Hnd k e' Hin. apply NoDup_cons in Hnd as [Hni Hnd].
  destruct (decide (k2 = x)) as [->|Hne].
  - injection Hg as ->. intros Heq. apply Hni. rewrite <- Heq.
    apply list_elem_of_fmap. exists e'. split; [done|].
    apply jsmap_elem_values. by exists k.
  - apply elem_of_cons in Hin as [[= -> ->]|Hin].
    + intros Heq. apply Hni. rewrite Heq.
      apply list_elem_of_fmap. exists e. split; [done|].
      apply jsmap_elem_values. exists x. by apply jsmap_get_Some_elem.
    + by apply (IH Hg Hnd k).
Qed.

Lemma wf_nodup_requests st :
  wf st -> NoDup (promise <$> JsMap.values (pendingRequests st)).
Proof.
  intros (_ & _ & _ & _ & Hnd). unfold pending_entries in Hnd.
  rewrite fmap_app in Hnd. by apply NoDup_app in Hnd as (Hnd & _).
Qed.

Lemma wf_nodup_auth st :
  wf st -> NoDup (promise <$> JsMap.values (pendingAuth st)).
Proof.
  intros (_ & _ & _ & _ & Hnd). unfold pending_entries in Hnd.
  rewrite fmap_app in Hnd. by apply NoDup_app in Hnd as (_ & _ & Hnd).
Qed.

(** A reply whose [_x] is the key of an entry. *)
Lemma handleOpack_response st frameType data x e :
  wf st ->
  own_prop data "_t" = VInt 3 -> own_prop data "_x" = VInt x ->
  JsMap.get x (pendingRequests st) = Some e ->
  promises st !! promise e = Some Pending ->
  let st' := (handleOpack st frameType data).2 in
  (handleOpack st frameType data).1 = Done tt /\
  promises st' !! promise e = Some (Fulfilled data) /\
  JsMap.get (timer e) (timers st') = None /\
  (forall k e', (k, e') ∈ pendingRequests st' -> promise e' <> promise e) /\
  trace st'
  = trace st ++ [ClearTimeout (timer e); CallResolve (promise e) data].
Proof.
  intros Hwf Ht Hx Hg Hp.
  assert (Hprop : get_prop data "_t" = Returns (VInt 3)).
  { destruct data; try done; simpl in *; by rewrite Ht. }
  unfold handleOpack. rewrite Hprop, Hx. cbn [get_by_value delete_by_value].
  rewrite Hg. cbn [fst snd]. unfold resolve.
  split; [done|].
  split; [by apply settle_lookup_pending|].
  rewrite settle_timers, settle_pendingRequests, settle_trace.
  cbn [timers pendingRequests trace log set_pendingRequests clearTimeout
       set_timers].
  split.
  { apply jsmap_get_delete_eq. by destruct Hwf as (_ & _ & _ & Hnt & _). }
  split; [|by rewrite <- app_assoc].
  apply (jsmap_delete_promise x e); [done | by apply wf_nodup_requests].
Qed.

Lemma frameReceived_opack st frameType payload data rest :
  frameType = FrameType.U_OPACK \/ frameType = FrameType.E_OPACK \/
  frameType = FrameType.P_OPACK ->
  payload <> [] -> unpack payload = Done (data, rest) ->
  frameReceived st frameType payload = handleOpack st frameType data.
Proof.
  intros Hft Hp Hu. unfold frameReceived.
  replace ((FrameType.PS_Start <=? frameType)
           && (frameType <=? FrameType.PV_Next)) with false
    by (by destruct Hft as [->|[->| ->]]).
  replace ((frameType =? FrameType.E_OPACK) || (frameType =? FrameType.U_OPACK)
           || (frameType =? FrameType.P_OPACK)) with true
    by (by destruct Hft as [->|[->| ->]]).
  destruct payload; [done|]. by rewrite Hu.
Qed.

Lemma exchangeOpack_registers st data frameType timeout :
  let r := exchangeOpack st data frameType timeout in
  r.1 = length (promises st) /\
  xid r.2 = increment (xid st) /\
  JsMap.get (xid st) (pendingRequests r.2)
    = Some {| promise := r.1; timer := next_timer st |} /\
  JsMap.get (next_timer st) (timers r.2)
    = Some (timeout, OpackTimeout (xid st) r.1).
Proof.
  unfold exchangeOpack. simpl.
  match goal with
  | |- context [send_or_reject ?s ?q ?f ?d] =>
      destruct (send_or_reject_frame s q f d)
        as (Hx & Hr & _ & Ht & _ & _ & _)
  end.
  rewrite Hx, Hr, Ht. simpl.
  split; [done|]. split; [done|]. split; apply jsmap_get_set_eq.
Qed.

Lemma send_throws_socket c frameType data e :
  (send c frameType data).1 = Throws e ->
  socket (send c frameType data).2 = socket c.
Proof.
  unfold send. destruct (socket c) as [sock|] eqn:Hsock; [|done].
  destruct (connected c); cbn [negb]; [|done].
  destruct (chacha c) as [ch|]; [|done].
  destruct (0 <? len data); [|done].
  by destruct (encrypt ch data None _) as [[sealed|e'] ch'].
Qed.

End DispatchFacts.

Section DispatchTheorems.
Import Chacha Connection Opack Protocol.
Context `{AEAD} `{Float}.


(** X12: a request that gets no reply is given up when its timer expires:
    the promise is rejected with the timeout error that names the
    transaction id, the entry leaves the table, and the timer is gone. *)
Theorem request_times_out (st : State) (data : list (string * value))
    (frameType timeout : Z) :
  wf st ->
  let r := exchangeOpack st data frameType timeout in
  promises r.2 !! r.1 = Some Pending ->
  let st' := fire_timer r.2 (next_timer st) in
  promises st' !! r.1
  = Some (Rejected (Error_ ("OPACK exchange timeout for xid "
                            +:+ pretty (xid st)))) /\
  (forall k e, (k, e) ∈ pendingRequests st' -> promise e <> r.1) /\
  JsMap.get (next_timer st) (timers st') = None.
Proof.
  intros Hwf r Hp st'. subst st'.
  destruct (exchangeOpack_registers st data frameType timeout)
    as (_ & _ & Hg & Ht).
  fold r in Hg, Ht.
  assert (Hwf' : wf r.2) by (by apply wf_exchangeOpack).
  unfold fire_timer. rewrite Ht. cbn [run_callback]. unfold reject.
  rewrite settle_pendingRequests, settle_timers.
  cbn [pendingRequests timers log set_pendingRequests set_timers].
  split; [by apply settle_lookup_pending|].
  split.
  - intros k e Hin.
    apply (jsmap_delete_promise (xid st)
             {| promise := r.1; timer := next_timer st |}) in Hin;
      [done | done | by apply wf_nodup_requests].
  - apply jsmap_get_delete_eq. by destruct Hwf' as (_ & _ & _ & Hnt & _).
Qed.



(** X14: listeners are called in the order in which [listenTo] registered
    them.  After [listenTo] has been called for the listeners [ls] of an
    event name, one after the other, an event message with that name makes
    the calls of the listeners that the name had before, then of [ls], in
    that order, each with the content of the message (an empty object when
    [_c] is missing or falsy), and then the [emit] on the event emitter;
    no promise is touched. *)
Theorem listeners_called_in_order (st : State) (name : string)
    (ls : list nat) (frameType : Z) (data : value) :
  own_prop data "_t" = VInt MessageType.Event ->
  own_prop data "_i" = VString name ->
  let st1 := fold_left (fun s l => listenTo s name l) ls st in
  let before :=
    match JsMap.get name (eventListeners st) with
    | Some l0 => l0
    | None => []
    end in
  let content :=
    if truthy (own_prop data "_c") then own_prop data "_c" else VObject [] in
  trace (handleOpack st1 frameType data).2
  = trace st ++ List.map (fun l => CallListener l content) (before ++ ls)
    ++ [Emit (VString name) content] /\
  promises (handleOpack st1 frameType data).2 = promises st.
Proof.
  intros Ht Hi st1 before content.
  assert (Hprop : get_prop data "_t" = Returns (VInt 1)).
  { destruct data; try done; simpl in *; by rewrite Ht. }
  assert (Hfold : forall ls st,
    let st1 := fold_left (fun s l => listenTo s name l) ls st in
    trace st1 = trace st /\ promises st1 = promises st /\
    match JsMap.get name (eventListeners st1) with
    | Some l0 => l0
    | None => []
    end
    = match JsMap.get name (eventListeners st) with
      | Some l0 => l0
      | None => []
      end ++ ls).
  { clear. induction ls as [|l ls IH]; intros st.
    - simpl. by rewrite app_nil_r.
    - cbn [fold_left]. destruct (IH (listenTo st name l)) as (H1 & H2 & H3).
      cbv zeta. rewrite H1, H2, H3. split; [done|]. split; [done|].
      unfold listenTo. cbn [eventListeners set_eventListeners].
      rewrite jsmap_get_set_eq. by rewrite <- app_assoc. }
  destruct (Hfold ls st) as (Htr & Hpr & Hls). fold st1 before in Htr, Hpr, Hls.
  assert (Hcalls : forall ls st c,
    trace (call_listeners st ls c)
    = trace st ++ List.map (fun l => CallListener l c) ls).
  { clear. induction ls as [|l ls IH]; intros st c.
    - simpl. by rewrite app_nil_r.
    - cbn [call_listeners fold_left List.map].
      change (fold_left (fun st l => log st (CallListener l c)) ls
                (log st (CallListener l c)))
        with (call_listeners (log st (CallListener l c)) ls c).
      rewrite IH. cbn [trace log]. by rewrite <- app_assoc. }
  unfold handleOpack. rewrite Hprop, Hi. fold content.
  destruct (JsMap.get name (eventListeners st1)) as [l0|] eqn:Hg.
  - subst l0. unfold emit.
    assert (Hres : forall s : State,
      trace (match VString name with
             | VString "error" =>
                 (Raised (Error_ "Unhandled error."),
                  log s (Emit (VString name) content))
             | _ => (Done tt, log s (Emit (VString name) content))
             end).2 = trace s ++ [Emit (VString name) content] /\
      promises (match VString name with
             | VString "error" =>
                 (Raised (Error_ "Unhandled error."),
                  log s (Emit (VString name) content))
             | _ => (Done tt, log s (Emit (VString name) content))
             end).2 = promises s).
    { intros s. repeat case_match; done. }
    destruct (Hres (call_listeners st1 (before ++ ls) content)) as (-> & ->).
    rewrite Hcalls, Htr, call_listeners_promises, Hpr.
    by rewrite <- app_assoc.
  - assert (Hnil : before ++ ls = []) by done. rewrite Hnil.
    unfold emit. cbn [List.map app].
    assert (Hres : forall s : State,
      trace (match VString name with
             | VString "error" =>
                 (Raised (Error_ "Unhandled error."),
                  log s (Emit (VString name) content))
             | _ => (Done tt, log s (Emit (VString name) content))
             end).2 = trace s ++ [Emit (VString name) content] /\
      promises (match VString name with
             | VString "error" =>
                 (Raised (Error_ "Unhandled error."),
                  log s (Emit (VString name) content))
             | _ => (Done tt, log s (Emit (VString name) content))
             end).2 = promises s).
    { intros s. repeat case_match; done. }
    destruct (Hres st1) as (-> & ->). by rewrite Htr, Hpr.
Qed.


End DispatchTheorems.

(** ** From the socket to the dispatcher *)

Section SocketFacts.
Import Chacha Connection Opack Protocol Receive.
Context `{AEAD} `{Float}.

Lemma call_listeners_connection ls : forall st content,
  connection (call_listeners st ls content) = connection st.
Proof.
  induction ls as [|l ls IH]; intros st content; [done|].
  simpl. by rewrite IH.
Qed.

(** A frame that comes in does not touch the connection. *)
Lemma frameReceived_connection st frameType payload :
  connection (frameReceived st frameType payload).2 = connection st.
Proof.
  unfold frameReceived, handleAuthFrame, handleOpack, emit, resolve.
  repeat case_match; simplify_eq; cbn [fst snd];
    rewrite ?settle_connection; cbn [connection log set_pendingAuth
      set_pendingRequests clearTimeout set_timers];
    rewrite ?call_listeners_connection; done.
Qed.

Lemma set_connection_same st : set_connection st (connection st) = st.
Proof. by destruct st. Qed.

(** The handler of [data] on a whole frame, followed by more bytes: the
    frame goes to the dispatcher; when the dispatcher returns, the handler
    goes on with the rest, and when it throws, the rest stays in the
    buffer. *)
Lemma socket_data_frame st t (p rest : Buffer) :
  chacha (connection st) = None -> buffer (connection st) = [] ->
  is_byte t -> len p < 2 ^ 24 -> is_bytes rest ->
  socket_data st (make_header t (len p) ++ p ++ rest)
  = match frameReceived st t p with
    | (Done _, st') => socket_data st' rest
    | (Raised e, st') =>
        (Raised e, set_connection st' (set_buffer (connection st) rest))
    | (OutOfFuel, st') =>
        (OutOfFuel, set_connection st' (set_buffer (connection st) rest))
    | (PrototypeReplaced, st') =>
        (PrototypeReplaced,
         set_connection st' (set_buffer (connection st) rest))
    end.
Proof.
  intros Hch Hbuf Ht Hp Hrest.
  pose proof (frameReceived_connection st t p) as Hconn.
  unfold socket_data, on_data, processBuffer. rewrite Hbuf.
  cbn [app buffer set_buffer].
  destruct (frame_at_head t p rest Ht Hp)
    as (H1 & H2 & H3 & H4 & H5 & H6 & H7).
  cbn zeta in H1, H2, H3, H4, H5, H6.
  destruct (frameReceived st t p) as [[[]|e| |] st'] eqn:Hfr.
  - cbn [snd] in Hconn. rewrite Hconn, Hbuf. cbn [app].
    set (after := processBuffer_loop frameReceived (S (length rest)) _ st').
    cbn [processBuffer_loop buffer set_buffer].
    rewrite H1, H2, H3. cbv zeta. cbn [chacha set_buffer].
    rewrite Hch, H4, H5, H6, H7, Hfr. rewrite set_buffer_set_buffer.
    subst after. f_equal.
    assert (Hh : length (make_header t (len p)) = 4%nat)
      by (by rewrite make_header_bytes).
    rewrite (processBuffer_loop_fuel frameReceived
               (length (make_header t (len p) ++ p ++ rest))
               (S (length rest)));
      cbn [buffer set_buffer]; [done|done| |lia].
    rewrite !length_app, Hh. lia.
  - cbn [processBuffer_loop buffer set_buffer].
    rewrite H1, H2, H3. cbv zeta. cbn [chacha set_buffer].
    by rewrite Hch, H4, H5, H6, H7, Hfr.
  - cbn [processBuffer_loop buffer set_buffer].
    rewrite H1, H2, H3. cbv zeta. cbn [chacha set_buffer].
    by rewrite Hch, H4, H5, H6, H7, Hfr.
  - cbn [processBuffer_loop buffer set_buffer].
    rewrite H1, H2, H3. cbv zeta. cbn [chacha set_buffer].
    by rewrite Hch, H4, H5, H6, H7, Hfr.
Qed.

Lemma socket_data_nothing st :
  buffer (connection st) = [] -> socket_data st [] = (Done tt, st).
Proof.
  intros Hbuf. unfold socket_data, on_data, processBuffer. rewrite Hbuf.
  cbn [app buffer set_buffer length processBuffer_loop].
  change (HEADER_LENGTH <=? len []) with false. cbn iota.
  f_equal. destruct st as [c]. destruct c. simpl in *. by subst.
Qed.

End SocketFacts.

Section SocketTheorems.
Import Chacha Connection Opack Protocol Receive.
Context `{AEAD} `{Float}.

(** X16: on a connection without a cipher, the bytes of one whole frame that
    arrive on an empty buffer do to the dispatcher exactly what the call
    [frameReceived(type, payload)] does: same result (an exception of the
    dispatcher leaves the handler of [data] as it is, nothing catches it),
    same state, and the buffer is empty again. *)
Theorem frame_reaches_dispatcher (st : State) (t : Z) (p : Buffer) :
  chacha (connection st) = None -> buffer (connection st) = [] ->
  is_byte t -> len p < 2 ^ 24 ->
  socket_data st (make_header t (len p) ++ p) = frameReceived st t p.
Proof.
  intros Hch Hbuf Ht Hp.
  pose proof (socket_data_frame st t p [] Hch Hbuf Ht Hp (Forall_nil_2 _))
    as Hsd.
  rewrite app_nil_r in Hsd. rewrite Hsd.
  pose proof (frameReceived_connection st t p) as Hconn.
  destruct (frameReceived st t p) as [[[]|e| |] st'] eqn:Hfr; cbn [snd] in Hconn.
  - apply socket_data_nothing. by rewrite Hconn.
  - f_equal. rewrite <- (set_connection_same st') at 2. f_equal.
    rewrite Hconn. destruct (connection st). simpl in *. by subst.
  - f_equal. rewrite <- (set_connection_same st') at 2. f_equal.
    rewrite Hconn. destruct (connection st). simpl in *. by subst.
  - f_equal. rewrite <- (set_connection_same st') at 2. f_equal.
    rewrite Hconn. destruct (connection st). simpl in *. by subst.
Qed.

(** X17: an event message whose name is [error] makes the handler of [data]
    throw.  Nothing listens on the event emitter of the dispatcher, and
    [emit] of an event named [error] without a listener throws; the
    exception passes through [frameReceived] and [processBuffer], which
    catch nothing but a failed decryption.  The frame has left the buffer,
    the bytes behind it stay there unprocessed, and no promise has
    changed. *)
Theorem error_event_stops_handler (st : State) (frameType : Z)
    (payload unread rest : Buffer) (data : value) :
  chacha (connection st) = None -> buffer (connection st) = [] ->
  frameType = FrameType.U_OPACK \/ frameType = FrameType.E_OPACK \/
  frameType = FrameType.P_OPACK ->
  payload <> [] -> len payload < 2 ^ 24 -> is_bytes rest ->
  unpack payload = Done (data, unread) ->
  own_prop data "_t" = VInt MessageType.Event ->
  own_prop data "_i" = VString "error" ->
  exists e st',
    socket_data st (make_header frameType (len payload) ++ payload ++ rest)
    = (Raised e, st') /\
    buffer (connection st') = rest /\
    promises st' = promises st.
Proof.
  intros Hch Hbuf Hft Hpay Hlen Hrest Hu Ht Hi.
  assert (Hbyte : is_byte frameType)
    by (by destruct Hft as [->|[->| ->]]).
  rewrite (socket_data_frame st frameType payload rest Hch Hbuf Hbyte Hlen
             Hrest).
  rewrite (frameReceived_opack _ _ _ _ _ Hft Hpay Hu).
  assert (Hprop : get_prop data "_t" = Returns (VInt 1)).
  { destruct data; try done; simpl in *; by rewrite Ht. }
  unfold handleOpack. rewrite Hprop, Hi. unfold emit.
  eexists _, _. split; [reflexivity|].
  split; [done|].
  cbn [promises set_connection log].
  destruct (JsMap.get "error" (eventListeners st)); [|done].
  apply call_listeners_promises.
Qed.

End SocketTheorems.

(** ** OPACK: what the decoder does with each kind of encoding *)

Lemma subarray_mid (pre v rest : Buffer) a b :
  a = len pre -> b = a + len v -> subarray (pre ++ v ++ rest) a b = v.
Proof. intros -> ->. by apply subarray_app_exact. Qed.

Lemma subarray_from_mid (pre v rest : Buffer) b :
  b = len pre + len v -> subarray_from (pre ++ v ++ rest) b = rest.
Proof.
  intros ->. unfold subarray_from.
  replace (Z.to_nat (len pre + len v)) with (length (pre ++ v))
    by (rewrite length_app; lia).
  by rewrite app_assoc, drop_app_length.
Qed.

Section OpackDecode.
Import Opack OpackAux.
Context `{Float}.

Lemma bytes_string_string_bytes s : bytes_string (string_bytes s) = s.
Proof.
  unfold bytes_string, string_bytes. rewrite List.map_map.
  rewrite (List.map_ext _ id).
  - rewrite List.map_id. apply String.string_of_list_ascii_of_string.
  - intros a. rewrite N2Z.id. apply Ascii.ascii_N_embedding.
Qed.

Lemma string_bytes_inj s1 s2 : string_bytes s1 = string_bytes s2 -> s1 = s2.
Proof.
  intros Heq. rewrite <- (bytes_string_string_bytes s1),
    <- (bytes_string_string_bytes s2). by rewrite Heq.
Qed.

(** *** [readUIntLE] *)

Lemma readUIntLE_1 buf offset :
  readUIntLE buf offset 1 = Returns (at_index buf offset).
Proof. reflexivity. Qed.

Lemma readUIntLE_2 buf offset :
  offset + 2 <= len buf ->
  readUIntLE buf offset 2
  = Returns (Some (le_value (subarray buf offset (offset + 2)))).
Proof.
  intros Hl. unfold readUIntLE. change (2 =? 1) with false.
  change (2 =? 2) with true. cbn iota.
  by destruct (Z.leb_spec (offset + 2) (len buf)); [|lia].
Qed.

Lemma readUIntLE_3 buf offset :
  readUIntLE buf offset 3 = Throws (Error_ "Unsupported integer size").
Proof. reflexivity. Qed.

Lemma readUIntLE_4 buf offset :
  offset + 4 <= len buf ->
  readUIntLE buf offset 4
  = Returns (Some (le_value (subarray buf offset (offset + 4)))).
Proof.
  intros Hl. unfold readUIntLE. change (4 =? 1) with false.
  change (4 =? 2) with false. change (4 =? 4) with true. cbn iota.
  by destruct (Z.leb_spec (offset + 4) (len buf)); [|lia].
Qed.

Lemma readUIntLE_8 buf offset :
  offset + 8 <= len buf ->
  readUIntLE buf offset 8
  = Returns (Some (u64_to_number
                     (le_value (subarray buf offset (offset + 8))))).
Proof.
  intros Hl. unfold readUIntLE. change (8 =? 1) with false.
  change (8 =? 2) with false. change (8 =? 4) with false.
  change (8 =? 8) with true. cbn iota.
  by destruct (Z.leb_spec (offset + 8) (len buf)); [|lia].
Qed.

(** A number of [n] little-endian bytes behind a tag. *)
Lemma readUIntLE_le_bytes (n : nat) tag v rest :
  0 <= v < 2 ^ (8 * Z.of_nat n) ->
  le_value (subarray (tag :: le_bytes n v ++ rest) 1 (1 + Z.of_nat n)) = v.
Proof.
  intros Hv.
  change (tag :: le_bytes n v ++ rest) with ([tag] ++ le_bytes n v ++ rest).
  rewrite subarray_mid; [by apply le_value_le_bytes|done|].
  rewrite le_bytes_length. simpl. lia.
Qed.

Lemma read_le16 tag v rest :
  0 <= v <= 0xffff ->
  le_value (subarray (tag :: le_bytes 2 v ++ rest) 1 (1 + 2)) = v.
Proof.
  intros Hv. apply (readUIntLE_le_bytes 2).
  change (2 ^ (8 * Z.of_nat 2)) with 65536. lia.
Qed.

Lemma read_le32 tag v rest :
  0 <= v <= 0xffffffff ->
  le_value (subarray (tag :: le_bytes 4 v ++ rest) 1 (1 + 4)) = v.
Proof.
  intros Hv. apply (readUIntLE_le_bytes 4).
  change (2 ^ (8 * Z.of_nat 4)) with 4294967296. lia.
Qed.

Lemma read_le64 tag v rest :
  0 <= v < 2 ^ 64 ->
  le_value (subarray (tag :: le_bytes 8 v ++ rest) 1 (1 + 8)) = v.
Proof. intros Hv. by apply (readUIntLE_le_bytes 8). Qed.

(** *** The tags *)

Ltac tag_cases n bound :=
  replace n with (Z.of_nat (Z.to_nat n)) by lia;
  let k := fresh "k" in
  let Hk := fresh "Hk" in
  assert (Hk : (Z.to_nat n < bound)%nat) by lia;
  generalize dependent (Z.to_nat n); clear; intros k Hk;
  repeat (destruct k as [|k]; [reflexivity|]); lia.

Lemma unpack_empty fuel objectList :
  _unpack (S fuel) [] objectList = Raised (TypeError "Unknown OPACK type").
Proof. reflexivity. Qed.

Lemma unpack_true fuel data objectList :
  _unpack (S fuel) (0x01 :: data) objectList
  = finish false (VBool true) data objectList.
Proof. reflexivity. Qed.

Lemma unpack_false fuel data objectList :
  _unpack (S fuel) (0x02 :: data) objectList
  = finish false (VBool false) data objectList.
Proof. reflexivity. Qed.

Lemma unpack_null fuel data objectList :
  _unpack (S fuel) (0x04 :: data) objectList
  = finish false VNull data objectList.
Proof. reflexivity. Qed.

(** Integers from 0 to 39: one byte. *)
Lemma unpack_small_int fuel n data objectList :
  0 <= n < 0x28 ->
  _unpack (S fuel) ((n + 8) :: data) objectList
  = finish false (VInt n) data objectList.
Proof. intros Hn. tag_cases n 40%nat. Qed.

Lemma unpack_int8 fuel x data objectList :
  _unpack (S fuel) (0x30 :: x :: data) objectList
  = finish true (VInt x) data objectList.
Proof. reflexivity. Qed.

Lemma unpack_int_tag fuel k data objectList :
  1 <= k <= 3 ->
  _unpack (S fuel) ((0x30 + k) :: data) objectList
  = match readUIntLE ((0x30 + k) :: data) 1 (Z.shiftl 1 k) with
    | Returns n =>
        finish true (match n with Some n => VInt n | None => VUndefined end)
          (subarray_from ((0x30 + k) :: data) (1 + Z.shiftl 1 k)) objectList
    | Throws e => Raised e
    end.
Proof.
  intros Hk.
  assert (Hc : k = 1 \/ k = 2 \/ k = 3) by lia.
  by destruct Hc as [->|[->| ->]].
Qed.

Lemma unpack_double fuel data objectList :
  _unpack (S fuel) (0x36 :: data) objectList
  = if 9 <=? len (0x36 :: data) then
      finish true (number_of_f64 (subarray (0x36 :: data) 1 9))
        (subarray_from (0x36 :: data) 9) objectList
    else Raised (RangeError "out of range").
Proof. reflexivity. Qed.

Lemma unpack_string_short fuel n data objectList :
  0 <= n <= 0x20 ->
  _unpack (S fuel) ((0x40 + n) :: data) objectList
  = finish true (VString (bytes_string (take (Z.to_nat n) data)))
      (drop (Z.to_nat n) data) objectList.
Proof. intros Hn. tag_cases n 33%nat. Qed.

Lemma unpack_string_tag fuel k data objectList :
  1 <= k <= 4 ->
  _unpack (S fuel) ((0x60 + k) :: data) objectList
  = match readUIntLE ((0x60 + k) :: data) 1 k with
    | Returns (Some length) =>
        finish true
          (VString (bytes_string
             (subarray ((0x60 + k) :: data) (1 + k) (1 + k + length))))
          (subarray_from ((0x60 + k) :: data) (1 + k + length)) objectList
    | Returns None => finish true (VString "") ((0x60 + k) :: data) objectList
    | Throws e => Raised e
    end.
Proof.
  intros Hk.
  assert (Hc : k = 1 \/ k = 2 \/ k = 3 \/ k = 4) by lia.
  by destruct Hc as [->|[->|[->| ->]]].
Qed.

Lemma unpack_bytes_short fuel n data objectList :
  0 <= n <= 0x20 ->
  _unpack (S fuel) ((0x70 + n) :: data) objectList
  = finish true (VBytes (take (Z.to_nat n) data))
      (drop (Z.to_nat n) data) objectList.
Proof. intros Hn. tag_cases n 33%nat. Qed.

Lemma unpack_bytes_tag fuel k data objectList :
  1 <= k <= 4 ->
  _unpack (S fuel) ((0x90 + k) :: data) objectList
  = match readUIntLE ((0x90 + k) :: data) 1 (Z.shiftl 1 (k - 1)) with
    | Returns (Some length) =>
        finish true
          (VBytes (subarray ((0x90 + k) :: data) (1 + Z.shiftl 1 (k - 1))
                     (1 + Z.shiftl 1 (k - 1) + length)))
          (subarray_from ((0x90 + k) :: data)
             (1 + Z.shiftl 1 (k - 1) + length)) objectList
    | Returns None => finish true (VBytes []) ((0x90 + k) :: data) objectList
    | Throws e => Raised e
    end.
Proof.
  intros Hk.
  assert (Hc : k = 1 \/ k = 2 \/ k = 3 \/ k = 4) by lia.
  by destruct Hc as [->|[->|[->| ->]]].
Qed.

Lemma unpack_array_counted fuel k data objectList :
  0 <= k < 0xf ->
  _unpack (S fuel) ((0xd0 + k) :: data) objectList
  = match unpack_items (_unpack fuel) (Z.to_nat k) data objectList [] with
    | Done (output, ptr, objectList') =>
        finish false (VArray output) ptr objectList'
    | Raised e => Raised e
    | OutOfFuel => OutOfFuel
    | PrototypeReplaced => PrototypeReplaced
    end.
Proof. intros Hk. tag_cases k 15%nat. Qed.

Lemma unpack_array_sentinel fuel data objectList :
  _unpack (S fuel) (0xdf :: data) objectList
  = match unpack_items_until (_unpack fuel) fuel data objectList [] with
    | Done (output, ptr, objectList') =>
        finish false (VArray output) (subarray_from ptr 1) objectList'
    | Raised e => Raised e
    | OutOfFuel => OutOfFuel
    | PrototypeReplaced => PrototypeReplaced
    end.
Proof. reflexivity. Qed.

Lemma unpack_object_counted fuel k data objectList :
  0 <= k < 0xf ->
  _unpack (S fuel) ((0xe0 + k) :: data) objectList
  = match unpack_entries (_unpack fuel) (Z.to_nat k) data objectList [] with
    | Done (output, ptr, objectList') =>
        finish false (VObject output) ptr objectList'
    | Raised e => Raised e
    | OutOfFuel => OutOfFuel
    | PrototypeReplaced => PrototypeReplaced
    end.
Proof. intros Hk. tag_cases k 15%nat. Qed.

Lemma unpack_object_sentinel fuel data objectList :
  _unpack (S fuel) (0xef :: data) objectList
  = match unpack_entries_until (_unpack fuel) fuel data objectList [] with
    | Done (output, ptr, objectList') =>
        finish false (VObject output) (subarray_from ptr 1) objectList'
    | Raised e => Raised e
    | OutOfFuel => OutOfFuel
    | PrototypeReplaced => PrototypeReplaced
    end.
Proof. reflexivity. Qed.

Lemma unpack_reference_short fuel i data objectList :
  0 <= i <= 0x20 ->
  _unpack (S fuel) ((0xa0 + i) :: data) objectList
  = finish false (objectList_at objectList (Some i)) data objectList.
Proof. intros Hi. tag_cases i 33%nat. Qed.

Lemma unpack_reference_tag fuel k data objectList :
  1 <= k <= 4 ->
  _unpack (S fuel) ((0xc0 + k) :: data) objectList
  = match readUIntLE ((0xc0 + k) :: data) 1 k with
    | Returns uid =>
        finish false (objectList_at objectList uid)
          (subarray_from ((0xc0 + k) :: data) (1 + k)) objectList
    | Throws e => Raised e
    end.
Proof.
  intros Hk.
  assert (Hc : k = 1 \/ k = 2 \/ k = 3 \/ k = 4) by lia.
  by destruct Hc as [->|[->|[->| ->]]].
Qed.

(** The bytes that are no tag: 0, 3, 7, 0x65 to 0x6f, 0x95 to 0x9f and
    0xc5 to 0xcf. *)
Lemma unpack_no_tag fuel b data objectList :
  b = 0 \/ b = 3 \/ b = 7 \/ 0x65 <= b <= 0x6f \/ 0x95 <= b <= 0x9f \/
  0xc5 <= b <= 0xcf ->
  _unpack (S fuel) (b :: data) objectList
  = Raised (TypeError "Unknown OPACK type").
Proof.
  intros Hb.
  assert (Hr : 0 <= b < 256) by lia.
  replace b with (Z.of_nat (Z.to_nat b)) in Hb |- * by lia.
  assert (Hk : (Z.to_nat b < 256)%nat) by lia.
  generalize dependent (Z.to_nat b). clear. intros k Hb Hk.
  do 256 (destruct k as [|k]; [first [reflexivity | exfalso; lia]|]). lia.
Qed.

End OpackDecode.

(** ** OPACK: numbers, strings and byte strings there and back *)

Section OpackScalars.
Import Opack OpackAux.
Context `{Float}.

Lemma to_u8_small v : 0 <= v < 256 -> to_u8 v = v.
Proof. intros Hv. unfold to_u8. by apply Z.mod_small. Qed.

Lemma finish_done b v rest objectList :
  finish b v rest objectList
  = Done (v, rest,
          if b && negb (includes objectList v) then objectList ++ [v]
          else objectList).
Proof. done. Qed.

Lemma deduplicate_nil packed : deduplicate packed [] = (packed, pool_entry packed).
Proof. unfold deduplicate, pool_entry. simpl. by destruct (1 <? len packed). Qed.

(** The encoder on an integer. *)
Lemma packInteger_encode n :
  0 <= n < 2 ^ 64 -> packInteger n = Returns (encode (VInt n)).
Proof.
  intros Hn. cbn [encode]. unfold packInteger.
  destruct (Z.leb_spec 0 n); [|lia]. cbn [andb].
  repeat (case_match; try done).
  exfalso. apply Z.ltb_ge in H1. lia.
Qed.

Lemma unpack_encode_int fuel n rest objectList :
  0 <= n < 2 ^ 32 ->
  _unpack (S fuel) (encode (VInt n) ++ rest) objectList
  = finish (0x28 <=? n) (VInt n) rest objectList.
Proof.
  intros Hn. cbn [encode]. unfold packInteger.
  destruct (Z.leb_spec 0 n); [|lia]. cbn [andb].
  destruct (Z.ltb_spec n 0x28).
  { rewrite to_u8_small by lia. cbn [app].
    rewrite unpack_small_int by lia.
    by destruct (Z.leb_spec 0x28 n); [lia|]. }
  destruct (Z.leb_spec 0x28 n); [|lia].
  destruct (Z.leb_spec n 0xff).
  { rewrite to_u8_small by lia. cbn [app]. apply unpack_int8. }
  destruct (Z.leb_spec n 0xffff).
  { change (0x31 :: le_bytes 2 n) with ((0x30 + 1) :: le_bytes 2 n).
    cbn [app]. rewrite unpack_int_tag by lia.
    change (Z.shiftl 1 1) with 2.
    rewrite readUIntLE_2
      by (cbn [length]; rewrite length_app, le_bytes_length; lia).
    rewrite read_le16 by lia.
    change (0x30 + 1 :: le_bytes 2 n ++ rest)
      with ([0x31] ++ le_bytes 2 n ++ rest).
    by rewrite subarray_from_mid by (rewrite le_bytes_length; simpl; lia). }
  destruct (Z.leb_spec n 0xffffffff); [|lia].
  change (0x32 :: le_bytes 4 n) with ((0x30 + 2) :: le_bytes 4 n).
  cbn [app]. rewrite unpack_int_tag by lia.
  change (Z.shiftl 1 2) with 4.
  rewrite readUIntLE_4
    by (cbn [length]; rewrite length_app, le_bytes_length; lia).
  rewrite read_le32 by lia.
  change (0x30 + 2 :: le_bytes 4 n ++ rest)
    with ([0x32] ++ le_bytes 4 n ++ rest).
  by rewrite subarray_from_mid by (rewrite le_bytes_length; simpl; lia).
Qed.

Lemma unpack_encode_int64 fuel n rest objectList :
  2 ^ 32 <= n < 2 ^ 64 ->
  _unpack (S fuel) (encode (VInt n) ++ rest) objectList
  = finish true (VInt (u64_to_number n)) rest objectList.
Proof.
  intros Hn. cbn [encode]. unfold packInteger.
  change (2 ^ 32) with 4294967296 in Hn.
  destruct (Z.leb_spec 0 n); [|lia]. cbn [andb].
  destruct (Z.ltb_spec n 0x28); [lia|].
  destruct (Z.leb_spec n 0xff); [lia|].
  destruct (Z.leb_spec n 0xffff); [lia|].
  destruct (Z.leb_spec n 0xffffffff); [lia|].
  destruct (Z.ltb_spec n (2 ^ 64)); [|lia].
  change (0x33 :: le_bytes 8 n) with ((0x30 + 3) :: le_bytes 8 n).
  cbn [app]. rewrite unpack_int_tag by lia.
  change (Z.shiftl 1 3) with 8.
  rewrite readUIntLE_8
    by (cbn [length]; rewrite length_app, le_bytes_length; lia).
  rewrite read_le64 by lia.
  change (0x30 + 3 :: le_bytes 8 n ++ rest)
    with ([0x33] ++ le_bytes 8 n ++ rest).
  by rewrite subarray_from_mid by (rewrite le_bytes_length; simpl; lia).
Qed.


Lemma at_index_1 {A} (x y : A) l : at_index (x :: y :: l) 1 = Some y.
Proof. reflexivity. Qed.

(** A length-prefixed body behind a header of [h] bytes. *)
Lemma sized_body (hdr body rest : Buffer) (h : Z) :
  h = len hdr ->
  subarray (hdr ++ body ++ rest) h (h + len body) = body /\
  subarray_from (hdr ++ body ++ rest) (h + len body) = rest.
Proof.
  intros ->. split; [by apply subarray_mid | by apply subarray_from_mid].
Qed.

Lemma unpack_encode_string fuel s rest objectList :
  len (string_bytes s) <= 0xffff ->
  _unpack (S fuel) (packString s ++ rest) objectList
  = finish true (VString s) rest objectList.
Proof.
  intros Hl. unfold packString.
  set (encoded := string_bytes s) in *.
  pose proof (Zle_0_nat (length encoded)) as Hpos.
  rewrite <- (bytes_string_string_bytes s) at 1. fold encoded.
  destruct (Z.leb_spec (len encoded) 0x20).
  { rewrite to_u8_small by lia. rewrite <- app_assoc. cbn [app].
    rewrite unpack_string_short by lia. rewrite Nat2Z.id.
    by rewrite take_app_length, drop_app_length. }
  destruct (Z.leb_spec (len encoded) 0xff).
  { rewrite to_u8_small by lia. rewrite <- app_assoc.
    destruct (sized_body [0x61; len encoded] encoded rest 2 eq_refl)
      as (Hb & Hr).
    change ([0x61; len encoded] ++ encoded ++ rest)
      with ((0x60 + 1) :: len encoded :: encoded ++ rest) in *.
    rewrite unpack_string_tag by lia. rewrite readUIntLE_1, at_index_1.
    change (1 + 1) with 2. by rewrite Hb, Hr. }
  destruct (Z.leb_spec (len encoded) 0xffff); [|lia].
  rewrite <- app_assoc.
  destruct (sized_body (0x62 :: le_bytes 2 (len encoded)) encoded rest 3)
    as (Hb & Hr); [by rewrite length_cons, le_bytes_length|].
  change ((0x62 :: le_bytes 2 (len encoded)) ++ encoded ++ rest)
    with ((0x60 + 2) :: le_bytes 2 (len encoded) ++ encoded ++ rest) in *.
  rewrite unpack_string_tag by lia.
  rewrite readUIntLE_2
    by (cbn [length]; rewrite length_app, le_bytes_length; lia).
  rewrite read_le16 by lia.
  change (1 + 2) with 3. by rewrite Hb, Hr.
Qed.

(** Between 65536 and 16777215 bytes the encoder writes the length in three
    bytes, which the decoder does not read. *)
Lemma unpack_encode_string_24 fuel s rest objectList :
  0xffff < len (string_bytes s) <= 0xffffff ->
  _unpack (S fuel) (packString s ++ rest) objectList
  = Raised (Error_ "Unsupported integer size").
Proof.
  intros Hl. unfold packString.
  set (encoded := string_bytes s) in *.
  destruct (Z.leb_spec (len encoded) 0x20); [lia|].
  destruct (Z.leb_spec (len encoded) 0xff); [lia|].
  destruct (Z.leb_spec (len encoded) 0xffff); [lia|].
  destruct (Z.leb_spec (len encoded) 0xffffff); [|lia].
  rewrite <- app_assoc.
  change ((0x63 :: le_bytes 3 (len encoded)) ++ encoded ++ rest)
    with ((0x60 + 3) :: le_bytes 3 (len encoded) ++ encoded ++ rest).
  rewrite unpack_string_tag by lia. by rewrite readUIntLE_3.
Qed.

Lemma unpack_encode_string_32 fuel s rest objectList :
  0xffffff < len (string_bytes s) < 2 ^ 32 ->
  _unpack (S fuel) (packString s ++ rest) objectList
  = finish true (VString s) rest objectList.
Proof.
  intros Hl. unfold packString.
  set (encoded := string_bytes s) in *.
  rewrite <- (bytes_string_string_bytes s) at 1. fold encoded.
  change (2 ^ 32) with 4294967296 in Hl.
  destruct (Z.leb_spec (len encoded) 0x20); [lia|].
  destruct (Z.leb_spec (len encoded) 0xff); [lia|].
  destruct (Z.leb_spec (len encoded) 0xffff); [lia|].
  destruct (Z.leb_spec (len encoded) 0xffffff); [lia|].
  rewrite <- app_assoc.
  destruct (sized_body (0x64 :: le_bytes 4 (len encoded)) encoded rest 5)
    as (Hb & Hr); [by rewrite length_cons, le_bytes_length|].
  change ((0x64 :: le_bytes 4 (len encoded)) ++ encoded ++ rest)
    with ((0x60 + 4) :: le_bytes 4 (len encoded) ++ encoded ++ rest) in *.
  rewrite unpack_string_tag by lia.
  rewrite readUIntLE_4
    by (cbn [length]; rewrite length_app, le_bytes_length; lia).
  rewrite read_le32 by lia.
  change (1 + 4) with 5. by rewrite Hb, Hr.
Qed.

Lemma unpack_encode_bytes fuel (b : Buffer) rest objectList :
  len b < 2 ^ 32 ->
  _unpack (S fuel) (packBytes b ++ rest) objectList
  = finish true (VBytes b) rest objectList.
Proof.
  intros Hl. unfold packBytes. change (2 ^ 32) with 4294967296 in Hl.
  pose proof (Zle_0_nat (length b)) as Hpos.
  destruct (Z.leb_spec (len b) 0x20).
  { rewrite to_u8_small by lia. rewrite <- app_assoc. cbn [app].
    rewrite unpack_bytes_short by lia. rewrite Nat2Z.id.
    by rewrite take_app_length, drop_app_length. }
  destruct (Z.leb_spec (len b) 0xff).
  { rewrite to_u8_small by lia. rewrite <- app_assoc.
    destruct (sized_body [0x91; len b] b rest 2 eq_refl) as (Hb & Hr).
    change ([0x91; len b] ++ b ++ rest)
      with ((0x90 + 1) :: len b :: b ++ rest) in *.
    rewrite unpack_bytes_tag by lia. change (Z.shiftl 1 (1 - 1)) with 1.
    rewrite readUIntLE_1, at_index_1.
    change (1 + 1) with 2. by rewrite Hb, Hr. }
  destruct (Z.leb_spec (len b) 0xffff).
  { rewrite <- app_assoc.
    destruct (sized_body (0x92 :: le_bytes 2 (len b)) b rest 3)
      as (Hb & Hr); [by rewrite length_cons, le_bytes_length|].
    change ((0x92 :: le_bytes 2 (len b)) ++ b ++ rest)
      with ((0x90 + 2) :: le_bytes 2 (len b) ++ b ++ rest) in *.
    rewrite unpack_bytes_tag by lia. change (Z.shiftl 1 (2 - 1)) with 2.
    rewrite readUIntLE_2
      by (cbn [length]; rewrite length_app, le_bytes_length; lia).
    rewrite read_le16 by lia.
    change (1 + 2) with 3. by rewrite Hb, Hr. }
  destruct (Z.leb_spec (len b) 0xffffffff); [|lia].
  rewrite <- app_assoc.
  destruct (sized_body (0x93 :: le_bytes 4 (len b)) b rest 5)
    as (Hb & Hr); [by rewrite length_cons, le_bytes_length|].
  change ((0x93 :: le_bytes 4 (len b)) ++ b ++ rest)
    with ((0x90 + 3) :: le_bytes 4 (len b) ++ b ++ rest) in *.
  rewrite unpack_bytes_tag by lia. change (Z.shiftl 1 (3 - 1)) with 4.
  rewrite readUIntLE_4
    by (cbn [length]; rewrite length_app, le_bytes_length; lia).
  rewrite read_le32 by lia.
  change (1 + 4) with 5. by rewrite Hb, Hr.
Qed.

Lemma unpack_encode_double fuel (image : Buffer) rest objectList :
  len image = 8 ->
  _unpack (S fuel) ((0x36 :: image) ++ rest) objectList
  = finish true (number_of_f64 image) rest objectList.
Proof.
  intros Hl. cbn [app]. rewrite unpack_double.
  destruct (Z.leb_spec 9 (len (0x36 :: image ++ rest))) as [_|Hx];
    [|cbn [length] in Hx; rewrite length_app in Hx; lia].
  destruct (sized_body [0x36] image rest 1 eq_refl) as (Hb & Hr).
  rewrite Hl in Hb, Hr. change (1 + 8) with 9 in *.
  change ([0x36] ++ image ++ rest) with (0x36 :: image ++ rest) in *.
  by rewrite Hb, Hr.
Qed.

End OpackScalars.

Section OpackScalarTheorems.
Import Opack OpackAux.
Context `{Float}.

Lemma unpack_of_encoding (packed : Buffer) v objectList' :
  (forall fuel, _unpack (S fuel) (packed ++ []) []
                = Done (v, [], objectList')) ->
  unpack packed = Done (v, []).
Proof.
  intros Hu. unfold unpack. specialize (Hu (length packed)).
  rewrite app_nil_r in Hu. by rewrite Hu.
Qed.

Lemma pack_int n :
  0 <= n < 2 ^ 64 -> pack (VInt n) = Returns (encode (VInt n)).
Proof.
  intros Hn. unfold pack. cbn [_pack]. rewrite packInteger_encode by done.
  by rewrite deduplicate_nil.
Qed.

(** X18: integers there and back.  [pack] writes an integer from 0 to 39 in
    one byte, up to 255 in two, up to 65535 in three, below 2^32 in five and
    below 2^64 in nine bytes, and refuses every other integer with a
    [RangeError].  [unpack] gives back every integer below 2^32 as it was;
    from 2^32 on it gives the float64 nearest to it, which is the integer
    itself as long as that is a float64. *)
Theorem integer_round_trip (n : Z) :
  (0 <= n < 2 ^ 32 -> unpack_pack (VInt n) = Done (VInt n, [])) /\
  (2 ^ 32 <= n < 2 ^ 64 ->
   unpack_pack (VInt n) = Done (VInt (u64_to_number n), [])) /\
  (0 <= n < 2 ^ 64 ->
   exists packed,
     pack (VInt n) = Returns packed /\
     len packed = if n <? 0x28 then 1 else if n <=? 0xff then 2
                  else if n <=? 0xffff then 3
                  else if n <=? 0xffffffff then 5 else 9) /\
  (n < 0 \/ 2 ^ 64 <= n ->
   exists msg, pack (VInt n) = Throws (RangeError msg)).
Proof.
  split; [|split; [|split]].
  - intros Hn. unfold unpack_pack.
    rewrite pack_int by (change (2 ^ 32) with 4294967296 in Hn; lia).
    eapply unpack_of_encoding. intros fuel.
    rewrite unpack_encode_int by done. apply finish_done.
  - intros Hn. unfold unpack_pack. rewrite pack_int by lia.
    eapply unpack_of_encoding. intros fuel.
    rewrite unpack_encode_int64 by done. apply finish_done.
  - intros Hn. exists (encode (VInt n)). split; [by apply pack_int|].
    cbn [encode]. unfold packInteger.
    destruct (Z.leb_spec 0 n); [|lia]. cbn [andb].
    destruct (n <? 0x28); [done|]. destruct (n <=? 0xff); [done|].
    destruct (n <=? 0xffff); [done|]. destruct (n <=? 0xffffffff); [done|].
    by destruct (Z.ltb_spec n (2 ^ 64)); [|lia].
  - intros Hn. eexists. unfold pack. cbn [_pack]. unfold packInteger.
    destruct Hn as [Hn|Hn].
    + destruct (Z.leb_spec 0 n); [lia|]. reflexivity.
    + destruct (Z.leb_spec 0 n); [|lia]. cbn [andb].
      destruct (Z.ltb_spec n 0x28); [lia|].
      destruct (Z.leb_spec n 0xff); [lia|].
      destruct (Z.leb_spec n 0xffff); [lia|].
      destruct (Z.leb_spec n 0xffffffff); [lia|].
      destruct (Z.ltb_spec n (2 ^ 64)); [lia|]. reflexivity.
Qed.

(** X19: strings there and back.  A string of at most 65535 bytes, or of
    more than 16777215 and fewer than 2^32 bytes, comes back from [unpack]
    as it went into [pack].  A string of 65536 to 16777215 bytes is packed
    with a length of three bytes, and [unpack] refuses what [pack] wrote:
    its [readUIntLE] reads 1, 2, 4 or 8 bytes only. *)
Theorem string_round_trip (s : string) :
  (len (string_bytes s) <= 0xffff \/ 0xffffff < len (string_bytes s) < 2 ^ 32 ->
   unpack_pack (VString s) = Done (VString s, [])) /\
  (0xffff < len (string_bytes s) <= 0xffffff ->
   exists msg, unpack_pack (VString s) = Raised (Error_ msg)).
Proof.
  unfold unpack_pack, pack. cbn [_pack]. rewrite deduplicate_nil. split.
  - intros Hl. eapply unpack_of_encoding. intros fuel.
    destruct Hl as [Hl|Hl].
    + rewrite unpack_encode_string by done. apply finish_done.
    + rewrite unpack_encode_string_32 by done. apply finish_done.
  - intros Hl. eexists. unfold unpack.
    rewrite <- (app_nil_r (packString s)) at 2.
    by rewrite unpack_encode_string_24.
Qed.

(** X20: a reference to a place that the object list does not have is not
    refused: [unpack] gives [undefined] for it and goes on behind it. *)
Theorem reference_to_nothing (i : Z) (rest : Buffer)
    (objectList : list value) (fuel : nat) :
  len objectList <= i <= 0x20 ->
  _unpack (S fuel) ((0xa0 + i) :: rest) objectList
    = Done (VUndefined, rest, objectList) /\
  _unpack (S fuel) (0xc1 :: i :: rest) objectList
    = Done (VUndefined, rest, objectList) /\
  (objectList = [] -> unpack ((0xa0 + i) :: rest) = Done (VUndefined, rest)).
Proof.
  intros Hi.
  assert (Hat : objectList_at objectList (Some i) = VUndefined).
  { unfold objectList_at, at_index. destruct (Z.ltb_spec i 0); [done|].
    by rewrite lookup_ge_None_2 by lia. }
  assert (H1 : forall fuel, _unpack (S fuel) ((0xa0 + i) :: rest) objectList
                            = Done (VUndefined, rest, objectList)).
  { intros f. rewrite unpack_reference_short by lia. by rewrite Hat. }
  split; [apply H1|]. split.
  - change (0xc1 :: i :: rest) with ((0xc0 + 1) :: i :: rest).
    rewrite unpack_reference_tag by lia.
    rewrite readUIntLE_1, at_index_1. by rewrite Hat.
  - intros ->. unfold unpack. by rewrite H1.
Qed.

(** X21: the bytes that begin no encoding.  Whatever follows them, [unpack]
    throws a [TypeError] on 00, 03, 07, 65 to 6F, 95 to 9F and C5 to CF (and
    on the empty buffer), and an [Error] for the integer size on 34, 37 to
    3F, 63 and C3. *)
Theorem undecodable_first_bytes (b : Z) (rest : Buffer) :
  (b = 0 \/ b = 3 \/ b = 7 \/ 0x65 <= b <= 0x6f \/ 0x95 <= b <= 0x9f \/
   0xc5 <= b <= 0xcf ->
   exists msg, unpack (b :: rest) = Raised (TypeError msg)) /\
  (b = 0x34 \/ 0x37 <= b <= 0x3f \/ b = 0x63 \/ b = 0xc3 ->
   exists msg, unpack (b :: rest) = Raised (Error_ msg)) /\
  (exists msg, unpack [] = Raised (TypeError msg)).
Proof.
  split; [|split].
  - intros Hb. eexists. unfold unpack. by rewrite unpack_no_tag.
  - intros Hb. eexists. unfold unpack.
    assert (Hc : _unpack (S (length (b :: rest))) (b :: rest) []
                 = Raised (Error_ "Unsupported integer size")).
    { assert (Hr : 0 <= b < 256) by lia.
      replace b with (Z.of_nat (Z.to_nat b)) in Hb |- * by lia.
      assert (Hk : (Z.to_nat b < 256)%nat) by lia.
      generalize dependent (Z.to_nat b). clear. intros k Hb Hk.
      do 256 (destruct k as [|k]; [first [reflexivity | exfalso; lia]|]).
      lia. }
    by rewrite Hc.
  - by eexists.
Qed.

End OpackScalarTheorems.

(** ** OPACK: values in which nothing occurs twice *)

Section OpackNested.
Import Opack OpackAux.
Context `{Float}.

(** Induction on values, with the items of arrays and objects. *)
Lemma value_ind_nested (P : value -> Prop) :
  P VUndefined -> P VNull -> (forall b, P (VBool b)) ->
  (forall n, P (VInt n)) -> (forall image, P (VDouble image)) ->
  (forall image, P (VOpackFloat image)) -> (forall s, P (VString s)) ->
  (forall b, P (VBytes b)) ->
  (forall items, Forall P items -> P (VArray items)) ->
  (forall entries, Forall (fun kv => P kv.2) entries -> P (VObject entries)) ->
  forall v, P v.
Proof.
  intros Hu Hn Hb Hi Hd Hf Hs Hy Ha Ho.
  fix IH 1. intros [| |b|n|image|image|s|b|items|entries].
  - exact Hu.
  - exact Hn.
  - apply Hb.
  - apply Hi.
  - apply Hd.
  - apply Hf.
  - apply Hs.
  - apply Hy.
  - apply Ha. induction items as [|x items IHitems]; constructor;
      [apply IH | exact IHitems].
  - apply Ho. induction entries as [|[k x] entries IHentries]; constructor;
      [apply IH | exact IHentries].
Qed.

Lemma forallb_Forall {A} (f : A -> bool) l :
  forallb f l = true <-> Forall (fun x => f x = true) l.
Proof.
  induction l as [|x l IH]; simpl.
  - split; [constructor | done].
  - rewrite andb_true_iff, IH, Forall_cons. done.
Qed.

(** *** The encoder *)

Lemma find_from_not_in (l : list Buffer) x : forall i,
  x ∉ l -> findInObjectList_from i l x = -1.
Proof.
  induction l as [|y l IH]; intros i Hni; [done|].
  apply not_elem_of_cons in Hni as [Hne Hni]. cbn [findInObjectList_from].
  rewrite bool_decide_eq_false_2 by congruence. by apply IH.
Qed.

Lemma deduplicate_fresh packed objectList :
  packed ∉ objectList ->
  deduplicate packed objectList = (packed, objectList ++ pool_entry packed).
Proof.
  intros Hni. unfold deduplicate, findInObjectList, pool_entry.
  rewrite find_from_not_in by done. cbn.
  destruct (1 <? len packed); [done | by rewrite app_nil_r].
Qed.


Lemma pool_entry_long packed : long_entries (pool_entry packed).
Proof.
  unfold pool_entry, long_entries.
  destruct (Z.ltb_spec 1 (len packed)); [|constructor].
  by repeat constructor.
Qed.

Lemma pooled_long v : long_entries (pooled v).
Proof.
  induction v using value_ind_nested; try apply pool_entry_long.
  - cbn [pooled]. apply Forall_app. split; [|apply pool_entry_long].
    induction H0 as [|x items Hx _ IH]; [constructor|].
    cbn [flat_map]. apply Forall_app. by split.
  - cbn [pooled]. apply Forall_app. split; [|apply pool_entry_long].
    induction H0 as [|[k x] entries Hx _ IH]; [constructor|].
    cbn [flat_map]. apply Forall_app. split; [|done].
    apply Forall_app. split; [apply pool_entry_long | done].
Qed.

(** An encoding that the list is about to take, or that is too short for
    it, is not in the list. *)
Lemma fresh_not_in packed objectList :
  long_entries objectList -> NoDup (objectList ++ pool_entry packed) ->
  packed ∉ objectList.
Proof.
  intros Hlong Hnd Hin. unfold pool_entry in Hnd.
  destruct (Z.ltb_spec 1 (len packed)) as [Hl|Hl].
  - apply NoDup_app in Hnd as (_ & Hdis & _). apply (Hdis _ Hin). by left.
  - unfold long_entries in Hlong. rewrite Forall_forall in Hlong.
    specialize (Hlong _ Hin). simpl in Hlong. lia.
Qed.

Lemma pack_array_unfold items objectList :
  _pack (VArray items) objectList
  = match pack_items items [[0xd0 + Z.min (len items) 0xf]] objectList with
    | Returns (parts, objectList') =>
        Returns (deduplicate
                   (concat (if 0xf <=? len items then parts ++ [[0x03]]
                            else parts)) objectList')
    | Throws e => Throws e
    end.
Proof. reflexivity. Qed.

Lemma pack_object_unfold entries objectList :
  _pack (VObject entries) objectList
  = match pack_entries entries [[0xe0 + Z.min (len entries) 0xf]] objectList
    with
    | Returns (parts, objectList') =>
        Returns (deduplicate
                   (concat (if 0xf <=? len entries then parts ++ [[0x03]]
                            else parts)) objectList')
    | Throws e => Throws e
    end.
Proof. reflexivity. Qed.

Lemma encode_array items :
  encode (VArray items)
  = concat (if 0xf <=? len items
            then ([[0xd0 + Z.min (len items) 0xf]] ++ List.map encode items)
                 ++ [[0x03]]
            else [[0xd0 + Z.min (len items) 0xf]] ++ List.map encode items).
Proof.
  cbn [encode]. destruct (0xf <=? len items).
  - rewrite !concat_app. cbn [concat]. by rewrite !app_nil_r.
  - rewrite concat_app. cbn [concat]. by rewrite !app_nil_r.
Qed.

Lemma encode_object entries :
  encode (VObject entries)
  = concat (if 0xf <=? len entries
            then ([[0xe0 + Z.min (len entries) 0xf]] ++ entry_parts entries)
                 ++ [[0x03]]
            else [[0xe0 + Z.min (len entries) 0xf]] ++ entry_parts entries).
Proof.
  cbn [encode].
  assert (Hc : concat (List.map (fun kv : string * value =>
                  let (k, x) := kv in packString k ++ encode x) entries)
               = concat (entry_parts entries)).
  { unfold entry_parts. induction entries as [|[k x] entries IH]; [done|].
    cbn [List.map concat flat_map app fst snd]. rewrite IH.
    by rewrite <- app_assoc. }
  rewrite Hc. destruct (0xf <=? len entries).
  - rewrite !concat_app. cbn [concat]. by rewrite !app_nil_r.
  - rewrite concat_app. cbn [concat]. by rewrite !app_nil_r.
Qed.

(** The encoder on a value none of whose encodings is in the list or comes
    up twice: nothing is replaced by a reference. *)
Lemma pack_fresh v :
  decodable v = true ->
  forall objectList,
    long_entries objectList -> NoDup (objectList ++ pooled v) ->
    _pack v objectList = Returns (encode v, objectList ++ pooled v).
Proof.
  induction v as [| |b|n|image|image|s|b|items IH|entries IH]
    using value_ind_nested; intros Hdec objectList Hlong Hnd; try done.
  - cbn [_pack]. by rewrite deduplicate_fresh by (by apply fresh_not_in).
  - cbn [_pack]. by rewrite deduplicate_fresh by (by apply fresh_not_in).
  - cbn [decodable] in Hdec. apply andb_true_iff in Hdec as [H0 H1].
    apply Z.leb_le in H0. apply Z.ltb_lt in H1.
    change (2 ^ 32) with 4294967296 in H1.
    cbn [_pack]. rewrite packInteger_encode by lia.
    by rewrite deduplicate_fresh by (by apply fresh_not_in).
  - cbn [_pack]. by rewrite deduplicate_fresh by (by apply fresh_not_in).
  - cbn [_pack]. by rewrite deduplicate_fresh by (by apply fresh_not_in).
  - cbn [_pack]. by rewrite deduplicate_fresh by (by apply fresh_not_in).
  - cbn [decodable] in Hdec. apply forallb_Forall in Hdec.
    cbn [pooled] in Hnd.
    assert (Hitems : forall parts objectList,
      long_entries objectList ->
      NoDup (objectList ++ flat_map pooled items) ->
      pack_items items parts objectList
      = Returns (parts ++ List.map encode items,
                 objectList ++ flat_map pooled items)).
    { clear Hnd Hlong objectList.
      induction items as [|x items IHitems]; intros parts ol Hlong Hnd.
      - cbn. by rewrite !app_nil_r.
      - apply Forall_cons in IH as [IHx IH].
        apply Forall_cons in Hdec as [Hx Hdec].
        cbn [flat_map] in Hnd. rewrite app_assoc in Hnd.
        cbn [pack_items]. rewrite IHx; [|done|done|].
        2: { by apply NoDup_app in Hnd as (Hnd & _). }
        rewrite IHitems; [|done|done| |done].
        2: { apply Forall_app. split; [done | apply pooled_long]. }
        cbn [List.map flat_map]. by rewrite <- !app_assoc. }
    rewrite pack_array_unfold. rewrite Hitems; [|done|].
    2: { rewrite app_assoc in Hnd. by apply NoDup_app in Hnd as (Hnd & _). }
    rewrite <- encode_array.
    rewrite deduplicate_fresh.
    + cbn [pooled]. by rewrite <- app_assoc.
    + apply fresh_not_in; [|by rewrite <- app_assoc].
      apply Forall_app. split; [done|].
      pose proof (pooled_long (VArray items)) as Hp. cbn [pooled] in Hp.
      by apply Forall_app in Hp as [Hp _].
  - cbn [decodable] in Hdec. apply andb_true_iff in Hdec as [Hdec _].
    apply forallb_Forall in Hdec. cbn [pooled] in Hnd.
    set (pool := flat_map (fun kv : string * value =>
                   let (k, x) := kv in pool_entry (packString k) ++ pooled x))
      in *.
    assert (Hplong : forall es, long_entries (pool es)).
    { intros es. induction es as [|[k x] es IHes]; [constructor|].
      unfold pool. cbn [flat_map]. fold (pool es).
      apply Forall_app. split; [|done].
      apply Forall_app. split; [apply pool_entry_long | apply pooled_long]. }
    assert (Hentries : forall parts objectList,
      long_entries objectList ->
      NoDup (objectList ++ pool entries) ->
      pack_entries entries parts objectList
      = Returns (parts ++ entry_parts entries, objectList ++ pool entries)).
    { clear Hnd Hlong objectList.
      induction entries as [|[k x] entries IHentries];
        intros parts ol Hlong Hnd.
      - cbn. by rewrite !app_nil_r.
      - apply Forall_cons in IH as [IHx IH].
        apply Forall_cons in Hdec as [Hx Hdec].
        apply andb_true_iff in Hx as [_ Hx]. cbn [snd] in IHx.
        unfold pool in Hnd. cbn [flat_map] in Hnd. fold (pool entries) in Hnd.
        rewrite <- !app_assoc in Hnd.
        cbn [pack_entries]. unfold _pack_key.
        rewrite deduplicate_fresh.
        2: { apply fresh_not_in; [done|].
             rewrite app_assoc in Hnd. by apply NoDup_app in Hnd as (Hnd & _). }
        rewrite IHx; [|done| |].
        2: { apply Forall_app. split; [done | apply pool_entry_long]. }
        2: { rewrite !app_assoc in Hnd. apply NoDup_app in Hnd as (Hnd & _).
             by rewrite <- !app_assoc in Hnd |- *. }
        rewrite IHentries; [|done|done| |].
        2: { apply Forall_app. split; [|apply pooled_long].
             apply Forall_app. split; [done | apply pool_entry_long]. }
        2: { by rewrite <- !app_assoc. }
        unfold entry_parts, pool. cbn [flat_map fst snd].
        by rewrite <- !app_assoc. }
    rewrite pack_object_unfold. rewrite Hentries; [|done|].
    2: { rewrite app_assoc in Hnd. by apply NoDup_app in Hnd as (Hnd & _). }
    rewrite <- encode_object.
    rewrite deduplicate_fresh.
    + cbn [pooled]. by rewrite <- app_assoc.
    + apply fresh_not_in; [|by rewrite <- app_assoc].
      apply Forall_app. split; [done | apply Hplong].
Qed.


(** *** The decoder *)

(** An encoding is not empty and does not begin with the end mark 03. *)
Lemma packString_head s :
  exists t tl, packString s = t :: tl /\ t <> 3.
Proof.
  destruct (packString_shape s) as (t & tl & -> & Ht & _).
  exists t, tl. split; [done | lia].
Qed.

Lemma encode_head v :
  decodable v = true -> exists t tl, encode v = t :: tl /\ t <> 3.
Proof.
  destruct v as [| |b|n|image|image|s|b|items|entries]; intros Hdec;
    try done.
  - by eexists _, _.
  - destruct b; by eexists _, _.
  - cbn [decodable] in Hdec. apply andb_true_iff in Hdec as [H0 H1].
    apply Z.leb_le in H0. apply Z.ltb_lt in H1.
    change (2 ^ 32) with 4294967296 in H1.
    cbn [encode]. unfold packInteger.
    destruct (Z.leb_spec 0 n); [|lia]. cbn [andb].
    destruct (Z.ltb_spec n 0x28).
    { eexists _, _. split; [done|]. rewrite to_u8_small by lia. lia. }
    destruct (n <=? 0xff); [by eexists _, _|].
    destruct (n <=? 0xffff); [by eexists _, _|].
    destruct (Z.leb_spec n 0xffffffff); [by eexists _, _ | lia].
  - by eexists _, _.
  - apply packString_head.
  - cbn [encode]. unfold packBytes.
    pose proof (Zle_0_nat (length b)).
    destruct (Z.leb_spec (len b) 0x20).
    { eexists _, _. split; [done|]. rewrite to_u8_small by lia. lia. }
    repeat (case_match; [by eexists _, _|]). by eexists _, _.
  - cbn [encode]. eexists _, _. split; [done|].
    pose proof (Zle_0_nat (length items)). lia.
  - cbn [encode]. eexists _, _. split; [done|].
    pose proof (Zle_0_nat (length entries)). lia.
Qed.

Lemma obj_has_false key (entries : list (string * value)) :
  key ∉ entries.*1 -> obj_has key entries = false.
Proof.
  induction entries as [|[k x] entries IH]; [done|].
  cbn [fmap list_fmap fst obj_has]. intros Hni.
  apply not_elem_of_cons in Hni as [Hne Hni].
  rewrite bool_decide_eq_false_2 by congruence. by apply IH.
Qed.

Lemma obj_set_append key v (entries : list (string * value)) :
  key ∉ entries.*1 -> array_index key = None -> key <> "__proto__" ->
  obj_set key v entries = entries ++ [(key, v)].
Proof.
  intros Hni Hidx Hne. unfold obj_set.
  by rewrite obj_has_false, bool_decide_eq_false_2, Hidx.
Qed.

(** The assignment of a property whose name is a string other than
    [__proto__]. *)
Lemma assign_string key v (output : list (string * value)) :
  key <> "__proto__" ->
  assign (VString key) v output = Done (obj_set key v output).
Proof.
  intros Hne. unfold assign. cbn [js_String].
  by rewrite (bool_decide_eq_false_2 (key = "__proto__")) by done.
Qed.

(** The assignment of a property with a new plain name. *)
Lemma assign_append key v (output : list (string * value)) :
  key ∉ output.*1 -> array_index key = None -> key <> "__proto__" ->
  assign (VString key) v output = Done (output ++ [(key, v)]).
Proof.
  intros Hni Hidx Hne. unfold assign. cbn [js_String].
  rewrite (bool_decide_eq_false_2 (key = "__proto__")) by done.
  cbn [andb]. by rewrite obj_set_append.
Qed.

Lemma concat_encode_length (items : list value) :
  Forall (fun v => decodable v = true) items ->
  (length items <= length (concat (List.map encode items)))%nat.
Proof.
  induction 1 as [|x items Hx _ IH]; [done|].
  destruct (encode_head x Hx) as (t & tl & Hh & _).
  cbn [List.map concat]. rewrite length_app, Hh. simpl. lia.
Qed.

(** The counted loop of the array case on the encodings of the items. *)
Lemma unpack_items_encoded (rec : unpacker) (items : list value) :
  Forall (fun v => forall rest objectList, exists objectList',
            rec (encode v ++ rest) objectList
            = Done (v, rest, objectList')) items ->
  forall rest objectList output, exists objectList',
    unpack_items rec (length items)
      (concat (List.map encode items) ++ rest) objectList output
    = Done (output ++ items, rest, objectList').
Proof.
  induction 1 as [|x items Hx _ IH]; intros rest objectList output.
  - exists objectList. cbn. by rewrite app_nil_r.
  - cbn [length List.map concat unpack_items]. rewrite <- app_assoc.
    destruct (Hx (concat (List.map encode items) ++ rest) objectList)
      as (ol1 & ->).
    destruct (IH rest ol1 (output ++ [x])) as (ol2 & ->).
    exists ol2. by rewrite <- app_assoc.
Qed.

(** The loop up to the end mark. *)
Lemma unpack_items_until_encoded (rec : unpacker) (items : list value) :
  Forall (fun v => decodable v = true /\
            forall rest objectList, exists objectList',
              rec (encode v ++ rest) objectList
              = Done (v, rest, objectList')) items ->
  forall fuel rest objectList output,
    (length items <= fuel)%nat ->
    exists objectList',
      unpack_items_until rec fuel
        (concat (List.map encode items) ++ 3 :: rest) objectList output
      = Done (output ++ items, 3 :: rest, objectList').
Proof.
  induction 1 as [|x items [Hd Hx] _ IH];
    intros fuel rest objectList output Hfuel.
  - exists objectList. rewrite app_nil_r.
    destruct fuel; cbn [List.map concat app unpack_items_until];
      by rewrite bool_decide_eq_true_2.
  - destruct fuel as [|fuel]; [simpl in Hfuel; lia|].
    cbn [List.map concat unpack_items_until]. rewrite <- app_assoc.
    destruct (encode_head x Hd) as (t & tl & Hh & Ht).
    rewrite bool_decide_eq_false_2.
    2: { rewrite Hh. cbn. intros [= ?]. done. }
    destruct (Hx (concat (List.map encode items) ++ 3 :: rest) objectList)
      as (ol1 & ->).
    destruct (IH fuel rest ol1 (output ++ [x])) as (ol2 & ->);
      [simpl in Hfuel; lia|].
    exists ol2. by rewrite <- app_assoc.
Qed.


Lemma concat_entry_parts_cons k x (entries : list (string * value)) :
  concat (entry_parts ((k, x) :: entries))
  = packString k ++ encode x ++ concat (entry_parts entries).
Proof. unfold entry_parts. cbn [flat_map concat app fst snd]. done. Qed.

Lemma unpack_entry_encoded (rec : unpacker) k x rest objectList output :
  entry_decodes rec (k, x) -> k ∉ output.*1 ->
  exists objectList',
    unpack_entry rec (packString k ++ encode x ++ rest) objectList output
    = Done (output ++ [(k, x)], rest, objectList').
Proof.
  intros (Hidx & Hne & Hk & Hx) Hni. cbn [fst snd] in *. unfold unpack_entry.
  destruct (Hk (encode x ++ rest) objectList) as (ol1 & ->).
  destruct (Hx rest ol1) as (ol2 & ->).
  exists ol2. by rewrite assign_append.
Qed.

Lemma unpack_entries_encoded (rec : unpacker)
    (entries : list (string * value)) :
  Forall (entry_decodes rec) entries ->
  forall rest objectList output,
    NoDup (output.*1 ++ entries.*1) ->
    exists objectList',
      unpack_entries rec (length entries)
        (concat (entry_parts entries) ++ rest) objectList output
      = Done (output ++ entries, rest, objectList').
Proof.
  induction 1 as [|[k x] entries Hx _ IH]; intros rest objectList output Hnd.
  - exists objectList. cbn. by rewrite app_nil_r.
  - cbn [length unpack_entries]. rewrite concat_entry_parts_cons.
    rewrite <- !app_assoc.
    destruct (unpack_entry_encoded rec k x
                (concat (entry_parts entries) ++ rest) objectList output Hx)
      as (ol1 & ->).
    { cbn [fmap list_fmap fst] in Hnd.
      apply NoDup_app in Hnd as (_ & Hdis & _).
      intros Hin. apply (Hdis _ Hin). by left. }
    destruct (IH rest ol1 (output ++ [(k, x)])) as (ol2 & ->).
    { rewrite fmap_app. cbn [fmap list_fmap fst] in *.
      by rewrite <- app_assoc. }
    exists ol2. by rewrite <- app_assoc.
Qed.

Lemma unpack_entries_until_encoded (rec : unpacker)
    (entries : list (string * value)) :
  Forall (entry_decodes rec) entries ->
  forall fuel rest objectList output,
    (length entries <= fuel)%nat ->
    NoDup (output.*1 ++ entries.*1) ->
    exists objectList',
      unpack_entries_until rec fuel
        (concat (entry_parts entries) ++ 3 :: rest) objectList output
      = Done (output ++ entries, 3 :: rest, objectList').
Proof.
  induction 1 as [|[k x] entries Hx _ IH];
    intros fuel rest objectList output Hfuel Hnd.
  - exists objectList. rewrite app_nil_r.
    destruct fuel; cbn [entry_parts flat_map concat app unpack_entries_until];
      by rewrite bool_decide_eq_true_2.
  - destruct fuel as [|fuel]; [simpl in Hfuel; lia|].
    cbn [unpack_entries_until]. rewrite concat_entry_parts_cons.
    rewrite <- !app_assoc.
    destruct (packString_head k) as (t & tl & Hh & Ht).
    rewrite bool_decide_eq_false_2.
    2: { rewrite Hh. cbn. intros [= ?]. done. }
    destruct (unpack_entry_encoded rec k x
                (concat (entry_parts entries) ++ 3 :: rest) objectList
                output Hx)
      as (ol1 & ->).
    { cbn [fmap list_fmap fst] in Hnd.
      apply NoDup_app in Hnd as (_ & Hdis & _).
      intros Hin. apply (Hdis _ Hin). by left. }
    destruct (IH fuel rest ol1 (output ++ [(k, x)])) as (ol2 & ->);
      [simpl in Hfuel; lia| |].
    { rewrite fmap_app. cbn [fmap list_fmap fst] in *.
      by rewrite <- app_assoc. }
    exists ol2. by rewrite <- app_assoc.
Qed.


Lemma encode_length_in (items : list value) x :
  x ∈ items ->
  (length (encode x) <= length (concat (List.map encode items)))%nat.
Proof.
  induction items as [|y items IH]; intros Hin; [by apply elem_of_nil in Hin|].
  cbn [List.map concat]. rewrite length_app.
  apply elem_of_cons in Hin as [->|Hin]; [lia|]. specialize (IH Hin). lia.
Qed.

Lemma entry_length_in (entries : list (string * value)) k x :
  (k, x) ∈ entries ->
  (length (packString k) + length (encode x)
   <= length (concat (entry_parts entries)))%nat.
Proof.
  induction entries as [|[k2 x2] entries IH]; intros Hin;
    [by apply elem_of_nil in Hin|].
  rewrite concat_entry_parts_cons, !length_app.
  apply elem_of_cons in Hin as [[= -> ->]|Hin]; [lia|].
  specialize (IH Hin). lia.
Qed.

Lemma entry_parts_length (entries : list (string * value)) :
  (length entries <= length (concat (entry_parts entries)))%nat.
Proof.
  induction entries as [|[k x] entries IH]; [done|].
  rewrite concat_entry_parts_cons, !length_app.
  destruct (packString_head k) as (t & tl & -> & _). simpl. lia.
Qed.

(** The decoder on the encoding of a value, whatever its object list
    holds: no reference is read. *)
Lemma unpack_encode v :
  decodable v = true ->
  forall fuel rest objectList,
    (length (encode v) < fuel)%nat ->
    exists objectList',
      _unpack fuel (encode v ++ rest) objectList
      = Done (v, rest, objectList').
Proof.
  induction v as [| |b|n|image|image|s|b|items IH|entries IH]
    using value_ind_nested; intros Hdec fuel rest objectList Hfuel;
    try done; (destruct fuel as [|fuel]; [lia|]).
  - cbn [encode app]. rewrite unpack_null. by eexists.
  - destruct b; cbn [encode app];
      [rewrite unpack_true | rewrite unpack_false]; by eexists.
  - cbn [decodable] in Hdec. apply andb_true_iff in Hdec as [H0 H1].
    apply Z.leb_le in H0. apply Z.ltb_lt in H1.
    rewrite unpack_encode_int by lia. by eexists.
  - cbn [decodable] in Hdec. apply andb_true_iff in Hdec as [H0 H1].
    apply Z.eqb_eq in H0. apply bool_decide_eq_true_1 in H1.
    cbn [encode]. rewrite unpack_encode_double by done.
    unfold number_of_f64. rewrite H1. by eexists.
  - cbn [decodable] in Hdec. apply Z.leb_le in Hdec.
    cbn [encode]. rewrite unpack_encode_string by done. by eexists.
  - cbn [decodable] in Hdec. apply Z.ltb_lt in Hdec.
    cbn [encode]. rewrite unpack_encode_bytes by done. by eexists.
  - cbn [decodable] in Hdec. apply forallb_Forall in Hdec.
    pose proof (concat_encode_length items Hdec) as Hcl.
    cbn [encode] in Hfuel |- *. rewrite !length_app in Hfuel.
    cbn [length] in Hfuel.
    assert (Hrec : Forall (fun v => decodable v = true /\
              forall rest objectList, exists objectList',
                _unpack fuel (encode v ++ rest) objectList
                = Done (v, rest, objectList')) items).
    { rewrite Forall_forall in IH, Hdec |- *. intros x Hx.
      split; [by apply Hdec|]. intros rest' ol'.
      apply IH; [done | by apply Hdec|].
      pose proof (encode_length_in items x Hx). lia. }
    rewrite <- !app_assoc. cbn [app].
    pose proof (Zle_0_nat (length items)) as Hpos.
    destruct (Z.leb_spec 0xf (len items)) as [Hbig|Hsmall].
    + cbn [app]. rewrite Z.min_r by lia. change (0xd0 + 0xf) with 0xdf.
      rewrite unpack_array_sentinel.
      destruct (unpack_items_until_encoded (_unpack fuel) items Hrec fuel
                  rest objectList []) as (ol' & ->); [simpl in Hfuel; lia|].
      by eexists.
    + cbn [app]. rewrite Z.min_l by lia. rewrite unpack_array_counted by lia.
      rewrite Nat2Z.id.
      destruct (unpack_items_encoded (_unpack fuel) items) with
        (rest := rest) (objectList := objectList) (output := @nil value)
        as (ol' & ->).
      { eapply Forall_impl; [exact Hrec|]. by intros x [_ Hx]. }
      by eexists.
  - cbn [decodable] in Hdec. apply andb_true_iff in Hdec as [Hdec Hnd].
    apply forallb_Forall in Hdec. apply bool_decide_eq_true_1 in Hnd.
    pose proof (entry_parts_length entries) as Hcl.
    assert (Hbound : (length (concat (entry_parts entries)) < fuel)%nat).
    { rewrite encode_object in Hfuel.
      destruct (0xf <=? len entries);
        rewrite !concat_app, !length_app in Hfuel; simpl in Hfuel; lia. }
    clear Hfuel. rewrite encode_object.
    assert (Hrec : Forall (entry_decodes (_unpack fuel)) entries).
    { rewrite Forall_forall in IH, Hdec |- *. intros [k x] Hx.
      specialize (Hdec _ Hx). cbn in Hdec.
      apply andb_true_iff in Hdec as [Hkey Hval].
      unfold plain_key in Hkey.
      apply andb_true_iff in Hkey as [[Hkl Hki]%andb_true_iff Hkp].
      apply Z.leb_le in Hkl. apply bool_decide_eq_true_1 in Hki.
      apply negb_true_iff, bool_decide_eq_false_1 in Hkp.
      pose proof (entry_length_in entries k x Hx) as Hlen.
      split; [done|]. split; [done|]. split.
      - intros rest' ol'. destruct fuel as [|fuel']; [lia|].
        rewrite unpack_encode_string by done. by eexists.
      - intros rest' ol'. apply (IH _ Hx); [done|]. cbn [snd]. lia. }
    pose proof (Zle_0_nat (length entries)) as Hpos.
    destruct (Z.leb_spec 0xf (len entries)) as [Hbig|Hsmall].
    + rewrite !concat_app. cbn [concat app].
      rewrite <- !app_assoc. cbn [app].
      rewrite Z.min_r by lia. change (0xe0 + 0xf) with 0xef.
      rewrite unpack_object_sentinel.
      destruct (unpack_entries_until_encoded (_unpack fuel) entries Hrec fuel
                  rest objectList []) as (ol' & ->); [lia | done |].
      by eexists.
    + rewrite concat_app. cbn [concat app].
      rewrite Z.min_l by lia. rewrite unpack_object_counted by lia.
      rewrite Nat2Z.id.
      destruct (unpack_entries_encoded (_unpack fuel) entries Hrec rest
                  objectList []) as (ol' & ->); [done|].
      by eexists.
Qed.

End OpackNested.

Section OpackNestedTheorems.
Import Opack OpackAux.
Context `{Float}.

(** X22: [unpack] gives back what [pack] was given, for every value that
    [unpack] can give at all (see [decodable]: integers from 0 below 2^32,
    strings of at most 65535 bytes, arrays and objects nested to any depth,
    the names of the properties of an object all different, none of them an
    array index and none [__proto__]) and in which no encoding of more than
    one byte comes up twice while it is packed, so that [pack] writes no
    reference into the object list.  Nothing is left over. *)
Theorem unpack_pack_without_repeats (v : value) :
  decodable v = true -> NoDup (pooled v) ->
  pack v = Returns (encode v) /\
  unpack_pack v = Done (v, []).
Proof.
  intros Hdec Hnd.
  assert (Hp : pack v = Returns (encode v)).
  { unfold pack. by rewrite (pack_fresh v Hdec []) by (done || constructor). }
  split; [done|]. unfold unpack_pack. rewrite Hp. unfold unpack.
  destruct (unpack_encode v Hdec (S (length (encode v))) [] [])
    as (ol' & Hu); [lia|].
  rewrite app_nil_r in Hu. by rewrite Hu.
Qed.

End OpackNestedTheorems.

(** ** OPACK: references into the object list *)

Section OpackPools.
Import Opack OpackAux.
Context `{Float}.

(** The first place of an element in a list, as [findInObjectList] finds
    it. *)
Lemma find_from_spec (l : list Buffer) x : forall i,
  (findInObjectList_from i l x = -1 /\ x ∉ l) \/
  (exists j : nat,
     findInObjectList_from i l x = i + Z.of_nat j /\ l !! j = Some x /\
     x ∉ take j l).
Proof.
  induction l as [|y l IH]; intros i.
  - left. split; [done | apply not_elem_of_nil].
  - cbn [findInObjectList_from]. destruct (decide (y = x)) as [->|Hne].
    + right. exists 0%nat. rewrite bool_decide_eq_true_2 by done.
      split; [lia|]. split; [done | apply not_elem_of_nil].
    + rewrite bool_decide_eq_false_2 by done.
      destruct (IH (i + 1)) as [[Hr Hni]|(j & Hr & Hj & Hni)].
      * left. split; [done|]. by apply not_elem_of_cons.
      * right. exists (S j). split; [lia|]. split; [done|].
        cbn [take]. by apply not_elem_of_cons.
Qed.

Lemma find_spec (l : list Buffer) x :
  (findInObjectList l x = -1 /\ x ∉ l) \/
  (exists j : nat,
     findInObjectList l x = Z.of_nat j /\ l !! j = Some x /\ x ∉ take j l).
Proof. apply (find_from_spec l x 0). Qed.

Lemma deduplicate_found packed objectList (j : nat) :
  findInObjectList objectList packed = Z.of_nat j -> Z.of_nat j <= 0xffff ->
  deduplicate packed objectList = (reference (Z.of_nat j), objectList).
Proof.
  intros Hf Hj. unfold deduplicate, reference. rewrite Hf.
  destruct (Z.leb_spec 0 (Z.of_nat j)); [|lia].
  destruct (Z.of_nat j <? 0x21); [done|].
  destruct (Z.of_nat j <=? 0xff); [done|].
  by destruct (Z.leb_spec (Z.of_nat j) 0xffff); [|lia].
Qed.

(** The decoder on a reference. *)
Lemma unpack_reference fuel idx rest objectList :
  0 <= idx <= 0xffff ->
  _unpack (S fuel) (reference idx ++ rest) objectList
  = Done (objectList_at objectList (Some idx), rest, objectList).
Proof.
  intros Hi. unfold reference.
  destruct (Z.ltb_spec idx 0x21).
  { rewrite to_u8_small by lia. cbn [app].
    by rewrite unpack_reference_short by lia. }
  destruct (Z.leb_spec idx 0xff).
  { rewrite to_u8_small by lia. cbn [app].
    change (0xc1 :: idx :: rest) with ((0xc0 + 1) :: idx :: rest).
    rewrite unpack_reference_tag by lia.
    by rewrite readUIntLE_1, at_index_1. }
  change ((0xc2 :: le_bytes 2 idx) ++ rest)
    with ((0xc0 + 2) :: le_bytes 2 idx ++ rest).
  rewrite unpack_reference_tag by lia.
  rewrite readUIntLE_2
    by (cbn [length]; rewrite length_app, le_bytes_length; lia).
  rewrite read_le16 by lia.
  change (0xc0 + 2 :: le_bytes 2 idx ++ rest)
    with ([0xc2] ++ le_bytes 2 idx ++ rest).
  by rewrite subarray_from_mid by (rewrite le_bytes_length; simpl; lia).
Qed.

Lemma reference_head idx :
  0 <= idx <= 0xffff -> exists t tl, reference idx = t :: tl /\ t <> 3.
Proof.
  intros Hi. unfold reference.
  destruct (Z.ltb_spec idx 0x21).
  { eexists _, _. split; [done|]. rewrite to_u8_small by lia. lia. }
  destruct (idx <=? 0xff); by eexists _, _.
Qed.

(** *** Scalars *)

Lemma scalar_decodable v : scalar v = true -> decodable v = true.
Proof.
  destruct v; try done; cbn [scalar decodable];
    intros Hs; apply andb_true_iff in Hs as [_ Hs]; done.
Qed.

(** The decoder on the encoding of a scalar: it goes into the object list
    exactly when the encoder puts it into its own. *)
Lemma unpack_scalar fuel v rest objectList :
  scalar v = true ->
  _unpack (S fuel) (encode v ++ rest) objectList
  = finish (1 <? len (encode v)) v rest objectList.
Proof.
  destruct v as [| |b|n|image|image|s|b|items|entries]; try done; intros Hs.
  - destruct b; cbn [encode app];
      [by rewrite unpack_true | by rewrite unpack_false].
  - cbn [scalar] in Hs. apply andb_true_iff in Hs as [H0 H1].
    apply Z.leb_le in H0. apply Z.ltb_lt in H1.
    rewrite unpack_encode_int by lia. f_equal.
    change (2 ^ 32) with 4294967296 in H1.
    cbn [encode]. unfold packInteger.
    destruct (Z.leb_spec 0 n); [|lia]. cbn [andb].
    destruct (Z.ltb_spec n 0x28);
      [by destruct (Z.leb_spec 0x28 n); [lia|]|].
    destruct (Z.leb_spec 0x28 n); [|lia].
    destruct (n <=? 0xff); [done|]. destruct (n <=? 0xffff); [done|].
    by destruct (Z.leb_spec n 0xffffffff); [|lia].
  - cbn [scalar] in Hs. apply andb_true_iff in Hs as [H0 H1].
    apply negb_true_iff, bool_decide_eq_false_1 in H0. apply Z.leb_le in H1.
    cbn [encode]. rewrite unpack_encode_string by done. f_equal.
    destruct (packString_shape s) as (t & tl & -> & _ & Hr).
    specialize (Hr H0). destruct tl; [done|]. symmetry. apply Z.ltb_lt.
    simpl. lia.
  - cbn [scalar] in Hs. apply andb_true_iff in Hs as [H0 H1].
    apply negb_true_iff, bool_decide_eq_false_1 in H0. apply Z.ltb_lt in H1.
    cbn [encode]. rewrite unpack_encode_bytes by done. f_equal.
    symmetry. apply Z.ltb_lt. unfold packBytes.
    destruct b as [|x b]; [done|].
    repeat case_match; rewrite ?length_app; simpl; lia.
Qed.

Lemma scalar_head v :
  scalar v = true -> exists t tl, encode v = t :: tl /\ t <> 3 /\ t < 0xa0.
Proof.
  destruct v as [| |b|n|image|image|s|b|items|entries]; try done; intros Hs.
  - eexists _, _. split; [done|]. lia.
  - destruct b; eexists _, _; (split; [done|]); lia.
  - cbn [scalar] in Hs. apply andb_true_iff in Hs as [H0 H1].
    apply Z.leb_le in H0. apply Z.ltb_lt in H1.
    change (2 ^ 32) with 4294967296 in H1.
    cbn [encode]. unfold packInteger.
    destruct (Z.leb_spec 0 n); [|lia]. cbn [andb].
    destruct (Z.ltb_spec n 0x28).
    { eexists _, _. split; [done|]. rewrite to_u8_small by lia. lia. }
    destruct (n <=? 0xff); [eexists _, _; (split; [done|]); lia|].
    destruct (n <=? 0xffff); [eexists _, _; (split; [done|]); lia|].
    destruct (Z.leb_spec n 0xffffffff);
      [eexists _, _; (split; [done|]); lia | lia].
  - destruct (packString_shape s) as (t & tl & Hp & Ht & _).
    exists t, tl. split; [done|]. lia.
  - cbn [scalar] in Hs. apply andb_true_iff in Hs as [_ H1].
    apply Z.ltb_lt in H1. change (2 ^ 32) with 4294967296 in H1.
    cbn [encode]. unfold packBytes.
    pose proof (Zle_0_nat (length b)).
    destruct (Z.leb_spec (len b) 0x20).
    { eexists _, _. split; [done|]. rewrite to_u8_small by lia. lia. }
    destruct (len b <=? 0xff); [eexists _, _; (split; [done|]); lia|].
    destruct (len b <=? 0xffff); [eexists _, _; (split; [done|]); lia|].
    destruct (Z.leb_spec (len b) 0xffffffff);
      [eexists _, _; (split; [done|]); lia | lia].
Qed.

(** Two scalars with the same encoding are the same. *)
Lemma encode_scalar_inj v w :
  scalar v = true -> scalar w = true -> encode v = encode w -> v = w.
Proof.
  intros Hv Hw Heq.
  pose proof (unpack_scalar 0 v [] [] Hv) as H1.
  pose proof (unpack_scalar 0 w [] [] Hw) as H2.
  rewrite Heq, H2 in H1. unfold finish in H1. by injection H1.
Qed.


Lemma same_value_zero_eq x v :
  scalar x = true -> same_value_zero x v = true -> x = v.
Proof.
  destruct x, v; try done; cbn [same_value_zero]; intros _ Hs.
  - by apply bool_decide_eq_true_1 in Hs as ->.
  - by apply Z.eqb_eq in Hs as ->.
  - by apply bool_decide_eq_true_1 in Hs as ->.
Qed.

Lemma includes_elem (D : list value) v :
  Forall (fun x => scalar x = true) D -> includes D v = true -> v ∈ D.
Proof.
  intros HD Hi. unfold includes in Hi. apply existsb_exists in Hi
    as (x & Hin & Hs).
  apply list_elem_of_In in Hin. rewrite Forall_forall in HD.
  by rewrite <- (same_value_zero_eq x v (HD _ Hin) Hs).
Qed.

Lemma pack_scalar v objectList :
  scalar v = true ->
  _pack v objectList = Returns (deduplicate (encode v) objectList).
Proof.
  destruct v as [| |b|n|image|image|s|b|items|entries]; try done; intros Hs.
  cbn [scalar] in Hs. apply andb_true_iff in Hs as [H0 H1].
  apply Z.leb_le in H0. apply Z.ltb_lt in H1.
  change (2 ^ 32) with 4294967296 in H1.
  cbn [_pack]. by rewrite packInteger_encode by lia.
Qed.

Lemma pools_nil : pools [] [] [] [].
Proof.
  split; [done|]. split; [constructor|]. split; [constructor|].
  exists []. split; [done|]. split; constructor.
Qed.

Lemma pools_long E D pre R : pools E D pre R -> long_entries E.
Proof.
  intros (-> & Hpre & HR & _). apply Forall_app. split; [|done].
  apply Forall_forall. intros e (x & -> & Hx)%list_elem_of_fmap.
  rewrite Forall_forall in Hpre. by destruct (Hpre _ Hx).
Qed.

Lemma pools_scalars E D pre R :
  pools E D pre R -> Forall (fun x => scalar x = true) D.
Proof.
  intros (_ & Hpre & _ & T & -> & HT & _). apply Forall_app.
  split; (eapply Forall_impl; [eassumption|]); by intros x [Hx _].
Qed.

(** One scalar: what the encoder writes for it and what the decoder makes
    of that, from object lists that belong together. *)
Lemma scalar_step E D pre R v :
  pools E D pre R -> scalar v = true -> encode v ∉ R -> len E <= 0xffff ->
  exists p E' D' pre' R',
    deduplicate (encode v) E = (p, E') /\
    pools E' D' pre' R' /\
    (forall fuel rest, _unpack (S fuel) (p ++ rest) D = Done (v, rest, D')) /\
    (exists t tl, p = t :: tl /\ t <> 3) /\
    (length E' <= S (length E))%nat /\
    (R = [] -> R' = []) /\
    (R' = R \/ R' = R ++ [encode v]).
Proof.
  intros HP Hs HnR Hlen.
  pose proof (pools_long _ _ _ _ HP) as Hlong.
  pose proof (pools_scalars _ _ _ _ HP) as Hsc.
  destruct (scalar_head v Hs) as (t & tl & Hh & Ht3 & _).
  destruct (Z.ltb_spec 1 (len (encode v))) as [Hl|Hl].
  - (* the encoding goes into the list *)
    destruct (find_spec E (encode v)) as [[Hf Hni]|(j & Hf & Hj & Hfirst)].
    + (* a new one *)
      destruct HP as (HE & Hpre & HR & T & HD & HT & HTR).
      assert (Hninc : includes D v = false).
      { destruct (includes D v) eqn:Hinc; [|done]. exfalso.
        apply includes_elem in Hinc; [|done]. subst D.
        apply elem_of_app in Hinc as [Hin|Hin].
        - apply Hni. subst E. apply elem_of_app. left.
          apply list_elem_of_fmap. by exists v.
        - rewrite Forall_forall in HTR. by apply HnR, HTR. }
      assert (Hdec : forall fuel rest,
        _unpack (S fuel) (encode v ++ rest) D = Done (v, rest, D ++ [v])).
      { intros fuel rest. rewrite unpack_scalar by done.
        destruct (Z.ltb_spec 1 (len (encode v))); [|lia].
        unfold finish. by rewrite Hninc. }
      assert (Hpool : pool_entry (encode v) = [encode v]).
      { unfold pool_entry. by destruct (Z.ltb_spec 1 (len (encode v))); [|lia]. }
      destruct R as [|r R].
      * exists (encode v), (E ++ [encode v]), (D ++ [v]), (pre ++ [v]), [].
        split; [by rewrite deduplicate_fresh, Hpool|].
        assert (HT0 : T = []) by (destruct T; [done | by inversion HTR;
          subst; match goal with Hx : _ ∈ [] |- _ =>
            apply elem_of_nil in Hx end]).
        subst T. rewrite app_nil_r in HD. subst D.
        split.
        { split; [subst E; by rewrite List.map_app, !app_nil_r|].
          split; [apply Forall_app; split; [done | by repeat constructor]|].
          split; [constructor|]. exists []. rewrite app_nil_r.
          split; [done|]. split; constructor. }
        split; [done|]. split; [by exists t, tl|].
        split; [rewrite length_app; simpl; lia|]. split; [done | by left].
      * exists (encode v), (E ++ [encode v]), (D ++ [v]), pre,
               ((r :: R) ++ [encode v]).
        split; [by rewrite deduplicate_fresh, Hpool|].
        split.
        { split; [subst E; by rewrite <- app_assoc|].
          split; [done|].
          split; [apply Forall_app; split; [done | by repeat constructor]|].
          exists (T ++ [v]). split; [subst D; by rewrite <- app_assoc|].
          split; [apply Forall_app; split; [done | by repeat constructor]|].
          apply Forall_app. split.
          - eapply Forall_impl; [exact HTR|]. intros x Hx.
            apply elem_of_app. by left.
          - repeat constructor. apply elem_of_app. right. by left. }
        split; [done|]. split; [by exists t, tl|].
        split; [rewrite length_app; simpl; lia|]. split; [done | by right].
    + (* one that the list has: a reference *)
      assert (Hjl : (j < length E)%nat) by (by eapply lookup_lt_Some).
      exists (reference (Z.of_nat j)), E, D, pre, R.
      split; [by apply deduplicate_found; [|lia]|].
      split; [done|].
      destruct HP as (HE & Hpre & HR & T & HD & HT & HTR).
      split.
      { intros fuel rest. rewrite unpack_reference by lia.
        f_equal. f_equal. f_equal.
        unfold objectList_at, at_index.
        destruct (Z.ltb_spec (Z.of_nat j) 0); [lia|]. rewrite Nat2Z.id.
        subst E D.
        assert (Hjp : (j < length (List.map encode pre))%nat).
        { destruct (decide (j < length (List.map encode pre))%nat);
            [done|]. exfalso. apply HnR.
          rewrite lookup_app_r in Hj by lia.
          by eapply list_elem_of_lookup_2. }
        rewrite lookup_app_l in Hj by done.
        rewrite length_map in Hjp. rewrite lookup_app_l by done.
        destruct (lookup_lt_is_Some_2 pre j Hjp) as [x Hx].
        rewrite Hx.
        assert (Hex : List.map encode pre !! j = Some (encode x)).
        { change (List.map encode pre) with (encode <$> pre).
          by rewrite list_lookup_fmap, Hx. }
        rewrite Hex in Hj. injection Hj as Hj.
        rewrite Forall_forall in Hpre.
        destruct (Hpre x) as [Hxs _]; [by eapply list_elem_of_lookup_2|].
        by apply encode_scalar_inj. }
      split; [apply reference_head; lia|].
      split; [lia|]. split; [done | by left].
  - (* a single byte: the lists stay as they are *)
    assert (Hni : encode v ∉ E).
    { intros Hin. unfold long_entries in Hlong. rewrite Forall_forall in Hlong.
      specialize (Hlong _ Hin). simpl in Hlong. lia. }
    assert (Hpool : pool_entry (encode v) = []).
    { unfold pool_entry. by destruct (Z.ltb_spec 1 (len (encode v))); [lia|]. }
    exists (encode v), E, D, pre, R.
    split; [by rewrite deduplicate_fresh, Hpool, app_nil_r|].
    split; [done|].
    split.
    { intros fuel rest. rewrite unpack_scalar by done.
      by destruct (Z.ltb_spec 1 (len (encode v))); [lia|]. }
    split; [by exists t, tl|]. split; [lia|]. split; [done | by left].
Qed.

(** An array or object that is done: the encoder puts its encoding into its
    list, the decoder leaves its own as it is. *)
Lemma container_push E D pre R c :
  pools E D pre R ->
  (exists t tl, c = t :: tl /\ 0xa0 <= t) -> c ∉ R ->
  deduplicate c E = (c, E ++ pool_entry c) /\
  pools (E ++ pool_entry c) D pre (R ++ pool_entry c).
Proof.
  intros (HE & Hpre & HR & T & HD & HT & HTR) (t & tl & Hc & Ht) HnR.
  assert (Hni : c ∉ E).
  { subst E. intros [Hin|Hin]%elem_of_app; [|done].
    apply list_elem_of_fmap in Hin as (x & Hx & Hin).
    rewrite Forall_forall in Hpre. destruct (Hpre _ Hin) as [Hxs _].
    destruct (scalar_head x Hxs) as (t' & tl' & Hh & _ & Hlt).
    rewrite Hc, Hh in Hx. injection Hx as -> _. lia. }
  split; [by apply deduplicate_fresh|].
  split; [subst E; by rewrite <- app_assoc|]. split; [done|].
  split; [apply Forall_app; split; [done | apply pool_entry_long]|].
  exists T. split; [done|]. split; [done|].
  eapply Forall_impl; [exact HTR|]. intros x Hx. apply elem_of_app. by left.
Qed.

End OpackPools.

(** ** OPACK: values of one level, with references *)

Section OpackFlat.
Import Opack OpackAux.
Context `{Float}.

Lemma head_not_end (p rest : Buffer) :
  (exists t tl, p = t :: tl /\ t <> 3) ->
  bool_decide (at_index (p ++ rest) 0 = Some 0x03) = false.
Proof.
  intros (t & tl & -> & Ht). apply bool_decide_eq_false_2.
  cbn. intros [= ?]. done.
Qed.

(** The loop of the array case on scalars. *)
Lemma pack_items_flat (items : list value) :
  Forall (fun v => scalar v = true) items ->
  forall E D pre parts,
    pools E D pre [] -> len E + len items <= 0xffff ->
    exists ps E' D' pre',
      pack_items items parts E = Returns (parts ++ ps, E') /\
      pools E' D' pre' [] /\
      (length E' <= length E + length items)%nat /\
      (length items <= length (concat ps))%nat /\
      (forall fuel rest output,
         unpack_items (_unpack (S fuel)) (length items)
           (concat ps ++ rest) D output
         = Done (output ++ items, rest, D')) /\
      (forall fuel n rest output, (length items <= n)%nat ->
         unpack_items_until (_unpack (S fuel)) n
           (concat ps ++ 3 :: rest) D output
         = Done (output ++ items, 3 :: rest, D')).
Proof.
  induction 1 as [|x items Hx _ IH]; intros E D pre parts HP Hlen.
  - exists [], E, D, pre. rewrite !app_nil_r. cbn [pack_items length concat].
    split; [done|]. split; [done|]. split; [lia|]. split; [cbn; lia|]. split.
    + intros. cbn. by rewrite app_nil_r.
    + intros fuel n rest output _. cbn [app].
      destruct n; cbn [unpack_items_until];
        by rewrite bool_decide_eq_true_2, app_nil_r.
  - cbn [length] in Hlen.
    destruct (scalar_step E D pre [] x HP Hx) as
      (p & E1 & D1 & pre1 & R1 & Hded & HP1 & Hdec & Hhead & Hl1 & HR1 & _);
      [apply not_elem_of_nil | lia |].
    rewrite (HR1 eq_refl) in HP1.
    destruct (IH E1 D1 pre1 (parts ++ [p]) HP1) as
      (ps & E' & D' & pre' & Hpack & HP' & Hl' & Hcl & Hcount & Huntil);
      [lia|].
    exists (p :: ps), E', D', pre'.
    split.
    { cbn [pack_items]. rewrite pack_scalar by done. rewrite Hded, Hpack.
      by rewrite <- app_assoc. }
    split; [done|]. split; [cbn [length]; lia|].
    split.
    { cbn [concat length]. rewrite length_app.
      destruct Hhead as (t & tl & -> & _). cbn [length]. lia. }
    split.
    + intros fuel rest output. cbn [length unpack_items concat].
      rewrite <- app_assoc, Hdec, Hcount. by rewrite <- app_assoc.
    + intros fuel n rest output Hn. destruct n as [|n]; [cbn in Hn; lia|].
      cbn [unpack_items_until concat]. rewrite <- app_assoc.
      rewrite head_not_end by done.
      rewrite Hdec, Huntil by (cbn in Hn; lia). by rewrite <- app_assoc.
Qed.

Lemma scalar_entry_parts k x :
  scalar_entry (k, x) = true ->
  scalar (VString k) = true /\ array_index k = None /\
  k <> "__proto__" /\ scalar x = true.
Proof.
  unfold scalar_entry, plain_key. cbn [fst snd scalar].
  intros [[Hne [[Hl Hi]%andb_true_iff Hp]%andb_true_iff]%andb_true_iff Hx]
    %andb_true_iff.
  split; [by rewrite Hne, Hl|].
  split; [by apply bool_decide_eq_true_1 in Hi|]. split; [|done].
  by apply negb_true_iff, bool_decide_eq_false_1 in Hp.
Qed.

(** One property of an object: its name, then its value. *)
Lemma unpack_entry_steps (rec : unpacker) pk px rest k x D D1 D2 output :
  rec (pk ++ px ++ rest) D = Done (VString k, px ++ rest, D1) ->
  rec (px ++ rest) D1 = Done (x, rest, D2) ->
  array_index k = None -> k <> "__proto__" -> k ∉ output.*1 ->
  unpack_entry rec (pk ++ px ++ rest) D output
  = Done (output ++ [(k, x)], rest, D2).
Proof.
  intros Hk Hx Hidx Hne Hni. unfold unpack_entry. rewrite Hk, Hx.
  by rewrite assign_append.
Qed.

(** The loop of the object case on scalar properties. *)
Lemma pack_entries_flat (entries : list (string * value)) :
  Forall (fun kv => scalar_entry kv = true) entries ->
  forall E D pre parts,
    pools E D pre [] -> len E + 2 * len entries <= 0xffff ->
    exists ps E' D' pre',
      pack_entries entries parts E = Returns (parts ++ ps, E') /\
      pools E' D' pre' [] /\
      (length E' <= length E + 2 * length entries)%nat /\
      (length entries <= length (concat ps))%nat /\
      (forall fuel rest output,
         NoDup (output.*1 ++ entries.*1) ->
         unpack_entries (_unpack (S fuel)) (length entries)
           (concat ps ++ rest) D output
         = Done (output ++ entries, rest, D')) /\
      (forall fuel n rest output, (length entries <= n)%nat ->
         NoDup (output.*1 ++ entries.*1) ->
         unpack_entries_until (_unpack (S fuel)) n
           (concat ps ++ 3 :: rest) D output
         = Done (output ++ entries, 3 :: rest, D')).
Proof.
  induction 1 as [|[k x] entries Hkx _ IH]; intros E D pre parts HP Hlen.
  - exists [], E, D, pre. rewrite !app_nil_r. cbn [pack_entries length concat].
    split; [done|]. split; [done|]. split; [lia|]. split; [cbn; lia|]. split.
    + intros. cbn. by rewrite app_nil_r.
    + intros fuel n rest output _ _. cbn [app].
      destruct n; cbn [unpack_entries_until];
        by rewrite bool_decide_eq_true_2, app_nil_r.
  - cbn [length] in Hlen.
    destruct (scalar_entry_parts k x Hkx) as (Hk & Hidx & Hproto & Hx).
    destruct (scalar_step E D pre [] (VString k) HP Hk) as
      (pk & E1 & D1 & pre1 & R1 & Hdedk & HP1 & Hdeck & Hheadk & Hl1 & HR1
       & _); [apply not_elem_of_nil | lia |].
    rewrite (HR1 eq_refl) in HP1.
    destruct (scalar_step E1 D1 pre1 [] x HP1 Hx) as
      (px & E2 & D2 & pre2 & R2 & Hdedx & HP2 & Hdecx & Hheadx & Hl2 & HR2
       & _); [apply not_elem_of_nil | lia |].
    rewrite (HR2 eq_refl) in HP2.
    destruct (IH E2 D2 pre2 ((parts ++ [pk]) ++ [px]) HP2) as
      (ps & E' & D' & pre' & Hpack & HP' & Hl' & Hcl & Hcount & Huntil);
      [lia|].
    exists (pk :: px :: ps), E', D', pre'.
    assert (Hni : forall output : list (string * value),
      NoDup (output.*1 ++ ((k, x) :: entries).*1) ->
      (k ∉ output.*1) /\ NoDup ((output ++ [(k, x)]).*1 ++ entries.*1)).
    { intros output Hnd. cbn [fmap list_fmap fst] in Hnd. split.
      - apply NoDup_app in Hnd as (_ & Hdis & _).
        intros Hin. apply (Hdis _ Hin). by left.
      - rewrite fmap_app. cbn [fmap list_fmap fst]. by rewrite <- app_assoc. }
    split.
    { cbn [pack_entries]. unfold _pack_key. cbn [encode] in Hdedk.
      rewrite Hdedk. rewrite pack_scalar by done. rewrite Hdedx, Hpack.
      by rewrite <- !app_assoc. }
    split; [done|]. split; [cbn [length]; lia|].
    split.
    { cbn [concat length]. rewrite !length_app.
      destruct Hheadk as (t & tl & -> & _). cbn [length]. lia. }
    split.
    + intros fuel rest output Hnd. destruct (Hni output Hnd) as [Hk1 Hnd'].
      cbn [length unpack_entries concat]. rewrite <- !app_assoc.
      rewrite (unpack_entry_steps _ pk px _ k x D D1 D2 output
                 (Hdeck _ _) (Hdecx _ _) Hidx Hproto Hk1).
      rewrite Hcount by done. by rewrite <- app_assoc.
    + intros fuel n rest output Hn Hnd.
      destruct (Hni output Hnd) as [Hk1 Hnd'].
      destruct n as [|n]; [cbn in Hn; lia|].
      cbn [unpack_entries_until concat]. rewrite <- !app_assoc.
      rewrite head_not_end by done.
      rewrite (unpack_entry_steps _ pk px _ k x D D1 D2 output
                 (Hdeck _ _) (Hdecx _ _) Hidx Hproto Hk1).
      rewrite Huntil by (done || cbn in Hn; lia). by rewrite <- app_assoc.
Qed.

Lemma pool_entry_elem (c r : Buffer) : r ∈ pool_entry c -> r = c.
Proof.
  unfold pool_entry. destruct (1 <? len c); intros Hin.
  - by apply list_elem_of_singleton in Hin.
  - by apply elem_of_nil in Hin.
Qed.

Lemma pool_entry_length (c : Buffer) : (length (pool_entry c) <= 1)%nat.
Proof. unfold pool_entry. destruct (1 <? len c); simpl; lia. Qed.

(** A value of one level: what the encoder writes for it, and what the
    decoder makes of that, from object lists that belong together. *)
Lemma flat_step E D pre v :
  pools E D pre [] -> flat v = true -> len E + lookups v <= 0xffff ->
  exists c E' D' pre' R',
    _pack v E = Returns (c, E') /\
    pools E' D' pre' R' /\
    (forall r, r ∈ R' -> r = c /\ exists t tl, c = t :: tl /\ 0xa0 <= t) /\
    (exists t tl, c = t :: tl /\ t <> 3) /\
    (len E' <= len E + lookups v + 1) /\
    (forall fuel rest, (length c <= fuel)%nat ->
       _unpack (S fuel) (c ++ rest) D = Done (v, rest, D')).
Proof.
  intros HP Hflat Hlen.
  assert (Hscalar : scalar v = true -> lookups v = 1 ->
    exists c E' D' pre' R',
      _pack v E = Returns (c, E') /\
      pools E' D' pre' R' /\
      (forall r, r ∈ R' -> r = c /\ exists t tl, c = t :: tl /\ 0xa0 <= t) /\
      (exists t tl, c = t :: tl /\ t <> 3) /\
      (len E' <= len E + lookups v + 1) /\
      (forall fuel rest, (length c <= fuel)%nat ->
         _unpack (S fuel) (c ++ rest) D = Done (v, rest, D'))).
  { intros Hs Hone.
    destruct (scalar_step E D pre [] v HP Hs) as
      (p & E1 & D1 & pre1 & R1 & Hded & HP1 & Hdec & Hhead & Hl1 & HR1 & _);
      [apply not_elem_of_nil | lia |].
    exists p, E1, D1, pre1, R1.
    split; [by rewrite pack_scalar, Hded|]. split; [done|].
    split; [rewrite (HR1 eq_refl); by intros r ?%elem_of_nil|].
    split; [done|]. split; [lia|]. intros fuel rest _. apply Hdec. }
  destruct v as [| |b|n|image|image|s|b|items|entries]; try done;
    try (by apply Hscalar).
  - (* an array *)
    clear Hscalar. cbn [flat] in Hflat. apply forallb_Forall in Hflat.
    cbn [lookups] in Hlen |- *.
    destruct (pack_items_flat items Hflat E D pre
                [[0xd0 + Z.min (len items) 0xf]] HP Hlen) as
      (ps & E' & D' & pre' & Hpack & HP' & Hl' & Hcl & Hcount & Huntil).
    set (c := concat (if 0xf <=? len items
                      then ([[0xd0 + Z.min (len items) 0xf]] ++ ps) ++ [[0x03]]
                      else [[0xd0 + Z.min (len items) 0xf]] ++ ps)).
    pose proof (Zle_0_nat (length items)) as Hpos.
    assert (Hc : c = (0xd0 + Z.min (len items) 0xf)
                     :: concat ps ++ (if 0xf <=? len items then [3] else [])).
    { unfold c. destruct (0xf <=? len items).
      - rewrite !concat_app. cbn [concat app].
        by rewrite ?app_nil_r, <- ?app_assoc.
      - rewrite concat_app. cbn [concat app]. by rewrite ?app_nil_r. }
    destruct (container_push E' D' pre' [] c HP') as [Hded HP''].
    { rewrite Hc. eexists _, _. split; [done | lia]. }
    { apply not_elem_of_nil. }
    exists c, (E' ++ pool_entry c), D', pre', ([] ++ pool_entry c).
    split; [rewrite pack_array_unfold, Hpack; exact (f_equal Returns Hded)|].
    split; [done|].
    split.
    { cbn [app]. intros r ->%pool_entry_elem. split; [done|].
      rewrite Hc. eexists _, _. split; [done | lia]. }
    split; [rewrite Hc; eexists _, _; split; [done | lia]|].
    split.
    { rewrite length_app. pose proof (pool_entry_length c). lia. }
    intros fuel rest Hfuel. rewrite Hc in Hfuel |- *.
    cbn [length] in Hfuel. rewrite length_app in Hfuel.
    destruct fuel as [|fuel]; [lia|].
    cbn [app]. rewrite <- app_assoc.
    destruct (Z.leb_spec 0xf (len items)) as [Hbig|Hsmall].
    + cbn [app]. rewrite Z.min_r by lia. change (0xd0 + 0xf) with 0xdf.
      rewrite unpack_array_sentinel, Huntil by lia. done.
    + cbn [app]. rewrite Z.min_l by lia. rewrite unpack_array_counted by lia.
      rewrite Nat2Z.id, Hcount. done.
  - (* an object *)
    clear Hscalar. cbn [flat] in Hflat.
    apply andb_true_iff in Hflat as [Hflat Hnd].
    apply forallb_Forall in Hflat. apply bool_decide_eq_true_1 in Hnd.
    cbn [lookups] in Hlen |- *.
    destruct (pack_entries_flat entries Hflat E D pre
                [[0xe0 + Z.min (len entries) 0xf]] HP Hlen) as
      (ps & E' & D' & pre' & Hpack & HP' & Hl' & Hcl & Hcount & Huntil).
    set (c := concat (if 0xf <=? len entries
                      then ([[0xe0 + Z.min (len entries) 0xf]] ++ ps)
                           ++ [[0x03]]
                      else [[0xe0 + Z.min (len entries) 0xf]] ++ ps)).
    pose proof (Zle_0_nat (length entries)) as Hpos.
    assert (Hc : c = (0xe0 + Z.min (len entries) 0xf)
                     :: concat ps
                        ++ (if 0xf <=? len entries then [3] else [])).
    { unfold c. destruct (0xf <=? len entries).
      - rewrite !concat_app. cbn [concat app].
        by rewrite ?app_nil_r, <- ?app_assoc.
      - rewrite concat_app. cbn [concat app]. by rewrite ?app_nil_r. }
    destruct (container_push E' D' pre' [] c HP') as [Hded HP''].
    { rewrite Hc. eexists _, _. split; [done | lia]. }
    { apply not_elem_of_nil. }
    exists c, (E' ++ pool_entry c), D', pre', ([] ++ pool_entry c).
    split; [rewrite pack_object_unfold, Hpack; exact (f_equal Returns Hded)|].
    split; [done|].
    split.
    { cbn [app]. intros r ->%pool_entry_elem. split; [done|].
      rewrite Hc. eexists _, _. split; [done | lia]. }
    split; [rewrite Hc; eexists _, _; split; [done | lia]|].
    split.
    { rewrite length_app. pose proof (pool_entry_length c). lia. }
    intros fuel rest Hfuel. rewrite Hc in Hfuel |- *.
    cbn [length] in Hfuel. rewrite length_app in Hfuel.
    destruct fuel as [|fuel]; [lia|].
    cbn [app]. rewrite <- app_assoc.
    destruct (Z.leb_spec 0xf (len entries)) as [Hbig|Hsmall].
    + cbn [app]. rewrite Z.min_r by lia. change (0xe0 + 0xf) with 0xef.
      rewrite unpack_object_sentinel, Huntil by (done || lia). done.
    + cbn [app]. rewrite Z.min_l by lia. rewrite unpack_object_counted by lia.
      rewrite Nat2Z.id, Hcount by done. done.
Qed.

End OpackFlat.

Section OpackFlatTheorems.
Import Opack OpackAux.
Context `{Float}.

Lemma pack_entries_cons k x entries parts E pk E1 px E2 :
  deduplicate (packString k) E = (pk, E1) ->
  _pack x E1 = Returns (px, E2) ->
  pack_entries ((k, x) :: entries) parts E
  = pack_entries entries ((parts ++ [pk]) ++ [px]) E2.
Proof.
  intros Hk Hx. cbn [pack_entries]. unfold _pack_key. by rewrite Hk, Hx.
Qed.

Lemma unpack_entries_cons (rec : unpacker) n pk px rest k x D D1 D2 output :
  rec (pk ++ px ++ rest) D = Done (VString k, px ++ rest, D1) ->
  rec (px ++ rest) D1 = Done (x, rest, D2) ->
  array_index k = None -> k <> "__proto__" -> k ∉ output.*1 ->
  unpack_entries rec (S n) (pk ++ px ++ rest) D output
  = unpack_entries rec n rest D2 (output ++ [(k, x)]).
Proof.
  intros Hk Hx Hidx Hne Hni. cbn [unpack_entries].
  by rewrite (unpack_entry_steps rec pk px rest k x D D1 D2 output).
Qed.

Lemma scalar_not_container v c (R : list Buffer) :
  scalar v = true ->
  (forall r, r ∈ R -> r = c /\ exists t tl, c = t :: tl /\ 0xa0 <= t) ->
  encode v ∉ R.
Proof.
  intros Hs HR Hin. destruct (HR _ Hin) as [Heq (t & tl & Hc & Ht)].
  destruct (scalar_head v Hs) as (t' & tl' & Hh & _ & Hlt).
  rewrite Heq, Hc in Hh. injection Hh as -> _. lia.
Qed.

(** X23: [unpack] gives back what [pack] was given for every value of one
    level: a scalar, an array of scalars, or an object of scalar properties
    with different names, none of them an array index and none
    [__proto__], whatever is repeated in it, as long as it has at most
    65535 parts.  The strings and byte strings are not empty, the integers
    are from 0 below 2^32. *)
Theorem flat_round_trip (v : value) :
  flat v = true -> lookups v <= 0xffff ->
  unpack_pack v = Done (v, []).
Proof.
  intros Hflat Hlen.
  destruct (flat_step [] [] [] v pools_nil Hflat) as
    (c & E' & D' & pre' & R' & Hpack & _ & _ & _ & _ & Hdec);
    [cbn [length]; lia|].
  unfold unpack_pack, pack. rewrite Hpack. unfold unpack.
  specialize (Hdec (length c) [] (le_n _)). rewrite app_nil_r in Hdec.
  by rewrite Hdec.
Qed.

(** X24: the message of a request or an event, [{_i, _t, _c, _x}], comes
    back from [unpack] as it went into [pack], with nothing left over, when
    its content is a value of one level (for instance an object of scalar
    properties, none of them named [__proto__] or by an array index) of at
    most 65280 parts, whatever is repeated in it or between it and the rest
    of the message.  The identifier is a string of
    1 to 65535 bytes, the type and the transaction id are from 0 below
    2^32.  With the type [Request] this is the object that [sendCommand]
    builds and to which [exchangeOpack] assigns [_x]. *)
Theorem message_round_trip (identifier : string) (type : Z)
    (content : value) (xid : Z) :
  identifier <> EmptyString -> len (string_bytes identifier) <= 0xffff ->
  0 <= type < 2 ^ 32 -> 0 <= xid < 2 ^ 32 ->
  flat content = true -> lookups content <= 0xff00 ->
  unpack_pack (message identifier type content xid)
    = Done (message identifier type content xid, []) /\
  VObject (obj_set "_x" (VInt xid) (Protocol.command identifier content))
    = message identifier Protocol.MessageType.Request content xid.
Proof.
  intros Hne Hil Hty Hxid Hflat Hlen. split; [|reflexivity].
  assert (Hsi : scalar (VString identifier) = true).
  { cbn [scalar]. rewrite bool_decide_eq_false_2 by done.
    apply andb_true_iff. split; [done | by apply Z.leb_le]. }
  assert (Hst : scalar (VInt type) = true).
  { cbn [scalar]. apply andb_true_iff.
    split; [apply Z.leb_le | apply Z.ltb_lt]; lia. }
  assert (Hsx : scalar (VInt xid) = true).
  { cbn [scalar]. apply andb_true_iff.
    split; [apply Z.leb_le | apply Z.ltb_lt]; lia. }
  (* the name _i and the identifier *)
  destruct (scalar_step [] [] [] [] (VString "_i") pools_nil) as
    (pk1 & E1 & D1 & pre1 & R1 & Hk1 & HP1 & Hu1 & Hh1 & Hl1 & HR1 & _);
    [done | apply not_elem_of_nil | cbn [length]; lia |].
  rewrite (HR1 eq_refl) in HP1. clear R1 HR1.
  destruct (scalar_step E1 D1 pre1 [] (VString identifier) HP1 Hsi) as
    (px1 & E2 & D2 & pre2 & R2 & Hx1 & HP2 & Hv1 & Hg1 & Hl2 & HR2 & _);
    [apply not_elem_of_nil | cbn [length] in Hl1; lia |].
  rewrite (HR2 eq_refl) in HP2. clear R2 HR2.
  (* the name _t and the type *)
  destruct (scalar_step E2 D2 pre2 [] (VString "_t") HP2) as
    (pk2 & E3 & D3 & pre3 & R3 & Hk2 & HP3 & Hu2 & Hh2 & Hl3 & HR3 & _);
    [done | apply not_elem_of_nil | cbn [length] in Hl1; lia |].
  rewrite (HR3 eq_refl) in HP3. clear R3 HR3.
  destruct (scalar_step E3 D3 pre3 [] (VInt type) HP3 Hst) as
    (px2 & E4 & D4 & pre4 & R4 & Hx2 & HP4 & Hv2 & Hg2 & Hl4 & HR4 & _);
    [apply not_elem_of_nil | cbn [length] in Hl1; lia |].
  rewrite (HR4 eq_refl) in HP4. clear R4 HR4.
  (* the name _c and the content *)
  destruct (scalar_step E4 D4 pre4 [] (VString "_c") HP4) as
    (pk3 & E5 & D5 & pre5 & R5 & Hk3 & HP5 & Hu3 & Hh3 & Hl5 & HR5 & _);
    [done | apply not_elem_of_nil | cbn [length] in Hl1; lia |].
  rewrite (HR5 eq_refl) in HP5. clear R5 HR5.
  destruct (flat_step E5 D5 pre5 content HP5 Hflat) as
    (c & E6 & D6 & pre6 & R6 & Hx3 & HP6 & HR6 & Hg3 & Hl6 & Hv3);
    [cbn [length] in Hl1; lia |].
  (* the name _x and the transaction id *)
  destruct (scalar_step E6 D6 pre6 R6 (VString "_x") HP6) as
    (pk4 & E7 & D7 & pre7 & R7 & Hk4 & HP7 & Hu4 & Hh4 & Hl7 & _ & HR7);
    [done | by eapply scalar_not_container | cbn [length] in Hl1; lia |].
  destruct (scalar_step E7 D7 pre7 R7 (VInt xid) HP7 Hsx) as
    (px4 & E8 & D8 & pre8 & R8 & Hx4 & HP8 & Hv4 & Hg4 & Hl8 & _ & HR8).
  { destruct HR7 as [->| ->]; [by eapply scalar_not_container|].
    intros [Hin|Hin]%elem_of_app.
    - revert Hin. by eapply scalar_not_container.
    - apply list_elem_of_singleton in Hin.
      by apply encode_scalar_inj in Hin. }
  { cbn [length] in Hl1. lia. }
  (* the object *)
  set (body := pk1 ++ px1 ++ pk2 ++ px2 ++ pk3 ++ c ++ pk4 ++ px4 ++ []).
  assert (Hin8 : forall r, r ∈ R8 ->
    r = c \/ exists t tl, r = t :: tl /\ t < 0xa0).
  { assert (Hin7 : forall r, r ∈ R7 ->
      r = c \/ exists t tl, r = t :: tl /\ t < 0xa0).
    { intros r Hin. destruct HR7 as [->| ->].
      - left. by apply HR6.
      - apply elem_of_app in Hin as [Hin|Hin]; [left; by apply HR6|].
        apply list_elem_of_singleton in Hin as ->. right.
        destruct (scalar_head (VString "_x")) as (t & tl & Hh & _ & Hlt);
          [done|]. by exists t, tl. }
    intros r Hin. destruct HR8 as [->| ->]; [by apply Hin7|].
    apply elem_of_app in Hin as [Hin|Hin]; [by apply Hin7|].
    apply list_elem_of_singleton in Hin as ->. right.
    destruct (scalar_head (VInt xid) Hsx) as (t & tl & Hh & _ & Hlt).
    by exists t, tl. }
  destruct (container_push E8 D8 pre8 R8 ((0xe0 + 4) :: body) HP8)
    as [Hded _].
  { eexists _, _. split; [done | lia]. }
  { intros Hin. destruct (Hin8 _ Hin) as [Heq|(t & tl & Heq & Hlt)].
    - apply (f_equal (@length Z)) in Heq. unfold body in Heq.
      cbn [length] in Heq. rewrite !length_app in Heq. lia.
    - injection Heq as <- _. lia. }
  assert (Hpack : pack (message identifier type content xid)
                  = Returns ((0xe0 + 4) :: body)).
  { unfold pack, message. rewrite pack_object_unfold.
    rewrite (pack_entries_cons "_i" _ _ _ _ pk1 E1 px1 E2 Hk1)
      by (by rewrite pack_scalar, Hx1).
    rewrite (pack_entries_cons "_t" _ _ _ _ pk2 E3 px2 E4 Hk2)
      by (by rewrite pack_scalar, Hx2).
    rewrite (pack_entries_cons "_c" _ _ _ _ pk3 E5 c E6 Hk3 Hx3).
    rewrite (pack_entries_cons "_x" _ _ _ _ pk4 E7 px4 E8 Hk4)
      by (by rewrite pack_scalar, Hx4).
    cbn [pack_entries].
    change (deduplicate _ E8) with (deduplicate ((0xe0 + 4) :: body) E8).
    by rewrite Hded. }
  unfold unpack_pack. rewrite Hpack. unfold unpack. cbn [length].
  rewrite unpack_object_counted by lia.
  change (Z.to_nat 4) with 4%nat. unfold body at 2.
  assert (Hfuel : (length c <= length body)%nat).
  { unfold body. rewrite !length_app. lia. }
  rewrite (unpack_entries_cons _ _ pk1 px1 _ "_i" (VString identifier)
             [] D1 D2 [] (Hu1 _ _) (Hv1 _ _));
    [|done|done|apply not_elem_of_nil].
  rewrite (unpack_entries_cons _ _ pk2 px2 _ "_t" (VInt type)
             D2 D3 D4 _ (Hu2 _ _) (Hv2 _ _)); [|done|done|].
  2: { cbn. intros Hin. rewrite !elem_of_cons, elem_of_nil in Hin.
       intuition discriminate. }
  rewrite (unpack_entries_cons _ _ pk3 c _ "_c" content
             D4 D5 D6 _ (Hu3 _ _) (Hv3 _ _ Hfuel)); [|done|done|].
  2: { cbn. intros Hin. rewrite !elem_of_cons, elem_of_nil in Hin.
       intuition discriminate. }
  rewrite (unpack_entries_cons _ _ pk4 px4 _ "_x" (VInt xid)
             D6 D7 D8 _ (Hu4 _ _) (Hv4 _ _)); [|done|done|].
  2: { cbn. intros Hin. rewrite !elem_of_cons, elem_of_nil in Hin.
       intuition discriminate. }
  reflexivity.
Qed.

(** X25: an empty string shifts the references that come after it.  For a
    scalar [x] whose encoding has more than one byte (a string or byte
    string that is not empty, an integer from 40), [unpack(pack(["", x,
    x]))] is [["", x, ""]]: [pack] does not put the one byte of the empty
    string into its object list and writes the reference 0 for the second
    [x], while [_unpack] puts the empty string into its list, at place 0. *)
Theorem empty_string_shifts_references (x : value) :
  scalar x = true -> 1 < len (encode x) ->
  pack (VArray [VString ""; x; x])
  = Returns (0xd3 :: 0x40 :: encode x ++ [0xa0]) /\
  unpack_pack (VArray [VString ""; x; x])
  = Done (VArray [VString ""; x; VString ""], []).
Proof.
  intros Hs Hlong.
  assert (Hpool : pool_entry (encode x) = [encode x]).
  { unfold pool_entry. by destruct (Z.ltb_spec 1 (len (encode x))); [|lia]. }
  assert (Hp2 : _pack x [] = Returns (encode x, [encode x])).
  { rewrite pack_scalar by done.
    by rewrite deduplicate_fresh, Hpool by apply not_elem_of_nil. }
  assert (Hp3 : _pack x [encode x] = Returns ([0xa0], [encode x])).
  { rewrite pack_scalar by done.
    rewrite (deduplicate_found _ _ 0); [done| |done].
    unfold findInObjectList. cbn [findInObjectList_from].
    by rewrite bool_decide_eq_true_2. }
  assert (Hp : pack (VArray [VString ""; x; x])
               = Returns (0xd3 :: 0x40 :: encode x ++ [0xa0])).
  { unfold pack. rewrite pack_array_unfold. cbn [pack_items].
    change (_pack (VString "") []) with (Returns ([0x40], @nil Buffer)).
    cbv beta iota. rewrite Hp2, Hp3.
    change (deduplicate _ [encode x])
      with (deduplicate (0xd3 :: 0x40 :: encode x ++ [0xa0] ++ [])
              [encode x]).
    rewrite app_nil_r. rewrite deduplicate_fresh; [done|].
    intros Hin%list_elem_of_singleton.
    destruct (scalar_head x Hs) as (t & tl & Hh & _ & Hlt).
    rewrite Hh in Hin. injection Hin as <- _. lia. }
  split; [done|].
  unfold unpack_pack. rewrite Hp. unfold unpack.
  change 0xd3 with (0xd0 + 3). rewrite unpack_array_counted by lia.
  change (Z.to_nat 3) with 3%nat. cbn [length unpack_items].
  change (0x40 :: encode x ++ [0xa0])
    with (packString "" ++ encode x ++ [0xa0]).
  rewrite unpack_encode_string by (cbn; lia).
  unfold finish at 1. cbn [includes existsb andb negb app].
  rewrite unpack_scalar by done.
  destruct (Z.ltb_spec 1 (len (encode x))); [|lia].
  assert (Hninc : includes [VString ""] x = false).
  { unfold includes. cbn [existsb]. rewrite orb_false_r.
    destruct x; try done. cbn [same_value_zero].
    apply bool_decide_eq_false_2. intros <-. by cbn in Hs. }
  unfold finish at 1. rewrite Hninc. cbn [andb negb app].
  change [0xa0] with (reference 0 ++ []).
  rewrite unpack_reference by lia. done.
Qed.

(** X26: there are payloads on which the decoder does not come to an end.
    An object with the tag EF is read up to the end mark 03.  When its
    properties (here: scalar properties) are followed by the lone byte 61,
    the tag of a string whose length byte is missing, that byte is decoded
    as the empty string with the whole input as the rest, so the loop
    [while (ptr[0] !== 0x03)] makes no progress: it sets the property with
    the empty name again and again.  No amount of fuel gives a result. *)
Theorem decoder_can_loop_forever (entries : list (string * value))
    (fuel : nat) (objectList : list value) :
  Forall (fun kv => scalar_entry kv = true) entries ->
  _unpack fuel (0xef :: concat (entry_parts entries) ++ [0x61]) objectList
  = OutOfFuel.
Proof.
  intros Hentries. destruct fuel as [|fuel]; [done|].
  rewrite unpack_object_sentinel.
  assert (Hnot : bool_decide (at_index [0x61] 0 = Some 3) = false) by done.
  assert (Hstep : forall fuel' ol, exists ol',
    _unpack (S fuel') [0x61] ol = Done (VString "", [0x61], ol')).
  { intros fuel' ol. change [0x61] with [0x60 + 1] at 1.
    rewrite unpack_string_tag by lia. rewrite readUIntLE_1. by eexists. }
  assert (Hlone : forall n objectList output,
    unpack_entries_until (_unpack fuel) n [0x61] objectList output
    = OutOfFuel).
  { induction n as [|n IH]; intros ol output;
      cbn [unpack_entries_until]; rewrite Hnot; [done|].
    destruct fuel as [|fuel']; [done|]. unfold unpack_entry.
    destruct (Hstep fuel' ol) as (ol1 & ->).
    destruct (Hstep fuel' ol1) as (ol2 & ->).
    rewrite assign_string by done. apply IH. }
  assert (Hloop : forall n objectList output,
    unpack_entries_until (_unpack fuel) n
      (concat (entry_parts entries) ++ [0x61]) objectList output
    = OutOfFuel).
  { clear objectList. induction Hentries as [|[k x] entries Hkx _ IH];
      intros n ol output; [apply Hlone|].
    destruct (scalar_entry_parts k x Hkx) as (Hk & _ & Hproto & Hx).
    cbn [scalar] in Hk. apply andb_true_iff in Hk as [_ Hk].
    apply Z.leb_le in Hk.
    rewrite concat_entry_parts_cons, <- !app_assoc.
    destruct n as [|n]; cbn [unpack_entries_until];
      rewrite head_not_end by apply packString_head; [done|].
    destruct fuel as [|fuel']; [done|].
    unfold unpack_entry. rewrite unpack_encode_string by done.
    unfold finish at 1. rewrite unpack_scalar by done.
    unfold finish at 1. rewrite assign_string by done. apply IH. }
  by rewrite Hloop.
Qed.

(** X28: a property named [__proto__] does not come back.  [pack] writes
    it like every other own property; in [_unpack] the assignment
    [output["__proto__"] = x] runs the setter of [Object.prototype], which
    makes no property and, for an [x] that is neither an object nor [null],
    does nothing at all.  So for an object whose first property is
    [__proto__] with such a scalar [x] (a boolean, an integer, a string)
    and whose other properties are scalar properties, [unpack(pack(...))]
    is the object without that property. *)
Theorem proto_property_is_lost (x : value)
    (entries : list (string * value)) :
  scalar x = true -> prototype_value x = false ->
  flat (VObject entries) = true -> 2 * len entries + 2 <= 0xffff ->
  unpack_pack (VObject (("__proto__", x) :: entries))
  = Done (VObject entries, []).
Proof.
  intros Hs Hpv Hflat Hlen. cbn [flat] in Hflat.
  apply andb_true_iff in Hflat as [Hflat Hnd].
  apply forallb_Forall in Hflat. apply bool_decide_eq_true_1 in Hnd.
  destruct (scalar_step [] [] [] [] (VString "__proto__") pools_nil) as
    (pk & E1 & D1 & pre1 & R1 & Hk & HP1 & Hu & Hh & Hl1 & HR1 & _);
    [done | apply not_elem_of_nil | cbn [length]; lia |].
  rewrite (HR1 eq_refl) in HP1. clear R1 HR1.
  destruct (scalar_step E1 D1 pre1 [] x HP1 Hs) as
    (px & E2 & D2 & pre2 & R2 & Hx & HP2 & Hv & Hg & Hl2 & HR2 & _);
    [apply not_elem_of_nil | cbn [length] in Hl1; lia |].
  rewrite (HR2 eq_refl) in HP2. clear R2 HR2.
  set (all := ("__proto__", x) :: entries).
  set (tag := 0xe0 + Z.min (len all) 0xf).
  destruct (pack_entries_flat entries Hflat E2 D2 pre2
              (([[tag] : Buffer] ++ [pk]) ++ [px]) HP2) as
    (ps & E' & D' & pre' & Hpack & HP' & Hl' & Hcl & Hcount & Huntil);
    [cbn [length] in Hl1; lia|].
  pose proof (Zle_0_nat (length entries)) as Hpos.
  assert (Hall : len all = len entries + 1)
    by (unfold all; cbn [length]; lia).
  set (c := tag :: pk ++ px ++ concat ps
                ++ (if 0xf <=? len all then [3] else [])).
  destruct (container_push E' D' pre' [] c HP') as [Hded _].
  { eexists _, _. split; [done|]. unfold tag. lia. }
  { apply not_elem_of_nil. }
  assert (Hp : pack (VObject all) = Returns c).
  { unfold pack. rewrite pack_object_unfold.
    change (pack_entries all [[0xe0 + Z.min (len all) 0xf]] [])
      with (pack_entries (("__proto__", x) :: entries) [[tag]] []).
    rewrite (pack_entries_cons "__proto__" x entries _ [] pk E1 px E2 Hk)
      by (by rewrite pack_scalar, Hx).
    match goal with
    | |- context [pack_entries entries ?p E2] =>
        replace (pack_entries entries p E2) with (Returns (p ++ ps, E'))
          by (symmetry; exact Hpack)
    end.
    cbv beta iota.
    match goal with
    | |- context [deduplicate (concat ?X) E'] =>
        assert (Hc : concat X = c)
    end.
    { unfold c. destruct (0xf <=? len all).
      - rewrite !concat_app. cbn [concat app].
        by rewrite ?app_nil_r, <- ?app_assoc.
      - rewrite !concat_app. cbn [concat app].
        by rewrite ?app_nil_r, <- ?app_assoc. }
    by rewrite Hc, Hded. }
  unfold unpack_pack. fold all. rewrite Hp. unfold unpack.
  assert (Hfirst : forall fuel rest,
    unpack_entry (_unpack (S fuel)) (pk ++ px ++ rest) [] []
    = Done ([], rest, D2)).
  { intros fuel rest. unfold unpack_entry. rewrite Hu, Hv.
    unfold assign. cbn [js_String].
    rewrite bool_decide_eq_true_2 by done. cbn [obj_has negb andb].
    by rewrite Hpv. }
  unfold c. cbn [length]. unfold tag.
  destruct (Z.leb_spec 0xf (len all)) as [Hbig|Hsmall].
  - rewrite Z.min_r by lia. change (0xe0 + 0xf) with 0xef.
    rewrite unpack_object_sentinel.
    destruct Hh as (t & tl & Hpk & Ht).
    assert (Hfuel : (length entries
                     < length (pk ++ px ++ concat ps ++ [3%Z]))%nat).
    { rewrite !length_app, Hpk. cbn [length]. lia. }
    cbn [unpack_entries_until].
    rewrite head_not_end by (by exists t, tl).
    rewrite Hfirst, Huntil by (done || lia). done.
  - rewrite Z.min_l by lia. rewrite unpack_object_counted by lia.
    rewrite Hall. replace (Z.to_nat (len entries + 1))
      with (S (length entries)) by lia.
    cbn [unpack_entries].
    rewrite Hfirst, Hcount by done. done.
Qed.

End OpackFlatTheorems.

(** ** Device discovery *)

Section MdnsTheorems.
Import Mdns.

(** X27: the table of model names decides nothing.  [isAppleTvModel] says
    yes exactly to the strings that begin with the letter J: every name in
    the table begins with it.  A model such as [AppleTV6,2] is not taken for
    an Apple TV. *)
Theorem isAppleTvModel_first_letter (model : string) :
  (isAppleTvModel model = true <-> exists rest, model = "J" +:+ rest) /\
  isAppleTvModel "AppleTV6,2" = false.
Proof.
  split; [|reflexivity]. unfold isAppleTvModel, startsWith. split.
  - destruct model as [|c rest]; [done|].
    rewrite bool_decide_eq_false_2 by done.
    destruct (String.prefix "J" (String c rest)) eqn:Hp.
    + intros _. cbn [String.prefix] in Hp.
      match type of Hp with
      | context [Ascii.ascii_dec ?a ?b] =>
          destruct (Ascii.ascii_dec a b) as [<-|]; [|done]
      end.
      by exists rest.
    + intros Hin%bool_decide_eq_true_1. unfold APPLE_TV_MODELS in Hin.
      repeat (apply elem_of_cons in Hin as [Hin|Hin];
              [injection Hin as -> ->; by eexists|]).
      by apply elem_of_nil in Hin.
  - intros [rest ->]. change ("J" +:+ rest) with (String (Ascii.ascii_of_N 74) rest).
    rewrite bool_decide_eq_false_2 by done.
    cbn [String.prefix].
    match goal with
    | |- context [Ascii.ascii_dec ?a ?b] =>
        destruct (Ascii.ascii_dec a b); [|done]
    end.
    by destruct rest.
Qed.

End MdnsTheorems.

(** ** The theorems of the dispatcher and of OPACK on concrete inputs *)


(** A request with the counter at 7 whose timer expires. *)
Lemma request_times_out_witness :
  let st := Protocol.new (Connection.fresh None) 7 in
  let r := @Protocol.exchangeOpack Chacha.sample_aead st
             [("_i", Opack.VString "_systemInfo")] FrameType.E_OPACK 5000 in
  Protocol.promises (Protocol.fire_timer r.2 0) !! r.1
  = Some (Protocol.Rejected (Error_ "OPACK exchange timeout for xid 7")).
Proof.
  intros st r.
  destruct (@request_times_out Chacha.sample_aead st
              [("_i", Opack.VString "_systemInfo")] FrameType.E_OPACK 5000)
    as (Hp & _).
  - apply wf_new.
  - reflexivity.
  - exact Hp.
Defined.


(** Two listeners for the event [_iMC], and an event of that name. *)
Lemma listeners_called_in_order_witness :
  let st := Protocol.new (Connection.fresh None) 7 in
  let st1 := Protocol.listenTo (Protocol.listenTo st "_iMC" 1) "_iMC" 2 in
  let content := Opack.VObject [("v", Opack.VInt 5)] in
  let data :=
    Opack.VObject [("_t", Opack.VInt 1); ("_i", Opack.VString "_iMC");
                   ("_c", content)] in
  Protocol.trace
    (@Protocol.handleOpack Opack.sample_float st1 FrameType.E_OPACK data).2
  = [Protocol.CallListener 1 content; Protocol.CallListener 2 content;
     Protocol.Emit (Opack.VString "_iMC") content].
Proof.
  intros st st1 content data.
  destruct (@listeners_called_in_order Opack.sample_float st "_iMC"
              [1%nat; 2%nat] FrameType.E_OPACK data) as (Htrace & _).
  - reflexivity.
  - reflexivity.
  - exact Htrace.
Defined.


(** The bytes of the frame with the reply [{_t: 3, _x: 7}]. *)
Lemma frame_reaches_dispatcher_witness :
  let st := Protocol.new (Connection.fresh None) 7 in
  let p := [0xE2; 0x42; 0x5F; 0x74; 0x0B; 0x42; 0x5F; 0x78; 0x0F] in
  @Receive.socket_data Chacha.sample_aead Opack.sample_float st
    ([8; 0; 0; 9] ++ p)
  = @Protocol.frameReceived Opack.sample_float st 8 p.
Proof.
  intros st p.
  apply (@frame_reaches_dispatcher Chacha.sample_aead Opack.sample_float
           st 8 p).
  - reflexivity.
  - reflexivity.
  - unfold is_byte. lia.
  - reflexivity.
Defined.

(** The event [{_t: 1, _i: "error"}], with four more bytes behind it. *)
Lemma error_event_stops_handler_witness :
  let st := Protocol.new (Connection.fresh None) 7 in
  let payload :=
    [0xE2; 0x42; 0x5F; 0x74; 0x09; 0x42; 0x5F; 0x69; 0x45; 0x65; 0x72; 0x72;
     0x6F; 0x72] in
  exists e st',
    @Receive.socket_data Chacha.sample_aead Opack.sample_float st
      ([8; 0; 0; 14] ++ payload ++ [8; 0; 0; 0])
    = (Opack.Raised e, st') /\
    Connection.buffer (Protocol.connection st') = [8; 0; 0; 0] /\
    Protocol.promises st' = Protocol.promises st.
Proof.
  intros st payload.
  apply (@error_event_stops_handler Chacha.sample_aead Opack.sample_float
           st FrameType.E_OPACK payload [] [8; 0; 0; 0]
           (Opack.VObject [("_t", Opack.VInt 1);
                           ("_i", Opack.VString "error")])).
  - reflexivity.
  - reflexivity.
  - right. left. reflexivity.
  - discriminate.
  - reflexivity.
  - unfold is_bytes.
    repeat (apply Forall_cons; split; [unfold is_byte; lia|]).
    apply Forall_nil_2.
  - reflexivity.
  - reflexivity.
  - reflexivity.
Defined.

(** The reference A2 into an object list of one element. *)
Lemma reference_to_nothing_witness :
  @Opack._unpack Opack.sample_float 1 [0xa2; 1] [Opack.VNull]
  = Opack.Done (Opack.VUndefined, [1], [Opack.VNull]).
Proof.
  apply (@reference_to_nothing Opack.sample_float 2 [1] [Opack.VNull] 0).
  simpl. lia.
Defined.

(** The message with which an event is subscribed to: an array in an object
    in an object, and nothing twice. *)
Lemma unpack_pack_without_repeats_witness :
  let v :=
    Opack.VObject
      [("_i", Opack.VString "_interest"); ("_t", Opack.VInt 1);
       ("_c", Opack.VObject
                [("_regEvents", Opack.VArray [Opack.VString "_iMC"])]);
       ("_x", Opack.VInt 7)] in
  @Opack.unpack_pack Opack.sample_float v = Opack.Done (v, []).
Proof.
  intros v.
  apply (@unpack_pack_without_repeats Opack.sample_float v).
  - reflexivity.
  - apply (bool_decide_unpack _). vm_compute. exact I.
Defined.

(** An array in which a string and a byte string come twice. *)
Lemma flat_round_trip_witness :
  let v :=
    Opack.VArray
      [Opack.VString "abc"; Opack.VInt 300; Opack.VString "abc";
       Opack.VBytes [1; 2]; Opack.VBytes [1; 2]] in
  @Opack.unpack_pack Opack.sample_float v = Opack.Done (v, []).
Proof.
  intros v. apply (@flat_round_trip Opack.sample_float v).
  - reflexivity.
  - vm_compute. discriminate.
Defined.

(** The command of a button press: its identifier is also the name of a
    property of its content. *)
Lemma message_round_trip_witness :
  let content :=
    Opack.VObject [("_hBtS", Opack.VInt 1); ("_hidC", Opack.VInt 6)] in
  @Opack.unpack_pack Opack.sample_float
    (OpackAux.message "_hidC" 2 content 7)
  = Opack.Done (OpackAux.message "_hidC" 2 content 7, []).
Proof.
  intros content.
  apply (proj1 (@message_round_trip Opack.sample_float "_hidC" 2 content 7
                  ltac:(discriminate) ltac:(vm_compute; discriminate)
                  ltac:(vm_compute; split; [discriminate | reflexivity])
                  ltac:(vm_compute; split; [discriminate | reflexivity])
                  eq_refl ltac:(vm_compute; discriminate))).
Defined.

(** The empty string before a string that comes twice. *)
Lemma empty_string_shifts_references_witness :
  @Opack.unpack_pack Opack.sample_float
    (Opack.VArray [Opack.VString ""; Opack.VString "abc";
                   Opack.VString "abc"])
  = Opack.Done (Opack.VArray [Opack.VString ""; Opack.VString "abc";
                              Opack.VString ""], []).
Proof.
  apply (@empty_string_shifts_references Opack.sample_float
           (Opack.VString "abc")).
  - reflexivity.
  - reflexivity.
Defined.

(** The object [{a: 1}] with the tag EF, and 61 where 03 should be. *)
Lemma decoder_can_loop_forever_witness :
  @Opack._unpack Opack.sample_float 1000 [0xef; 0x41; 0x61; 0x09; 0x61] []
  = Opack.OutOfFuel.
Proof.
  apply (@decoder_can_loop_forever Opack.sample_float
           [("a", Opack.VInt 1)] 1000 []).
  repeat constructor.
Defined.

(** The object [{__proto__: 5, a: 1}]. *)
Lemma proto_property_is_lost_witness :
  @Opack.unpack_pack Opack.sample_float
    (Opack.VObject [("__proto__", Opack.VInt 5); ("a", Opack.VInt 1)])
  = Opack.Done (Opack.VObject [("a", Opack.VInt 1)], []).
Proof.
  apply (@proto_property_is_lost Opack.sample_float (Opack.VInt 5)
           [("a", Opack.VInt 1)]).
  - reflexivity.
  - reflexivity.
  - reflexivity.
  - vm_compute. discriminate.
Defined.
